(** * recc: command parsing, dependency discovery and action construction

    A shallow embedding of the parts of recc (the remote-execution compiler
    wrapper) that its specification makes claims about:

    - [StdString], [SSet] : the operations of [std::string] and
      [std::set<std::string>] that the code uses
    - [FileUtils]     : src/src/fileutils.cpp (path prefixes, segments,
      rewriting of paths for the remote)
    - [MakeRules]     : src/src/deps.cpp, the scanner of make rules
    - [Parser]        : src/src/parsedcommand.cpp and
      src/src/parsedcommandfactory.cpp (rule tables, option matching, the
      parse functions and the factory)
    - [Deps]          : src/src/deps.cpp (products and file information)
    - [Proto]         : the Command and Action messages and their wire form
    - [ActionBuilder] : src/src/actionbuilder.cpp

    C++ strings are [string] (a sequence of 8-bit characters), [std::set] of
    strings is a strictly ascending list ([sset]), exceptions and undefined
    behaviour are explicit outcomes.  The file system, the subprocesses and
    the buildboxcommon library are records of functions ([Host],
    [DepsTools], [BuildTools]); the environment of the process is the
    record [ProcessEnv]. *)

From Stdlib Require Import String Ascii List ZArith NArith Lia Bool Arith.
From Stdlib Require Import Sorted.
Import ListNotations.

Open Scope string_scope.
Open Scope list_scope.

(** [a +++ b] is [a + b] on [std::string]. *)
Notation "a +++ b" := (String.append a b) (at level 60, right associativity).

Set Implicit Arguments.

(* ================================================================== *)
(** ** Outcomes of C++ computations *)

(** The exceptions the modelled code throws. *)
Inductive exn : Type :=
| LogicError        (* std::logic_error *)
| OutOfRange        (* std::out_of_range *)
| InvalidArgument   (* std::invalid_argument *)
| RuntimeError      (* std::runtime_error *)
| SystemError       (* std::system_error *)
| SubprocessFailed (exit_code : Z).   (* recc::subprocess_failed_error *)

(** A call returns a value, throws, runs into undefined behaviour (reading
    the front of an empty list, reading before a buffer), or, for the loops
    modelled with fuel, exhausts its fuel. *)
Inductive outcome (A : Type) : Type :=
| Ret (a : A)
| Throws (e : exn)
| Undefined
| Diverged.

Arguments Ret {A} a.
Arguments Throws {A} e.
Arguments Undefined {A}.
Arguments Diverged {A}.

Definition bind {A B : Type} (m : outcome A) (f : A -> outcome B) : outcome B :=
  match m with
  | Ret a => f a
  | Throws e => Throws e
  | Undefined => Undefined
  | Diverged => Diverged
  end.

Declare Scope outcome_scope.
Delimit Scope outcome_scope with outcome.
Notation "x <- m ;; k" := (bind m (fun x => k))
  (at level 61, m at next level, right associativity) : outcome_scope.
Open Scope outcome_scope.

(* ================================================================== *)
(** ** std::string *)

Module StdString.

Definition slash : ascii := "/"%char.
Definition dot : ascii := "."%char.

(** [s.empty()] *)
Definition empty (s : string) : bool :=
  match s with EmptyString => true | _ => false end.

(** [s.front()] and [s.back()], where the source guards emptiness. *)
Definition front (s : string) : option ascii :=
  match s with EmptyString => None | String c _ => Some c end.

Fixpoint back (s : string) : option ascii :=
  match s with
  | EmptyString => None
  | String c EmptyString => Some c
  | String _ s' => back s'
  end.

Definition front_is (c : ascii) (s : string) : bool :=
  match s with String d _ => Ascii.eqb c d | EmptyString => false end.

(** [s.find(c)]: index of the first occurrence, [None] for [npos]. *)
Fixpoint find (c : ascii) (s : string) : option nat :=
  match s with
  | EmptyString => None
  | String d s' =>
      if Ascii.eqb c d then Some 0
      else match find c s' with Some i => Some (S i) | None => None end
  end.

(** [s.rfind(c)] / [s.find_last_of(c)]: index of the last occurrence. *)
Fixpoint rfind (c : ascii) (s : string) : option nat :=
  match s with
  | EmptyString => None
  | String d s' =>
      match rfind c s' with
      | Some i => Some (S i)
      | None => if Ascii.eqb c d then Some 0 else None
      end
  end.

(** [s.substr(pos)] for a position the source keeps within the string. *)
Definition drop (pos : nat) (s : string) : string :=
  substring pos (String.length s - pos) s.

(** [s.substr(0, n)], which clamps [n] to the length. *)
Definition take (n : nat) (s : string) : string := substring 0 n s.

(** [size_t] arithmetic is modulo 2^64. *)
Definition size_t_modulus : Z := 2 ^ 64.

(** [s.substr(pos)] where [pos] is the result of [size_t] arithmetic:
    throws [std::out_of_range] when [pos > size()]. *)
Definition substr_checked (s : string) (pos : Z) : outcome string :=
  if (pos >? Z.of_nat (String.length s))%Z then Throws OutOfRange
  else Ret (drop (Z.to_nat pos) s).

(** [s += c] *)
Definition push_back (s : string) (c : ascii) : string :=
  s +++ String c EmptyString.

(** [isspace] in the C locale. *)
Definition isspace (c : ascii) : bool :=
  let n := nat_of_ascii c in
  Nat.eqb n 32 || (Nat.leb 9 n && Nat.leb n 13).

(** [s.erase(remove_if(s.begin(), s.end(), ::isspace), s.end())] *)
Fixpoint remove_spaces (s : string) : string :=
  match s with
  | EmptyString => EmptyString
  | String c s' =>
      if isspace c then remove_spaces s' else String c (remove_spaces s')
  end.

(** [strlen(s.c_str())]: the characters before the first NUL. *)
Fixpoint strlen (s : string) : nat :=
  match s with
  | EmptyString => 0
  | String c s' => if Ascii.eqb c zero then 0 else S (strlen s')
  end.

(** [s.c_str()] read as a C string: the characters before the first
    NUL. *)
Fixpoint c_str (s : string) : string :=
  match s with
  | EmptyString => EmptyString
  | String c s' =>
      if Ascii.eqb c zero then EmptyString else String c (c_str s')
  end.

(** [operator<] on strings: lexicographic on unsigned characters. *)
Definition ltb (a b : string) : bool :=
  match String.compare a b with Lt => true | _ => false end.

End StdString.

(* ================================================================== *)
(** ** std::set<std::string> *)

(** A [std::set<std::string>] is kept as the list of its elements in
    iteration order (ascending, without duplicates). *)
Definition sset : Type := list string.

Module SSet.

Fixpoint insert (x : string) (s : sset) : sset :=
  match s with
  | [] => [x]
  | y :: s' =>
      match String.compare x y with
      | Lt => x :: y :: s'
      | Eq => y :: s'
      | Gt => y :: insert x s'
      end
  end.

Fixpoint count (x : string) (s : sset) : bool :=
  match s with
  | [] => false
  | y :: s' => String.eqb x y || count x s'
  end.

Definition of_list (l : list string) : sset :=
  fold_left (fun acc x => insert x acc) l [].

Definition insert_all (l : list string) (s : sset) : sset :=
  fold_left (fun acc x => insert x acc) l s.

Definition is_empty (s : sset) : bool :=
  match s with [] => true | _ => false end.

End SSet.

(* ================================================================== *)
(** ** Configuration and host system *)

(** The process-wide configuration variables of src/src/env.h that the
    modelled functions read. *)
Record Env : Type := {
  RECC_PROJECT_ROOT : string;
  RECC_PREFIX_REPLACEMENT : list (string * string);
  RECC_NO_PATH_REWRITE : bool;
  RECC_DEPS_GLOBAL_PATHS : bool;
  RECC_VERBOSE : bool;
  RECC_FORCE_REMOTE : bool;
  RECC_LINK_METRICS_ONLY : bool;
  RECC_OUTPUT_DIRECTORIES_OVERRIDE : sset;
  RECC_REMOTE_PLATFORM : list (string * string);
  RECC_REAPI_VERSION : string;
  RECC_ACTION_UNCACHEABLE : bool;
  RECC_ACTION_SALT : string;
  RECC_DEPS_DIRECTORY_OVERRIDE : string;
  RECC_DEPS_OVERRIDE : sset;
  RECC_OUTPUT_FILES_OVERRIDE : sset;
  RECC_DEPS_EXCLUDE_PATHS : sset;
  RECC_DEPS_EXTRA_SYMLINKS : sset;
  RECC_WORKING_DIR_PREFIX : string;
  RECC_MAX_THREADS : Z
}.

(** What [lstat] reports about a path, as far as the code looks at it. *)
Record stat : Type := {
  st_is_lnk : bool;    (* S_ISLNK(st_mode) *)
  st_is_reg : bool;    (* S_ISREG(st_mode) *)
  st_is_xusr : bool    (* st_mode & S_IXUSR *)
}.

(** The file system and the buildboxcommon helpers the code calls.  They are
    not part of the repository; every definition below is parametric in
    them. *)
Record Host : Type := {
  (* buildboxcommon::FileUtils::normalizePath *)
  normalizePath : string -> string;
  (* buildboxcommon::FileUtils::makePathRelative; [None] when it throws
     std::runtime_error *)
  makePathRelative : string -> string -> option string;
  (* buildboxcommon::FileUtils::isDirectory / isRegularFile / isSymlink *)
  isDirectory : string -> bool;
  isRegularFile : string -> bool;
  isSymlinkPath : string -> bool;
  (* buildboxcommon::SystemUtils::getPathToCommand *)
  getPathToCommand : string -> string;
  (* lstat(2) and readlink(2); [None] is a negative return code *)
  sys_lstat : string -> option stat;
  sys_readlink : string -> option string;
  (* the platform the binary was built for: [#ifdef __sun] *)
  built_for_sun : bool;
  (* [#ifdef RECC_PLATFORM_COMPILER] *)
  platform_compiler : option string;
  (* the name buildboxcommon::TemporaryFile gives the AIX dependency file *)
  aix_temporary_file : string
}.

(* ================================================================== *)
(** ** src/src/fileutils.cpp *)

Module FileUtils.
Import StdString.

(** [FileUtils::hasPathPrefix] *)
Definition hasPathPrefix (path prefix : string) : bool :=
  if empty prefix then false
  else if String.eqb path prefix then true
  else
    let tmpPrefix :=
      match back prefix with
      | Some c => if Ascii.eqb c slash then prefix else push_back prefix slash
      | None => prefix
      end in
    String.eqb (take (String.length tmpPrefix) path) tmpPrefix.

(** [FileUtils::isAbsolutePath] *)
Definition isAbsolutePath (path : string) : bool :=
  negb (empty path) && front_is slash path.

(** [FileUtils::stripDirectory] *)
Definition stripDirectory (path : string) : string :=
  match rfind slash path with
  | None => path
  | Some i => drop (S i) path
  end.

(** [FileUtils::replaceSuffix] *)
Definition replaceSuffix (path suffix : string) : string :=
  let base :=
    match rfind dot path with
    | None => path
    | Some i => take i path
    end in
  base +++ suffix.

(** The loop of [FileUtils::lastNSegments].  [start] is the offset
    [substringStart - path_p]; [substringLength] is an [unsigned int] and
    [slashesSeen] an [int] whose overflow is undefined. *)
Fixpoint lastNSegments_loop (path : string) (n : Z) (start : nat)
         (substringLength : Z) (slashesSeen : Z) : outcome string :=
  match start with
  | O =>
      (* The path might only be one segment (no slashes) *)
      if (slashesSeen =? 0)%Z && (n =? 1)%Z
      then Ret (take (strlen path) path)
      else Throws LogicError
  | S start' =>
      let next (seen : Z) :=
        lastNSegments_loop path n start'
          ((substringLength + 1) mod 2 ^ 32)%Z seen in
      match String.get start' path with
      | Some c =>
          if Ascii.eqb c slash then
            if (slashesSeen + 1 >? 2 ^ 31 - 1)%Z then Undefined
            else if (slashesSeen + 1 =? n)%Z
                 then Ret (substring start (Z.to_nat substringLength) path)
                 else next (slashesSeen + 1)%Z
          else next slashesSeen
      | None => Undefined
      end
  end.

(** [FileUtils::lastNSegments].  An empty path with [n <> 0] reads
    [path_p[-1]], which is undefined. *)
Definition lastNSegments (path : string) (n : Z) : outcome string :=
  if (n =? 0)%Z then Ret ""
  else
    let pathLength := strlen path in
    match pathLength with
    | O => Undefined
    | S last =>
        let substringLength :=
          match String.get last path with
          | Some c => if Ascii.eqb c slash then 0%Z else 1%Z
          | None => 1%Z
          end in
        lastNSegments_loop path n last substringLength 0
    end.

(** The range of [int]; arithmetic that leaves it is undefined. *)
Definition INT_MAX : Z := 2 ^ 31 - 1.
Definition INT_MIN : Z := - 2 ^ 31.

(** The loop of [FileUtils::parentDirectoryLevels]: [path_p] is what is
    left of the C string, [segmentLength] is [slash - path_p].  Every
    iteration moves [path_p] past a slash; [fuel] bounds their number. *)
Fixpoint parentDirectoryLevels_loop (fuel : nat) (path_p : string)
         (currentLevel lowestLevel : Z) : outcome (string * Z * Z) :=
  if empty path_p then Ret (path_p, currentLevel, lowestLevel)
  else
    match find slash path_p with
    | None => Ret (path_p, currentLevel, lowestLevel)
    | Some segmentLength =>
        match fuel with
        | O => Diverged
        | S fuel' =>
            let next := drop (S segmentLength) path_p in
            if Nat.eqb segmentLength 0
               || (Nat.eqb segmentLength 1 && front_is dot path_p)
            then
              (* Empty or dot segments don't change the level. *)
              parentDirectoryLevels_loop fuel' next currentLevel
                lowestLevel
            else if Nat.eqb segmentLength 2 && front_is dot path_p
                    && front_is dot (drop 1 path_p)
            then
              if (currentLevel - 1 <? INT_MIN)%Z then Undefined
              else
                parentDirectoryLevels_loop fuel' next (currentLevel - 1)%Z
                  (Z.min lowestLevel (currentLevel - 1))
            else
              if (currentLevel + 1 >? INT_MAX)%Z then Undefined
              else
                parentDirectoryLevels_loop fuel' next (currentLevel + 1)%Z
                  lowestLevel
        end
    end.

(** [FileUtils::parentDirectoryLevels] *)
Definition parentDirectoryLevels (path : string) : outcome Z :=
  r <- parentDirectoryLevels_loop (String.length path) (c_str path) 0 0 ;;
  let '(path_p, currentLevel, lowestLevel) := r in
  lowestLevel <-
    (if String.eqb path_p ".." then
       if (currentLevel - 1 <? INT_MIN)%Z then Undefined
       else Ret (Z.min lowestLevel (currentLevel - 1))
     else Ret lowestLevel) ;;
  if (lowestLevel =? INT_MIN)%Z then Undefined else Ret (- lowestLevel)%Z.

(** [FileUtils::hasPathPrefixes] *)
Definition hasPathPrefixes (path : string) (pathPrefixes : sset) : bool :=
  existsb (hasPathPrefix path) pathPrefixes.

(** [std::strtok(s, "/")] on what is left of the string: the token and
    what is left after it; [None] is the null pointer. *)
Fixpoint skip_slashes (s : string) : string :=
  match s with
  | String c s' => if Ascii.eqb c slash then skip_slashes s' else s
  | EmptyString => EmptyString
  end.

Definition strtok (s : string) : option (string * string) :=
  let s := skip_slashes s in
  if empty s then None
  else match find slash s with
       | None => Some (s, "")
       | Some i => Some (take i s, drop (S i) s)
       end.

(** [FileUtils::parseDirectories]; every token takes a character at
    least, so the length of the path bounds the iterations. *)
Fixpoint parseDirectories_loop (fuel : nat) (rest : string)
         (result : list string) : outcome (list string) :=
  match strtok rest with
  | None => Ret result
  | Some (token, rest') =>
      match fuel with
      | O => Diverged
      | S fuel' => parseDirectories_loop fuel' rest' (result ++ [token])
      end
  end.

Definition parseDirectories (path : string) : outcome (list string) :=
  parseDirectories_loop (String.length path) (c_str path) [].

Section WithHost.
Variable h : Host.
Variable env : Env.

(** [FileUtils::resolvePathFromPrefixMap] *)
Fixpoint resolve_in (path : string) (m : list (string * string)) : string :=
  match m with
  | [] => path
  | (from, to) :: m' =>
      if hasPathPrefix path from then
        let replaced_path :=
          to +++ String slash (drop (String.length from) path) in
        normalizePath h replaced_path
      else resolve_in path m'
  end.

Definition resolvePathFromPrefixMap (path : string) : string :=
  match RECC_PREFIX_REPLACEMENT env with
  | [] => path
  | m => resolve_in path m
  end.

(** [FileUtils::rewritePathToRelative] *)
Definition rewritePathToRelative (path workingDirectory : string)
  : outcome string :=
  if negb (RECC_NO_PATH_REWRITE env)
     && hasPathPrefix path (RECC_PROJECT_ROOT env)
  then match makePathRelative h path workingDirectory with
       | Some relative => Ret relative
       | None => Throws RuntimeError
       end
  else Ret path.

(** [FileUtils::modifyPathForRemote] *)
Definition modifyPathForRemote (path workingDirectory : string)
           (normalize : bool) : outcome string :=
  let replacedPath := resolvePathFromPrefixMap path in
  replacedPath <- rewritePathToRelative replacedPath workingDirectory ;;
  if normalize && negb (RECC_NO_PATH_REWRITE env)
  then Ret (normalizePath h replacedPath)
  else Ret replacedPath.

(** [FileUtils::getStat] with [followSymlinks = false] *)
Definition getStat_nofollow (path : string) : outcome stat :=
  if empty path then Throws RuntimeError
  else match sys_lstat h path with
       | None => Throws SystemError
       | Some st => Ret st
       end.

(** [FileUtils::getSymlinkContents] *)
Definition getSymlinkContents (path : string) (statResult : stat)
  : outcome string :=
  if empty path then Throws RuntimeError
  else if negb (st_is_lnk statResult) then Throws RuntimeError
  else match sys_readlink h path with
       | None => Throws RuntimeError
       | Some contents => Ret contents
       end.

(** [FileUtils::resolveSymlink] *)
Definition resolveSymlink (path : string) : outcome string :=
  st <- getStat_nofollow path ;;
  target <- getSymlinkContents path st ;;
  if isAbsolutePath target then Ret target
  else
    let dirname :=
      match rfind slash path with
      | None => ""
      | Some lastSlash => take (S lastSlash) path
      end in
    Ret (dirname +++ target).

End WithHost.

End FileUtils.

(* ================================================================== *)
(** ** src/src/deps.cpp: make rules *)

Module MakeRules.
Import StdString.

Definition backslash : ascii := "\"%char.
Definition colon : ascii := ":"%char.
Definition newline : ascii := "010"%char.
Definition space : ascii := " "%char.

(** The local variables of [Deps::dependencies_from_make_rules]. *)
Record state : Type := {
  result : sset;
  saw_colon_on_line : bool;
  saw_backslash : bool;
  current_filename : string
}.

Definition initial : state :=
  {| result := []; saw_colon_on_line := false; saw_backslash := false;
     current_filename := "" |}.

(** [if (!current_filename.empty()) result.insert(current_filename);] *)
Definition flush (st : state) : sset :=
  if empty (current_filename st) then result st
  else SSet.insert (current_filename st) (result st).

(** One iteration of the loop over the characters of [rules]. *)
Definition step (is_sun_format : bool) (st : state) (character : ascii)
  : state :=
  if saw_backslash st then
    {| result := result st;
       saw_colon_on_line := saw_colon_on_line st;
       saw_backslash := false;
       current_filename :=
         if negb (Ascii.eqb character newline) && saw_colon_on_line st
         then push_back (current_filename st) character
         else current_filename st |}
  else if Ascii.eqb character backslash then
    {| result := result st;
       saw_colon_on_line := saw_colon_on_line st;
       saw_backslash := true;
       current_filename := current_filename st |}
  else if Ascii.eqb character colon && negb (saw_colon_on_line st) then
    {| result := result st;
       saw_colon_on_line := true;
       saw_backslash := false;
       current_filename := current_filename st |}
  else if Ascii.eqb character newline then
    {| result := flush st;
       saw_colon_on_line := false;
       saw_backslash := false;
       current_filename := "" |}
  else if Ascii.eqb character space then
    if is_sun_format then
      {| result := result st;
         saw_colon_on_line := saw_colon_on_line st;
         saw_backslash := false;
         current_filename :=
           if negb (empty (current_filename st)) && saw_colon_on_line st
           then push_back (current_filename st) character
           else current_filename st |}
    else
      {| result := flush st;
         saw_colon_on_line := saw_colon_on_line st;
         saw_backslash := false;
         current_filename := "" |}
  else if saw_colon_on_line st then
    {| result := result st;
       saw_colon_on_line := true;
       saw_backslash := false;
       current_filename := push_back (current_filename st) character |}
  else st.

(** [for (const char &character : rules) ...] *)
Fixpoint run (is_sun_format : bool) (rules : string) (st : state) : state :=
  match rules with
  | EmptyString => st
  | String character rest =>
      run is_sun_format rest (step is_sun_format st character)
  end.

(** [Deps::dependencies_from_make_rules] *)
Definition dependencies_from_make_rules (rules : string)
           (is_sun_format : bool) : sset :=
  flush (run is_sun_format rules initial).

(** *** Well-formed GNU Make rules and their layouts *)


Fixpoint all_chars (p : ascii -> bool) (s : string) : bool :=
  match s with
  | EmptyString => true
  | String c s' => p c && all_chars p s'
  end.



(** The material between two file names: spaces and backslash-newline
    continuations. *)
Inductive gap_unit : Type := Blank | Continuation.

Definition gap : Type := list gap_unit.

Definition render_unit (u : gap_unit) : string :=
  match u with
  | Blank => String space EmptyString
  | Continuation => String backslash (String newline EmptyString)
  end.

Fixpoint render_gap (g : gap) : string :=
  match g with
  | [] => ""
  | u :: g' => render_unit u +++ render_gap g'
  end.


(** The body of a rule: each dependency preceded by its gap. *)
Fixpoint render_body (body : list (gap * string)) : string :=
  match body with
  | [] => ""
  | (g, f) :: body' => render_gap g +++ f +++ render_body body'
  end.

(** A layout of the dependencies [deps]: the gap before the first name is
    free, every later one separates. *)
Record layout : Type := {
  lead : gap;
  seps : list gap;
  trail : gap;
  final_newline : bool
}.


Definition render (target : string) (deps : list string) (l : layout)
  : string :=
  target +++ String colon
    (render_body (combine (lead l :: seps l) deps)
     +++ render_gap (trail l)
     +++ (if final_newline l then String newline EmptyString else "")).

End MakeRules.

(* ================================================================== *)
(** ** src/src/parsedcommand.h: the ParsedCommand class *)

#[local] Set Primitive Projections.

(** The data members of [class ParsedCommand].  [d_originalCommand] is the
    [std::list] the parser consumes from the front; [d_dependencyFileAIX]
    holds the name of the temporary file when there is one. *)
Record ParsedCommand : Type := {
  d_compilerCommand : bool;
  d_linkerCommand : bool;
  d_md_option_set : bool;
  d_qmakedep_option_set : bool;
  d_coverage_option_set : bool;
  d_split_dwarf_option_set : bool;
  d_isGcc : bool;
  d_isClang : bool;
  d_isSunStudio : bool;
  d_producesSunMakeRules : bool;
  d_containsUnsupportedOptions : bool;
  d_upload_all_include_dirs : bool;
  d_bstatic : bool;
  d_compiler : string;
  d_originalCommand : list string;
  d_defaultDepsCommand : list string;
  d_preProcessorOptions : list string;
  d_command : list string;
  d_dependenciesCommand : list string;
  d_inputFiles : list string;
  d_auxInputFiles : list string;
  d_libraryDirs : list string;
  d_rpathLinkDirs : list string;
  d_rpathDirs : list string;
  d_defaultLibraryDirs : list string;
  d_libraries : sset;
  d_staticLibraries : sset;
  d_commandProducts : sset;
  d_commandDepsProducts : sset;
  d_commandCoverageProducts : sset;
  d_includeDirs : sset;
  d_dependencyFileAIX : option string;
  d_bstaticStack : list bool
}.

#[local] Unset Primitive Projections.

(** Assignments to single data members. *)
Definition set_compilerCommand (v : bool) (c : ParsedCommand)
  : ParsedCommand :=
  Build_ParsedCommand v (d_linkerCommand c) (d_md_option_set c)
    (d_qmakedep_option_set c) (d_coverage_option_set c)
    (d_split_dwarf_option_set c) (d_isGcc c) (d_isClang c) (d_isSunStudio c)
    (d_producesSunMakeRules c) (d_containsUnsupportedOptions c)
    (d_upload_all_include_dirs c) (d_bstatic c) (d_compiler c)
    (d_originalCommand c) (d_defaultDepsCommand c) (d_preProcessorOptions c)
    (d_command c) (d_dependenciesCommand c) (d_inputFiles c)
    (d_auxInputFiles c) (d_libraryDirs c) (d_rpathLinkDirs c) (d_rpathDirs c)
    (d_defaultLibraryDirs c) (d_libraries c) (d_staticLibraries c)
    (d_commandProducts c) (d_commandDepsProducts c)
    (d_commandCoverageProducts c) (d_includeDirs c) (d_dependencyFileAIX c)
    (d_bstaticStack c).

Definition set_linkerCommand (v : bool) (c : ParsedCommand)
  : ParsedCommand :=
  Build_ParsedCommand (d_compilerCommand c) v (d_md_option_set c)
    (d_qmakedep_option_set c) (d_coverage_option_set c)
    (d_split_dwarf_option_set c) (d_isGcc c) (d_isClang c) (d_isSunStudio c)
    (d_producesSunMakeRules c) (d_containsUnsupportedOptions c)
    (d_upload_all_include_dirs c) (d_bstatic c) (d_compiler c)
    (d_originalCommand c) (d_defaultDepsCommand c) (d_preProcessorOptions c)
    (d_command c) (d_dependenciesCommand c) (d_inputFiles c)
    (d_auxInputFiles c) (d_libraryDirs c) (d_rpathLinkDirs c) (d_rpathDirs c)
    (d_defaultLibraryDirs c) (d_libraries c) (d_staticLibraries c)
    (d_commandProducts c) (d_commandDepsProducts c)
    (d_commandCoverageProducts c) (d_includeDirs c) (d_dependencyFileAIX c)
    (d_bstaticStack c).

Definition set_md_option_set (v : bool) (c : ParsedCommand)
  : ParsedCommand :=
  Build_ParsedCommand (d_compilerCommand c) (d_linkerCommand c) v
    (d_qmakedep_option_set c) (d_coverage_option_set c)
    (d_split_dwarf_option_set c) (d_isGcc c) (d_isClang c) (d_isSunStudio c)
    (d_producesSunMakeRules c) (d_containsUnsupportedOptions c)
    (d_upload_all_include_dirs c) (d_bstatic c) (d_compiler c)
    (d_originalCommand c) (d_defaultDepsCommand c) (d_preProcessorOptions c)
    (d_command c) (d_dependenciesCommand c) (d_inputFiles c)
    (d_auxInputFiles c) (d_libraryDirs c) (d_rpathLinkDirs c) (d_rpathDirs c)
    (d_defaultLibraryDirs c) (d_libraries c) (d_staticLibraries c)
    (d_commandProducts c) (d_commandDepsProducts c)
    (d_commandCoverageProducts c) (d_includeDirs c) (d_dependencyFileAIX c)
    (d_bstaticStack c).

Definition set_qmakedep_option_set (v : bool) (c : ParsedCommand)
  : ParsedCommand :=
  Build_ParsedCommand (d_compilerCommand c) (d_linkerCommand c)
    (d_md_option_set c) v (d_coverage_option_set c)
    (d_split_dwarf_option_set c) (d_isGcc c) (d_isClang c) (d_isSunStudio c)
    (d_producesSunMakeRules c) (d_containsUnsupportedOptions c)
    (d_upload_all_include_dirs c) (d_bstatic c) (d_compiler c)
    (d_originalCommand c) (d_defaultDepsCommand c) (d_preProcessorOptions c)
    (d_command c) (d_dependenciesCommand c) (d_inputFiles c)
    (d_auxInputFiles c) (d_libraryDirs c) (d_rpathLinkDirs c) (d_rpathDirs c)
    (d_defaultLibraryDirs c) (d_libraries c) (d_staticLibraries c)
    (d_commandProducts c) (d_commandDepsProducts c)
    (d_commandCoverageProducts c) (d_includeDirs c) (d_dependencyFileAIX c)
    (d_bstaticStack c).

Definition set_coverage_option_set (v : bool) (c : ParsedCommand)
  : ParsedCommand :=
  Build_ParsedCommand (d_compilerCommand c) (d_linkerCommand c)
    (d_md_option_set c) (d_qmakedep_option_set c) v
    (d_split_dwarf_option_set c) (d_isGcc c) (d_isClang c) (d_isSunStudio c)
    (d_producesSunMakeRules c) (d_containsUnsupportedOptions c)
    (d_upload_all_include_dirs c) (d_bstatic c) (d_compiler c)
    (d_originalCommand c) (d_defaultDepsCommand c) (d_preProcessorOptions c)
    (d_command c) (d_dependenciesCommand c) (d_inputFiles c)
    (d_auxInputFiles c) (d_libraryDirs c) (d_rpathLinkDirs c) (d_rpathDirs c)
    (d_defaultLibraryDirs c) (d_libraries c) (d_staticLibraries c)
    (d_commandProducts c) (d_commandDepsProducts c)
    (d_commandCoverageProducts c) (d_includeDirs c) (d_dependencyFileAIX c)
    (d_bstaticStack c).

Definition set_split_dwarf_option_set (v : bool) (c : ParsedCommand)
  : ParsedCommand :=
  Build_ParsedCommand (d_compilerCommand c) (d_linkerCommand c)
    (d_md_option_set c) (d_qmakedep_option_set c) (d_coverage_option_set c) v
    (d_isGcc c) (d_isClang c) (d_isSunStudio c) (d_producesSunMakeRules c)
    (d_containsUnsupportedOptions c) (d_upload_all_include_dirs c)
    (d_bstatic c) (d_compiler c) (d_originalCommand c)
    (d_defaultDepsCommand c) (d_preProcessorOptions c) (d_command c)
    (d_dependenciesCommand c) (d_inputFiles c) (d_auxInputFiles c)
    (d_libraryDirs c) (d_rpathLinkDirs c) (d_rpathDirs c)
    (d_defaultLibraryDirs c) (d_libraries c) (d_staticLibraries c)
    (d_commandProducts c) (d_commandDepsProducts c)
    (d_commandCoverageProducts c) (d_includeDirs c) (d_dependencyFileAIX c)
    (d_bstaticStack c).

Definition set_containsUnsupportedOptions (v : bool) (c : ParsedCommand)
  : ParsedCommand :=
  Build_ParsedCommand (d_compilerCommand c) (d_linkerCommand c)
    (d_md_option_set c) (d_qmakedep_option_set c) (d_coverage_option_set c)
    (d_split_dwarf_option_set c) (d_isGcc c) (d_isClang c) (d_isSunStudio c)
    (d_producesSunMakeRules c) v (d_upload_all_include_dirs c) (d_bstatic c)
    (d_compiler c) (d_originalCommand c) (d_defaultDepsCommand c)
    (d_preProcessorOptions c) (d_command c) (d_dependenciesCommand c)
    (d_inputFiles c) (d_auxInputFiles c) (d_libraryDirs c)
    (d_rpathLinkDirs c) (d_rpathDirs c) (d_defaultLibraryDirs c)
    (d_libraries c) (d_staticLibraries c) (d_commandProducts c)
    (d_commandDepsProducts c) (d_commandCoverageProducts c) (d_includeDirs c)
    (d_dependencyFileAIX c) (d_bstaticStack c).

Definition set_upload_all_include_dirs (v : bool) (c : ParsedCommand)
  : ParsedCommand :=
  Build_ParsedCommand (d_compilerCommand c) (d_linkerCommand c)
    (d_md_option_set c) (d_qmakedep_option_set c) (d_coverage_option_set c)
    (d_split_dwarf_option_set c) (d_isGcc c) (d_isClang c) (d_isSunStudio c)
    (d_producesSunMakeRules c) (d_containsUnsupportedOptions c) v
    (d_bstatic c) (d_compiler c) (d_originalCommand c)
    (d_defaultDepsCommand c) (d_preProcessorOptions c) (d_command c)
    (d_dependenciesCommand c) (d_inputFiles c) (d_auxInputFiles c)
    (d_libraryDirs c) (d_rpathLinkDirs c) (d_rpathDirs c)
    (d_defaultLibraryDirs c) (d_libraries c) (d_staticLibraries c)
    (d_commandProducts c) (d_commandDepsProducts c)
    (d_commandCoverageProducts c) (d_includeDirs c) (d_dependencyFileAIX c)
    (d_bstaticStack c).

Definition set_bstatic (v : bool) (c : ParsedCommand)
  : ParsedCommand :=
  Build_ParsedCommand (d_compilerCommand c) (d_linkerCommand c)
    (d_md_option_set c) (d_qmakedep_option_set c) (d_coverage_option_set c)
    (d_split_dwarf_option_set c) (d_isGcc c) (d_isClang c) (d_isSunStudio c)
    (d_producesSunMakeRules c) (d_containsUnsupportedOptions c)
    (d_upload_all_include_dirs c) v (d_compiler c) (d_originalCommand c)
    (d_defaultDepsCommand c) (d_preProcessorOptions c) (d_command c)
    (d_dependenciesCommand c) (d_inputFiles c) (d_auxInputFiles c)
    (d_libraryDirs c) (d_rpathLinkDirs c) (d_rpathDirs c)
    (d_defaultLibraryDirs c) (d_libraries c) (d_staticLibraries c)
    (d_commandProducts c) (d_commandDepsProducts c)
    (d_commandCoverageProducts c) (d_includeDirs c) (d_dependencyFileAIX c)
    (d_bstaticStack c).

Definition set_originalCommand (v : list string) (c : ParsedCommand)
  : ParsedCommand :=
  Build_ParsedCommand (d_compilerCommand c) (d_linkerCommand c)
    (d_md_option_set c) (d_qmakedep_option_set c) (d_coverage_option_set c)
    (d_split_dwarf_option_set c) (d_isGcc c) (d_isClang c) (d_isSunStudio c)
    (d_producesSunMakeRules c) (d_containsUnsupportedOptions c)
    (d_upload_all_include_dirs c) (d_bstatic c) (d_compiler c) v
    (d_defaultDepsCommand c) (d_preProcessorOptions c) (d_command c)
    (d_dependenciesCommand c) (d_inputFiles c) (d_auxInputFiles c)
    (d_libraryDirs c) (d_rpathLinkDirs c) (d_rpathDirs c)
    (d_defaultLibraryDirs c) (d_libraries c) (d_staticLibraries c)
    (d_commandProducts c) (d_commandDepsProducts c)
    (d_commandCoverageProducts c) (d_includeDirs c) (d_dependencyFileAIX c)
    (d_bstaticStack c).

Definition set_preProcessorOptions (v : list string) (c : ParsedCommand)
  : ParsedCommand :=
  Build_ParsedCommand (d_compilerCommand c) (d_linkerCommand c)
    (d_md_option_set c) (d_qmakedep_option_set c) (d_coverage_option_set c)
    (d_split_dwarf_option_set c) (d_isGcc c) (d_isClang c) (d_isSunStudio c)
    (d_producesSunMakeRules c) (d_containsUnsupportedOptions c)
    (d_upload_all_include_dirs c) (d_bstatic c) (d_compiler c)
    (d_originalCommand c) (d_defaultDepsCommand c) v (d_command c)
    (d_dependenciesCommand c) (d_inputFiles c) (d_auxInputFiles c)
    (d_libraryDirs c) (d_rpathLinkDirs c) (d_rpathDirs c)
    (d_defaultLibraryDirs c) (d_libraries c) (d_staticLibraries c)
    (d_commandProducts c) (d_commandDepsProducts c)
    (d_commandCoverageProducts c) (d_includeDirs c) (d_dependencyFileAIX c)
    (d_bstaticStack c).

Definition set_command (v : list string) (c : ParsedCommand)
  : ParsedCommand :=
  Build_ParsedCommand (d_compilerCommand c) (d_linkerCommand c)
    (d_md_option_set c) (d_qmakedep_option_set c) (d_coverage_option_set c)
    (d_split_dwarf_option_set c) (d_isGcc c) (d_isClang c) (d_isSunStudio c)
    (d_producesSunMakeRules c) (d_containsUnsupportedOptions c)
    (d_upload_all_include_dirs c) (d_bstatic c) (d_compiler c)
    (d_originalCommand c) (d_defaultDepsCommand c) (d_preProcessorOptions c)
    v (d_dependenciesCommand c) (d_inputFiles c) (d_auxInputFiles c)
    (d_libraryDirs c) (d_rpathLinkDirs c) (d_rpathDirs c)
    (d_defaultLibraryDirs c) (d_libraries c) (d_staticLibraries c)
    (d_commandProducts c) (d_commandDepsProducts c)
    (d_commandCoverageProducts c) (d_includeDirs c) (d_dependencyFileAIX c)
    (d_bstaticStack c).

Definition set_dependenciesCommand (v : list string) (c : ParsedCommand)
  : ParsedCommand :=
  Build_ParsedCommand (d_compilerCommand c) (d_linkerCommand c)
    (d_md_option_set c) (d_qmakedep_option_set c) (d_coverage_option_set c)
    (d_split_dwarf_option_set c) (d_isGcc c) (d_isClang c) (d_isSunStudio c)
    (d_producesSunMakeRules c) (d_containsUnsupportedOptions c)
    (d_upload_all_include_dirs c) (d_bstatic c) (d_compiler c)
    (d_originalCommand c) (d_defaultDepsCommand c) (d_preProcessorOptions c)
    (d_command c) v (d_inputFiles c) (d_auxInputFiles c) (d_libraryDirs c)
    (d_rpathLinkDirs c) (d_rpathDirs c) (d_defaultLibraryDirs c)
    (d_libraries c) (d_staticLibraries c) (d_commandProducts c)
    (d_commandDepsProducts c) (d_commandCoverageProducts c) (d_includeDirs c)
    (d_dependencyFileAIX c) (d_bstaticStack c).

Definition set_inputFiles (v : list string) (c : ParsedCommand)
  : ParsedCommand :=
  Build_ParsedCommand (d_compilerCommand c) (d_linkerCommand c)
    (d_md_option_set c) (d_qmakedep_option_set c) (d_coverage_option_set c)
    (d_split_dwarf_option_set c) (d_isGcc c) (d_isClang c) (d_isSunStudio c)
    (d_producesSunMakeRules c) (d_containsUnsupportedOptions c)
    (d_upload_all_include_dirs c) (d_bstatic c) (d_compiler c)
    (d_originalCommand c) (d_defaultDepsCommand c) (d_preProcessorOptions c)
    (d_command c) (d_dependenciesCommand c) v (d_auxInputFiles c)
    (d_libraryDirs c) (d_rpathLinkDirs c) (d_rpathDirs c)
    (d_defaultLibraryDirs c) (d_libraries c) (d_staticLibraries c)
    (d_commandProducts c) (d_commandDepsProducts c)
    (d_commandCoverageProducts c) (d_includeDirs c) (d_dependencyFileAIX c)
    (d_bstaticStack c).

Definition set_auxInputFiles (v : list string) (c : ParsedCommand)
  : ParsedCommand :=
  Build_ParsedCommand (d_compilerCommand c) (d_linkerCommand c)
    (d_md_option_set c) (d_qmakedep_option_set c) (d_coverage_option_set c)
    (d_split_dwarf_option_set c) (d_isGcc c) (d_isClang c) (d_isSunStudio c)
    (d_producesSunMakeRules c) (d_containsUnsupportedOptions c)
    (d_upload_all_include_dirs c) (d_bstatic c) (d_compiler c)
    (d_originalCommand c) (d_defaultDepsCommand c) (d_preProcessorOptions c)
    (d_command c) (d_dependenciesCommand c) (d_inputFiles c) v
    (d_libraryDirs c) (d_rpathLinkDirs c) (d_rpathDirs c)
    (d_defaultLibraryDirs c) (d_libraries c) (d_staticLibraries c)
    (d_commandProducts c) (d_commandDepsProducts c)
    (d_commandCoverageProducts c) (d_includeDirs c) (d_dependencyFileAIX c)
    (d_bstaticStack c).

Definition set_libraryDirs (v : list string) (c : ParsedCommand)
  : ParsedCommand :=
  Build_ParsedCommand (d_compilerCommand c) (d_linkerCommand c)
    (d_md_option_set c) (d_qmakedep_option_set c) (d_coverage_option_set c)
    (d_split_dwarf_option_set c) (d_isGcc c) (d_isClang c) (d_isSunStudio c)
    (d_producesSunMakeRules c) (d_containsUnsupportedOptions c)
    (d_upload_all_include_dirs c) (d_bstatic c) (d_compiler c)
    (d_originalCommand c) (d_defaultDepsCommand c) (d_preProcessorOptions c)
    (d_command c) (d_dependenciesCommand c) (d_inputFiles c)
    (d_auxInputFiles c) v (d_rpathLinkDirs c) (d_rpathDirs c)
    (d_defaultLibraryDirs c) (d_libraries c) (d_staticLibraries c)
    (d_commandProducts c) (d_commandDepsProducts c)
    (d_commandCoverageProducts c) (d_includeDirs c) (d_dependencyFileAIX c)
    (d_bstaticStack c).

Definition set_rpathLinkDirs (v : list string) (c : ParsedCommand)
  : ParsedCommand :=
  Build_ParsedCommand (d_compilerCommand c) (d_linkerCommand c)
    (d_md_option_set c) (d_qmakedep_option_set c) (d_coverage_option_set c)
    (d_split_dwarf_option_set c) (d_isGcc c) (d_isClang c) (d_isSunStudio c)
    (d_producesSunMakeRules c) (d_containsUnsupportedOptions c)
    (d_upload_all_include_dirs c) (d_bstatic c) (d_compiler c)
    (d_originalCommand c) (d_defaultDepsCommand c) (d_preProcessorOptions c)
    (d_command c) (d_dependenciesCommand c) (d_inputFiles c)
    (d_auxInputFiles c) (d_libraryDirs c) v (d_rpathDirs c)
    (d_defaultLibraryDirs c) (d_libraries c) (d_staticLibraries c)
    (d_commandProducts c) (d_commandDepsProducts c)
    (d_commandCoverageProducts c) (d_includeDirs c) (d_dependencyFileAIX c)
    (d_bstaticStack c).

Definition set_rpathDirs (v : list string) (c : ParsedCommand)
  : ParsedCommand :=
  Build_ParsedCommand (d_compilerCommand c) (d_linkerCommand c)
    (d_md_option_set c) (d_qmakedep_option_set c) (d_coverage_option_set c)
    (d_split_dwarf_option_set c) (d_isGcc c) (d_isClang c) (d_isSunStudio c)
    (d_producesSunMakeRules c) (d_containsUnsupportedOptions c)
    (d_upload_all_include_dirs c) (d_bstatic c) (d_compiler c)
    (d_originalCommand c) (d_defaultDepsCommand c) (d_preProcessorOptions c)
    (d_command c) (d_dependenciesCommand c) (d_inputFiles c)
    (d_auxInputFiles c) (d_libraryDirs c) (d_rpathLinkDirs c) v
    (d_defaultLibraryDirs c) (d_libraries c) (d_staticLibraries c)
    (d_commandProducts c) (d_commandDepsProducts c)
    (d_commandCoverageProducts c) (d_includeDirs c) (d_dependencyFileAIX c)
    (d_bstaticStack c).

Definition set_defaultLibraryDirs (v : list string) (c : ParsedCommand)
  : ParsedCommand :=
  Build_ParsedCommand (d_compilerCommand c) (d_linkerCommand c)
    (d_md_option_set c) (d_qmakedep_option_set c) (d_coverage_option_set c)
    (d_split_dwarf_option_set c) (d_isGcc c) (d_isClang c) (d_isSunStudio c)
    (d_producesSunMakeRules c) (d_containsUnsupportedOptions c)
    (d_upload_all_include_dirs c) (d_bstatic c) (d_compiler c)
    (d_originalCommand c) (d_defaultDepsCommand c) (d_preProcessorOptions c)
    (d_command c) (d_dependenciesCommand c) (d_inputFiles c)
    (d_auxInputFiles c) (d_libraryDirs c) (d_rpathLinkDirs c) (d_rpathDirs c)
    v (d_libraries c) (d_staticLibraries c) (d_commandProducts c)
    (d_commandDepsProducts c) (d_commandCoverageProducts c) (d_includeDirs c)
    (d_dependencyFileAIX c) (d_bstaticStack c).

Definition set_libraries (v : sset) (c : ParsedCommand)
  : ParsedCommand :=
  Build_ParsedCommand (d_compilerCommand c) (d_linkerCommand c)
    (d_md_option_set c) (d_qmakedep_option_set c) (d_coverage_option_set c)
    (d_split_dwarf_option_set c) (d_isGcc c) (d_isClang c) (d_isSunStudio c)
    (d_producesSunMakeRules c) (d_containsUnsupportedOptions c)
    (d_upload_all_include_dirs c) (d_bstatic c) (d_compiler c)
    (d_originalCommand c) (d_defaultDepsCommand c) (d_preProcessorOptions c)
    (d_command c) (d_dependenciesCommand c) (d_inputFiles c)
    (d_auxInputFiles c) (d_libraryDirs c) (d_rpathLinkDirs c) (d_rpathDirs c)
    (d_defaultLibraryDirs c) v (d_staticLibraries c) (d_commandProducts c)
    (d_commandDepsProducts c) (d_commandCoverageProducts c) (d_includeDirs c)
    (d_dependencyFileAIX c) (d_bstaticStack c).

Definition set_staticLibraries (v : sset) (c : ParsedCommand)
  : ParsedCommand :=
  Build_ParsedCommand (d_compilerCommand c) (d_linkerCommand c)
    (d_md_option_set c) (d_qmakedep_option_set c) (d_coverage_option_set c)
    (d_split_dwarf_option_set c) (d_isGcc c) (d_isClang c) (d_isSunStudio c)
    (d_producesSunMakeRules c) (d_containsUnsupportedOptions c)
    (d_upload_all_include_dirs c) (d_bstatic c) (d_compiler c)
    (d_originalCommand c) (d_defaultDepsCommand c) (d_preProcessorOptions c)
    (d_command c) (d_dependenciesCommand c) (d_inputFiles c)
    (d_auxInputFiles c) (d_libraryDirs c) (d_rpathLinkDirs c) (d_rpathDirs c)
    (d_defaultLibraryDirs c) (d_libraries c) v (d_commandProducts c)
    (d_commandDepsProducts c) (d_commandCoverageProducts c) (d_includeDirs c)
    (d_dependencyFileAIX c) (d_bstaticStack c).

Definition set_commandProducts (v : sset) (c : ParsedCommand)
  : ParsedCommand :=
  Build_ParsedCommand (d_compilerCommand c) (d_linkerCommand c)
    (d_md_option_set c) (d_qmakedep_option_set c) (d_coverage_option_set c)
    (d_split_dwarf_option_set c) (d_isGcc c) (d_isClang c) (d_isSunStudio c)
    (d_producesSunMakeRules c) (d_containsUnsupportedOptions c)
    (d_upload_all_include_dirs c) (d_bstatic c) (d_compiler c)
    (d_originalCommand c) (d_defaultDepsCommand c) (d_preProcessorOptions c)
    (d_command c) (d_dependenciesCommand c) (d_inputFiles c)
    (d_auxInputFiles c) (d_libraryDirs c) (d_rpathLinkDirs c) (d_rpathDirs c)
    (d_defaultLibraryDirs c) (d_libraries c) (d_staticLibraries c) v
    (d_commandDepsProducts c) (d_commandCoverageProducts c) (d_includeDirs c)
    (d_dependencyFileAIX c) (d_bstaticStack c).

Definition set_commandDepsProducts (v : sset) (c : ParsedCommand)
  : ParsedCommand :=
  Build_ParsedCommand (d_compilerCommand c) (d_linkerCommand c)
    (d_md_option_set c) (d_qmakedep_option_set c) (d_coverage_option_set c)
    (d_split_dwarf_option_set c) (d_isGcc c) (d_isClang c) (d_isSunStudio c)
    (d_producesSunMakeRules c) (d_containsUnsupportedOptions c)
    (d_upload_all_include_dirs c) (d_bstatic c) (d_compiler c)
    (d_originalCommand c) (d_defaultDepsCommand c) (d_preProcessorOptions c)
    (d_command c) (d_dependenciesCommand c) (d_inputFiles c)
    (d_auxInputFiles c) (d_libraryDirs c) (d_rpathLinkDirs c) (d_rpathDirs c)
    (d_defaultLibraryDirs c) (d_libraries c) (d_staticLibraries c)
    (d_commandProducts c) v (d_commandCoverageProducts c) (d_includeDirs c)
    (d_dependencyFileAIX c) (d_bstaticStack c).

Definition set_commandCoverageProducts (v : sset) (c : ParsedCommand)
  : ParsedCommand :=
  Build_ParsedCommand (d_compilerCommand c) (d_linkerCommand c)
    (d_md_option_set c) (d_qmakedep_option_set c) (d_coverage_option_set c)
    (d_split_dwarf_option_set c) (d_isGcc c) (d_isClang c) (d_isSunStudio c)
    (d_producesSunMakeRules c) (d_containsUnsupportedOptions c)
    (d_upload_all_include_dirs c) (d_bstatic c) (d_compiler c)
    (d_originalCommand c) (d_defaultDepsCommand c) (d_preProcessorOptions c)
    (d_command c) (d_dependenciesCommand c) (d_inputFiles c)
    (d_auxInputFiles c) (d_libraryDirs c) (d_rpathLinkDirs c) (d_rpathDirs c)
    (d_defaultLibraryDirs c) (d_libraries c) (d_staticLibraries c)
    (d_commandProducts c) (d_commandDepsProducts c) v (d_includeDirs c)
    (d_dependencyFileAIX c) (d_bstaticStack c).

Definition set_includeDirs (v : sset) (c : ParsedCommand)
  : ParsedCommand :=
  Build_ParsedCommand (d_compilerCommand c) (d_linkerCommand c)
    (d_md_option_set c) (d_qmakedep_option_set c) (d_coverage_option_set c)
    (d_split_dwarf_option_set c) (d_isGcc c) (d_isClang c) (d_isSunStudio c)
    (d_producesSunMakeRules c) (d_containsUnsupportedOptions c)
    (d_upload_all_include_dirs c) (d_bstatic c) (d_compiler c)
    (d_originalCommand c) (d_defaultDepsCommand c) (d_preProcessorOptions c)
    (d_command c) (d_dependenciesCommand c) (d_inputFiles c)
    (d_auxInputFiles c) (d_libraryDirs c) (d_rpathLinkDirs c) (d_rpathDirs c)
    (d_defaultLibraryDirs c) (d_libraries c) (d_staticLibraries c)
    (d_commandProducts c) (d_commandDepsProducts c)
    (d_commandCoverageProducts c) v (d_dependencyFileAIX c)
    (d_bstaticStack c).

Definition set_bstaticStack (v : list bool) (c : ParsedCommand)
  : ParsedCommand :=
  Build_ParsedCommand (d_compilerCommand c) (d_linkerCommand c)
    (d_md_option_set c) (d_qmakedep_option_set c) (d_coverage_option_set c)
    (d_split_dwarf_option_set c) (d_isGcc c) (d_isClang c) (d_isSunStudio c)
    (d_producesSunMakeRules c) (d_containsUnsupportedOptions c)
    (d_upload_all_include_dirs c) (d_bstatic c) (d_compiler c)
    (d_originalCommand c) (d_defaultDepsCommand c) (d_preProcessorOptions c)
    (d_command c) (d_dependenciesCommand c) (d_inputFiles c)
    (d_auxInputFiles c) (d_libraryDirs c) (d_rpathLinkDirs c) (d_rpathDirs c)
    (d_defaultLibraryDirs c) (d_libraries c) (d_staticLibraries c)
    (d_commandProducts c) (d_commandDepsProducts c)
    (d_commandCoverageProducts c) (d_includeDirs c) (d_dependencyFileAIX c) v.

(** [ParsedCommand()]: the default constructor. *)
Definition ParsedCommand_default : ParsedCommand :=
  {| d_compilerCommand := false; d_linkerCommand := false;
     d_md_option_set := false; d_qmakedep_option_set := false;
     d_coverage_option_set := false; d_split_dwarf_option_set := false;
     d_isGcc := false; d_isClang := false; d_isSunStudio := false;
     d_producesSunMakeRules := false; d_containsUnsupportedOptions := false;
     d_upload_all_include_dirs := false; d_bstatic := false;
     d_compiler := ""; d_originalCommand := [];
     d_defaultDepsCommand := []; d_preProcessorOptions := [];
     d_command := []; d_dependenciesCommand := []; d_inputFiles := [];
     d_auxInputFiles := []; d_libraryDirs := []; d_rpathLinkDirs := [];
     d_rpathDirs := []; d_defaultLibraryDirs := [];
     d_libraries := []; d_staticLibraries := []; d_commandProducts := [];
     d_commandDepsProducts := []; d_commandCoverageProducts := [];
     d_includeDirs := []; d_dependencyFileAIX := None;
     d_bstaticStack := [] |}.

(** The accessors of the class. *)
Definition is_compiler_command (c : ParsedCommand) : bool :=
  d_compilerCommand c.
Definition is_linker_command (c : ParsedCommand) : bool := d_linkerCommand c.
Definition is_gcc (c : ParsedCommand) : bool := d_isGcc c.
Definition is_clang (c : ParsedCommand) : bool := d_isClang c.
Definition is_sun_studio (c : ParsedCommand) : bool := d_isSunStudio c.
Definition is_AIX (c : ParsedCommand) : bool :=
  match d_dependencyFileAIX c with Some _ => true | None => false end.
Definition get_command (c : ParsedCommand) : list string := d_command c.
Definition get_dependencies_command (c : ParsedCommand) : list string :=
  d_dependenciesCommand c.
Definition get_products (c : ParsedCommand) : sset := d_commandProducts c.
Definition get_deps_products (c : ParsedCommand) : sset :=
  d_commandDepsProducts c.
Definition get_coverage_products (c : ParsedCommand) : sset :=
  d_commandCoverageProducts c.
Definition produces_sun_make_rules (c : ParsedCommand) : bool :=
  d_producesSunMakeRules c.
Definition get_aix_dependency_file_name (c : ParsedCommand) : string :=
  match d_dependencyFileAIX c with Some name => name | None => "" end.

(** The constants of compilerdefaults.h, which the sources include but
    which is not among them: the definitions are parametric in their
    values. *)
Record SupportedCompilers : Type := {
  CCompilers : sset;
  Gcc : sset;
  GccPreprocessor : sset;
  SunCPP : sset;
  AIX : sset;
  GccDefaultDeps : list string;
  SunCPPDefaultDeps : list string;
  AIXDefaultDeps : list string;
  GccSupportedLanguages : sset
}.

(* ================================================================== *)
(** ** src/src/parsedcommandfactory.cpp: rule tables *)

(** The functions of [struct ParseRule] that the rule tables point to. *)
Inductive ParseRuleFn : Type :=
| fn_parseOptionSimple
| fn_parseInterfersWithDepsOption
| fn_parseIsInputPathOption
| fn_parseIsEqualInputPathOption
| fn_parseIsCompileOption
| fn_parseOptionRedirectsOutput
| fn_parseOptionRedirectsDepsOutput
| fn_parseOptionDepsRuleTarget
| fn_parseIsPreprocessorArgOption
| fn_parseIsMacro
| fn_parseOptionSetsGccLanguage
| fn_parseOptionIsUnsupported
| fn_parseOptionCoverageOutput
| fn_parseOptionRedirectsCoverageOutput
| fn_parseOptionSplitDwarf
| fn_parseOptionSolarisPhase
| fn_parseOptionNative
| fn_parseOptionParam
| fn_parseLdLibrary
| fn_parseLdLibraryPath
| fn_parseLdOptionDynamic
| fn_parseLdOptionStatic
| fn_parseLdOptionState
| fn_parseLdOptionEmulation
| fn_parseSolarisLdOptionB
| fn_parseSolarisLdOptionD
| fn_parseSolarisLdOptionY
| fn_parseSolarisLdMapfile.

(** [CompilerParseRulesMap]: a [std::map] ordered by [std::greater], kept
    as the list of its entries in iteration order (descending keys). *)
Definition CompilerParseRulesMap : Type := list (string * ParseRuleFn).

Module RulesMap.

(** Insertion of one entry; an entry whose key is present is ignored, as
    the constructor of [std::map] does. *)
Fixpoint insert (k : string) (f : ParseRuleFn) (m : CompilerParseRulesMap)
  : CompilerParseRulesMap :=
  match m with
  | [] => [(k, f)]
  | (k', f') :: m' =>
      match String.compare k k' with
      | Gt => (k, f) :: (k', f') :: m'
      | Eq => (k', f') :: m'
      | Lt => (k', f') :: insert k f m'
      end
  end.

(** Construction from an initializer list. *)
Definition of_list (l : list (string * ParseRuleFn))
  : CompilerParseRulesMap :=
  fold_left (fun m kf => insert (fst kf) (snd kf) m) l [].

(** [m.count(k) > 0] together with [m.at(k)] *)
Fixpoint lookup (k : string) (m : CompilerParseRulesMap)
  : option ParseRuleFn :=
  match m with
  | [] => None
  | (k', f) :: m' => if String.eqb k k' then Some f else lookup k m'
  end.

Definition keys (m : CompilerParseRulesMap) : list string := map fst m.

End RulesMap.

Definition GccRules : CompilerParseRulesMap := RulesMap.of_list [
    (* Interferes with dependencies *)
    ("-MD", fn_parseInterfersWithDepsOption);
    ("-MMD", fn_parseInterfersWithDepsOption);
    ("-MG", fn_parseInterfersWithDepsOption);
    ("-MP", fn_parseInterfersWithDepsOption);
    ("-MV", fn_parseInterfersWithDepsOption);
    ("-Wmissing-include-dirs", fn_parseInterfersWithDepsOption);
    ("-Werror=missing-include-dirs", fn_parseInterfersWithDepsOption);
    (* Compile options *)
    ("-c", fn_parseIsCompileOption);
    (* Macros *)
    ("-D", fn_parseIsMacro);
    (* Redirects output *)
    ("-o", fn_parseOptionRedirectsOutput);
    ("-MF", fn_parseOptionRedirectsDepsOutput);
    ("-MT", fn_parseOptionDepsRuleTarget);
    ("-MQ", fn_parseOptionDepsRuleTarget);
    (* Coverage options *)
    ("--coverage", fn_parseOptionCoverageOutput);
    ("-ftest-coverage", fn_parseOptionCoverageOutput);
    ("-fprofile-note", fn_parseOptionRedirectsCoverageOutput);
    (* Input paths *)
    ("-include", fn_parseIsInputPathOption);
    ("-imacros", fn_parseIsInputPathOption);
    ("-I", fn_parseIsInputPathOption);
    ("-iquote", fn_parseIsInputPathOption);
    ("-isystem", fn_parseIsInputPathOption);
    ("-idirafter", fn_parseIsInputPathOption);
    ("-iprefix", fn_parseIsInputPathOption);
    ("-isysroot", fn_parseIsInputPathOption);
    ("--sysroot", fn_parseIsEqualInputPathOption);
    (* Preprocessor arguments *)
    ("-Wp,", fn_parseIsPreprocessorArgOption);
    ("-Xpreprocessor", fn_parseIsPreprocessorArgOption);
    (* Sets language *)
    ("-x", fn_parseOptionSetsGccLanguage);
    (* Debug options *)
    ("-gsplit-dwarf", fn_parseOptionSplitDwarf);
    (* Options not supported *)
    ("-fprofile-use", fn_parseOptionIsUnsupported);
    ("-fauto-profile", fn_parseOptionIsUnsupported);
    ("-fbranch-probabilities", fn_parseOptionIsUnsupported);
    ("-specs", fn_parseOptionIsUnsupported);
    ("-M", fn_parseOptionIsUnsupported);
    ("-MM", fn_parseOptionIsUnsupported);
    ("-E", fn_parseOptionIsUnsupported);
    ("-S", fn_parseOptionIsUnsupported);
    ("-save-temps", fn_parseOptionIsUnsupported);
    ("-fdump", fn_parseOptionIsUnsupported);
    ("-march", fn_parseOptionNative);
    ("-mtune", fn_parseOptionNative);
    ("-mcpu", fn_parseOptionNative);
    ("--param", fn_parseOptionParam);
    ("-z", fn_parseOptionParam)
  ].

Definition GccPreprocessorRules : CompilerParseRulesMap := RulesMap.of_list [
    (* Interferes with dependencies *)
    ("-MD", fn_parseInterfersWithDepsOption);
    ("-MMD", fn_parseInterfersWithDepsOption);
    ("-M", fn_parseOptionIsUnsupported);
    ("-MM", fn_parseOptionIsUnsupported);
    ("-MG", fn_parseInterfersWithDepsOption);
    ("-MP", fn_parseInterfersWithDepsOption);
    ("-MV", fn_parseInterfersWithDepsOption);
    (* Redirects output *)
    ("-o", fn_parseOptionRedirectsOutput);
    ("-MF", fn_parseOptionRedirectsDepsOutput);
    ("-MT", fn_parseOptionDepsRuleTarget);
    ("-MQ", fn_parseOptionDepsRuleTarget);
    (* Input paths *)
    ("-include", fn_parseIsInputPathOption);
    ("-imacros", fn_parseIsInputPathOption);
    ("-I", fn_parseIsInputPathOption);
    ("-iquote", fn_parseIsInputPathOption);
    ("-isystem", fn_parseIsInputPathOption);
    ("-idirafter", fn_parseIsInputPathOption);
    ("-iprefix", fn_parseIsInputPathOption);
    ("-isysroot", fn_parseIsInputPathOption);
    ("--sysroot", fn_parseIsEqualInputPathOption)
  ].

Definition SunCPPRules : CompilerParseRulesMap := RulesMap.of_list [
    (* Phase rules *)
    ("-Qoption", fn_parseOptionSolarisPhase);
    (* Interferes with dependencies *)
    ("-xMD", fn_parseInterfersWithDepsOption);
    ("-xMMD", fn_parseInterfersWithDepsOption);
    (* Macros *)
    ("-D", fn_parseIsMacro);
    (* Redirects output *)
    ("-o", fn_parseOptionRedirectsOutput);
    ("-xMF", fn_parseOptionRedirectsDepsOutput);
    (* Input paths *)
    ("-I", fn_parseIsInputPathOption);
    ("-include", fn_parseIsInputPathOption);
    (* Compile options *)
    ("-c", fn_parseIsCompileOption);
    (* Rule needed to avoid substring matching the -xar rule *)
    ("-xarch", fn_parseOptionSimple);
    (* Options not supported *)
    ("-xar", fn_parseOptionIsUnsupported);
    ("-xpch", fn_parseOptionIsUnsupported);
    ("-xprofile", fn_parseOptionIsUnsupported);
    ("-###", fn_parseOptionIsUnsupported);
    ("-xM", fn_parseOptionIsUnsupported);
    ("-xM1", fn_parseOptionIsUnsupported);
    ("-E", fn_parseOptionIsUnsupported);
    ("-S", fn_parseOptionIsUnsupported)
  ].

Definition AixRules : CompilerParseRulesMap := RulesMap.of_list [
    (* Interferes with dependencies *)
    ("-qsyntaxonly", fn_parseInterfersWithDepsOption);
    ("-M", fn_parseInterfersWithDepsOption);
    ("-qmakedep", fn_parseInterfersWithDepsOption);
    ("-qmakedep=gcc", fn_parseInterfersWithDepsOption);
    (* Macros *)
    ("-D", fn_parseIsMacro);
    (* Redirects output *)
    ("-o", fn_parseOptionRedirectsOutput);
    ("-MF", fn_parseOptionRedirectsDepsOutput);
    ("-qexpfile", fn_parseOptionRedirectsOutput);
    (* Input paths *)
    ("-qinclude", fn_parseIsInputPathOption);
    ("-I", fn_parseIsInputPathOption);
    ("-qcinc", fn_parseIsInputPathOption);
    (* Compile options *)
    ("-c", fn_parseIsCompileOption);
    (* Options not supported *)
    ("-#", fn_parseOptionIsUnsupported);
    ("-qshowpdf", fn_parseOptionIsUnsupported);
    ("-qdump_class_hierachy", fn_parseOptionIsUnsupported);
    ("-E", fn_parseOptionIsUnsupported);
    ("-S", fn_parseOptionIsUnsupported)
  ].

Definition LdRules : CompilerParseRulesMap := RulesMap.of_list [
    ("-o", fn_parseOptionRedirectsOutput);
    ("-L", fn_parseLdLibraryPath);
    ("--library-path", fn_parseLdLibraryPath);
    ("-l", fn_parseLdLibrary);
    ("--library", fn_parseLdLibrary);
    ("-rpath-link", fn_parseLdLibraryPath);
    ("--rpath-link", fn_parseLdLibraryPath);
    ("-rpath", fn_parseLdLibraryPath);
    ("--rpath", fn_parseLdLibraryPath);
    ("-R", fn_parseLdLibraryPath);
    ("-Bdynamic", fn_parseLdOptionDynamic);
    ("-dy", fn_parseLdOptionDynamic);
    ("-call_shared", fn_parseLdOptionDynamic);
    ("-Bstatic", fn_parseLdOptionStatic);
    ("-dn", fn_parseLdOptionStatic);
    ("-non_shared", fn_parseLdOptionStatic);
    ("-static", fn_parseLdOptionStatic);
    ("--push-state", fn_parseLdOptionState);
    ("--pop-state", fn_parseLdOptionState);
    ("-m", fn_parseLdOptionEmulation);
    ("-soname", fn_parseOptionParam);
    ("--soname", fn_parseOptionParam);
    ("-z", fn_parseOptionParam);
    (* Options not supported *)
    ("--dependency-file", fn_parseOptionIsUnsupported);
    ("--just-symbols", fn_parseOptionIsUnsupported);
    ("-T", fn_parseOptionIsUnsupported);
    ("--script", fn_parseOptionIsUnsupported);
    ("-dT", fn_parseOptionIsUnsupported);
    ("--default-script", fn_parseOptionIsUnsupported);
    ("-Y", fn_parseOptionIsUnsupported);
    ("--dynamic-list", fn_parseOptionIsUnsupported);
    ("-Map", fn_parseOptionIsUnsupported);
    ("--error-handling-script", fn_parseOptionIsUnsupported);
    ("--out-implib", fn_parseOptionIsUnsupported);
    ("--retain-symbols-file", fn_parseOptionIsUnsupported);
    ("--sysroot", fn_parseOptionIsUnsupported);
    ("--version-script", fn_parseOptionIsUnsupported);
    ("-a", fn_parseOptionIsUnsupported)
  ].

Definition SolarisLdRules : CompilerParseRulesMap := RulesMap.of_list [
    ("-o", fn_parseOptionRedirectsOutput);
    ("-L", fn_parseLdLibraryPath);
    ("--library-path", fn_parseLdLibraryPath);
    ("-l", fn_parseLdLibrary);
    ("--library", fn_parseLdLibrary);
    ("-rpath", fn_parseLdLibraryPath);
    ("-R", fn_parseLdLibraryPath);
    ("-B", fn_parseSolarisLdOptionB);
    ("-d", fn_parseSolarisLdOptionD);
    ("-Y", fn_parseSolarisLdOptionY);
    ("-h", fn_parseOptionParam);
    ("-soname", fn_parseOptionParam);
    ("-z", fn_parseOptionParam);
    ("-u", fn_parseIsMacro);
    ("-M", fn_parseSolarisLdMapfile)
  ].

(* ================================================================== *)
(** ** src/src/parsedcommand.cpp and src/src/parsedcommandfactory.cpp *)

Module Parser.
Import StdString.

(** [std::getline(iss, token, separator)] until the stream fails: the
    pieces between separators, without a final empty piece. *)
Fixpoint getline_tokens (separator : ascii) (s : string) (token : string)
  : list string :=
  match s with
  | EmptyString => if empty token then [] else [token]
  | String c s' =>
      if Ascii.eqb c separator
      then token :: getline_tokens separator s' ""
      else getline_tokens separator s' (push_back token c)
  end.

(** [ParseRuleHelper::parseStageOptionList] *)
Fixpoint parseStageOptionList_loop (option : string) (quoted : bool)
         (current : string) (result : list string) : list string :=
  match option with
  | EmptyString => result ++ [current]
  | String character rest =>
      if Ascii.eqb character "'"%char then
        parseStageOptionList_loop rest (negb quoted) current result
      else if Ascii.eqb character ","%char && negb quoted then
        parseStageOptionList_loop rest quoted "" (result ++ [current])
      else
        parseStageOptionList_loop rest quoted (push_back current character)
          result
  end.

Definition parseStageOptionList (option : string) (result : list string)
  : list string :=
  parseStageOptionList_loop option false "" result.

(** The predicate of the lambda in [ParsedCommand::commandBasename]. *)
Definition is_version_character (character : ascii) : bool :=
  let n := nat_of_ascii character in
  (Nat.leb 48 n && Nat.leb n 57)
  || Ascii.eqb character "."%char || Ascii.eqb character "-"%char.

(** [while (length > 0 && is_version_character(basename[length - 1]))
    --length;] followed by [basename.substr(0, length)]. *)
Fixpoint strip_version (basename : string) : string :=
  match basename with
  | EmptyString => EmptyString
  | String c rest =>
      let kept := strip_version rest in
      if empty kept && is_version_character c then EmptyString
      else String c kept
  end.

(** [ParseRuleHelper::matchCompilerOptions]; [None] stands for the pair
    of the empty string and the null function. *)
Fixpoint substring_search (option : string) (options : CompilerParseRulesMap)
  : Datatypes.option (string * ParseRuleFn) :=
  match options with
  | [] => None
  | (key, fn) :: rest =>
      let val := take (String.length key) option in
      if String.eqb val key then Some (key, fn)
      else substring_search option rest
  end.

Definition matchCompilerOptions (option : string)
           (options : CompilerParseRulesMap)
  : Datatypes.option (string * ParseRuleFn) :=
  if negb (empty option)
     && (front_is "-"%char option || front_is "+"%char option)
  then
    (* Check for an equal sign, if any, return left side. *)
    let tempOption :=
      match find "="%char option with
      | Some i => take i option
      | None => option
      end in
    (* Remove any spaces from the option. *)
    let tempOption := remove_spaces tempOption in
    match RulesMap.lookup tempOption options with
    | Some fn => Some (tempOption, fn)
    | None => substring_search option options
    end
  else None.

(** [d_originalCommand.front()] and [pop_front()]; both are undefined on
    an empty list. *)
Definition front (c : ParsedCommand) : outcome string :=
  match d_originalCommand c with
  | [] => Undefined
  | token :: _ => Ret token
  end.

Definition pop_front (c : ParsedCommand) : outcome ParsedCommand :=
  match d_originalCommand c with
  | [] => Undefined
  | _ :: rest => Ret (set_originalCommand rest c)
  end.

Definition push_command (s : string) (c : ParsedCommand) : ParsedCommand :=
  set_command (d_command c ++ [s]) c.

Definition push_deps (s : string) (c : ParsedCommand) : ParsedCommand :=
  set_dependenciesCommand (d_dependenciesCommand c ++ [s]) c.

Section WithHost.
Variable h : Host.
Variable env : Env.
Variable sc : SupportedCompilers.

Let modifyPathForRemote := FileUtils.modifyPathForRemote h env.

(** [ParsedCommand::commandBasename]; [remaining] is
    [max_nested_links - symlinks]. *)
Fixpoint commandBasename_from (remaining : nat) (path : string)
  : outcome string :=
  let basename :=
    match rfind slash path with
    | None => path
    | Some lastSlash => drop (S lastSlash) path
    end in
  if SSet.count basename (CCompilers sc) then
    let absolutePath := getPathToCommand h path in
    if negb (empty absolutePath) && isSymlinkPath h absolutePath then
      match remaining with
      | O => Throws SystemError
      | S remaining' =>
          symlinkTarget <- FileUtils.resolveSymlink h absolutePath ;;
          commandBasename_from remaining' symlinkTarget
      end
    else
      match platform_compiler h with
      | Some name => Ret name
      | None => Ret basename
      end
  else
    let length := String.length basename in
    let length :=
      if Nat.ltb 2 length && String.eqb (drop (length - 2) basename) "_r"
      then length - 2
      else if Nat.ltb 3 length
              && String.eqb (substring (length - 3) 2 basename) "_r"
           then length - 3
           else length in
    Ret (strip_version (take length basename)).

Definition commandBasename (path : string) : outcome string :=
  commandBasename_from 40 path.

(** [ParsedCommand::ParsedCommand(command, workingDirectory)] *)
Definition ParsedCommand_new (command : list string)
           (workingDirectory : string) : outcome ParsedCommand :=
  let c := ParsedCommand_default in
  match command with
  | [] => Ret c
  | compiler :: arguments =>
      if empty compiler then Ret c
      else
        name <- commandBasename compiler ;;
        let '(defaultDeps, isGcc, isClang, producesSun, isSun, aixFile) :=
          if SSet.count name (Gcc sc) then
            let isClang :=
              String.eqb name "clang" || String.eqb name "clang++" in
            (GccDefaultDeps sc, negb isClang, isClang, false, false, None)
          else if SSet.count name (SunCPP sc) then
            (SunCPPDefaultDeps sc, false, false, true, true, None)
          else if SSet.count name (AIX sc) then
            (AIXDefaultDeps sc ++ [aix_temporary_file h],
             false, false, true, false, Some (aix_temporary_file h))
          else ([], false, false, false, false, None) in
        let defaultDeps :=
          if isClang && RECC_DEPS_GLOBAL_PATHS env
          then defaultDeps ++ ["-v"] else defaultDeps in
        replacedCompilerPath <-
          modifyPathForRemote compiler workingDirectory false ;;
        Ret {| d_compilerCommand := false; d_linkerCommand := false;
               d_md_option_set := false; d_qmakedep_option_set := false;
               d_coverage_option_set := false;
               d_split_dwarf_option_set := false;
               d_isGcc := isGcc; d_isClang := isClang;
               d_isSunStudio := isSun;
               d_producesSunMakeRules := producesSun;
               d_containsUnsupportedOptions := false;
               d_upload_all_include_dirs := false; d_bstatic := false;
               d_compiler := name; d_originalCommand := arguments;
               d_defaultDepsCommand := defaultDeps;
               d_preProcessorOptions := [];
               d_command := [replacedCompilerPath];
               d_dependenciesCommand := [compiler];
               d_inputFiles := []; d_auxInputFiles := [];
               d_libraryDirs := []; d_rpathLinkDirs := [];
               d_rpathDirs := []; d_defaultLibraryDirs := [];
               d_libraries := []; d_staticLibraries := [];
               d_commandProducts := []; d_commandDepsProducts := [];
               d_commandCoverageProducts := []; d_includeDirs := [];
               d_dependencyFileAIX := aixFile;
               d_bstaticStack := [] |}
  end.

(** The recording of a product: [if (isOutput and !depsOutput) ... else
    if (isOutput) ...]. *)
Definition record_product (isOutput depsOutput : bool)
           (replacedPath : string) (c : ParsedCommand) : ParsedCommand :=
  if isOutput && negb depsOutput then
    set_commandProducts (SSet.insert replacedPath (d_commandProducts c)) c
  else if isOutput then
    set_commandDepsProducts
      (SSet.insert replacedPath (d_commandDepsProducts c)) c
  else c.

(** [if (isDirectory(normalizePath(path))) d_includeDirs.emplace(...)] *)
Definition record_include_dir (path replacedPath : string)
           (c : ParsedCommand) : ParsedCommand :=
  if isDirectory h (normalizePath h path)
  then set_includeDirs (SSet.insert replacedPath (d_includeDirs c)) c
  else c.

(** [ParseRuleHelper::appendAndRemoveOption] *)
Definition appendAndRemoveOption (c : ParsedCommand)
           (workingDirectory : string)
           (isPath toDeps isOutput depsOutput : bool)
  : outcome ParsedCommand :=
  option <- front c ;;
  c <- (if isPath then
          replacedPath <-
            modifyPathForRemote option workingDirectory true ;;
          let c := record_include_dir option replacedPath c in
          let c := if toDeps then push_deps option c else c in
          let c := push_command replacedPath c in
          Ret (record_product isOutput depsOutput replacedPath c)
        else
          let c := push_command option c in
          Ret (if toDeps then push_deps option c else c)) ;;
  pop_front c.

(** [ParseRuleHelper::parseGccOption] *)
Definition parseGccOption (c : ParsedCommand) (workingDirectory : string)
           (option : string) (toDeps isOutput depsOutput : bool)
  : outcome ParsedCommand :=
  val <- front c ;;
  if String.eqb val option then
    c <- appendAndRemoveOption c workingDirectory false toDeps
           false false ;;
    appendAndRemoveOption c workingDirectory true toDeps isOutput
      depsOutput
  else
    let equalPos := find "="%char val in
    optionPath <- substr_checked val (Z.of_nat (String.length option)) ;;
    let '(modifiedOption, optionPath) :=
      match equalPos with
      | Some i => (option +++ "=", drop (S i) val)
      | None => (option, optionPath)
      end in
    replacedPath <-
      modifyPathForRemote optionPath workingDirectory true ;;
    let c := record_include_dir optionPath replacedPath c in
    let c := push_command (modifiedOption +++ replacedPath) c in
    let c :=
      if isOutput && negb depsOutput then
        set_commandProducts
          (SSet.insert replacedPath (d_commandProducts c)) c
      else if isOutput then
        set_commandDepsProducts
          (SSet.insert replacedPath (d_commandDepsProducts c)) c
      else if toDeps then push_deps (modifiedOption +++ optionPath) c
      else c in
    pop_front c.

(** [ParseRule::parseOptionIsUnsupported] *)
Definition parseOptionIsUnsupported (c : ParsedCommand)
           (workingDirectory option : string) : outcome ParsedCommand :=
  let c := set_containsUnsupportedOptions true c in
  let c :=
    set_dependenciesCommand
      (d_dependenciesCommand c ++ d_originalCommand c) c in
  let c := set_command (d_command c ++ d_originalCommand c) c in
  Ret (set_originalCommand [] c).

(** [ParseRule::parseOptionSimple] *)
Definition parseOptionSimple (c : ParsedCommand)
           (workingDirectory option : string) : outcome ParsedCommand :=
  appendAndRemoveOption c workingDirectory false true false false.

(** [ParseRule::parseInterfersWithDepsOption] *)
Definition parseInterfersWithDepsOption (c : ParsedCommand)
           (workingDirectory option : string) : outcome ParsedCommand :=
  token <- front c ;;
  let c :=
    if String.eqb token "-MMD" || String.eqb token "-MD"
       || String.eqb token "-xMMD" || String.eqb token "-xMD"
    then set_md_option_set true c
    else if is_AIX c
            && (String.eqb option "-M" || String.eqb option "-qmakedep")
    then set_qmakedep_option_set true c
    else if String.eqb token "-Wmissing-include-dirs"
            || String.eqb token "-Werror=missing-include-dirs"
    then set_upload_all_include_dirs true c
    else c in
  (* Only push back to command vector. *)
  pop_front (push_command token c).

(** [ParseRule::parseIsInputPathOption] *)
Definition parseIsInputPathOption (c : ParsedCommand)
           (workingDirectory option : string) : outcome ParsedCommand :=
  parseGccOption c workingDirectory option true false false.

(** [ParseRule::parseIsEqualInputPathOption] *)
Definition parseIsEqualInputPathOption (c : ParsedCommand)
           (workingDirectory option : string) : outcome ParsedCommand :=
  parseGccOption c workingDirectory option true false false.

(** [ParseRule::parseIsCompileOption] *)
Definition parseIsCompileOption (c : ParsedCommand)
           (workingDirectory option : string) : outcome ParsedCommand :=
  let c := set_compilerCommand true c in
  appendAndRemoveOption c workingDirectory false true false false.

(** [ParseRule::parseOptionRedirectsOutput] *)
Definition parseOptionRedirectsOutput (c : ParsedCommand)
           (workingDirectory option : string) : outcome ParsedCommand :=
  parseGccOption c workingDirectory option false true false.

(** [ParseRule::parseOptionRedirectsDepsOutput] *)
Definition parseOptionRedirectsDepsOutput (c : ParsedCommand)
           (workingDirectory option : string) : outcome ParsedCommand :=
  parseGccOption c workingDirectory option false true true.

(** [ParseRule::parseOptionDepsRuleTarget] *)
Definition parseOptionDepsRuleTarget (c : ParsedCommand)
           (workingDirectory option : string) : outcome ParsedCommand :=
  parseGccOption c workingDirectory option false false false.

(** [ParseRule::parseIsPreprocessorArgOption] *)
Definition parseIsPreprocessorArgOption (c : ParsedCommand)
           (workingDirectory option : string) : outcome ParsedCommand :=
  val <- front c ;;
  c <- (if String.eqb option "-Wp," then
          optionList <-
            substr_checked val (Z.of_nat (String.length option)) ;;
          Ret (set_preProcessorOptions
                 (parseStageOptionList optionList
                    (d_preProcessorOptions c)) c)
        else if String.eqb option "-Xpreprocessor" then
          c <- pop_front c ;;
          arg <- front c ;;
          Ret (set_preProcessorOptions
                 (d_preProcessorOptions c ++ [arg]) c)
        else Ret c) ;;
  pop_front c.

(** [ParseRule::parseIsMacro] *)
Definition parseIsMacro (c : ParsedCommand)
           (workingDirectory option : string) : outcome ParsedCommand :=
  token <- front c ;;
  let c := push_deps token (push_command token c) in
  c <- (if String.eqb token option then
          c <- pop_front c ;;
          arg <- front c ;;
          Ret (push_deps arg (push_command arg c))
        else Ret c) ;;
  pop_front c.

(** [ParseRule::parseOptionSetsGccLanguage] *)
Definition parseOptionSetsGccLanguage (c : ParsedCommand)
           (workingDirectory option : string) : outcome ParsedCommand :=
  originalCommandOption <- front c ;;
  c <- pop_front c ;;
  let continue (language : string) (c : ParsedCommand) :=
    let c :=
      set_originalCommand (originalCommandOption :: d_originalCommand c)
        c in
    let c :=
      if negb (SSet.count language (GccSupportedLanguages sc))
      then set_containsUnsupportedOptions true c else c in
    parseGccOption c workingDirectory option true false false in
  if String.eqb originalCommandOption option then
    (* Space between -x and argument *)
    match d_originalCommand c with
    | [] => Ret (set_containsUnsupportedOptions true c)
    | language :: _ => continue language c
    end
  else
    language <-
      substr_checked originalCommandOption
        (Z.of_nat (String.length option)) ;;
    continue language c.

(** [ParseRule::parseOptionCoverageOutput] *)
Definition parseOptionCoverageOutput (c : ParsedCommand)
           (workingDirectory option : string) : outcome ParsedCommand :=
  originalCommandOption <- front c ;;
  c <- pop_front c ;;
  let c := set_coverage_option_set true c in
  Ret (push_command originalCommandOption c).

(** [ParseRule::parseOptionSplitDwarf] *)
Definition parseOptionSplitDwarf (c : ParsedCommand)
           (workingDirectory option : string) : outcome ParsedCommand :=
  let c := set_split_dwarf_option_set true c in
  appendAndRemoveOption c workingDirectory false true false false.

(** [ParseRule::parseOptionSolarisPhase] *)
Definition parseOptionSolarisPhase (c : ParsedCommand)
           (workingDirectory option : string) : outcome ParsedCommand :=
  if Nat.ltb (List.length (d_originalCommand c)) 3 then
    parseOptionIsUnsupported c workingDirectory option
  else
    c <- appendAndRemoveOption c workingDirectory false true false false ;;
    c <- appendAndRemoveOption c workingDirectory false true false false ;;
    appendAndRemoveOption c workingDirectory false true false false.

(** [ParseRule::parseOptionRedirectsCoverageOutput] *)
Definition parseOptionRedirectsCoverageOutput (c : ParsedCommand)
           (workingDirectory option : string) : outcome ParsedCommand :=
  originalCommandOption <- front c ;;
  c <- pop_front c ;;
  match find "="%char originalCommandOption with
  | Some equalPos =>
      let optionPath := drop (S equalPos) originalCommandOption in
      replacedPath <-
        modifyPathForRemote optionPath workingDirectory true ;;
      let c :=
        set_commandCoverageProducts
          (SSet.insert replacedPath (d_commandCoverageProducts c)) c in
      Ret (push_command originalCommandOption c)
  | None => Ret (set_containsUnsupportedOptions true c)
  end.

(** [ParseRule::parseOptionNative] *)
Definition parseOptionNative (c : ParsedCommand)
           (workingDirectory option : string) : outcome ParsedCommand :=
  originalCommandOption <- front c ;;
  let native :=
    match find "="%char originalCommandOption with
    | Some equalPos =>
        String.eqb (drop (S equalPos) originalCommandOption) "native"
    | None => false
    end in
  if native then parseOptionIsUnsupported c workingDirectory option
  else appendAndRemoveOption c workingDirectory false true false false.

(** [ParseRule::parseOptionParam] *)
Definition parseOptionParam (c : ParsedCommand)
           (workingDirectory option : string) : outcome ParsedCommand :=
  val <- front c ;;
  if String.eqb val option then
    if Nat.ltb (List.length (d_originalCommand c)) 2 then
      parseOptionIsUnsupported c workingDirectory option
    else
      c <- appendAndRemoveOption c workingDirectory false true
             false false ;;
      appendAndRemoveOption c workingDirectory false true false false
  else
    appendAndRemoveOption c workingDirectory false true false false.

(** [ParseRule::parseLdLibrary] *)
Definition parseLdLibrary (c : ParsedCommand)
           (workingDirectory option : string) : outcome ParsedCommand :=
  val <- front c ;;
  r <- (if String.eqb val option then
          c <- appendAndRemoveOption c workingDirectory false false
                 false false ;;
          library <- front c ;;
          c <- appendAndRemoveOption c workingDirectory false false
                 false false ;;
          Ret (library, c)
        else
          library <-
            substr_checked val (Z.of_nat (String.length option)) ;;
          let library :=
            match find "="%char val with
            | Some equalPos => drop (S equalPos) val
            | None => library
            end in
          c <- appendAndRemoveOption c workingDirectory false false
                 false false ;;
          Ret (library, c)) ;;
  let '(library, c) := r in
  if empty library then parseOptionIsUnsupported c workingDirectory option
  else if d_bstatic c then
    Ret (set_staticLibraries (SSet.insert library (d_staticLibraries c)) c)
  else Ret (set_libraries (SSet.insert library (d_libraries c)) c).

(** The vector [libraryDirs] points to in [parseLdLibraryPath]. *)
Inductive library_dirs_target : Type :=
| to_rpathLinkDirs | to_rpathDirs | to_libraryDirs.

Definition library_dirs_of (option : string) : library_dirs_target :=
  if String.eqb option "-rpath-link" || String.eqb option "--rpath-link"
  then to_rpathLinkDirs
  else if String.eqb option "-rpath" || String.eqb option "--rpath"
          || String.eqb option "-R"
  then to_rpathDirs
  else to_libraryDirs.

Definition push_library_dir (t : library_dirs_target) (token : string)
           (c : ParsedCommand) : ParsedCommand :=
  match t with
  | to_rpathLinkDirs => set_rpathLinkDirs (d_rpathLinkDirs c ++ [token]) c
  | to_rpathDirs => set_rpathDirs (d_rpathDirs c ++ [token]) c
  | to_libraryDirs => set_libraryDirs (d_libraryDirs c ++ [token]) c
  end.

(** The loop over the colon-separated pieces of the library path. *)
Fixpoint parseLdLibraryPath_loop (tokens : list string)
         (c : ParsedCommand) (workingDirectory option : string)
  : outcome ParsedCommand :=
  match tokens with
  | [] => Ret c
  | token :: tokens' =>
      if isDirectory h token then
        let c := push_command option c in
        replacedPath <-
          modifyPathForRemote token workingDirectory true ;;
        let c := push_command replacedPath c in
        let c := push_library_dir (library_dirs_of option) token c in
        parseLdLibraryPath_loop tokens' c workingDirectory option
      else if String.eqb option "-R" && isRegularFile h token then
        (* -R is --just-symbols if the argument is a regular file *)
        parseOptionIsUnsupported c workingDirectory option
      else parseLdLibraryPath_loop tokens' c workingDirectory option
  end.

(** [ParseRule::parseLdLibraryPath] *)
Definition parseLdLibraryPath (c : ParsedCommand)
           (workingDirectory option : string) : outcome ParsedCommand :=
  val <- front c ;;
  c <- pop_front c ;;
  r <- (if String.eqb val option then
          libraryPath <- front c ;;
          c <- pop_front c ;;
          Ret (libraryPath, c)
        else
          libraryPath <-
            substr_checked val (Z.of_nat (String.length option)) ;;
          let libraryPath :=
            if String.eqb (take 1 libraryPath) "="
            then drop 1 libraryPath else libraryPath in
          Ret (libraryPath, c)) ;;
  let '(libraryPath, c) := r in
  if empty libraryPath
  then parseOptionIsUnsupported c workingDirectory option
  else
    parseLdLibraryPath_loop (getline_tokens ":"%char libraryPath "")
      c workingDirectory option.

(** [ParseRule::parseLdOptionDynamic] *)
Definition parseLdOptionDynamic (c : ParsedCommand)
           (workingDirectory option : string) : outcome ParsedCommand :=
  let c := set_bstatic false c in
  appendAndRemoveOption c workingDirectory false true false false.

(** [ParseRule::parseLdOptionStatic] *)
Definition parseLdOptionStatic (c : ParsedCommand)
           (workingDirectory option : string) : outcome ParsedCommand :=
  let c := set_bstatic true c in
  appendAndRemoveOption c workingDirectory false true false false.

(** [ParseRule::parseLdOptionState] *)
Definition parseLdOptionState (c : ParsedCommand)
           (workingDirectory option : string) : outcome ParsedCommand :=
  if String.eqb option "--push-state" then
    let c := set_bstaticStack (d_bstaticStack c ++ [d_bstatic c]) c in
    appendAndRemoveOption c workingDirectory false true false false
  else if String.eqb option "--pop-state"
          && negb (Nat.eqb (List.length (d_bstaticStack c)) 0) then
    let c := set_bstatic (List.last (d_bstaticStack c) false) c in
    let c := set_bstaticStack (List.removelast (d_bstaticStack c)) c in
    appendAndRemoveOption c workingDirectory false true false false
  else parseOptionIsUnsupported c workingDirectory option.

(** [ParseRule::parseLdOptionEmulation] *)
Definition parseLdOptionEmulation (c : ParsedCommand)
           (workingDirectory option : string) : outcome ParsedCommand :=
  token <- front c ;;
  let c := push_deps token (push_command token c) in
  c <- (if String.eqb token option then
          c <- pop_front c ;;
          arg <- front c ;;
          Ret (push_deps arg (push_command arg c))
        else Ret c) ;;
  pop_front c.

(** The common beginning of [parseSolarisLdOptionB], [...D] and [...Y]:
    the argument of the option, with or without a space.  [None] is the
    early return through [parseOptionIsUnsupported]. *)
Definition solaris_option_argument (c : ParsedCommand)
           (workingDirectory option : string)
  : outcome (Datatypes.option string * ParsedCommand) :=
  val <- front c ;;
  if String.eqb val option then
    if Nat.ltb (List.length (d_originalCommand c)) 2 then
      c <- parseOptionIsUnsupported c workingDirectory option ;;
      Ret (None, c)
    else
      c <- appendAndRemoveOption c workingDirectory false true
             false false ;;
      arg <- front c ;;
      c <- appendAndRemoveOption c workingDirectory false true
             false false ;;
      Ret (Some arg, c)
  else
    arg <- substr_checked val (Z.of_nat (String.length option)) ;;
    c <- appendAndRemoveOption c workingDirectory false true
           false false ;;
    Ret (Some arg, c).

(** [ParseRule::parseSolarisLdOptionB] *)
Definition parseSolarisLdOptionB (c : ParsedCommand)
           (workingDirectory option : string) : outcome ParsedCommand :=
  r <- solaris_option_argument c workingDirectory option ;;
  match r with
  | (None, c) => Ret c
  | (Some arg, c) =>
      if String.eqb arg "dynamic" then Ret (set_bstatic false c)
      else if String.eqb arg "static" then Ret (set_bstatic true c)
      else Ret c
  end.

(** [ParseRule::parseSolarisLdOptionD] *)
Definition parseSolarisLdOptionD (c : ParsedCommand)
           (workingDirectory option : string) : outcome ParsedCommand :=
  r <- solaris_option_argument c workingDirectory option ;;
  match r with
  | (None, c) => Ret c
  | (Some arg, c) =>
      if String.eqb arg "y" then Ret (set_bstatic false c)
      else if String.eqb arg "n" then Ret (set_bstatic true c)
      else Ret c
  end.

(** [ParseRule::parseSolarisLdOptionY] *)
Definition parseSolarisLdOptionY (c : ParsedCommand)
           (workingDirectory option : string) : outcome ParsedCommand :=
  r <- solaris_option_argument c workingDirectory option ;;
  match r with
  | (None, c) => Ret c
  | (Some arg, c) =>
      if String.eqb (take 2 arg) "P," then
        let dirs :=
          filter (isDirectory h) (getline_tokens ":"%char (drop 2 arg) "")
        in
        Ret (set_defaultLibraryDirs dirs c)
      else parseOptionIsUnsupported c workingDirectory option
  end.

(** [ParseRule::parseSolarisLdMapfile] *)
Definition parseSolarisLdMapfile (c : ParsedCommand)
           (workingDirectory option : string) : outcome ParsedCommand :=
  val <- front c ;;
  r <- (if String.eqb val option then
          c <- appendAndRemoveOption c workingDirectory false false
                 false false ;;
          mapfile <- front c ;;
          c <- appendAndRemoveOption c workingDirectory false false
                 false false ;;
          Ret (mapfile, c)
        else
          mapfile <-
            substr_checked val (Z.of_nat (String.length option)) ;;
          c <- appendAndRemoveOption c workingDirectory false false
                 false false ;;
          Ret (mapfile, c)) ;;
  let '(mapfile, c) := r in
  if empty mapfile then parseOptionIsUnsupported c workingDirectory option
  else Ret (set_auxInputFiles (d_auxInputFiles c ++ [mapfile]) c).

(** The call [optionModifier.second(command, workingDirectory,
    optionModifier.first)]. *)
Definition call (fn : ParseRuleFn)
  : ParsedCommand -> string -> string -> outcome ParsedCommand :=
  match fn with
  | fn_parseOptionSimple => parseOptionSimple
  | fn_parseInterfersWithDepsOption => parseInterfersWithDepsOption
  | fn_parseIsInputPathOption => parseIsInputPathOption
  | fn_parseIsEqualInputPathOption => parseIsEqualInputPathOption
  | fn_parseIsCompileOption => parseIsCompileOption
  | fn_parseOptionRedirectsOutput => parseOptionRedirectsOutput
  | fn_parseOptionRedirectsDepsOutput => parseOptionRedirectsDepsOutput
  | fn_parseOptionDepsRuleTarget => parseOptionDepsRuleTarget
  | fn_parseIsPreprocessorArgOption => parseIsPreprocessorArgOption
  | fn_parseIsMacro => parseIsMacro
  | fn_parseOptionSetsGccLanguage => parseOptionSetsGccLanguage
  | fn_parseOptionIsUnsupported => parseOptionIsUnsupported
  | fn_parseOptionCoverageOutput => parseOptionCoverageOutput
  | fn_parseOptionRedirectsCoverageOutput =>
      parseOptionRedirectsCoverageOutput
  | fn_parseOptionSplitDwarf => parseOptionSplitDwarf
  | fn_parseOptionSolarisPhase => parseOptionSolarisPhase
  | fn_parseOptionNative => parseOptionNative
  | fn_parseOptionParam => parseOptionParam
  | fn_parseLdLibrary => parseLdLibrary
  | fn_parseLdLibraryPath => parseLdLibraryPath
  | fn_parseLdOptionDynamic => parseLdOptionDynamic
  | fn_parseLdOptionStatic => parseLdOptionStatic
  | fn_parseLdOptionState => parseLdOptionState
  | fn_parseLdOptionEmulation => parseLdOptionEmulation
  | fn_parseSolarisLdOptionB => parseSolarisLdOptionB
  | fn_parseSolarisLdOptionD => parseSolarisLdOptionD
  | fn_parseSolarisLdOptionY => parseSolarisLdOptionY
  | fn_parseSolarisLdMapfile => parseSolarisLdMapfile
  end.

(** The body of the loop of [ParsedCommandFactory::parseCommand], for a
    list whose front is [currToken]. *)
Definition parseToken (c : ParsedCommand) (parseRules : CompilerParseRulesMap)
           (workingDirectory : string) (currToken : string)
  : outcome ParsedCommand :=
  match matchCompilerOptions currToken parseRules with
  | Some (matched, fn) => call fn c workingDirectory matched
  | None =>
      if String.eqb currToken "-" then
        (* recc does not support standard input *)
        pop_front (set_containsUnsupportedOptions true c)
      else if negb (empty currToken) && front_is "@"%char currToken then
        (* recc does not support reading options from a file *)
        pop_front (set_containsUnsupportedOptions true c)
      else if negb (empty currToken)
              && (front_is "-"%char currToken
                  || (is_sun_studio c && front_is "+"%char currToken))
      then
        (* Option without handler *)
        appendAndRemoveOption c workingDirectory false true false false
      else
        replacedPath <-
          modifyPathForRemote currToken workingDirectory true ;;
        let c := push_command replacedPath c in
        let c := push_deps currToken c in
        let c := set_inputFiles (d_inputFiles c ++ [currToken]) c in
        pop_front c
  end.

(** [while (!command->d_originalCommand.empty()) ...] *)
Fixpoint parseCommand_loop (fuel : nat) (c : ParsedCommand)
         (parseRules : CompilerParseRulesMap) (workingDirectory : string)
  : outcome ParsedCommand :=
  match d_originalCommand c with
  | [] => Ret c
  | currToken :: _ =>
      match fuel with
      | O => Diverged
      | S fuel' =>
          c <- parseToken c parseRules workingDirectory currToken ;;
          parseCommand_loop fuel' c parseRules workingDirectory
      end
  end.

(** [ParsedCommandFactory::parseCommand].  Every iteration shortens
    [d_originalCommand], so its length is fuel enough. *)
Definition parseCommand (c : ParsedCommand)
           (parseRules : CompilerParseRulesMap)
           (workingDirectory : string) : outcome ParsedCommand :=
  parseCommand_loop (List.length (d_originalCommand c)) c parseRules
    workingDirectory.

(** [ParsedCommandFactory::getParsedCommandMap] *)
Definition getParsedCommandMap : list (sset * CompilerParseRulesMap) :=
  [ (Gcc sc, GccRules);
    (GccPreprocessor sc, GccPreprocessorRules);
    (SunCPP sc, SunCPPRules);
    (AIX sc, AixRules) ].

(** The search for the rules of the compiler in the catalogue. *)
Fixpoint find_rules (compiler : string)
         (parsedCommandMap : list (sset * CompilerParseRulesMap))
  : option CompilerParseRulesMap :=
  match parsedCommandMap with
  | [] => None
  | (compilers, rules) :: rest =>
      if SSet.count compiler compilers then Some rules
      else find_rules compiler rest
  end.

(** [for (arg : v) { out.push_back("-Xpreprocessor");
    out.push_back(arg); }] *)
Definition with_Xpreprocessor (v : list string) : list string :=
  flat_map (fun preproArg => ["-Xpreprocessor"; preproArg]) v.

(** [ParsedCommandFactory::createParsedCommand], for the catalogue
    [parsedCommandMap] in the order its iteration yields. *)
Definition createParsedCommand_in
           (parsedCommandMap : list (sset * CompilerParseRulesMap))
           (command : list string) (workingDirectory : string)
  : outcome ParsedCommand :=
  match command with
  | [] => Ret ParsedCommand_default
  | _ =>
    parsedCommand <- ParsedCommand_new command workingDirectory ;;
    match find_rules (d_compiler parsedCommand) parsedCommandMap with
    | None =>
        (* Don't attempt to parse arguments of unsupported command *)
        Ret (set_containsUnsupportedOptions true parsedCommand)
    | Some rulesToUse =>
        parsedCommand <-
          parseCommand parsedCommand rulesToUse workingDirectory ;;
        if d_containsUnsupportedOptions parsedCommand
           || Nat.eqb (List.length (d_inputFiles parsedCommand)) 0
        then Ret (set_compilerCommand false parsedCommand)
        else
          let parsedCommand :=
            if negb (is_compiler_command parsedCommand)
            then set_linkerCommand true parsedCommand
            else parsedCommand in
          parsedCommand <-
            (if Nat.ltb 0 (List.length
                             (d_preProcessorOptions parsedCommand))
             then
               let preprocessorCommand :=
                 set_originalCommand
                   (d_preProcessorOptions parsedCommand)
                   ParsedCommand_default in
               preprocessorCommand <-
                 parseCommand preprocessorCommand GccPreprocessorRules
                   workingDirectory ;;
               let p := parsedCommand in
               let p :=
                 set_command
                   (d_command p
                    ++ with_Xpreprocessor (d_command preprocessorCommand))
                   p in
               let p :=
                 set_dependenciesCommand
                   (d_dependenciesCommand p
                    ++ with_Xpreprocessor
                         (d_dependenciesCommand preprocessorCommand))
                   p in
               let p :=
                 set_commandProducts
                   (SSet.insert_all
                      (d_commandProducts preprocessorCommand)
                      (d_commandProducts p)) p in
               let p :=
                 set_commandDepsProducts
                   (SSet.insert_all
                      (d_commandDepsProducts preprocessorCommand)
                      (d_commandDepsProducts p)) p in
               Ret (set_md_option_set
                      (d_md_option_set preprocessorCommand
                       || d_md_option_set p) p)
             else Ret parsedCommand) ;;
          let parsedCommand :=
            set_dependenciesCommand
              (d_dependenciesCommand parsedCommand
               ++ d_defaultDepsCommand parsedCommand) parsedCommand in
          (* d_originalCommand gets modified during the parsing *)
          Ret (set_originalCommand
                 (command ++ d_originalCommand parsedCommand)
                 parsedCommand)
    end
  end.

Definition createParsedCommand (command : list string)
           (workingDirectory : string) : outcome ParsedCommand :=
  createParsedCommand_in getParsedCommandMap command workingDirectory.

(** [ParsedCommandFactory::createParsedLinkerCommand] *)
Definition createParsedLinkerCommand (command : list string)
           (workingDirectory : string) : outcome ParsedCommand :=
  parsedCommand <- ParsedCommand_new command workingDirectory ;;
  parsedCommand <-
    parseCommand parsedCommand
      (if built_for_sun h then SolarisLdRules else LdRules)
      workingDirectory ;;
  if d_containsUnsupportedOptions parsedCommand
     || is_compiler_command parsedCommand
  then Ret parsedCommand
  else
    let parsedCommand := set_linkerCommand true parsedCommand in
    Ret (set_originalCommand
           (command ++ d_originalCommand parsedCommand) parsedCommand).

End WithHost.

End Parser.

(* ================================================================== *)
(** ** src/src/deps.cpp: products and file information *)

(** [struct CommandFileInfo] *)
Record CommandFileInfo : Type := {
  d_dependencies : sset;
  d_possibleProducts : sset
}.

(** [struct SubprocessResult] *)
Record SubprocessResult : Type := {
  d_exitCode : Z;
  d_stdOut : string;
  d_stdErr : string
}.

(** The collaborators of [Deps::get_file_info] outside deps.cpp. *)
Record DepsTools : Type := {
  (* LinkDeps::get_file_info *)
  LinkDeps_get_file_info : ParsedCommand -> outcome CommandFileInfo;
  (* ClangScanDeps::dependencies_for_target: the dependencies it stores
     when it returns true *)
  ClangScanDeps_dependencies_for_target :
    ParsedCommand -> string -> option sset;
  (* Subprocess::execute(command, true, true, RECC_DEPS_ENV) *)
  Subprocess_execute : list string -> SubprocessResult;
  (* buildboxcommon::FileUtils::getFileContents *)
  getFileContents : string -> outcome string;
  (* std::regex_search with the expression of crtbegin_from_clang_v: the
     two sub-matches *)
  search_selected_gcc : string -> option (string * string)
}.

Module Deps.
Import StdString.

(** The test shared by [is_header_file], [is_source_file],
    [is_object_file] and [is_aux_input_file]: the text after the last dot
    is in [suffixes]. *)
Definition has_suffix_in (suffixes : sset) (file : string) : bool :=
  match rfind dot file with
  | Some pos => SSet.count (drop (S pos) file) suffixes
  | None => false
  end.

(** [Deps::is_header_file] *)
Definition is_header_file (file : string) : bool :=
  has_suffix_in
    ["h"; "hh"; "H"; "hp"; "hxx"; "hpp"; "HPP"; "h++"; "tcc"] file.

(** [Deps::is_source_file] *)
Definition is_source_file (file : string) : bool :=
  has_suffix_in ["cc"; "c"; "cp"; "cxx"; "cpp"; "CPP"; "c++"; "C"] file.

(** [Deps::is_aux_input_file] *)
Definition is_aux_input_file (file : string) (parsedCommand : ParsedCommand)
  : bool :=
  if is_sun_studio parsedCommand then has_suffix_in ["il"] file
  else false.

(** [Deps::is_object_file] *)
Definition is_object_file (file : string) : bool :=
  has_suffix_in ["a"; "o"; "so"] file.

(** The validation loop of [Deps::determine_products]: the sets
    [headers], [sources] and [objects]. *)
Fixpoint classify_inputs (parsedCommand : ParsedCommand)
         (inputFiles : list string) (headers sources objects : sset)
  : outcome (sset * sset * sset) :=
  match inputFiles with
  | [] => Ret (headers, sources, objects)
  | sourceFile :: rest =>
      if is_compiler_command parsedCommand && is_header_file sourceFile
      then classify_inputs parsedCommand rest
             (SSet.insert sourceFile headers) sources objects
      else if is_compiler_command parsedCommand
              && is_source_file sourceFile
      then classify_inputs parsedCommand rest
             headers (SSet.insert sourceFile sources) objects
      else if is_compiler_command parsedCommand
              && is_aux_input_file sourceFile parsedCommand
      then classify_inputs parsedCommand rest headers sources objects
      else if is_linker_command parsedCommand && is_object_file sourceFile
      then classify_inputs parsedCommand rest
             headers sources (SSet.insert sourceFile objects)
      else Throws InvalidArgument
  end.

(** [for (x : from) result.insert(f(x));] *)
Definition insert_each (f : string -> string) (from : list string)
           (result : sset) : sset :=
  fold_left (fun acc x => SSet.insert (f x) acc) from result.

Definition stripped_with (suffix : string) (file : string) : string :=
  FileUtils.stripDirectory (FileUtils.replaceSuffix file suffix).

(** "Determine which products to assume as base products." *)
Definition base_products (parsedCommand : ParsedCommand)
           (headers sources : sset) (result : sset) : sset :=
  if negb (SSet.is_empty (get_products parsedCommand)) then
    insert_each (fun product => product) (get_products parsedCommand) result
  else if is_linker_command parsedCommand then
    SSet.insert "a.out" result
  else
    let result := insert_each (fun header => header +++ ".gch") headers
                    result in
    insert_each (stripped_with ".o") sources result.

(** The make dependency files of -MD/-MMD and -qmakedep. *)
Definition md_products (parsedCommand : ParsedCommand)
           (headers sources : sset) (result : sset) : sset :=
  if d_md_option_set parsedCommand || d_qmakedep_option_set parsedCommand
  then
    let suffix := if d_md_option_set parsedCommand then ".d" else ".u" in
    if negb (SSet.is_empty (get_deps_products parsedCommand)) then
      insert_each (fun product => product)
        (get_deps_products parsedCommand) result
    else if negb (SSet.is_empty (get_products parsedCommand)) then
      insert_each (fun product => FileUtils.replaceSuffix product suffix)
        (get_products parsedCommand) result
    else
      let result := insert_each (stripped_with suffix) headers result in
      insert_each (stripped_with suffix) sources result
  else result.

(** The coverage notes files. *)
Definition coverage_products (parsedCommand : ParsedCommand)
           (headers sources : sset) (result : sset) : sset :=
  if d_coverage_option_set parsedCommand then
    if negb (SSet.is_empty (get_coverage_products parsedCommand)) then
      insert_each (fun product => product)
        (get_coverage_products parsedCommand) result
    else if negb (SSet.is_empty (get_products parsedCommand)) then
      insert_each (fun product => FileUtils.replaceSuffix product ".gcno")
        (get_products parsedCommand) result
    else
      let result := insert_each (stripped_with ".gcno") headers result in
      insert_each (stripped_with ".gcno") sources result
  else result.

(** The dwarf files of -gsplit-dwarf. *)
Definition dwarf_products (parsedCommand : ParsedCommand)
           (sources : sset) (result : sset) : sset :=
  if d_split_dwarf_option_set parsedCommand then
    if negb (SSet.is_empty (get_products parsedCommand)) then
      if negb (SSet.is_empty sources) then
        insert_each (fun product => FileUtils.replaceSuffix product ".dwo")
          (get_products parsedCommand) result
      else result
    else insert_each (stripped_with ".dwo") sources result
  else result.

(** [Deps::determine_products] *)
Definition determine_products (parsedCommand : ParsedCommand)
  : outcome sset :=
  (* Validate the inputs. *)
  sets <- classify_inputs parsedCommand (d_inputFiles parsedCommand)
            [] [] [] ;;
  let '(headers, sources, objects) := sets in
  if SSet.is_empty headers && SSet.is_empty sources && SSet.is_empty objects
  then
    (* No products without inputs *)
    Ret []
  else
    let result := base_products parsedCommand headers sources [] in
    let result := md_products parsedCommand headers sources result in
    let result := coverage_products parsedCommand headers sources result in
    Ret (dwarf_products parsedCommand sources result).

Section WithHost.
Variable h : Host.
Variable env : Env.
Variable tools : DepsTools.

(** [Deps::crtbegin_from_clang_v] *)
Definition crtbegin_from_clang_v (str : string) : string :=
  match search_selected_gcc tools str with
  | None => ""
  | Some (m1, m2) =>
      m1 +++ (if negb (String.eqb m2 ".") then "/" +++ m2 else "")
         +++ "/crtbegin.o"
  end.

(** The first loop of [Deps::get_file_info]: the normalized products
    and the targets that end in ".o".  [product.size() - 2] is
    [size_t] arithmetic. *)
Fixpoint collect_products (products : list string)
         (possibleProducts : sset) (objectTargets : list string)
  : outcome (sset * list string) :=
  match products with
  | [] => Ret (possibleProducts, objectTargets)
  | product :: rest =>
      let possibleProducts :=
        SSet.insert (normalizePath h product) possibleProducts in
      let pos :=
        ((Z.of_nat (String.length product) - 2) mod size_t_modulus)%Z in
      tail <- substr_checked product pos ;;
      collect_products rest possibleProducts
        (if String.eqb tail ".o" then objectTargets ++ [product]
         else objectTargets)
  end.

(** [Deps::get_file_info] *)
Definition get_file_info (parsedCommand : ParsedCommand)
  : outcome CommandFileInfo :=
  if is_linker_command parsedCommand
  then LinkDeps_get_file_info tools parsedCommand
  else
    products <- determine_products parsedCommand ;;
    collected <- collect_products products [] [] ;;
    let '(possibleProducts, objectTargets) := collected in
    let scanned :=
      match objectTargets with
      | [target] =>
          ClangScanDeps_dependencies_for_target tools parsedCommand target
      | _ => None
      end in
    match scanned with
    | Some dependencies =>
        Ret {| d_dependencies := dependencies;
               d_possibleProducts := possibleProducts |}
    | None =>
        let subprocessResult :=
          Subprocess_execute tools
            (get_dependencies_command parsedCommand) in
        if negb (d_exitCode subprocessResult =? 0)%Z
        then Throws (SubprocessFailed (d_exitCode subprocessResult))
        else
          dependencies <-
            (if is_AIX parsedCommand
             then getFileContents tools
                    (get_aix_dependency_file_name parsedCommand)
             else Ret (d_stdOut subprocessResult)) ;;
          let deps :=
            MakeRules.dependencies_from_make_rules dependencies
              (produces_sun_make_rules parsedCommand) in
          let deps :=
            if RECC_DEPS_GLOBAL_PATHS env && is_clang parsedCommand then
              let crtbegin :=
                crtbegin_from_clang_v (d_stdErr subprocessResult) in
              if negb (String.eqb crtbegin "")
              then SSet.insert crtbegin deps else deps
            else deps in
          let deps :=
            insert_each (fun inputFile => inputFile)
              (filter (fun inputFile =>
                         is_aux_input_file inputFile parsedCommand)
                 (d_inputFiles parsedCommand)) deps in
          Ret {| d_dependencies := deps;
                 d_possibleProducts := possibleProducts |}
    end.

End WithHost.

End Deps.

(* ================================================================== *)
(** ** The REAPI messages and their encoding *)

Module Proto.

(** [build.bazel.remote.execution.v2.Digest] *)
Record Digest : Type := {
  hash : string;
  size_bytes : N
}.

(** [Platform.Property] and [Command.EnvironmentVariable] *)
Record Property : Type := { name : string; value : string }.

(** [Platform] *)
Record Platform : Type := { properties : list Property }.

Definition Platform_default : Platform := {| properties := [] |}.

(** [Command]; [platform] is [None] until [mutable_platform()] is
    called. *)
Record Command : Type := {
  arguments : list string;
  environment_variables : list Property;
  output_files : list string;
  output_directories : list string;
  platform : option Platform;
  working_directory : string;
  output_paths : list string
}.

(** [commandProto.platform()]: the default instance when none is set. *)
Definition Command_platform (c : Command) : Platform :=
  match platform c with Some p => p | None => Platform_default end.

(** [Action]; [salt] is a proto3 [bytes] field, empty when not set. *)
Record Action : Type := {
  command_digest : Digest;
  input_root_digest : Digest;
  do_not_cache : bool;
  salt : string;
  action_platform : option Platform
}.

(** *** The protobuf wire format *)

(** Base-128 varints; ten bytes hold any 64-bit value. *)
Fixpoint varint_from (fuel : nat) (n : N) : string :=
  match fuel with
  | O => ""
  | S fuel' =>
      if (n <? 128)%N then String (ascii_of_N n) ""
      else String (ascii_of_N (n mod 128 + 128))
             (varint_from fuel' (n / 128))
  end.

Definition varint (n : N) : string := varint_from 10 n.

(** A length-delimited field (wire type 2). *)
Definition delimited (field : N) (payload : string) : string :=
  varint (field * 8 + 2) +++ varint (N.of_nat (String.length payload))
    +++ payload.

(** A proto3 string or bytes field: absent when empty. *)
Definition string_field (field : N) (s : string) : string :=
  match s with EmptyString => "" | _ => delimited field s end.

(** A varint field (wire type 0): absent when zero. *)
Definition varint_field (field : N) (n : N) : string :=
  if (n =? 0)%N then "" else varint (field * 8) +++ varint n.

Definition bool_field (field : N) (b : bool) : string :=
  varint_field field (if b then 1%N else 0%N).

Definition repeated {A : Type} (f : A -> string) (l : list A) : string :=
  fold_right (fun x acc => f x +++ acc) "" l.

Definition option_field {A : Type} (f : A -> string) (o : option A)
  : string :=
  match o with Some x => f x | None => "" end.

Definition serialize_Digest (d : Digest) : string :=
  string_field 1 (hash d) +++ varint_field 2 (size_bytes d).

Definition serialize_Property (p : Property) : string :=
  string_field 1 (name p) +++ string_field 2 (value p).

Definition serialize_Platform (p : Platform) : string :=
  repeated (fun x => delimited 1 (serialize_Property x)) (properties p).

Definition serialize_Command (c : Command) : string :=
  repeated (delimited 1) (arguments c)
  +++ repeated (fun x => delimited 2 (serialize_Property x))
        (environment_variables c)
  +++ repeated (delimited 3) (output_files c)
  +++ repeated (delimited 4) (output_directories c)
  +++ option_field (fun p => delimited 5 (serialize_Platform p))
        (platform c)
  +++ string_field 6 (working_directory c)
  +++ repeated (delimited 7) (output_paths c).

Definition serialize_Action (a : Action) : string :=
  delimited 1 (serialize_Digest (command_digest a))
  +++ delimited 2 (serialize_Digest (input_root_digest a))
  +++ bool_field 7 (do_not_cache a)
  +++ string_field 9 (salt a)
  +++ option_field (fun p => delimited 10 (serialize_Platform p))
        (action_platform a).

End Proto.

(* ================================================================== *)
(** ** src/src/env.h: the configured REAPI version *)

Module EnvVersion.
Import StdString.

Definition digit_value (c : ascii) : option Z :=
  let n := nat_of_ascii c in
  if Nat.leb 48 n && Nat.leb n 57 then Some (Z.of_nat (n - 48)) else None.

(** Modelled from the spec: [Env::version_string_to_pair] is declared in
    env.h and defined in env.cpp, which is not among the sources.  The
    spec gives the supported versions as 2.0, 2.1 and 2.2, and
    src/test/env/env_reapi_version.t.cpp the results: "0.1", "2.0" and
    "2.2" give their two numbers, while "2", "2.0.0", "3.14" and
    "versionFoo" throw [std::invalid_argument]: a version is one digit, a
    dot and one digit. *)
Definition version_string_to_pair (version : string) : outcome (Z * Z) :=
  match version with
  | String a (String d (String b EmptyString)) =>
      match digit_value a, Ascii.eqb d dot, digit_value b with
      | Some major, true, Some minor => Ret (major, minor)
      | _, _, _ => Throws InvalidArgument
      end
  | _ => Throws InvalidArgument
  end.

(** [operator>=] on [std::pair<int, int>] *)
Definition pair_ge (p q : Z * Z) : bool :=
  ((fst q <? fst p) || ((fst p =? fst q) && (snd q <=? snd p)))%Z.

(** Modelled from the spec: [Env::configured_reapi_version_equal_to_or_
    newer_than], defined in env.cpp: the comparison of the pair of
    [RECC_REAPI_VERSION] with the pair of the argument ("the negotiated
    REAPI version >= 2.1"); the test has 2.0 newer than 1.9 and 2.0 and
    not newer than 2.1. *)
Definition configured_reapi_version_equal_to_or_newer_than
           (env : Env) (version : string) : outcome bool :=
  configured <- version_string_to_pair (RECC_REAPI_VERSION env) ;;
  wanted <- version_string_to_pair version ;;
  Ret (pair_ge configured wanted).

End EnvVersion.

(* ================================================================== *)
(** ** src/src/actionbuilder.cpp *)

(** [buildboxcommon::digest_string_map] *)
Definition digest_string_map : Type := list (Proto.Digest * string).

Definition Digest_eqb (a b : Proto.Digest) : bool :=
  String.eqb (Proto.hash a) (Proto.hash b)
  && N.eqb (Proto.size_bytes a) (Proto.size_bytes b).

(** The assignment to the entry of [digest] in the blob map. *)
Fixpoint blobs_assign (digest : Proto.Digest) (bytes : string)
         (blobs : digest_string_map) : digest_string_map :=
  match blobs with
  | [] => [(digest, bytes)]
  | (d, b) :: rest =>
      if Digest_eqb d digest then (d, bytes) :: rest
      else (d, b) :: blobs_assign digest bytes rest
  end.

(** The buildboxcommon library as [ActionBuilder::BuildAction] uses it:
    the digest function, the files and the Merkle tree.  What the
    library does on a path is not part of the repository; the operations
    that read the file system or may refuse a path return an outcome. *)
Record BuildTools : Type := {
  (* the digest function selected by RECC_CAS_DIGEST_FUNCTION *)
  digest_hash : string -> string;
  (* buildboxcommon::NestedDirectory and its default constructor *)
  NestedDirectory : Type;
  NestedDirectory_new : NestedDirectory;
  (* buildboxcommon::make_nesteddirectory(path, fileMap, false): the
     tree of the directory and the map it fills *)
  make_nesteddirectory :
    string -> digest_string_map
    -> outcome (NestedDirectory * digest_string_map);
  (* a new NestedDirectory after d_subdirs->emplace(name, directory) *)
  d_subdirs_emplace : string -> NestedDirectory -> NestedDirectory;
  (* buildboxcommon::File(path) and its member d_digest *)
  File : Type;
  File_new : string -> outcome File;
  d_digest : File -> Proto.Digest;
  (* NestedDirectory::add(file, path), addDirectory(path) and
     tryAddSymlink(target, path) *)
  NestedDirectory_add :
    File -> string -> NestedDirectory -> outcome NestedDirectory;
  addDirectory : string -> NestedDirectory -> outcome NestedDirectory;
  tryAddSymlink :
    string -> string -> NestedDirectory -> outcome NestedDirectory;
  (* NestedDirectory::to_digest(blobs) *)
  to_digest :
    NestedDirectory -> digest_string_map -> Proto.Digest * digest_string_map;
  (* what the threads of ThreadUtils::parallelizeContainerOperations
     leave of the tree and the map when they add the dependencies of
     the list (50 or more, RECC_MAX_THREADS not 0) under the working
     directory: the source does not fix the order of their writes *)
  threaded_merkle_tree :
    list (string * string) -> string
    -> NestedDirectory * digest_string_map
    -> outcome (NestedDirectory * digest_string_map)
}.

(** What [BuildAction] hands back with an action: the action, its
    command, the map behind [blobs], the products stored through
    [productsPtr], and the global [RECC_ENV_TO_READ] as
    [prepareRemoteEnv] leaves it. *)
Record BuildResult : Type := {
  built_action : Proto.Action;
  built_command : Proto.Command;
  built_blobs : digest_string_map;
  built_products : sset;
  built_env_to_read : sset
}.

(** [std::map<std::string, std::string>]: the entries in the order of
    iteration, ascending in the key. *)
Definition string_map : Type := list (string * string).

(** [map[key] = value] *)
Fixpoint map_assign (key value : string) (m : string_map) : string_map :=
  match m with
  | [] => [(key, value)]
  | (k, v) :: m' =>
      match String.compare key k with
      | Lt => (key, value) :: (k, v) :: m'
      | Eq => (k, value) :: m'
      | Gt => (k, v) :: map_assign key value m'
      end
  end.

(** What [ActionBuilder::prepareRemoteEnv] reads beside [Env]: two more
    variables of src/src/env.h and the environment of the process.  The
    entries of [environ] and the values of [getenv] are C strings. *)
Record ProcessEnv : Type := {
  RECC_PRESERVE_ENV : bool;
  RECC_REMOTE_ENV : string_map;
  (* environ: the entries before the null pointer *)
  environ : list string;
  (* getenv; [None] is the null pointer *)
  getenv : string -> option string
}.

Module ActionBuilder.
Import StdString.

(** [parentsNeeded = std::max(parentsNeeded, parentDirectoryLevels(p))]
    for every path of a container. *)
Fixpoint max_parent_levels (paths : list string) (parentsNeeded : Z)
  : outcome Z :=
  match paths with
  | [] => Ret parentsNeeded
  | path :: rest =>
      levels <- FileUtils.parentDirectoryLevels path ;;
      max_parent_levels rest (Z.max parentsNeeded levels)
  end.

(** [ActionBuilder::commonAncestorPath]; a dependency is the pair of the
    local path and the path in the Merkle tree. *)
Definition commonAncestorPath (dependencies : list (string * string))
           (products : sset) (workingDirectory : string) : outcome string :=
  parentsNeeded <- max_parent_levels (map snd dependencies) 0 ;;
  parentsNeeded <- max_parent_levels products parentsNeeded ;;
  FileUtils.lastNSegments workingDirectory parentsNeeded.

(** [ActionBuilder::prefixWorkingDirectory] *)
Definition prefixWorkingDirectory (workingDirectory prefix : string)
  : string :=
  if empty prefix then workingDirectory
  else prefix +++ "/" +++ workingDirectory.

Section WithHost.
Variable h : Host.
Variable env : Env.
Variable tools : BuildTools.

(** [DigestGenerator::make_digest]: the hash of the serialized message
    and its length. *)
Definition make_digest (serialized : string) : Proto.Digest :=
  {| Proto.hash := digest_hash tools serialized;
     Proto.size_bytes := N.of_nat (String.length serialized) |}.

(** The platform loop of [populateCommandProto]: properties with an
    empty value are skipped, and the platform exists once one is
    added. *)
Definition platform_of (platformProperties : list (string * string))
  : option Proto.Platform :=
  match filter (fun kv => negb (empty (snd kv))) platformProperties with
  | [] => None
  | kept =>
      Some {| Proto.properties :=
                map (fun kv => {| Proto.name := fst kv;
                                  Proto.value := snd kv |}) kept |}
  end.

(** [ActionBuilder::populateCommandProto] *)
Definition populateCommandProto (command : list string)
           (outputFiles outputDirectories : sset)
           (remoteEnvironment platformProperties : list (string * string))
           (workingDirectory : string) : outcome Proto.Command :=
  outputPathsSupported <-
    EnvVersion.configured_reapi_version_equal_to_or_newer_than env
      "2.1" ;;
  Ret {| Proto.arguments := command;
         Proto.environment_variables :=
           map (fun kv => {| Proto.name := fst kv;
                             Proto.value := snd kv |})
             remoteEnvironment;
         Proto.output_files :=
           if outputPathsSupported then [] else outputFiles;
         Proto.output_directories :=
           if outputPathsSupported then [] else outputDirectories;
         Proto.platform := platform_of platformProperties;
         Proto.working_directory := workingDirectory;
         Proto.output_paths :=
           if outputPathsSupported
           then outputFiles ++ outputDirectories else [] |}.

(** [ActionBuilder::generateCommandProto] *)
Definition generateCommandProto (command : list string)
           (products outputDirectories : sset)
           (remoteEnvironment platformProperties : list (string * string))
           (workingDirectory : string) : outcome Proto.Command :=
  let resolvedWorkingDirectory :=
    FileUtils.resolvePathFromPrefixMap h env workingDirectory in
  populateCommandProto command products outputDirectories
    remoteEnvironment platformProperties resolvedWorkingDirectory.

(** The digest of the action, as the callers of [BuildAction] compute
    it. *)
Definition action_digest (a : Proto.Action) : Proto.Digest :=
  make_digest (Proto.serialize_Action a).

End WithHost.

(** [ActionBuilder::populateRemoteEnvWithNonReccVars];
    [envItem.rfind("RECC_", 0) == 0] holds when [envItem] begins with
    "RECC_". *)
Fixpoint populateRemoteEnvWithNonReccVars (env : list string)
         (remoteEnv : string_map) : outcome string_map :=
  match env with
  | [] => Ret remoteEnv
  | envItem :: rest =>
      if String.prefix "RECC_" envItem
      then populateRemoteEnvWithNonReccVars rest remoteEnv
      else
        match find "="%char envItem with
        | None => Throws RuntimeError
        | Some equalsPosition =>
            let key := take equalsPosition envItem in
            let value := drop (S equalsPosition) envItem in
            populateRemoteEnvWithNonReccVars rest
              (map_assign key value remoteEnv)
        end
  end.

(** [s.find(c, pos)] *)
Definition find_from (c : ascii) (pos : nat) (s : string) : option nat :=
  match find c (drop pos s) with
  | Some i => Some (pos + i)
  | None => None
  end.

(** "Environment variables which have path-like segments delimited by
    ':'" *)
Definition pathLikeEnv : list string :=
  ["PATH"; "LD_LIBRARY_PATH"; "CPATH"; "C_INCLUDE_PATH";
   "CPLUS_INCLUDE_PATH"; "OBJC_INCLUDE_PATH"; "OBJCPLUS_INCLUDE_PATH";
   "COMPILER_PATH"; "LIBRARY_PATH"; "LIB_PATH"].

(** The variables that [prepareRemoteEnv] inserts into an empty
    [RECC_ENV_TO_READ]. *)
Definition default_env_to_read (command : ParsedCommand)
           (RECC_ENV_TO_READ : sset) : sset :=
  let s :=
    SSet.insert_all
      ["PATH"; "LD_LIBRARY_PATH"; "LANG"; "LC_CTYPE"; "LC_MESSAGES";
       "LC_ALL"] RECC_ENV_TO_READ in
  let s :=
    if is_gcc command || is_clang command
    then SSet.insert_all
           ["CPATH"; "C_INCLUDE_PATH"; "CPLUS_INCLUDE_PATH";
            "OBJC_INCLUDE_PATH"; "OBJCPLUS_INCLUDE_PATH";
            "SOURCE_DATE_EPOCH"] s
    else s in
  let s :=
    if is_gcc command
    then SSet.insert_all
           ["GCC_COMPARE_DEBUG"; "GCC_EXEC_PREFIX"; "COMPILER_PATH";
            "LIBRARY_PATH"; "GCC_EXTRA_DIAGNOSTIC_OUTPUT";
            "DEPENDENCIES_OUTPUT"; "GOMP_CPU_AFFINITY"; "GOMP_DEBUG";
            "GOMP_STACKSIZE"; "GOMP_SPINCOUNT";
            "GOMP_RTEMS_THREAD_POOLS"] s
    else s in
  let s :=
    if is_gcc command || is_sun_studio command
    then SSet.insert_all ["SUNPRO_DEPENDENCIES"] s
    else s in
  let s :=
    if is_sun_studio command
    then SSet.insert_all ["PARALLEL"; "STACKSIZE"] s
    else s in
  let s :=
    if is_AIX command
    then SSet.insert_all
           ["LIBPATH"; "NLSPATH"; "OBJECT_MODE"; "XLC_USR_CONFIG"] s
    else s in
  SSet.insert_all
    ["OMP_CANCELLATION"; "OMP_DISPLAY_ENV"; "OMP_DYNAMIC";
     "OMP_MAX_ACTIVE_LEVELS"; "OMP_MAX_TASK_PRIORITY"; "OMP_NESTED";
     "OMP_NUM_TEAMS"; "OMP_NUM_THREADS"; "OMP_PROC_BIND"; "OMP_PLACES";
     "OMP_STACKSIZE"; "OMP_SCHEDULE"; "OMP_TARGET_OFFLOAD";
     "OMP_TEAMS_THREAD_LIMIT"; "OMP_THREAD_LIMIT"; "OMP_WAIT_POLICY"] s.

Section RemoteEnvironment.
Variable h : Host.
Variable env : Env.
Variable penv : ProcessEnv.

(** The loop of [prepareRemoteEnv] over the pieces of a path-like value
    and the statements after it that "grab the last path". *)
Fixpoint resolve_pieces (fuel : nat) (pathPart : string)
         (delim_prev : nat) (pathMapEnv : string) : outcome string :=
  match find_from ":"%char delim_prev pathPart with
  | Some delim_pos =>
      match fuel with
      | O => Diverged
      | S fuel' =>
          let pathPiece :=
            substring delim_prev (delim_pos - delim_prev) pathPart in
          let pathMapEnv :=
            if negb (empty pathPiece)
            then pathMapEnv
                 +++ (FileUtils.resolvePathFromPrefixMap h env pathPiece
                      +++ ":")
            else pathMapEnv in
          resolve_pieces fuel' pathPart (delim_pos + 1) pathMapEnv
      end
  | None =>
      let pathPiece := drop delim_prev pathPart in
      Ret (if negb (empty pathPiece)
           then pathMapEnv
                +++ FileUtils.resolvePathFromPrefixMap h env pathPiece
           else pathMapEnv)
  end.

(** The body of the loop over [RECC_ENV_TO_READ]. *)
Definition read_variable (remoteEnv : string_map) (envVar : string)
  : outcome string_map :=
  match getenv penv (c_str envVar) with
  | None => Ret remoteEnv
  | Some envVal =>
      if SSet.count envVar pathLikeEnv && negb (empty envVal)
      then
        let pathPart := envVal in
        pathMapEnv <-
          resolve_pieces (S (String.length pathPart)) pathPart 0 "" ;;
        Ret (map_assign envVar pathMapEnv remoteEnv)
      else Ret (map_assign envVar envVal remoteEnv)
  end.

Fixpoint read_variables (variables : list string) (remoteEnv : string_map)
  : outcome string_map :=
  match variables with
  | [] => Ret remoteEnv
  | envVar :: rest =>
      remoteEnv <- read_variable remoteEnv envVar ;;
      read_variables rest remoteEnv
  end.

(** [ActionBuilder::prepareRemoteEnv]; the global [RECC_ENV_TO_READ],
    which the function fills when it is empty, is passed in and handed
    back. *)
Definition prepareRemoteEnv (command : ParsedCommand)
           (RECC_ENV_TO_READ : sset) : outcome (string_map * sset) :=
  populated <-
    (if RECC_PRESERVE_ENV penv then
       remoteEnv <- populateRemoteEnvWithNonReccVars (environ penv) [] ;;
       Ret (remoteEnv, RECC_ENV_TO_READ)
     else if SSet.is_empty RECC_ENV_TO_READ then
       Ret ([], default_env_to_read command RECC_ENV_TO_READ)
     else Ret ([], RECC_ENV_TO_READ)) ;;
  let '(remoteEnv, RECC_ENV_TO_READ) := populated in
  remoteEnv <- read_variables RECC_ENV_TO_READ remoteEnv ;;
  Ret (fold_left
         (fun remoteEnv overrideElem =>
            map_assign (fst overrideElem) (snd overrideElem) remoteEnv)
         (RECC_REMOTE_ENV penv) remoteEnv,
       RECC_ENV_TO_READ).

End RemoteEnvironment.

(** [s.find(needle)] *)
Fixpoint find_string (needle s : string) : option nat :=
  if String.prefix needle s then Some 0
  else
    match s with
    | EmptyString => None
    | String _ s' =>
        match find_string needle s' with
        | Some i => Some (S i)
        | None => None
        end
    end.

(** [s.find(needle, pos)] for a needle that is not empty *)
Definition find_string_from (needle : string) (pos : nat) (s : string)
  : option nat :=
  match find_string needle (drop pos s) with
  | Some i => Some (pos + i)
  | None => None
  end.

Section Building.
Variable h : Host.
Variable env : Env.
Variable penv : ProcessEnv.
Variable dtools : DepsTools.
Variable tools : BuildTools.

(** [normalize_replace_root] *)
Definition normalize_replace_root (path : string) : outcome string :=
  let replacedRoot := FileUtils.resolvePathFromPrefixMap h env path in
  relativePath <-
    FileUtils.rewritePathToRelative h env replacedRoot
      (RECC_PROJECT_ROOT env) ;;
  let relativePath :=
    if negb (front_is slash relativePath)
       && negb (empty (RECC_WORKING_DIR_PREFIX env))
    then (RECC_WORKING_DIR_PREFIX env +++ "/") +++ relativePath
    else relativePath in
  Ret (normalizePath h relativePath).

(** The loop of [getMerklePath] over the occurrences of "/../": the
    directories before a ".." are added to the tree.  [pos] grows by
    three or more in every iteration, so the length of the path is fuel
    enough. *)
Fixpoint add_directories_before_dotdot (fuel : nat) (merklePath : string)
         (pos : nat) (nestedDirectory : NestedDirectory tools)
  : outcome (NestedDirectory tools) :=
  match find_string_from "/../" pos merklePath with
  | None => Ret nestedDirectory
  | Some dotdot =>
      match fuel with
      | O => Diverged
      | S fuel' =>
          nestedDirectory <-
            (if negb (Nat.eqb dotdot pos) then
               let merkleDirectoryPath :=
                 normalizePath h (take dotdot merklePath) in
               addDirectory tools merkleDirectoryPath nestedDirectory
             else Ret nestedDirectory) ;;
          add_directories_before_dotdot fuel' merklePath (dotdot + 3)
            nestedDirectory
      end
  end.

(** [getMerklePath]; the empty path is the answer for a path that is
    left out. *)
Definition getMerklePath (path cwd : string)
           (nestedDirectory : NestedDirectory tools)
  : outcome (string * NestedDirectory tools) :=
  let merklePath :=
    if negb (front_is slash path) && negb (empty cwd)
    then (cwd +++ "/") +++ path else path in
  nestedDirectory <-
    add_directories_before_dotdot (String.length merklePath) merklePath 0
      nestedDirectory ;;
  let merklePath := normalizePath h merklePath in
  if (front_is slash merklePath && negb (RECC_DEPS_GLOBAL_PATHS env))
     || FileUtils.hasPathPrefixes merklePath (RECC_DEPS_EXCLUDE_PATHS env)
  then Ret ("", nestedDirectory)
  else Ret (merklePath, nestedDirectory).

(** [addFileToMerkleTreeHelper] *)
Definition addFileToMerkleTreeHelper (dep_paths : string * string)
           (cwd : string)
           (tree : NestedDirectory tools * digest_string_map)
  : outcome (NestedDirectory tools * digest_string_map) :=
  let '(nestedDirectory, digest_to_filepaths) := tree in
  found <- getMerklePath (snd dep_paths) cwd nestedDirectory ;;
  let '(merklePath, nestedDirectory) := found in
  if empty merklePath then
    (* Path is excluded *)
    Ret (nestedDirectory, digest_to_filepaths)
  else
    file <- File_new tools (fst dep_paths) ;;
    nestedDirectory <-
      NestedDirectory_add tools file merklePath nestedDirectory ;;
    Ret (nestedDirectory,
         blobs_assign (d_digest tools file) (fst dep_paths)
           digest_to_filepaths).

(** [addDirectoryToMerkleTreeHelper] *)
Definition addDirectoryToMerkleTreeHelper (path cwd : string)
           (nestedDirectory : NestedDirectory tools)
  : outcome (NestedDirectory tools) :=
  found <- getMerklePath path cwd nestedDirectory ;;
  let '(merklePath, nestedDirectory) := found in
  if empty merklePath then Ret nestedDirectory
  else addDirectory tools merklePath nestedDirectory.

(** [addSymlinkToMerkleTreeHelper] *)
Definition addSymlinkToMerkleTreeHelper (paths : string * string)
           (cwd : string) (nestedDirectory : NestedDirectory tools)
  : outcome (NestedDirectory tools) :=
  found <- getMerklePath (snd paths) cwd nestedDirectory ;;
  let '(merklePath, nestedDirectory) := found in
  if empty merklePath then Ret nestedDirectory
  else
    st <- FileUtils.getStat_nofollow h (c_str (fst paths)) ;;
    target <- FileUtils.getSymlinkContents h (c_str (fst paths)) st ;;
    tryAddSymlink tools target merklePath nestedDirectory.

(** The function [createMerkleTreeFromIterators] of [buildMerkleTree] on
    a range of the dependencies. *)
Fixpoint createMerkleTreeFromIterators (range : list (string * string))
         (cwd : string)
         (tree : NestedDirectory tools * digest_string_map)
  : outcome (NestedDirectory tools * digest_string_map) :=
  match range with
  | [] => Ret tree
  | dep_paths :: rest =>
      tree <- addFileToMerkleTreeHelper dep_paths cwd tree ;;
      createMerkleTreeFromIterators rest cwd tree
  end.

(** [ActionBuilder::buildMerkleTree] with
    [ThreadUtils::parallelizeContainerOperations]: fewer than 50
    dependencies, or all with RECC_MAX_THREADS = 0, are added in their
    order by the calling thread. *)
Definition buildMerkleTree (dependency_paths : list (string * string))
           (cwd : string)
           (tree : NestedDirectory tools * digest_string_map)
  : outcome (NestedDirectory tools * digest_string_map) :=
  if Nat.ltb (List.length dependency_paths) 50
     || (RECC_MAX_THREADS env =? 0)%Z
  then createMerkleTreeFromIterators dependency_paths cwd tree
  else threaded_merkle_tree tools dependency_paths cwd tree.

(** [ActionBuilder::getDependencies]: the dependencies, and the products
    after the call. *)
Definition getDependencies (command : ParsedCommand) (products : sset)
  : outcome (sset * sset) :=
  fileInfo <-
    (if is_linker_command command
     then LinkDeps_get_file_info dtools command
     else Deps.get_file_info h env dtools command) ;;
  Ret (d_dependencies fileInfo,
       if SSet.is_empty (RECC_OUTPUT_DIRECTORIES_OVERRIDE env)
          && SSet.is_empty (RECC_OUTPUT_FILES_OVERRIDE env)
       then d_possibleProducts fileInfo
       else products).

(** Lines 488-519 of [BuildAction]: the dependencies and the products.
    Both handlers of the try block return the null pointer, which is
    [None] here. *)
Definition dependencies_and_products (command : ParsedCommand)
  : outcome (option (sset * sset)) :=
  let products := RECC_OUTPUT_FILES_OVERRIDE env in
  if SSet.is_empty (RECC_DEPS_OVERRIDE env)
     && negb (RECC_FORCE_REMOTE env)
  then
    match getDependencies command products with
    | Ret (deps, products) =>
        if SSet.is_empty deps then
          (* No deps found. Running locally. *)
          Ret None
        else if SSet.is_empty products then
          (* No products found. Running locally. *)
          Ret None
        else Ret (Some (deps, products))
    | Throws _ => Ret None
    | Undefined => Undefined
    | Diverged => Diverged
    end
  else Ret (Some (RECC_DEPS_OVERRIDE env, products)).

(** Lines 524-537: the pairs of the local path of a dependency and its
    path in the Merkle tree. *)
Fixpoint dep_path_pairs (deps : list string) (cwd : string)
  : outcome (list (string * string)) :=
  match deps with
  | [] => Ret []
  | dep :: rest =>
      modifiedDep <-
        (if front_is slash dep then
           FileUtils.rewritePathToRelative h env
             (FileUtils.resolvePathFromPrefixMap h env dep) cwd
         else Ret dep) ;;
      pairs <- dep_path_pairs rest cwd ;;
      Ret ((dep, modifiedDep) :: pairs)
  end.

(** [for (x : paths) addDirectoryToMerkleTreeHelper(x, cwd, &tree)] *)
Fixpoint add_include_dirs (paths : list string) (cwd : string)
         (nestedDirectory : NestedDirectory tools)
  : outcome (NestedDirectory tools) :=
  match paths with
  | [] => Ret nestedDirectory
  | include_dir :: rest =>
      nestedDirectory <-
        addDirectoryToMerkleTreeHelper include_dir cwd nestedDirectory ;;
      add_include_dirs rest cwd nestedDirectory
  end.

(** The loop of [BuildAction] over RECC_DEPS_EXTRA_SYMLINKS. *)
Fixpoint add_extra_symlinks (paths : list string)
         (cwd commandWorkingDirectory : string)
         (nestedDirectory : NestedDirectory tools)
  : outcome (NestedDirectory tools) :=
  match paths with
  | [] => Ret nestedDirectory
  | symlinkPath :: rest =>
      nestedDirectory <-
        (if isSymlinkPath h symlinkPath then
           replacedPath <-
             FileUtils.modifyPathForRemote h env symlinkPath cwd true ;;
           addSymlinkToMerkleTreeHelper (symlinkPath, replacedPath)
             commandWorkingDirectory nestedDirectory
         else Ret nestedDirectory) ;;
      add_extra_symlinks rest cwd commandWorkingDirectory nestedDirectory
  end.

(** Lines 455-577 of [BuildAction]: the products, the Merkle tree, the
    working directory of the command and the map behind
    [digest_to_filepaths]; [None] is the return of the null pointer. *)
Definition gather_inputs (command : ParsedCommand) (cwd : string)
           (digest_to_filepaths : digest_string_map)
  : outcome (option (sset * NestedDirectory tools * string
                     * digest_string_map)) :=
  gathered <-
    (if negb (empty (RECC_DEPS_DIRECTORY_OVERRIDE env)) then
       made <-
         make_nesteddirectory tools (RECC_DEPS_DIRECTORY_OVERRIDE env)
           digest_to_filepaths ;;
       let '(nestedDirectory, digest_to_filepaths) := made in
       replacedRoot <-
         normalize_replace_root (RECC_DEPS_DIRECTORY_OVERRIDE env) ;;
       (* Create parent directory structure based on the
          normalized/replaced path. *)
       pathComponents <- FileUtils.parseDirectories replacedRoot ;;
       let nestedDirectory :=
         fold_left (fun nestedDirectory name =>
                      d_subdirs_emplace tools name nestedDirectory)
           (rev pathComponents) nestedDirectory in
       Ret (Some (RECC_OUTPUT_FILES_OVERRIDE env, nestedDirectory,
                  RECC_WORKING_DIR_PREFIX env, digest_to_filepaths))
     else
       found <- dependencies_and_products command ;;
       match found with
       | None => Ret None
       | Some (deps, products) =>
           pairs <- dep_path_pairs deps cwd ;;
           commandWorkingDirectory <-
             (if RECC_NO_PATH_REWRITE env
                 && empty (RECC_WORKING_DIR_PREFIX env)
              then Ret (FileUtils.skip_slashes cwd)
              else
                commonAncestor <- commonAncestorPath pairs products cwd ;;
                Ret (prefixWorkingDirectory commonAncestor
                       (RECC_WORKING_DIR_PREFIX env))) ;;
           tree <-
             buildMerkleTree pairs commandWorkingDirectory
               (NestedDirectory_new tools, digest_to_filepaths) ;;
           let '(nestedDirectory, digest_to_filepaths) := tree in
           Ret (Some (products, nestedDirectory, commandWorkingDirectory,
                      digest_to_filepaths))
       end) ;;
  match gathered with
  | None => Ret None
  | Some (products, nestedDirectory, commandWorkingDirectory,
          digest_to_filepaths) =>
      located <-
        (if negb (empty commandWorkingDirectory) then
           let commandWorkingDirectory :=
             normalizePath h commandWorkingDirectory in
           nestedDirectory <-
             addDirectory tools commandWorkingDirectory nestedDirectory ;;
           Ret (commandWorkingDirectory, nestedDirectory)
         else Ret (commandWorkingDirectory, nestedDirectory)) ;;
      let '(commandWorkingDirectory, nestedDirectory) := located in
      nestedDirectory <-
        (if d_upload_all_include_dirs command
         then add_include_dirs (d_includeDirs command)
                commandWorkingDirectory nestedDirectory
         else Ret nestedDirectory) ;;
      nestedDirectory <-
        add_extra_symlinks (RECC_DEPS_EXTRA_SYMLINKS env) cwd
          commandWorkingDirectory nestedDirectory ;;
      Ret (Some (products, nestedDirectory, commandWorkingDirectory,
                 digest_to_filepaths))
  end.

(** [ActionBuilder::BuildAction].  The first component is the action,
    [None] for the null pointer; the second is the map behind
    [digest_to_filepaths] after the call.  [RECC_ENV_TO_READ] is the
    global that [prepareRemoteEnv] fills. *)
Definition BuildAction (command : ParsedCommand) (cwd : string)
           (blobs digest_to_filepaths : digest_string_map)
           (RECC_ENV_TO_READ : sset)
  : outcome (option BuildResult * digest_string_map) :=
  if negb (is_compiler_command command)
     && negb (is_linker_command command)
     && negb (RECC_FORCE_REMOTE env)
  then Ret (None, digest_to_filepaths)
  else
    gathered <- gather_inputs command cwd digest_to_filepaths ;;
    match gathered with
    | None => Ret (None, digest_to_filepaths)
    | Some (products, nestedDirectory, commandWorkingDirectory,
            digest_to_filepaths) =>
        if existsb (fun product =>
                      negb (empty product) && front_is slash product)
             products
        then
          (* Command produces file in a location unrelated to the
             current directory, so running locally. *)
          Ret (None, digest_to_filepaths)
        else
          let '(directoryDigest, blobs) :=
            to_digest tools nestedDirectory blobs in
          let products :=
            if RECC_LINK_METRICS_ONLY env && is_linker_command command
               && negb (RECC_FORCE_REMOTE env)
            then [] else products in
          prepared <- prepareRemoteEnv h env penv command RECC_ENV_TO_READ ;;
          let '(remoteEnv, RECC_ENV_TO_READ) := prepared in
          commandProto <-
            generateCommandProto h env (get_command command) products
              (RECC_OUTPUT_DIRECTORIES_OVERRIDE env) remoteEnv
              (RECC_REMOTE_PLATFORM env) commandWorkingDirectory ;;
          let serializedCommand := Proto.serialize_Command commandProto in
          let commandDigest := make_digest tools serializedCommand in
          let blobs := blobs_assign commandDigest serializedCommand blobs in
          withPlatform <-
            EnvVersion.configured_reapi_version_equal_to_or_newer_than
              env "2.2" ;;
          let action :=
            {| Proto.command_digest := commandDigest;
               Proto.input_root_digest := directoryDigest;
               Proto.do_not_cache := RECC_ACTION_UNCACHEABLE env;
               Proto.salt :=
                 if negb (empty (RECC_ACTION_SALT env))
                 then RECC_ACTION_SALT env else "";
               Proto.action_platform :=
                 if withPlatform
                 then Some (Proto.Command_platform commandProto)
                 else None |} in
          Ret (Some {| built_action := action;
                       built_command := commandProto;
                       built_blobs := blobs;
                       built_products := products;
                       built_env_to_read := RECC_ENV_TO_READ |},
               digest_to_filepaths)
    end.

End Building.

End ActionBuilder.

(* ================================================================== *)
(** ** A concrete host and configuration *)

Module Lexical.
Import StdString.

(** The segments the loop of [normalizePath] visits: the pieces between
    slashes, without a final empty piece. *)
Definition segments (path : string) : list string :=
  Parser.getline_tokens slash path "".

(** The treatment of one segment; the vector [segments] is kept with its
    back at the head of the list. *)
Definition visit (global : bool) (stack : list string) (segment : string)
  : list string :=
  match stack with
  | top :: rest =>
      if String.eqb segment ".." && negb (String.eqb top "..") then rest
      else if String.eqb segment ".." && global then stack
      else if negb (String.eqb segment ".")
              && negb (String.eqb segment "")
      then segment :: stack
      else stack
  | [] =>
      if String.eqb segment ".." && global then stack
      else if negb (String.eqb segment ".")
              && negb (String.eqb segment "")
      then segment :: stack
      else stack
  end.

(** [result += segment + "/"] for every segment, then [pop_back()]. *)
Fixpoint join (segs : list string) : string :=
  match segs with
  | [] => ""
  | [s] => s
  | s :: rest => s +++ String slash (join rest)
  end.

Definition render (global : bool) (stack : list string) : string :=
  match stack with
  | [] => if global then "/" else "."
  | _ => (if global then "/" else "") +++ join (rev stack)
  end.

(** Modelled from the spec: [buildboxcommon::FileUtils::normalizePath]
    belongs to the buildboxcommon library, not to these sources.  The
    spec has it collapse ".", ".." and double-slash segments without
    touching the file system: segments are pushed on a stack, ".." pops
    a segment that is not "..", is dropped at the root of an absolute
    path and is kept otherwise, empty and "." segments are skipped, and
    the empty relative path is ".". *)
Definition normalizePath (path : string) : string :=
  let global := front_is slash path in
  render global (fold_left (visit global) (segments path) []).

End Lexical.

Module Example.

(** A host with an empty file system, built for Linux. *)
Definition host : Host :=
  {| normalizePath := Lexical.normalizePath;
     makePathRelative := fun path _ => Some path;
     isDirectory := fun _ => false;
     isRegularFile := fun _ => false;
     isSymlinkPath := fun _ => false;
     getPathToCommand := fun path => path;
     sys_lstat := fun _ => None;
     sys_readlink := fun _ => None;
     built_for_sun := false;
     platform_compiler := None;
     aix_temporary_file := "/tmp/recc-aix-deps" |}.

(** The configuration without project root, prefix map or overrides, at
    the REAPI version [version] and with the salt [salt]. *)
Definition env_at (version : string) (salt : string) : Env :=
  {| RECC_PROJECT_ROOT := "";
     RECC_PREFIX_REPLACEMENT := [];
     RECC_NO_PATH_REWRITE := false;
     RECC_DEPS_GLOBAL_PATHS := false;
     RECC_VERBOSE := false;
     RECC_FORCE_REMOTE := false;
     RECC_LINK_METRICS_ONLY := false;
     RECC_OUTPUT_DIRECTORIES_OVERRIDE := [];
     RECC_REMOTE_PLATFORM := [("ISA", "x86"); ("OS", "linux")];
     RECC_REAPI_VERSION := version;
     RECC_ACTION_UNCACHEABLE := false;
     RECC_ACTION_SALT := salt;
     RECC_DEPS_DIRECTORY_OVERRIDE := "";
     RECC_DEPS_OVERRIDE := [];
     RECC_OUTPUT_FILES_OVERRIDE := [];
     RECC_DEPS_EXCLUDE_PATHS := [];
     RECC_DEPS_EXTRA_SYMLINKS := [];
     RECC_WORKING_DIR_PREFIX := "";
     RECC_MAX_THREADS := 4 |}.

Definition env : Env := env_at "2.2" "".

(** Modelled from the spec: compilerdefaults.h is not among the sources.
    The spec names the families gcc, clang, sun-studio and xlc/AIX, the
    indirections cc, CC and c++, the default dependency flags (gcc: -M;
    sun: -xM; AIX: -M -MF and the temporary file) and the languages that
    -x allows (c, c++, c-header, c++-header and the objective-C and
    assembler-with-cpp dialects, but not assembler or none). *)
Definition compilers : SupportedCompilers :=
  {| CCompilers := ["cc"; "c++"];
     Gcc := ["gcc"; "g++"; "c++"; "clang"; "clang++"];
     GccPreprocessor := ["gcc-preprocessor"];
     SunCPP := ["CC"];
     AIX := ["xlc"; "xlc++"; "xlC"];
     GccDefaultDeps := ["-M"];
     SunCPPDefaultDeps := ["-xM"];
     AIXDefaultDeps := ["-M"; "-MF"];
     GccSupportedLanguages :=
       ["c"; "c++"; "c-header"; "c++-header"; "objective-c";
        "objective-c++"; "assembler-with-cpp"] |}.

(** A library whose Merkle tree is the list of the paths added to it,
    the last one first (a directory with a slash at its end), and whose
    digest of a blob has as many letters as the blob has bytes. *)
Definition build_tools : BuildTools :=
  {| digest_hash := fun blob =>
       String.string_of_list_ascii
         (repeat "a"%char (String.length blob));
     NestedDirectory := list string;
     NestedDirectory_new := [];
     make_nesteddirectory := fun path files => Ret ([path +++ "/"], files);
     d_subdirs_emplace := fun name directory =>
       map (fun path => name +++ "/" +++ path) directory;
     File := string;
     File_new := fun path => Ret path;
     d_digest := fun path =>
       {| Proto.hash := path; Proto.size_bytes := 0 |};
     NestedDirectory_add := fun _ path directory => Ret (path :: directory);
     addDirectory := fun path directory => Ret ((path +++ "/") :: directory);
     tryAddSymlink := fun _ path directory => Ret (path :: directory);
     to_digest := fun _ blobs =>
       ({| Proto.hash := "root"; Proto.size_bytes := 0 |}, blobs);
     threaded_merkle_tree := fun _ _ tree => Ret tree |}.




(** A command that [BuildAction] accepts: a compiler command with its
    input file and its product. *)
Definition compile_command : ParsedCommand :=
  set_commandProducts ["hello.o"]
    (set_inputFiles ["hello.cpp"]
       (set_dependenciesCommand ["./gcc"; "-c"; "hello.cpp"; "-M"]
          (set_command ["./gcc"; "-c"; "hello.cpp"; "-o"; "hello.o"]
             (set_compilerCommand true ParsedCommand_default)))).

(** Dependency collaborators for a compiler that prints one rule. *)
Definition deps_tools : DepsTools :=
  {| LinkDeps_get_file_info := fun _ =>
       Ret {| d_dependencies := []; d_possibleProducts := [] |};
     ClangScanDeps_dependencies_for_target := fun _ _ => None;
     Subprocess_execute := fun _ =>
       {| d_exitCode := 0; d_stdOut := "foo.o: foo.c foo.h";
          d_stdErr := "" |};
     getFileContents := fun _ => Ret "";
     search_selected_gcc := fun _ => None |}.

(** A process environment: PATH has an empty piece and a final colon,
    and LANG is overridden for the remote. *)
Definition process_env : ProcessEnv :=
  {| RECC_PRESERVE_ENV := false;
     RECC_REMOTE_ENV := [("LANG", "C")];
     environ :=
       ["LANG=en_US.UTF-8"; "PATH=/usr/bin::/bin:";
        "RECC_SERVER=localhost"];
     getenv := fun name =>
       if String.eqb name "PATH" then Some "/usr/bin::/bin:"
       else if String.eqb name "LANG" then Some "en_US.UTF-8"
       else None |}.

End Example.

(* ================================================================== *)
(** ** The matching algorithm as the specification words it *)

Module RuleSpec.
Import StdString.

(** "Trim =value suffix". *)
Definition trim_value (token : string) : string :=
  match find "="%char token with
  | Some i => take i token
  | None => token
  end.

(** The token begins with '-' or '+'. *)
Definition is_flag (token : string) : bool :=
  front_is "-"%char token || front_is "+"%char token.

(** "The rule table in descending key-length order": the entries sorted
    by the length of their key, longest first. *)
Fixpoint insert_by_length (kf : string * ParseRuleFn)
         (l : list (string * ParseRuleFn)) : list (string * ParseRuleFn) :=
  match l with
  | [] => [kf]
  | x :: l' =>
      if Nat.ltb (String.length (fst x)) (String.length (fst kf))
      then kf :: x :: l'
      else x :: insert_by_length kf l'
  end.

Definition by_key_length (m : CompilerParseRulesMap)
  : list (string * ParseRuleFn) :=
  fold_right insert_by_length [] m.

(** "The first key that is a prefix of the token wins." *)
Definition first_prefix_by_length (token : string)
           (m : CompilerParseRulesMap) : option (string * ParseRuleFn) :=
  List.find (fun kf => String.prefix (fst kf) token) (by_key_length m).

End RuleSpec.

(* ================================================================== *)
(** ** Notions used in the statements *)

(** The state of the scanner inside the body of a GNU rule. *)
Definition in_body (r : sset) (cur : string) : MakeRules.state :=
  {| MakeRules.result := r;
     MakeRules.saw_colon_on_line := true;
     MakeRules.saw_backslash := false;
     MakeRules.current_filename := cur |}.

(** [a] comes before [b] in a map ordered by [std::greater]. *)
Definition key_gt (a b : string * ParseRuleFn) : Prop :=
  String.compare (fst b) (fst a) = Lt.

(** The invariant of [CompilerParseRulesMap]: strictly descending keys. *)
Definition map_ordered (m : CompilerParseRulesMap) : Prop :=
  StronglySorted key_gt m.

(** [x] is an entry of [m] whose key is a prefix of [t], and no entry of
    [m] has a longer key that is one. *)
Definition longest_prefix (t : string) (m : list (string * ParseRuleFn))
           (x : string * ParseRuleFn) : Prop :=
  In x m /\ String.prefix (fst x) t = true
  /\ forall y, In y m -> String.prefix (fst y) t = true ->
               String.length (fst y) <= String.length (fst x).

(** [a] comes before [b] in descending key-length order. *)
Definition length_ge (a b : string * ParseRuleFn) : Prop :=
  String.length (fst b) <= String.length (fst a).

(** What the rule functions keep of a command: the linker flag, a set
    unsupported mark, and (except for -c) the compiler flag; [k] tokens
    at least leave [d_originalCommand]. *)
Definition evolves (k : nat) (c c' : ParsedCommand) : Prop :=
  d_linkerCommand c' = d_linkerCommand c
  /\ d_compilerCommand c' = d_compilerCommand c
  /\ (d_containsUnsupportedOptions c = true ->
      d_containsUnsupportedOptions c' = true)
  /\ List.length (d_originalCommand c') + k
     <= List.length (d_originalCommand c).

(** No entry of the table points to [parseIsCompileOption]. *)
Definition without_compile_rule (rules : CompilerParseRulesMap) : Prop :=
  forall key fn, In (key, fn) rules -> fn <> fn_parseIsCompileOption.

(** What one iteration keeps. *)
Definition advances (c c' : ParsedCommand) : Prop :=
  d_linkerCommand c' = d_linkerCommand c
  /\ (d_containsUnsupportedOptions c = true ->
      d_containsUnsupportedOptions c' = true)
  /\ List.length (d_originalCommand c')
     < List.length (d_originalCommand c).


(** The rule tables of parsedcommandfactory.cpp. *)
Definition rule_tables : list CompilerParseRulesMap :=
  [GccRules; GccPreprocessorRules; SunCPPRules; AixRules; LdRules;
   SolarisLdRules].

(** The two flags of a command are never both set, and none is set on a
    command with unsupported options. *)
Definition kind_consistent (c : ParsedCommand) : Prop :=
  is_compiler_command c && is_linker_command c = false
  /\ (d_containsUnsupportedOptions c = true ->
      is_compiler_command c = false /\ is_linker_command c = false).

(** The input file has a suffix that is recognized for the kind of the
    command. *)
Definition recognized_input (c : ParsedCommand) (file : string) : bool :=
  (is_compiler_command c
   && (Deps.is_header_file file || Deps.is_source_file file
       || Deps.is_aux_input_file file c))
  || (is_linker_command c && Deps.is_object_file file).

(** The input file is one that products are derived from: a header or a
    source of a compiler command, an object of a linker command. *)
Definition producing_input (c : ParsedCommand) (file : string) : bool :=
  (is_compiler_command c
   && (Deps.is_header_file file || Deps.is_source_file file))
  || (is_linker_command c && Deps.is_object_file file).

(** The base products in the words of the specification: the products of
    -o verbatim; else a.out for a linker command; else the header with
    ".gch" for each header input and the basename of the source with its
    extension replaced by ".o" for each source input. *)
Definition is_base_product (c : ParsedCommand) (p : string) : Prop :=
  if negb (SSet.is_empty (get_products c)) then In p (get_products c)
  else if is_linker_command c then p = "a.out"
  else
    (exists header,
        In header (d_inputFiles c) /\ Deps.is_header_file header = true
        /\ p = header +++ ".gch")
    \/ (exists source,
           In source (d_inputFiles c) /\ Deps.is_source_file source = true
           /\ p = FileUtils.replaceSuffix (FileUtils.stripDirectory source)
                    ".o").

(** None of -MD, -qmakedep, --coverage and -gsplit-dwarf is set. *)
Definition no_extra_products (c : ParsedCommand) : Prop :=
  d_md_option_set c = false /\ d_qmakedep_option_set c = false
  /\ d_coverage_option_set c = false /\ d_split_dwarf_option_set c = false.

(** A segment that [Lexical.normalizePath] keeps: not empty, not ".",
    without slash. *)
Definition kept_segment (s : string) : bool :=
  negb (String.eqb s "") && negb (String.eqb s ".")
  && match StdString.rfind StdString.slash s with
     | None => true
     | Some _ => false
     end.

(** The stacks of [Lexical.normalizePath] (back of the vector first): below
    a ".." there are only "..", and none in an absolute path. *)
Fixpoint dotdots_below (global : bool) (stack : list string) : bool :=
  match stack with
  | [] => true
  | top :: rest =>
      if String.eqb top ".."
      then negb global && forallb (String.eqb "..") rest
      else dotdots_below global rest
  end.

Definition normal_stack (global : bool) (stack : list string) : bool :=
  forallb kept_segment stack && dotdots_below global stack.

(** The configuration [env] with [RECC_ACTION_SALT] set to [salt]. *)
Definition with_salt (salt : string) (env : Env) : Env :=
  {| RECC_PROJECT_ROOT := RECC_PROJECT_ROOT env;
     RECC_PREFIX_REPLACEMENT := RECC_PREFIX_REPLACEMENT env;
     RECC_NO_PATH_REWRITE := RECC_NO_PATH_REWRITE env;
     RECC_DEPS_GLOBAL_PATHS := RECC_DEPS_GLOBAL_PATHS env;
     RECC_VERBOSE := RECC_VERBOSE env;
     RECC_FORCE_REMOTE := RECC_FORCE_REMOTE env;
     RECC_LINK_METRICS_ONLY := RECC_LINK_METRICS_ONLY env;
     RECC_OUTPUT_DIRECTORIES_OVERRIDE :=
       RECC_OUTPUT_DIRECTORIES_OVERRIDE env;
     RECC_REMOTE_PLATFORM := RECC_REMOTE_PLATFORM env;
     RECC_REAPI_VERSION := RECC_REAPI_VERSION env;
     RECC_ACTION_UNCACHEABLE := RECC_ACTION_UNCACHEABLE env;
     RECC_ACTION_SALT := salt;
     RECC_DEPS_DIRECTORY_OVERRIDE := RECC_DEPS_DIRECTORY_OVERRIDE env;
     RECC_DEPS_OVERRIDE := RECC_DEPS_OVERRIDE env;
     RECC_OUTPUT_FILES_OVERRIDE := RECC_OUTPUT_FILES_OVERRIDE env;
     RECC_DEPS_EXCLUDE_PATHS := RECC_DEPS_EXCLUDE_PATHS env;
     RECC_DEPS_EXTRA_SYMLINKS := RECC_DEPS_EXTRA_SYMLINKS env;
     RECC_WORKING_DIR_PREFIX := RECC_WORKING_DIR_PREFIX env;
     RECC_MAX_THREADS := RECC_MAX_THREADS env |}.

(** The action [a] with its salt field set to [salt], all else equal. *)
Definition salted (salt : string) (a : Proto.Action) : Proto.Action :=
  {| Proto.command_digest := Proto.command_digest a;
     Proto.input_root_digest := Proto.input_root_digest a;
     Proto.do_not_cache := Proto.do_not_cache a;
     Proto.salt := salt;
     Proto.action_platform := Proto.action_platform a |}.

(** The result [r] of [BuildAction] with the salt of its action set to
    [salt]: the command, the blobs, the products and the variables read
    are those of [r]. *)
Definition with_salted_action (salt : string) (r : BuildResult)
  : BuildResult :=
  {| built_action := salted salt (built_action r);
     built_command := built_command r;
     built_blobs := built_blobs r;
     built_products := built_products r;
     built_env_to_read := built_env_to_read r |}.

(** The products that [BuildAction] keeps. *)
Definition kept_products (env : Env) (command : ParsedCommand)
           (products : sset) : sset :=
  if RECC_LINK_METRICS_ONLY env && is_linker_command command
     && negb (RECC_FORCE_REMOTE env)
  then [] else products.

(** The result of [BuildAction] from what its steps return. *)
Definition result_of (tools : BuildTools) (env : Env)
           (command : ParsedCommand) (products : sset)
           (nestedDirectory : NestedDirectory tools)
           (blobs : digest_string_map) (read : sset)
           (commandProto : Proto.Command) (withPlatform : bool)
  : BuildResult :=
  let serializedCommand := Proto.serialize_Command commandProto in
  let commandDigest :=
    ActionBuilder.make_digest tools serializedCommand in
  {| built_action :=
       {| Proto.command_digest := commandDigest;
          Proto.input_root_digest :=
            fst (to_digest tools nestedDirectory blobs);
          Proto.do_not_cache := RECC_ACTION_UNCACHEABLE env;
          Proto.salt := RECC_ACTION_SALT env;
          Proto.action_platform :=
            if withPlatform
            then Some (Proto.Command_platform commandProto)
            else None |};
     built_command := commandProto;
     built_blobs :=
       blobs_assign commandDigest serializedCommand
         (snd (to_digest tools nestedDirectory blobs));
     built_products := kept_products env command products;
     built_env_to_read := read |}.

(* ------------------------------------------------------------------ *)
(** ** Notions used in the further properties *)

(** The number of occurrences of [c] in [s]. *)
Fixpoint occurrences (c : ascii) (s : string) : nat :=
  match s with
  | EmptyString => 0
  | String d s' => (if Ascii.eqb c d then 1 else 0) + occurrences c s'
  end.

(** [s] holds no NUL character: it is the C string [s.c_str()]. *)
Definition c_string (s : string) : bool :=
  MakeRules.all_chars (fun c => negb (Ascii.eqb c zero)) s.

(** A piece of a path between two slashes (it may be empty). *)
Definition piece_ok (s : string) : bool :=
  MakeRules.all_chars
    (fun c => negb (Ascii.eqb c StdString.slash)
              && negb (Ascii.eqb c zero)) s.

(** The name of a file or directory: a piece that is not empty and is
    neither "." nor "..". *)
Definition name_ok (s : string) : bool :=
  piece_ok s && negb (String.eqb s "") && negb (String.eqb s ".")
  && negb (String.eqb s "..").

(** The pieces with a slash between each two. *)
Fixpoint join_path (pieces : list string) : string :=
  match pieces with
  | [] => ""
  | [s] => s
  | s :: rest => s +++ String StdString.slash (join_path rest)
  end.

(** [s] without its last character. *)
Fixpoint but_last (s : string) : string :=
  match s with
  | EmptyString => EmptyString
  | String _ EmptyString => EmptyString
  | String c s' => String c (but_last s')
  end.

(** The current and the lowest level after a piece of a path, as
    [parentDirectoryLevels] counts them. *)
Definition climb_step (levels : Z * Z) (piece : string) : Z * Z :=
  let '(currentLevel, lowestLevel) := levels in
  if String.eqb piece "" || String.eqb piece "." then
    (currentLevel, lowestLevel)
  else if String.eqb piece ".." then
    ((currentLevel - 1)%Z, Z.min lowestLevel (currentLevel - 1))
  else ((currentLevel + 1)%Z, lowestLevel).

Definition climb (pieces : list string) (levels : Z * Z) : Z * Z :=
  fold_left climb_step pieces levels.

(** A piece that is not "..". *)
Definition stays_below (piece : string) : bool :=
  piece_ok piece && negb (String.eqb piece "..").

(** A piece that is not empty. *)
Definition token_ok (s : string) : bool :=
  piece_ok s && negb (String.eqb s "").

(** A run of slashes. *)
Definition slashes_only (s : string) : bool :=
  MakeRules.all_chars (Ascii.eqb StdString.slash) s.

(** The state of the scanner of make rules between two rules. *)
Definition idle (r : sset) : MakeRules.state :=
  {| MakeRules.result := r;
     MakeRules.saw_colon_on_line := false;
     MakeRules.saw_backslash := false;
     MakeRules.current_filename := "" |}.





(** A line of Sun make rules: the target, the spaces after the colon and
    the dependency, which may hold spaces and colons. *)
Definition sun_line : Type := string * nat * string.

Definition sun_dependency (x : sun_line) : string := snd x.

Definition sun_char (c : ascii) : bool :=
  negb (Ascii.eqb c MakeRules.backslash)
  && negb (Ascii.eqb c MakeRules.newline).

Definition sun_line_ok (x : sun_line) : bool :=
  let '(target, _, dependency) := x in
  MakeRules.all_chars
    (fun c => sun_char c && negb (Ascii.eqb c MakeRules.colon)) target
  && negb (StdString.empty dependency)
  && negb (StdString.front_is MakeRules.space dependency)
  && MakeRules.all_chars sun_char dependency.

Fixpoint spaces (k : nat) : string :=
  match k with
  | O => ""
  | S k' => String MakeRules.space (spaces k')
  end.

Definition render_sun_lines (lines : list sun_line) : string :=
  fold_right
    (fun (x : sun_line) text =>
       let '(target, k, dependency) := x in
       target
       +++ String MakeRules.colon
             (spaces k +++ dependency +++ String MakeRules.newline text))
    "" lines.

(** A token that is no option, no response file and not the standard
    input: it begins with none of '-', '+' and '@'. *)
Definition input_token (t : string) : bool :=
  negb (StdString.front_is "-"%char t)
  && negb (StdString.front_is "+"%char t)
  && negb (StdString.front_is "@"%char t).

(** The options of [GccRules] whose rule function takes the token after
    the option as its argument without looking whether there is one. *)
Definition options_with_argument : list string :=
  ["-o"; "-MF"; "-MT"; "-MQ"; "-I"; "-include"; "-imacros"; "-iquote";
   "-isystem"; "-idirafter"; "-iprefix"; "-isysroot"; "--sysroot"; "-D";
   "-Xpreprocessor"].

(** The items with a comma between each two. *)
Fixpoint join_commas (items : list string) : string :=
  match items with
  | [] => ""
  | [s] => s
  | s :: rest => s +++ String ","%char (join_commas rest)
  end.

(** An item of a stage option list: without comma and quote. *)
Definition item_ok (s : string) : bool :=
  MakeRules.all_chars
    (fun c => negb (Ascii.eqb c ","%char) && negb (Ascii.eqb c "'"%char)) s.

(** The input file is a source, or a source or a header, of a compiler
    command. *)
Definition source_input (c : ParsedCommand) (file : string) : Prop :=
  In file (d_inputFiles c) /\ is_compiler_command c = true
  /\ Deps.is_source_file file = true.

Definition header_input (c : ParsedCommand) (file : string) : Prop :=
  In file (d_inputFiles c) /\ is_compiler_command c = true
  /\ Deps.is_header_file file = true.

(** A file that goes with the output, by the priority of
    [determine_products]: the names given explicitly; else the products
    of -o with [suffix] for their last suffix; else the basenames of the
    headers and sources with [suffix] for their last suffix. *)
Definition side_product (c : ParsedCommand) (explicit : sset)
           (suffix : string) (p : string) : Prop :=
  if negb (SSet.is_empty explicit) then In p explicit
  else if negb (SSet.is_empty (get_products c)) then
    exists product,
      In product (get_products c)
      /\ p = FileUtils.replaceSuffix product suffix
  else
    exists input,
      (header_input c input \/ source_input c input)
      /\ p = FileUtils.stripDirectory
               (FileUtils.replaceSuffix input suffix).

(** The suffix of the make dependency file: ".d", and ".u" for
    -qmakedep alone. *)
Definition dependency_suffix (c : ParsedCommand) : string :=
  if d_md_option_set c then ".d" else ".u".

(** The dwarf file of -gsplit-dwarf: the products of -o with ".dwo" when
    there is a source input; without -o, the basenames of the sources
    with ".dwo". *)
Definition dwarf_product (c : ParsedCommand) (p : string) : Prop :=
  if negb (SSet.is_empty (get_products c)) then
    (exists source, source_input c source)
    /\ exists product,
        In product (get_products c)
        /\ p = FileUtils.replaceSuffix product ".dwo"
  else
    exists source,
      source_input c source
      /\ p = FileUtils.stripDirectory
               (FileUtils.replaceSuffix source ".dwo").

(** The product names an object file: its last two characters are
    ".o". *)
Definition names_object (product : string) : bool :=
  String.eqb
    (StdString.drop (String.length product - 2) product) ".o".

(** A product name that [get_file_info] can take the last two characters
    of: a [std::string] (shorter than 2^64) of two characters or more. *)
Definition product_name_ok (product : string) : Prop :=
  2 <= String.length product
  /\ (Z.of_nat (String.length product) < StdString.size_t_modulus)%Z.

(** The text the make rules of the dependencies are read from: the
    output of the dependencies command, or for xlc the file it wrote. *)
Definition dependency_rules (tools : DepsTools) (c : ParsedCommand)
  : outcome string :=
  if is_AIX c
  then getFileContents tools (get_aix_dependency_file_name c)
  else Ret (d_stdOut (Subprocess_execute tools
                        (get_dependencies_command c))).

(** The bytes the blob map holds for [digest]. *)
Fixpoint blobs_lookup (digest : Proto.Digest) (blobs : digest_string_map)
  : option string :=
  match blobs with
  | [] => None
  | (d, b) :: rest =>
      if Digest_eqb d digest then Some b else blobs_lookup digest rest
  end.

(** The value the map holds for [key]. *)
Fixpoint map_lookup (key : string) (m : string_map) : option string :=
  match m with
  | [] => None
  | (k, v) :: m' =>
      if String.eqb key k then Some v else map_lookup key m'
  end.

(** The entry of the environment sets the variable [key]: it begins with
    the name and the equals sign. *)
Definition sets_variable (key item : string) : bool :=
  String.prefix (key +++ "=") item.

(** The pieces of [s] between the occurrences of [c]: one more than
    there are occurrences. *)
Fixpoint pieces_between (c : ascii) (s : string) : list string :=
  match s with
  | EmptyString => [""]
  | String d s' =>
      if Ascii.eqb c d then "" :: pieces_between c s'
      else match pieces_between c s' with
           | p :: ps => String d p :: ps
           | [] => [String d ""]
           end
  end.

(** The pieces that are not empty, each one resolved and followed by a
    colon, but for the last piece, which has no colon after it. *)
Fixpoint resolved_pieces (resolve : string -> string)
         (pieces : list string) : string :=
  match pieces with
  | [] => ""
  | [p] => if StdString.empty p then "" else resolve p
  | p :: rest =>
      (if StdString.empty p then "" else resolve p +++ ":")
      +++ resolved_pieces resolve rest
  end.

(** The value that the remote environment gets for the variable
    [envVar] with the local value [envVal]: a path-like variable with a
    value that is not empty has its pieces resolved through the prefix
    map. *)
Definition remote_value (h : Host) (env : Env) (envVar envVal : string)
  : string :=
  if SSet.count envVar ActionBuilder.pathLikeEnv
     && negb (StdString.empty envVal)
  then resolved_pieces (FileUtils.resolvePathFromPrefixMap h env)
         (pieces_between ":" envVal)
  else envVal.

(** The variables that [prepareRemoteEnv] reads with [getenv], and
    leaves in [RECC_ENV_TO_READ]. *)
Definition variables_read (penv : ProcessEnv) (command : ParsedCommand)
           (RECC_ENV_TO_READ : sset) : sset :=
  if RECC_PRESERVE_ENV penv then RECC_ENV_TO_READ
  else if SSet.is_empty RECC_ENV_TO_READ
  then ActionBuilder.default_env_to_read command RECC_ENV_TO_READ
  else RECC_ENV_TO_READ.

(** The map that [prepareRemoteEnv] starts from: the environment of the
    process without the RECC_ variables under RECC_PRESERVE_ENV, and the
    empty map without. *)
Definition preserved_environment (penv : ProcessEnv)
  : outcome string_map :=
  if RECC_PRESERVE_ENV penv
  then ActionBuilder.populateRemoteEnvWithNonReccVars (environ penv) []
  else Ret [].

(** The number of directory levels by which a path rises above the
    directory it starts from, at its highest point: the path is read up
    to its first NUL, piece by piece between the slashes; ".." goes one
    level up, a name one level down, "." and the empty piece stay. *)
Definition levels_climbed (path : string) : Z :=
  (- snd (climb (pieces_between StdString.slash (StdString.c_str path))
            (0, 0)))%Z.

(** The highest rise among the paths. *)
Definition highest_climb (paths : list string) : Z :=
  fold_left (fun m path => Z.max m (levels_climbed path)) paths 0%Z.

(* ================================================================== *)
(** * Properties *)

Unset Implicit Arguments.

Lemma bind_Ret_inv {A B} (m : outcome A) (f : A -> outcome B) (b : B) :
  bind m f = Ret b -> exists a, m = Ret a /\ f a = Ret b.
Proof. destruct m; simpl; intros H; try discriminate; eauto. Qed.

(* ------------------------------------------------------------------ *)
(** ** Strings *)

Lemma append_nil_r (s : string) : s +++ "" = s.
Proof. induction s; simpl; congruence. Qed.

Lemma append_assoc (a b c : string) : (a +++ b) +++ c = a +++ (b +++ c).
Proof. induction a; simpl; congruence. Qed.

Lemma append_length (a b : string) :
  String.length (a +++ b) = String.length a + String.length b.
Proof. induction a; simpl; congruence. Qed.

Lemma push_back_append (a b : string) (c : ascii) :
  StdString.push_back a c +++ b = a +++ String c b.
Proof. unfold StdString.push_back. rewrite append_assoc. reflexivity. Qed.

(* ------------------------------------------------------------------ *)
(** ** Make rules (src/src/deps.cpp) *)

Section MakeRulesFacts.
Import MakeRules.

Lemma run_app (sun : bool) (a b : string) (st : state) :
  run sun (a +++ b) st = run sun b (run sun a st).
Proof. revert st. induction a; simpl; intros; auto. Qed.







Lemma flush_filename (r : sset) (f : string) :
  StdString.empty f = false -> flush (in_body r f) = SSet.insert f r.
Proof. unfold flush; simpl. now intros ->. Qed.









End MakeRulesFacts.

(* ------------------------------------------------------------------ *)
(** ** Rule tables and option matching (parsedcommandfactory.cpp) *)

Section RuleMatching.
Import Parser StdString.

Lemma ascii_compare_lt_trans (a b c : ascii) :
  Ascii.compare a b = Lt -> Ascii.compare b c = Lt ->
  Ascii.compare a c = Lt.
Proof.
  unfold Ascii.compare. rewrite !N.compare_lt_iff. lia.
Qed.

Lemma compare_lt_trans (a b c : string) :
  String.compare a b = Lt -> String.compare b c = Lt ->
  String.compare a c = Lt.
Proof.
  revert b c. induction a as [|x a IH]; intros [|y b] [|z c];
    simpl; try discriminate; auto.
  destruct (Ascii.compare x y) eqn:Exy; try discriminate;
    destruct (Ascii.compare y z) eqn:Eyz; try discriminate; intros H1 H2.
  - apply Ascii.compare_eq_iff in Exy, Eyz. subst.
    replace (Ascii.compare z z) with Eq
      by (symmetry; apply N.compare_refl).
    eauto.
  - apply Ascii.compare_eq_iff in Exy. subst. now rewrite Eyz.
  - apply Ascii.compare_eq_iff in Eyz. subst. now rewrite Exy.
  - now rewrite (ascii_compare_lt_trans _ _ _ Exy Eyz).
Qed.

Lemma compare_lt_irrefl (a : string) : String.compare a a <> Lt.
Proof.
  intros H. pose proof (String.compare_antisym a a) as E.
  rewrite H in E. discriminate.
Qed.

Lemma insert_In (k : string) (f : ParseRuleFn) (m : CompilerParseRulesMap)
      (x : string * ParseRuleFn) :
  In x (RulesMap.insert k f m) -> x = (k, f) \/ In x m.
Proof.
  induction m as [|[k' f'] m IH]; simpl.
  - intuition.
  - destruct (String.compare k k'); simpl; intuition.
Qed.

Lemma insert_ordered (k : string) (f : ParseRuleFn)
      (m : CompilerParseRulesMap) :
  map_ordered m -> map_ordered (RulesMap.insert k f m).
Proof.
  unfold map_ordered. induction 1 as [|[k' f'] m Hm IH Hall]; simpl.
  - repeat constructor.
  - destruct (String.compare k k') eqn:E.
    + constructor; assumption.
    + constructor; auto.
      rewrite Forall_forall in *. intros x Hx.
      apply insert_In in Hx. destruct Hx as [-> | Hx]; auto.
    + assert (Hk : String.compare k' k = Lt)
        by (rewrite String.compare_antisym, E; reflexivity).
      constructor; [constructor; assumption|].
      constructor; [exact Hk|].
      rewrite Forall_forall in *. intros x Hx.
      unfold key_gt in *. simpl in *.
      eapply compare_lt_trans; eauto.
Qed.

(** Every table built from an initializer list satisfies the invariant. *)
Lemma of_list_ordered (l : list (string * ParseRuleFn)) :
  map_ordered (RulesMap.of_list l).
Proof.
  unfold RulesMap.of_list.
  assert (G : forall m, map_ordered m ->
              map_ordered
                (fold_left (fun m kf => RulesMap.insert (fst kf) (snd kf) m)
                   l m)).
  { induction l as [|[k f] l IH]; simpl; intros m Hm; auto.
    apply IH, insert_ordered, Hm. }
  apply G. constructor.
Qed.

(** *** Prefixes *)

Lemma take_is_prefix (key token : string) :
  String.eqb (take (String.length key) token) key = String.prefix key token.
Proof.
  apply Bool.eq_true_iff_eq. unfold take.
  rewrite String.eqb_eq. symmetry. apply String.prefix_correct.
Qed.

Lemma prefix_shorter_is_less (a b t : string) :
  String.prefix a t = true -> String.prefix b t = true ->
  String.length a < String.length b -> String.compare a b = Lt.
Proof.
  revert a b. induction t as [|c t IH]; intros [|x a] [|y b]; simpl;
    try discriminate; try lia; auto.
  destruct (ascii_dec x c); try discriminate.
  destruct (ascii_dec y c); try discriminate. subst.
  intros Ha Hb Hl.
  replace (Ascii.compare c c) with Eq by (symmetry; apply N.compare_refl).
  apply IH; auto. lia.
Qed.

Lemma prefix_same_length (a b t : string) :
  String.prefix a t = true -> String.prefix b t = true ->
  String.length a = String.length b -> a = b.
Proof.
  revert a b. induction t as [|c t IH]; intros [|x a] [|y b]; simpl;
    try discriminate; auto.
  destruct (ascii_dec x c); try discriminate.
  destruct (ascii_dec y c); try discriminate. subst.
  intros Ha Hb Hl. f_equal. apply IH; auto.
Qed.

(** *** The longest prefix *)

Lemma substring_search_find (t : string) (m : CompilerParseRulesMap) :
  substring_search t m
  = List.find (fun kf => String.prefix (fst kf) t) m.
Proof.
  induction m as [|[k f] m IH]; simpl; auto.
  rewrite take_is_prefix. now destruct (String.prefix k t).
Qed.

Lemma find_prefix_none (t : string) (m : list (string * ParseRuleFn)) :
  List.find (fun kf => String.prefix (fst kf) t) m = None <->
  forall y, In y m -> String.prefix (fst y) t = false.
Proof.
  split.
  - intros H y Hy. apply (find_none _ _ H y Hy).
  - induction m as [|x m IH]; simpl; intros H; auto.
    rewrite (H x) by auto. apply IH. intros y Hy. apply H. auto.
Qed.

(** In a map ordered by [std::greater] the first key that is a prefix
    of the token is the longest one. *)
Lemma find_in_ordered_map (t : string) (m : CompilerParseRulesMap)
      (x : string * ParseRuleFn) :
  map_ordered m ->
  List.find (fun kf => String.prefix (fst kf) t) m = Some x ->
  longest_prefix t m x.
Proof.
  unfold map_ordered. induction 1 as [|a m Hm IH Hall]; simpl.
  - discriminate.
  - destruct (String.prefix (fst a) t) eqn:Ea.
    + intros [= <-]. split; [now left|]. split; [assumption|].
      intros y [<- | Hy] Hp; [lia|].
      rewrite Forall_forall in Hall. specialize (Hall y Hy).
      unfold key_gt in Hall.
      destruct (Nat.le_gt_cases (String.length (fst y))
                  (String.length (fst a))) as [|Hlt]; auto.
      pose proof (prefix_shorter_is_less _ _ _ Ea Hp Hlt) as Hc.
      rewrite String.compare_antisym, Hall in Hc. discriminate.
    + intros Hf. destruct (IH Hf) as (Hin & Hp & Hmax).
      split; [now right|]. split; [assumption|].
      intros y [<- | Hy] Hpy; [congruence | auto].
Qed.

(** *** The table in descending key-length order *)

Lemma insert_by_length_In (kf x : string * ParseRuleFn)
      (l : list (string * ParseRuleFn)) :
  In x (RuleSpec.insert_by_length kf l) <-> x = kf \/ In x l.
Proof.
  induction l as [|y l IH]; simpl.
  - intuition.
  - destruct (Nat.ltb _ _); simpl; intuition.
Qed.

Lemma by_key_length_In (m : CompilerParseRulesMap)
      (x : string * ParseRuleFn) :
  In x (RuleSpec.by_key_length m) <-> In x m.
Proof.
  induction m as [|a m IH]; simpl; [tauto|].
  rewrite insert_by_length_In, IH. intuition.
Qed.

Lemma insert_by_length_sorted (kf : string * ParseRuleFn)
      (l : list (string * ParseRuleFn)) :
  StronglySorted length_ge l ->
  StronglySorted length_ge (RuleSpec.insert_by_length kf l).
Proof.
  induction 1 as [|y l Hl IH Hall]; simpl.
  - repeat constructor.
  - destruct (Nat.ltb_spec (String.length (fst y)) (String.length (fst kf))).
    + constructor; [constructor; assumption|].
      constructor; [unfold length_ge; lia|].
      rewrite Forall_forall in *. intros x Hx. specialize (Hall x Hx).
      unfold length_ge in *. lia.
    + constructor; auto.
      rewrite Forall_forall in *. intros x Hx.
      apply insert_by_length_In in Hx. destruct Hx as [-> | Hx]; auto.
Qed.

Lemma by_key_length_sorted (m : CompilerParseRulesMap) :
  StronglySorted length_ge (RuleSpec.by_key_length m).
Proof.
  induction m; simpl; [constructor | now apply insert_by_length_sorted].
Qed.

Lemma find_in_length_order (t : string) (l : list (string * ParseRuleFn))
      (x : string * ParseRuleFn) :
  StronglySorted length_ge l ->
  List.find (fun kf => String.prefix (fst kf) t) l = Some x ->
  longest_prefix t l x.
Proof.
  induction 1 as [|a l Hl IH Hall]; simpl.
  - discriminate.
  - destruct (String.prefix (fst a) t) eqn:Ea.
    + intros [= <-]. split; [now left|]. split; [assumption|].
      intros y [<- | Hy] Hp; [lia|].
      rewrite Forall_forall in Hall. apply (Hall y Hy).
    + intros Hf. destruct (IH Hf) as (Hin & Hp & Hmax).
      split; [now right|]. split; [assumption|].
      intros y [<- | Hy] Hpy; [congruence | auto].
Qed.

Lemma ordered_keys_unique (m : CompilerParseRulesMap)
      (x y : string * ParseRuleFn) :
  map_ordered m -> In x m -> In y m -> fst x = fst y -> x = y.
Proof.
  unfold map_ordered. induction 1 as [|a m Hm IH Hall]; simpl; [tauto|].
  rewrite Forall_forall in Hall.
  intros [<- | Hx] [<- | Hy] E; auto.
  - specialize (Hall y Hy). unfold key_gt in Hall. rewrite E in Hall.
    now apply compare_lt_irrefl in Hall.
  - specialize (Hall x Hx). unfold key_gt in Hall. rewrite E in Hall.
    now apply compare_lt_irrefl in Hall.
Qed.

(** The scan of the code and the scan in descending key-length order
    find the same entry. *)
Lemma substring_search_is_longest_prefix
      (t : string) (m : CompilerParseRulesMap) :
  map_ordered m ->
  substring_search t m = RuleSpec.first_prefix_by_length t m.
Proof.
  intros Hm. rewrite substring_search_find.
  unfold RuleSpec.first_prefix_by_length.
  destruct (List.find _ m) as [x|] eqn:E1;
    destruct (List.find _ (RuleSpec.by_key_length m)) as [y|] eqn:E2;
    auto.
  - apply find_in_ordered_map in E1; auto.
    apply find_in_length_order in E2; auto using by_key_length_sorted.
    destruct E1 as (Hx & Hpx & Hmx), E2 as (Hy & Hpy & Hmy).
    apply (proj1 (by_key_length_In _ _)) in Hy. f_equal.
    apply (ordered_keys_unique m); auto.
    apply (prefix_same_length _ _ t); auto.
    apply Nat.le_antisymm; [apply Hmy | apply Hmx]; auto.
    now apply by_key_length_In.
  - apply find_some in E1. destruct E1 as [Hx Hp].
    rewrite find_prefix_none in E2.
    rewrite (E2 x) in Hp; [discriminate | now apply by_key_length_In].
  - apply find_some in E2. destruct E2 as [Hy Hp].
    rewrite find_prefix_none in E1.
    rewrite (E1 y) in Hp; [discriminate | now apply by_key_length_In].
Qed.

End RuleMatching.

(* ------------------------------------------------------------------ *)
(** ** The parser (parsedcommandfactory.cpp) *)

Section ParserFacts.
Import Parser.

Variable h : Host.
Variable env : Env.
Variable sc : SupportedCompilers.

Lemma front_inv (c : ParsedCommand) (t : string) :
  front c = Ret t -> exists rest, d_originalCommand c = t :: rest.
Proof.
  unfold front. destruct (d_originalCommand c); intros [= <-]; eauto.
Qed.

Lemma pop_front_inv (c c' : ParsedCommand) :
  pop_front c = Ret c' ->
  exists t rest,
    d_originalCommand c = t :: rest /\ c' = set_originalCommand rest c.
Proof.
  unfold pop_front. destruct (d_originalCommand c); intros [= <-]; eauto.
Qed.

(** Inversion of a successful run, one construct at a time. *)
Ltac invert_run :=
  repeat match goal with
    | H : bind _ _ = Ret _ |- _ =>
        apply bind_Ret_inv in H; destruct H as (? & ? & H)
    | H : front _ = Ret _ |- _ =>
        apply front_inv in H; destruct H as (? & H)
    | H : pop_front _ = Ret _ |- _ =>
        apply pop_front_inv in H; destruct H as (? & ? & H & ->)
    | H : Ret _ = Ret _ |- _ => injection H as H; try subst
    | H : Throws _ = Ret _ |- _ => discriminate H
    | H : Undefined = Ret _ |- _ => discriminate H
    | H : Diverged = Ret _ |- _ => discriminate H
    | H : (_, _) = (_, _) |- _ => injection H as ? ?; try subst
    | H : context [match ?x with _ => _ end] |- _ =>
        match type of H with
        | _ = Ret _ => destruct x eqn:?
        end
    end.

Ltac split_cases :=
  repeat match goal with
    | |- context [if ?b then _ else _] => destruct b eqn:?
    | H : context [if ?b then _ else _] |- _ => destruct b eqn:?
    | |- context [match ?x with to_rpathLinkDirs => _ | _ => _ end] =>
        destruct x eqn:?
    | H : context [match ?x with to_rpathLinkDirs => _ | _ => _ end]
      |- _ => destruct x eqn:?
    end.

Ltac close_evolves :=
  unfold evolves, push_command, push_deps, record_include_dir,
    record_product, push_library_dir in *;
  split_cases; simpl in *;
  repeat match goal with
    | H : _ /\ _ |- _ => destruct H
    | H : d_originalCommand _ = _ |- _ => rewrite H in *; clear H
    | H : _ :: _ = _ :: _ |- _ => injection H as ? ?; subst
    | H : [] = _ :: _ |- _ => discriminate H
    | H : _ :: _ = [] |- _ => discriminate H
    end;
  simpl in *;
  repeat split; try congruence; try lia; auto.

Lemma parseOptionIsUnsupported_evolves (c c' : ParsedCommand)
      (wd opt : string) :
  parseOptionIsUnsupported c wd opt = Ret c' ->
  evolves 0 c c' /\ d_originalCommand c' = []
  /\ d_containsUnsupportedOptions c' = true.
Proof.
  unfold parseOptionIsUnsupported. intros [= <-]. close_evolves.
Qed.

Lemma appendAndRemoveOption_evolves (c c' : ParsedCommand) (wd : string)
      (isPath toDeps isOutput depsOutput : bool) :
  appendAndRemoveOption h env c wd isPath toDeps isOutput depsOutput
  = Ret c' ->
  evolves 1 c c'.
Proof.
  unfold appendAndRemoveOption, record_include_dir, record_product.
  intros H. invert_run; close_evolves.
Qed.

Lemma parseGccOption_evolves (c c' : ParsedCommand) (wd opt : string)
      (toDeps isOutput depsOutput : bool) :
  parseGccOption h env c wd opt toDeps isOutput depsOutput = Ret c' ->
  evolves 1 c c'.
Proof.
  unfold parseGccOption. intros H. invert_run;
    repeat match goal with
      | H : appendAndRemoveOption _ _ _ _ _ _ _ _ = Ret _ |- _ =>
          apply appendAndRemoveOption_evolves in H
      end;
    close_evolves.
Qed.

Lemma parseLdLibraryPath_loop_evolves (tokens : list string) :
  forall (c c' : ParsedCommand) (wd opt : string),
    parseLdLibraryPath_loop h env tokens c wd opt = Ret c' ->
    evolves 0 c c'.
Proof.
  induction tokens as [|token tokens IH]; simpl; intros c c' wd opt H.
  - invert_run. close_evolves.
  - invert_run;
      repeat match goal with
        | H : parseLdLibraryPath_loop _ _ _ _ _ _ = Ret _ |- _ =>
            apply IH in H
        | H : parseOptionIsUnsupported _ _ _ = Ret _ |- _ =>
            apply parseOptionIsUnsupported_evolves in H
        end;
      close_evolves.
Qed.

(** The successful calls of the helpers, replaced by what they keep. *)
Ltac invert_calls :=
  cbv beta zeta in *;
  repeat first
    [ progress invert_run
    | match goal with
      | H : appendAndRemoveOption _ _ _ _ _ _ _ _ = Ret _ |- _ =>
          apply appendAndRemoveOption_evolves in H
      | H : parseGccOption _ _ _ _ _ _ _ _ = Ret _ |- _ =>
          apply parseGccOption_evolves in H
      | H : parseOptionIsUnsupported _ _ _ = Ret _ |- _ =>
          apply parseOptionIsUnsupported_evolves in H
      | H : parseLdLibraryPath_loop _ _ _ _ _ _ = Ret _ |- _ =>
          apply parseLdLibraryPath_loop_evolves in H
      end ].

Lemma solaris_option_argument_evolves (c c' : ParsedCommand)
      (wd opt : string) (arg : option string) :
  solaris_option_argument h env c wd opt = Ret (arg, c') ->
  evolves 1 c c'.
Proof.
  unfold solaris_option_argument. intros H. invert_calls; close_evolves.
Qed.

(** Every rule function, called on a command that still has a token,
    removes at least one and keeps the rest of [evolves]; only
    [parseIsCompileOption] touches the compiler flag. *)
Lemma call_evolves (fn : ParseRuleFn) (c c' : ParsedCommand)
      (wd opt : string) :
  call h env sc fn c wd opt = Ret c' ->
  d_originalCommand c <> [] ->
  fn <> fn_parseIsCompileOption ->
  evolves 1 c c'.
Proof.
  intros H Hne Hfn.
  destruct (d_originalCommand c) as [|t0 rest0] eqn:E0; [congruence|].
  clear Hne.
  destruct fn; try congruence; clear Hfn; simpl in H;
    unfold parseOptionSimple, parseInterfersWithDepsOption,
      parseIsInputPathOption, parseIsEqualInputPathOption,
      parseOptionRedirectsOutput, parseOptionRedirectsDepsOutput,
      parseOptionDepsRuleTarget, parseIsPreprocessorArgOption,
      parseIsMacro, parseOptionSetsGccLanguage,
      parseOptionCoverageOutput, parseOptionRedirectsCoverageOutput,
      parseOptionSplitDwarf, parseOptionSolarisPhase, parseOptionNative,
      parseOptionParam, parseLdLibrary, parseLdLibraryPath,
      parseLdOptionDynamic, parseLdOptionStatic, parseLdOptionState,
      parseLdOptionEmulation, parseSolarisLdOptionB,
      parseSolarisLdOptionD, parseSolarisLdOptionY,
      parseSolarisLdMapfile in H;
    invert_calls;
    repeat match goal with
      | H : solaris_option_argument _ _ _ _ _ = Ret _ |- _ =>
          apply solaris_option_argument_evolves in H
      end;
    close_evolves.
Qed.

Lemma parseIsCompileOption_evolves (c c' : ParsedCommand)
      (wd opt : string) :
  parseIsCompileOption h env c wd opt = Ret c' ->
  d_linkerCommand c' = d_linkerCommand c
  /\ (d_containsUnsupportedOptions c = true ->
      d_containsUnsupportedOptions c' = true)
  /\ List.length (d_originalCommand c') + 1
     <= List.length (d_originalCommand c).
Proof.
  unfold parseIsCompileOption. intros H. invert_calls. close_evolves.
Qed.

(** *** The loop of parseCommand *)

Lemma lookup_In (k : string) (m : CompilerParseRulesMap)
      (fn : ParseRuleFn) :
  RulesMap.lookup k m = Some fn -> In (k, fn) m.
Proof.
  induction m as [|[k' f'] m IH]; simpl; [discriminate|].
  destruct (String.eqb_spec k k') as [-> | _].
  - intros [= ->]. now left.
  - intros H. right. auto.
Qed.

Lemma substring_search_In (t : string) (m : CompilerParseRulesMap)
      (k : string) (fn : ParseRuleFn) :
  substring_search t m = Some (k, fn) -> In (k, fn) m.
Proof.
  induction m as [|[k' f'] m IH]; simpl; [discriminate|].
  destruct (String.eqb _ _).
  - intros [= -> ->]. now left.
  - intros H. right. auto.
Qed.

(** The function that is dispatched to is one of the table. *)
Lemma matchCompilerOptions_In (t : string) (m : CompilerParseRulesMap)
      (k : string) (fn : ParseRuleFn) :
  matchCompilerOptions t m = Some (k, fn) -> In (k, fn) m.
Proof.
  unfold matchCompilerOptions.
  destruct (_ && _); [|discriminate].
  destruct (RulesMap.lookup _ m) eqn:E.
  - intros [= <- <-]. now apply lookup_In.
  - apply substring_search_In.
Qed.

Lemma parseToken_advances (c c' : ParsedCommand)
      (rules : CompilerParseRulesMap) (wd t : string) (rest : list string) :
  d_originalCommand c = t :: rest ->
  parseToken h env sc c rules wd t = Ret c' ->
  advances c c'
  /\ (without_compile_rule rules ->
      d_compilerCommand c' = d_compilerCommand c).
Proof.
  unfold parseToken, advances. intros E H.
  destruct (matchCompilerOptions t rules) as [[k fn]|] eqn:M.
  - assert (Hne : d_originalCommand c <> []) by (rewrite E; discriminate).
    destruct fn;
      try (apply call_evolves in H; [|assumption|discriminate];
           unfold evolves in H; intuition lia).
    simpl in H. apply parseIsCompileOption_evolves in H.
    split; [intuition lia|].
    intros Hw. apply matchCompilerOptions_In in M.
    now apply Hw in M.
  - invert_calls; close_evolves.
Qed.

Lemma parseCommand_loop_keeps (rules : CompilerParseRulesMap) (wd : string)
      (fuel : nat) :
  forall c c',
    parseCommand_loop h env sc fuel c rules wd = Ret c' ->
    d_linkerCommand c' = d_linkerCommand c
    /\ (d_containsUnsupportedOptions c = true ->
        d_containsUnsupportedOptions c' = true)
    /\ d_originalCommand c' = []
    /\ (without_compile_rule rules ->
        d_compilerCommand c' = d_compilerCommand c).
Proof.
  induction fuel as [|fuel IH]; intros c c'; simpl;
    destruct (d_originalCommand c) as [|t rest] eqn:E;
    try (intros [= <-]; auto); try discriminate.
  intros H. apply bind_Ret_inv in H. destruct H as (c1 & H1 & H2).
  apply (parseToken_advances _ _ _ _ _ _ E) in H1.
  apply IH in H2. unfold advances in H1.
  intuition congruence.
Qed.

Lemma parseCommand_keeps (rules : CompilerParseRulesMap) (wd : string)
      (c c' : ParsedCommand) :
  parseCommand h env sc c rules wd = Ret c' ->
  d_linkerCommand c' = d_linkerCommand c
  /\ (d_containsUnsupportedOptions c = true ->
      d_containsUnsupportedOptions c' = true)
  /\ d_originalCommand c' = []
  /\ (without_compile_rule rules ->
      d_compilerCommand c' = d_compilerCommand c).
Proof. apply parseCommand_loop_keeps. Qed.

(** *** The fuel of parseCommand is enough *)

Lemma bind_Diverged_inv {A B} (m : outcome A) (f : A -> outcome B) :
  bind m f = Diverged ->
  m = Diverged \/ exists a, m = Ret a /\ f a = Diverged.
Proof. destruct m; simpl; intros H; try discriminate; eauto. Qed.

Ltac invert_diverged :=
  cbv beta zeta in *;
  repeat match goal with
    | H : bind _ _ = Diverged |- _ =>
        apply bind_Diverged_inv in H; destruct H as [H | (? & _ & H)]
    | H : Ret _ = Diverged |- _ => discriminate H
    | H : Throws _ = Diverged |- _ => discriminate H
    | H : Undefined = Diverged |- _ => discriminate H
    | H : context [match ?x with _ => _ end] |- _ =>
        match type of H with
        | _ = Diverged => destruct x eqn:?
        end
    end.

Lemma modifyPathForRemote_returns (path wd : string) (normalize : bool) :
  FileUtils.modifyPathForRemote h env path wd normalize <> Diverged.
Proof.
  unfold FileUtils.modifyPathForRemote, FileUtils.rewritePathToRelative.
  intros H. invert_diverged.
Qed.

Lemma substr_checked_returns (s : string) (pos : Z) :
  StdString.substr_checked s pos <> Diverged.
Proof. unfold StdString.substr_checked. intros H. invert_diverged. Qed.

Lemma front_returns (c : ParsedCommand) : front c <> Diverged.
Proof. unfold front. intros H. invert_diverged. Qed.

Lemma pop_front_returns (c : ParsedCommand) : pop_front c <> Diverged.
Proof. unfold pop_front. intros H. invert_diverged. Qed.

Ltac leaves_return :=
  repeat match goal with
    | H : FileUtils.modifyPathForRemote _ _ _ _ _ = Diverged |- _ =>
        now apply modifyPathForRemote_returns in H
    | H : StdString.substr_checked _ _ = Diverged |- _ =>
        now apply substr_checked_returns in H
    | H : front _ = Diverged |- _ => now apply front_returns in H
    | H : pop_front _ = Diverged |- _ => now apply pop_front_returns in H
    end.

Lemma appendAndRemoveOption_returns (c : ParsedCommand) (wd : string)
      (isPath toDeps isOutput depsOutput : bool) :
  appendAndRemoveOption h env c wd isPath toDeps isOutput depsOutput
  <> Diverged.
Proof.
  unfold appendAndRemoveOption. intros H.
  invert_diverged; leaves_return.
Qed.

Lemma parseGccOption_returns (c : ParsedCommand) (wd opt : string)
      (toDeps isOutput depsOutput : bool) :
  parseGccOption h env c wd opt toDeps isOutput depsOutput <> Diverged.
Proof.
  unfold parseGccOption. intros H. invert_diverged; leaves_return;
    match goal with
    | H : appendAndRemoveOption _ _ _ _ _ _ _ _ = Diverged |- _ =>
        now apply appendAndRemoveOption_returns in H
    end.
Qed.

Lemma parseLdLibraryPath_loop_returns (tokens : list string) :
  forall (c : ParsedCommand) (wd opt : string),
    parseLdLibraryPath_loop h env tokens c wd opt <> Diverged.
Proof.
  induction tokens as [|token tokens IH]; simpl; intros c wd opt H.
  - discriminate.
  - unfold parseOptionIsUnsupported in H.
    invert_diverged; leaves_return;
      match goal with
      | H : parseLdLibraryPath_loop _ _ _ _ _ _ = Diverged |- _ =>
          now apply IH in H
      end.
Qed.

Ltac calls_return :=
  leaves_return;
  repeat match goal with
    | H : appendAndRemoveOption _ _ _ _ _ _ _ _ = Diverged |- _ =>
        now apply appendAndRemoveOption_returns in H
    | H : parseGccOption _ _ _ _ _ _ _ _ = Diverged |- _ =>
        now apply parseGccOption_returns in H
    | H : parseLdLibraryPath_loop _ _ _ _ _ _ = Diverged |- _ =>
        now apply parseLdLibraryPath_loop_returns in H
    end.

Lemma solaris_option_argument_returns (c : ParsedCommand)
      (wd opt : string) :
  solaris_option_argument h env c wd opt <> Diverged.
Proof.
  unfold solaris_option_argument, parseOptionIsUnsupported. intros H.
  invert_diverged; calls_return.
Qed.

Lemma call_returns (fn : ParseRuleFn) (c : ParsedCommand)
      (wd opt : string) :
  call h env sc fn c wd opt <> Diverged.
Proof.
  intros H.
  destruct fn; simpl in H;
    unfold parseOptionSimple, parseInterfersWithDepsOption,
      parseIsInputPathOption, parseIsEqualInputPathOption,
      parseIsCompileOption,
      parseOptionRedirectsOutput, parseOptionRedirectsDepsOutput,
      parseOptionDepsRuleTarget, parseIsPreprocessorArgOption,
      parseIsMacro, parseOptionSetsGccLanguage,
      parseOptionCoverageOutput, parseOptionRedirectsCoverageOutput,
      parseOptionSplitDwarf, parseOptionSolarisPhase, parseOptionNative,
      parseOptionParam, parseLdLibrary, parseLdLibraryPath,
      parseLdOptionDynamic, parseLdOptionStatic, parseLdOptionState,
      parseLdOptionEmulation, parseSolarisLdOptionB,
      parseSolarisLdOptionD, parseSolarisLdOptionY,
      parseSolarisLdMapfile, parseOptionIsUnsupported in H;
    invert_diverged; calls_return;
    match goal with
    | H : solaris_option_argument _ _ _ _ _ = Diverged |- _ =>
        now apply solaris_option_argument_returns in H
    end.
Qed.

Lemma parseToken_returns (c : ParsedCommand)
      (rules : CompilerParseRulesMap) (wd t : string) :
  parseToken h env sc c rules wd t <> Diverged.
Proof.
  unfold parseToken. intros H.
  destruct (matchCompilerOptions t rules) as [[k fn]|].
  - now apply call_returns in H.
  - invert_diverged; calls_return.
Qed.

Lemma parseCommand_loop_returns (rules : CompilerParseRulesMap)
      (wd : string) (fuel : nat) :
  forall c,
    List.length (d_originalCommand c) <= fuel ->
    parseCommand_loop h env sc fuel c rules wd <> Diverged.
Proof.
  induction fuel as [|fuel IH]; intros c Hlen; simpl;
    destruct (d_originalCommand c) as [|t rest] eqn:E;
    try discriminate; simpl in Hlen; try lia.
  intros H. apply bind_Diverged_inv in H.
  destruct H as [H | (c1 & H1 & H2)].
  - now apply parseToken_returns in H.
  - apply (parseToken_advances _ _ _ _ _ _ E) in H1.
    destruct H1 as [(_ & _ & Hlt) _]. rewrite E in Hlt. simpl in Hlt.
    apply IH in H2; [assumption | lia].
Qed.

(** [parseCommand] ends: the length of the list is fuel enough. *)
Lemma parseCommand_returns (rules : CompilerParseRulesMap) (wd : string)
      (c : ParsedCommand) :
  parseCommand h env sc c rules wd <> Diverged.
Proof. apply parseCommand_loop_returns. lia. Qed.

Lemma resolveSymlink_returns (path : string) :
  FileUtils.resolveSymlink h path <> Diverged.
Proof.
  unfold FileUtils.resolveSymlink, FileUtils.getStat_nofollow,
    FileUtils.getSymlinkContents.
  intros H. invert_diverged.
Qed.

Lemma commandBasename_from_returns (remaining : nat) :
  forall path, commandBasename_from h sc remaining path <> Diverged.
Proof.
  induction remaining as [|remaining IH]; intros path H; simpl in H;
    invert_diverged.
  - now apply resolveSymlink_returns in H.
  - now apply IH in H.
Qed.

Lemma ParsedCommand_new_returns (command : list string) (wd : string) :
  ParsedCommand_new h env sc command wd <> Diverged.
Proof.
  unfold ParsedCommand_new, commandBasename. intros H.
  invert_diverged; leaves_return.
  all: try now apply commandBasename_from_returns in H.
Qed.

Lemma ParsedCommand_new_flags (command : list string) (wd : string)
      (c : ParsedCommand) :
  ParsedCommand_new h env sc command wd = Ret c ->
  d_compilerCommand c = false /\ d_linkerCommand c = false
  /\ d_containsUnsupportedOptions c = false.
Proof.
  unfold ParsedCommand_new. intros H. invert_run; simpl; auto.
Qed.

(** *** The factories *)

Ltac close_flags :=
  unfold is_compiler_command in *;
  repeat match goal with
    | |- context [if ?b then _ else _] => destruct b eqn:?
    | H : context [if ?b then _ else _] |- _ => destruct b eqn:?
    end;
  simpl in *;
  repeat match goal with
    | H : _ || _ = false |- _ => apply orb_false_elim in H; destruct H
    | H : negb _ = true |- _ => apply negb_true_iff in H
    | H : negb _ = false |- _ => apply negb_false_iff in H
    end;
  repeat match goal with
    | |- context [d_compilerCommand ?x] =>
        is_var x; destruct (d_compilerCommand x) eqn:?
    | |- context [d_linkerCommand ?x] =>
        is_var x; destruct (d_linkerCommand x) eqn:?
    end;
  simpl in *; repeat split; intros; congruence.

Lemma createParsedCommand_in_returns
      (catalogue : list (sset * CompilerParseRulesMap))
      (command : list string) (wd : string) :
  createParsedCommand_in h env sc catalogue command wd <> Diverged.
Proof.
  unfold createParsedCommand_in. intros H. destruct command; [discriminate|].
  invert_diverged;
    solve [ now apply ParsedCommand_new_returns in H
          | now apply parseCommand_returns in H ].
Qed.

Lemma createParsedLinkerCommand_returns (command : list string)
      (wd : string) :
  createParsedLinkerCommand h env sc command wd <> Diverged.
Proof.
  unfold createParsedLinkerCommand. intros H.
  invert_diverged;
    solve [ now apply ParsedCommand_new_returns in H
          | now apply parseCommand_returns in H ].
Qed.

Lemma createParsedCommand_in_consistent
      (catalogue : list (sset * CompilerParseRulesMap))
      (command : list string) (wd : string) (c : ParsedCommand) :
  createParsedCommand_in h env sc catalogue command wd = Ret c ->
  kind_consistent c.
Proof.
  unfold createParsedCommand_in, kind_consistent, is_compiler_command,
    is_linker_command.
  intros H. destruct command as [|compiler arguments].
  - injection H as <-. simpl. auto.
  - invert_run;
      repeat match goal with
        | H : ParsedCommand_new _ _ _ _ _ = Ret _ |- _ =>
            apply ParsedCommand_new_flags in H;
            destruct H as (? & ? & ?)
        | H : parseCommand _ _ _ _ _ _ = Ret _ |- _ =>
            apply parseCommand_keeps in H;
            destruct H as (? & ? & ? & _)
        end;
      close_flags.
Qed.

Lemma ld_tables_without_compile_rule :
  without_compile_rule LdRules /\ without_compile_rule SolarisLdRules.
Proof.
  split; intros key fn H; vm_compute in H;
    repeat (destruct H as [H | H];
            [injection H as <- <-; discriminate|]);
    contradiction.
Qed.

Lemma createParsedLinkerCommand_consistent (command : list string)
      (wd : string) (c : ParsedCommand) :
  createParsedLinkerCommand h env sc command wd = Ret c ->
  kind_consistent c.
Proof.
  unfold createParsedLinkerCommand, kind_consistent, is_compiler_command,
    is_linker_command.
  intros H.
  assert (Hw : without_compile_rule
                 (if built_for_sun h then SolarisLdRules else LdRules))
    by (destruct (built_for_sun h); apply ld_tables_without_compile_rule).
  revert H Hw. generalize (if built_for_sun h then SolarisLdRules else LdRules).
  intros rules H Hw. invert_run;
    repeat match goal with
      | H : ParsedCommand_new _ _ _ _ _ = Ret _ |- _ =>
          apply ParsedCommand_new_flags in H; destruct H as (? & ? & ?)
      | H : parseCommand _ _ _ _ _ _ = Ret _ |- _ =>
          apply parseCommand_keeps in H;
          destruct H as (? & ? & ? & Hc); specialize (Hc Hw)
      end;
    close_flags.
Qed.

(** *** Standard input and response files *)

Lemma matchCompilerOptions_stdin (rules : CompilerParseRulesMap) :
  In rules rule_tables -> matchCompilerOptions "-" rules = None.
Proof.
  unfold rule_tables. simpl.
  intros H; repeat (destruct H as [<- | H]; [reflexivity|]); contradiction.
Qed.

Lemma matchCompilerOptions_response_file (rules : CompilerParseRulesMap)
      (token : string) :
  StdString.front_is "@"%char token = true ->
  matchCompilerOptions token rules = None.
Proof.
  destruct token as [|a token]; unfold StdString.front_is;
    [discriminate|].
  intros H. apply Ascii.eqb_eq in H. subst a. reflexivity.
Qed.

Lemma parseToken_stdin_or_response_file (c : ParsedCommand)
      (rules : CompilerParseRulesMap) (wd token : string)
      (rest : list string) :
  In rules rule_tables ->
  d_originalCommand c = token :: rest ->
  token = "-" \/ StdString.front_is "@"%char token = true ->
  parseToken h env sc c rules wd token
  = Ret (set_originalCommand rest (set_containsUnsupportedOptions true c)).
Proof.
  intros Hr E [-> | Hat]; unfold parseToken.
  - rewrite matchCompilerOptions_stdin by assumption. simpl.
    unfold pop_front. simpl. now rewrite E.
  - rewrite matchCompilerOptions_response_file by assumption.
    destruct token as [|a token]; [discriminate|].
    unfold StdString.front_is in Hat. apply Ascii.eqb_eq in Hat. subst a.
    simpl. unfold pop_front. simpl. now rewrite E.
Qed.

End ParserFacts.

(* ------------------------------------------------------------------ *)
(** ** Sets of strings *)

Lemma sset_insert_In (x p : string) (s : sset) :
  In p (SSet.insert x s) <-> p = x \/ In p s.
Proof.
  induction s as [|y s IH]; simpl.
  - intuition.
  - destruct (String.compare x y) eqn:E; simpl.
    + apply String.compare_eq_iff in E. subst. intuition.
    + intuition.
    + rewrite IH. intuition.
Qed.

Lemma sset_count_In (x : string) (s : sset) :
  SSet.count x s = true <-> In x s.
Proof.
  induction s as [|y s IH]; simpl.
  - split; [discriminate | tauto].
  - rewrite orb_true_iff, IH, String.eqb_eq. intuition.
Qed.

Lemma sset_is_empty_true (s : sset) : SSet.is_empty s = true <-> s = [].
Proof. destruct s; simpl; split; congruence. Qed.

Lemma insert_each_In (f : string -> string) (from : list string) :
  forall (result : sset) (p : string),
    In p (Deps.insert_each f from result)
    <-> (exists x, In x from /\ p = f x) \/ In p result.
Proof.
  unfold Deps.insert_each.
  induction from as [|a from IH]; simpl; intros result p.
  - split; [auto | intros [(x & [] & _) | H]; exact H].
  - rewrite IH, sset_insert_In. split.
    + intros [(x & Hx & ->) | [-> | H]]; eauto.
    + intros [(x & [<- | Hx] & ->) | H]; eauto.
Qed.

(* ------------------------------------------------------------------ *)
(** ** Searching a string from the back *)

Section StringSearch.
Import StdString.

Lemma substring_all (s : string) : substring 0 (String.length s) s = s.
Proof. induction s; simpl; congruence. Qed.

Lemma take_app (a b : string) : take (String.length a) (a +++ b) = a.
Proof.
  unfold take. induction a as [|c a IH]; simpl.
  - now destruct b.
  - now rewrite IH.
Qed.

Lemma drop_app (a b : string) : drop (String.length a) (a +++ b) = b.
Proof.
  unfold drop. rewrite append_length.
  replace (String.length a + String.length b - String.length a)
    with (String.length b) by lia.
  induction a as [|c a IH]; simpl.
  - apply substring_all.
  - exact IH.
Qed.

Lemma drop_app_cons (a b : string) (c : ascii) :
  drop (S (String.length a)) (a +++ String c b) = b.
Proof.
  replace (a +++ String c b) with ((a +++ String c "") +++ b)
    by (now rewrite append_assoc).
  replace (S (String.length a)) with (String.length (a +++ String c ""))
    by (rewrite append_length; simpl; lia).
  apply drop_app.
Qed.

(** The decomposition of a string at the last occurrence of [c]. *)
Lemma rfind_Some (c : ascii) (s : string) (i : nat) :
  rfind c s = Some i ->
  exists a b,
    s = a +++ String c b /\ String.length a = i /\ rfind c b = None.
Proof.
  revert i. induction s as [|d s IH]; simpl; intros i; [discriminate|].
  destruct (rfind c s) as [j|] eqn:E.
  - intros [= <-]. destruct (IH j eq_refl) as (a & b & -> & Hl & Hb).
    exists (String d a), b. simpl. auto.
  - destruct (Ascii.eqb_spec c d) as [-> | _]; [|discriminate].
    intros [= <-]. exists "", s. auto.
Qed.

Lemma rfind_app (c : ascii) (a b : string) :
  rfind c (a +++ b)
  = match rfind c b with
    | Some i => Some (String.length a + i)
    | None => rfind c a
    end.
Proof.
  induction a as [|d a IH]; simpl.
  - now destruct (rfind c b).
  - rewrite IH. destruct (rfind c b); [reflexivity|].
    reflexivity.
Qed.

Lemma rfind_cons_same (c : ascii) (b : string) :
  rfind c b = None -> rfind c (String c b) = Some 0.
Proof. simpl. intros ->. now rewrite Ascii.eqb_refl. Qed.

Lemma rfind_cons_other (c d : ascii) (b : string) :
  Ascii.eqb c d = false -> rfind c b = None -> rfind c (String d b) = None.
Proof. simpl. now intros -> ->. Qed.

End StringSearch.

(* ------------------------------------------------------------------ *)
(** ** File suffixes (src/src/deps.cpp, src/src/fileutils.cpp) *)

Section Suffixes.
Import StdString.

Lemma has_suffix_in_inv (suffixes : sset) (file : string) :
  Deps.has_suffix_in suffixes file = true ->
  exists a suffix,
    file = a +++ String dot suffix /\ rfind dot suffix = None
    /\ In suffix suffixes.
Proof.
  unfold Deps.has_suffix_in.
  destruct (rfind dot file) as [pos|] eqn:E; [|discriminate].
  intros H. apply rfind_Some in E. destruct E as (a & b & -> & <- & Hb).
  rewrite drop_app_cons in H. apply sset_count_In in H. eauto.
Qed.

Lemma rfind_dot_suffix (a suffix : string) :
  rfind dot suffix = None ->
  rfind dot (a +++ String dot suffix) = Some (String.length a).
Proof.
  intros H. rewrite rfind_app, (rfind_cons_same _ _ H). f_equal. lia.
Qed.

Lemma replaceSuffix_decomposed (a suffix new : string) :
  rfind dot suffix = None ->
  FileUtils.replaceSuffix (a +++ String dot suffix) new = a +++ new.
Proof.
  intros H. unfold FileUtils.replaceSuffix.
  now rewrite (rfind_dot_suffix _ _ H), take_app.
Qed.

(** For a file whose suffix holds no slash, taking the basename and
    replacing the suffix commute. *)
Lemma stripDirectory_replaceSuffix (a suffix new : string) :
  rfind dot suffix = None ->
  rfind slash suffix = None ->
  rfind slash new = None ->
  FileUtils.stripDirectory
    (FileUtils.replaceSuffix (a +++ String dot suffix) new)
  = FileUtils.replaceSuffix
      (FileUtils.stripDirectory (a +++ String dot suffix)) new.
Proof.
  intros Hd Hs Hn. rewrite (replaceSuffix_decomposed _ _ _ Hd).
  unfold FileUtils.stripDirectory.
  assert (Hds : rfind slash (String dot suffix) = None)
    by (apply rfind_cons_other; [reflexivity | assumption]).
  rewrite !rfind_app, Hn, Hds.
  destruct (rfind slash a) as [j|] eqn:E.
  - apply rfind_Some in E. destruct E as (a1 & a2 & -> & <- & Ha2).
    rewrite !append_assoc. simpl. rewrite !drop_app_cons.
    now rewrite (replaceSuffix_decomposed _ _ _ Hd).
  - now rewrite (replaceSuffix_decomposed _ _ _ Hd).
Qed.

Lemma source_suffix_facts (file : string) :
  Deps.is_source_file file = true ->
  Deps.is_header_file file = false
  /\ exists a suffix,
      file = a +++ String dot suffix /\ rfind dot suffix = None
      /\ rfind slash suffix = None.
Proof.
  unfold Deps.is_source_file, Deps.is_header_file. intros H.
  pose proof (has_suffix_in_inv _ _ H) as (a & suffix & -> & Hd & Hin).
  split.
  - unfold Deps.has_suffix_in. rewrite (rfind_dot_suffix _ _ Hd).
    rewrite drop_app_cons. simpl in Hin.
    repeat (destruct Hin as [<- | Hin]; [reflexivity|]). contradiction.
  - exists a, suffix. repeat split; auto. simpl in Hin.
    repeat (destruct Hin as [<- | Hin]; [reflexivity|]). contradiction.
Qed.

(** The name the code gives the object of a source is the basename of the
    source with its extension replaced. *)
Lemma object_name_of_source (source : string) :
  Deps.is_source_file source = true ->
  Deps.stripped_with ".o" source
  = FileUtils.replaceSuffix (FileUtils.stripDirectory source) ".o".
Proof.
  intros H. apply source_suffix_facts in H.
  destruct H as (_ & a & suffix & -> & Hd & Hs).
  unfold Deps.stripped_with. now apply stripDirectory_replaceSuffix.
Qed.

Lemma aux_is_not_object (file : string) (c : ParsedCommand) :
  Deps.is_aux_input_file file c = true -> Deps.is_object_file file = false.
Proof.
  unfold Deps.is_aux_input_file, Deps.is_object_file.
  destruct (is_sun_studio c); [|discriminate]. intros H.
  pose proof (has_suffix_in_inv _ _ H) as (a & suffix & -> & Hd & Hin).
  unfold Deps.has_suffix_in. rewrite (rfind_dot_suffix _ _ Hd).
  rewrite drop_app_cons. simpl in Hin.
  repeat (destruct Hin as [<- | Hin]; [reflexivity|]). contradiction.
Qed.

End Suffixes.

(* ------------------------------------------------------------------ *)
(** ** Products (src/src/deps.cpp) *)

Section Products.
Import StdString.

Lemma has_suffix_in_disjoint (l1 l2 : sset) (file : string) :
  forallb (fun x => negb (SSet.count x l2)) l1 = true ->
  Deps.has_suffix_in l1 file = true ->
  Deps.has_suffix_in l2 file = false.
Proof.
  unfold Deps.has_suffix_in. intros Hd.
  destruct (rfind dot file); [|reflexivity].
  intros H. apply sset_count_In in H.
  rewrite forallb_forall in Hd. apply Hd in H.
  now apply negb_true_iff in H.
Qed.

Lemma object_is_not_header_or_source (file : string) :
  Deps.is_object_file file = true ->
  Deps.is_header_file file = false /\ Deps.is_source_file file = false.
Proof.
  intros H. split;
    apply (has_suffix_in_disjoint ["a"; "o"; "so"]);
    solve [reflexivity | exact H].
Qed.

Variable c : ParsedCommand.

(** What the validation loop collects from recognized inputs. *)
Lemma classify_inputs_accept (inputs : list string) :
  forall headers0 sources0 objects0,
    forallb (recognized_input c) inputs = true ->
    exists headers sources objects,
      Deps.classify_inputs c inputs headers0 sources0 objects0
      = Ret (headers, sources, objects)
      /\ (forall x, In x headers <->
                    In x headers0
                    \/ (In x inputs /\ is_compiler_command c = true
                        /\ Deps.is_header_file x = true))
      /\ (forall x, In x sources <->
                    In x sources0
                    \/ (In x inputs /\ is_compiler_command c = true
                        /\ Deps.is_source_file x = true))
      /\ (forall x, In x objects <->
                    In x objects0
                    \/ (In x inputs /\ is_linker_command c = true
                        /\ Deps.is_object_file x = true)).
Proof.
  induction inputs as [|file inputs IH]; simpl; intros h0 s0 o0 Hrec.
  - exists h0, s0, o0. repeat split; intuition.
  - apply andb_prop in Hrec. destruct Hrec as [Hfile Hrest].
    unfold recognized_input in Hfile.
    destruct (is_compiler_command c) eqn:Ec;
      destruct (Deps.is_header_file file) eqn:Eh; simpl in *.
    + destruct (IH (SSet.insert file h0) s0 o0 Hrest)
        as (hs & ss & os & E & Hh & Hs & Ho).
      exists hs, ss, os. split; [exact E|]. repeat split.
      * rewrite Hh, sset_insert_In. intuition (subst; auto).
      * rewrite Hh, sset_insert_In. intuition (subst; auto).
      * rewrite Hs. intuition.
      * rewrite Hs.
        intros [? | [[<- | ?] ?]]; auto.
        destruct H as (_ & Hsrc). apply source_suffix_facts in Hsrc.
        destruct Hsrc as [Hsrc _]. congruence.
      * rewrite Ho. intuition.
      * rewrite Ho.
        intros [? | [[<- | ?] (? & Hobj)]]; auto.
        apply object_is_not_header_or_source in Hobj.
        destruct Hobj. congruence.
    + destruct (Deps.is_source_file file) eqn:Es; simpl in *.
      * destruct (IH h0 (SSet.insert file s0) o0 Hrest)
          as (hs & ss & os & E & Hh & Hs & Ho).
        exists hs, ss, os. split; [exact E|]. repeat split.
        -- rewrite Hh. intuition.
        -- rewrite Hh. intros [? | [[<- | ?] ?]]; auto.
           destruct H as (_ & ?). congruence.
        -- rewrite Hs, sset_insert_In. intuition (subst; auto).
        -- rewrite Hs, sset_insert_In. intuition (subst; auto).
        -- rewrite Ho. intuition.
        -- rewrite Ho.
           intros [? | [[<- | ?] (? & Hobj)]]; auto.
           apply object_is_not_header_or_source in Hobj.
           destruct Hobj. congruence.
      * destruct (Deps.is_aux_input_file file c) eqn:Ea; simpl in *.
        -- destruct (IH h0 s0 o0 Hrest)
             as (hs & ss & os & E & Hh & Hs & Ho).
           exists hs, ss, os. split; [exact E|]. repeat split.
           ++ rewrite Hh. intuition.
           ++ rewrite Hh. intros [? | [[<- | ?] ?]]; auto.
              destruct H as (_ & ?). congruence.
           ++ rewrite Hs. intuition.
           ++ rewrite Hs. intros [? | [[<- | ?] ?]]; auto.
              destruct H as (_ & ?). congruence.
           ++ rewrite Ho. intuition.
           ++ rewrite Ho.
              intros [? | [[<- | ?] (? & Hobj)]]; auto.
              apply aux_is_not_object in Ea. congruence.
        -- rewrite Hfile.
           destruct (IH h0 s0 (SSet.insert file o0) Hrest)
             as (hs & ss & os & E & Hh & Hs & Ho).
           apply andb_prop in Hfile. destruct Hfile as [El Eo].
           exists hs, ss, os. split; [exact E|]. repeat split.
           ++ rewrite Hh. intuition.
           ++ rewrite Hh. intros [? | [[<- | ?] ?]]; auto.
              destruct H as (_ & ?). congruence.
           ++ rewrite Hs. intuition.
           ++ rewrite Hs. intros [? | [[<- | ?] ?]]; auto.
              destruct H as (_ & ?). congruence.
           ++ rewrite Ho, sset_insert_In. intuition (subst; auto).
           ++ rewrite Ho, sset_insert_In. intuition (subst; auto).
    + discriminate Hfile || (rewrite Hfile;
        destruct (IH h0 s0 (SSet.insert file o0) Hrest)
          as (hs & ss & os & E & Hh & Hs & Ho);
        apply andb_prop in Hfile; destruct Hfile as [El Eo];
        exists hs, ss, os; split; [exact E|]; repeat split;
        try (rewrite Hh; intuition congruence);
        try (rewrite Hs; intuition congruence);
        rewrite Ho, sset_insert_In; intuition (subst; auto)).
    + rewrite Hfile.
      destruct (IH h0 s0 (SSet.insert file o0) Hrest)
        as (hs & ss & os & E & Hh & Hs & Ho).
      apply andb_prop in Hfile. destruct Hfile as [El Eo].
      exists hs, ss, os. split; [exact E|]. repeat split;
        try (rewrite Hh; intuition congruence);
        try (rewrite Hs; intuition congruence);
        rewrite Ho, sset_insert_In; intuition (subst; auto).
Qed.

Lemma classify_inputs_reject (inputs : list string) :
  forall headers0 sources0 objects0,
    (exists file, In file inputs /\ recognized_input c file = false) ->
    Deps.classify_inputs c inputs headers0 sources0 objects0
    = Throws InvalidArgument.
Proof.
  induction inputs as [|file inputs IH]; simpl; intros h0 s0 o0
    (bad & Hin & Hbad); [contradiction|].
  destruct Hin as [<- | Hin].
  - unfold recognized_input in Hbad.
    apply orb_false_elim in Hbad. destruct Hbad as [H1 H2]. rewrite H2.
    destruct (is_compiler_command c); simpl in *; [|reflexivity].
    apply orb_false_elim in H1. destruct H1 as [H1 ->].
    apply orb_false_elim in H1. destruct H1 as [-> ->]. reflexivity.
  - assert (Hex : exists f, In f inputs /\ recognized_input c f = false)
      by eauto.
    repeat match goal with
           | |- context [if ?b then _ else _] => destruct b
           end; auto.
Qed.

Lemma no_producing_input (inputs : list string) (headers sources objects : sset) :
  (forall x, In x headers <->
             In x inputs /\ is_compiler_command c = true
             /\ Deps.is_header_file x = true) ->
  (forall x, In x sources <->
             In x inputs /\ is_compiler_command c = true
             /\ Deps.is_source_file x = true) ->
  (forall x, In x objects <->
             In x inputs /\ is_linker_command c = true
             /\ Deps.is_object_file x = true) ->
  SSet.is_empty headers && SSet.is_empty sources && SSet.is_empty objects
  = negb (existsb (producing_input c) inputs).
Proof.
  intros Hh Hs Ho. apply Bool.eq_true_iff_eq.
  rewrite !andb_true_iff, !sset_is_empty_true, negb_true_iff.
  rewrite <- Bool.not_true_iff_false, existsb_exists. split.
  - intros [[-> ->] ->] (x & Hx & Hp). unfold producing_input in Hp.
    apply orb_prop in Hp. destruct Hp as [Hp | Hp];
      apply andb_prop in Hp; destruct Hp as [Hk Hp].
    + apply orb_prop in Hp. destruct Hp as [Hp | Hp].
      * apply (proj2 (Hh x)). auto.
      * apply (proj2 (Hs x)). auto.
    + apply (proj2 (Ho x)). auto.
  - intros Hnone.
    assert (G : forall (l : sset),
               (forall x, In x l ->
                          In x inputs /\ producing_input c x = true) ->
               l = []).
    { intros [|a l] H; [reflexivity|].
      destruct (H a (or_introl eq_refl)) as (Hy & Hp).
      exfalso. apply Hnone. eauto. }
    repeat split; apply G; intros x Hx;
      first [apply Hh in Hx | apply Hs in Hx | apply Ho in Hx];
      destruct Hx as (Hin & Hk & Hf); split; auto;
      unfold producing_input; rewrite Hk, Hf; simpl;
      rewrite ?orb_true_r; reflexivity.
Qed.

Lemma md_products_grows (headers sources result : sset) (p : string) :
  In p result -> In p (Deps.md_products c headers sources result).
Proof.
  unfold Deps.md_products. intros H.
  repeat match goal with
         | |- context [if ?b then _ else _] => destruct b
         end;
    rewrite ?insert_each_In; auto.
Qed.

Lemma coverage_products_grows (headers sources result : sset) (p : string) :
  In p result -> In p (Deps.coverage_products c headers sources result).
Proof.
  unfold Deps.coverage_products. intros H.
  repeat match goal with
         | |- context [if ?b then _ else _] => destruct b
         end;
    rewrite ?insert_each_In; auto.
Qed.

Lemma dwarf_products_grows (sources result : sset) (p : string) :
  In p result -> In p (Deps.dwarf_products c sources result).
Proof.
  unfold Deps.dwarf_products. intros H.
  repeat match goal with
         | |- context [if ?b then _ else _] => destruct b
         end;
    rewrite ?insert_each_In; auto.
Qed.

(** The base products of the code are those of the specification. *)
Lemma base_products_spec (headers sources : sset) (p : string) :
  (forall x, In x headers <->
             In x (d_inputFiles c) /\ is_compiler_command c = true
             /\ Deps.is_header_file x = true) ->
  (forall x, In x sources <->
             In x (d_inputFiles c) /\ is_compiler_command c = true
             /\ Deps.is_source_file x = true) ->
  existsb (producing_input c) (d_inputFiles c) = true ->
  In p (Deps.base_products c headers sources []) <-> is_base_product c p.
Proof.
  intros Hh Hs Hex. unfold Deps.base_products, is_base_product.
  destruct (negb (SSet.is_empty (get_products c))).
  - rewrite insert_each_In. simpl. split.
    + intros [(x & Hx & ->) | []]. exact Hx.
    + eauto.
  - destruct (is_linker_command c) eqn:El.
    + simpl. intuition.
    + assert (Ek : is_compiler_command c = true).
      { apply existsb_exists in Hex. destruct Hex as (y & _ & Hy).
        unfold producing_input in Hy. rewrite El in Hy. simpl in Hy.
        rewrite orb_false_r in Hy. now apply andb_prop in Hy. }
      rewrite !insert_each_In. simpl. split.
      * intros [(x & Hx & ->) | [(x & Hx & ->) | []]].
        -- right. apply Hs in Hx. destruct Hx as (Hin & _ & Hsrc).
           exists x. rewrite (object_name_of_source _ Hsrc). auto.
        -- left. apply Hh in Hx. destruct Hx as (Hin & _ & Hhd). eauto.
      * intros [(x & Hin & Hhd & ->) | (x & Hin & Hsrc & ->)].
        -- right. left. exists x. split; [|reflexivity].
           apply Hh. auto.
        -- left. exists x. rewrite (object_name_of_source _ Hsrc).
           split; [|reflexivity]. apply Hs. auto.
Qed.

End Products.

(* ------------------------------------------------------------------ *)
(** ** The products loop of get_file_info (src/src/deps.cpp) *)

Section FileInfo.

Variable h : Host.

Lemma substr_checked_short (product : string) :
  String.length product < 2 ->
  StdString.substr_checked product
    ((Z.of_nat (String.length product) - 2) mod StdString.size_t_modulus)
  = Throws OutOfRange.
Proof.
  unfold StdString.substr_checked. intros H.
  destruct (String.length product) as [|[|n]]; [reflexivity | reflexivity|].
  lia.
Qed.

Lemma substr_checked_long (product : string) :
  2 <= String.length product ->
  exists tail,
    StdString.substr_checked product
      ((Z.of_nat (String.length product) - 2) mod StdString.size_t_modulus)
    = Ret tail.
Proof.
  unfold StdString.substr_checked, StdString.size_t_modulus. intros H.
  assert (Hle : ((Z.of_nat (String.length product) - 2) mod 2 ^ 64
                 <= Z.of_nat (String.length product) - 2)%Z)
    by (apply Z.mod_le; lia).
  destruct (Z.gtb_spec
              ((Z.of_nat (String.length product) - 2) mod 2 ^ 64)
              (Z.of_nat (String.length product))); [lia|].
  eauto.
Qed.

Lemma collect_products_short (products : list string) :
  forall possibleProducts objectTargets,
    (exists p, In p products /\ String.length p < 2) ->
    Deps.collect_products h products possibleProducts objectTargets
    = Throws OutOfRange.
Proof.
  induction products as [|product products IH]; simpl;
    intros acc targets (p & Hin & Hp); [contradiction|].
  destruct (Nat.lt_ge_cases (String.length product) 2) as [Hs | Hl].
  - now rewrite substr_checked_short.
  - destruct (substr_checked_long product Hl) as (tail & ->). simpl.
    destruct Hin as [<- | Hin]; [lia|]. apply IH. eauto.
Qed.

Lemma collect_products_long (products : list string) :
  forall possibleProducts objectTargets,
    (forall p, In p products -> 2 <= String.length p) ->
    exists r,
      Deps.collect_products h products possibleProducts objectTargets
      = Ret r.
Proof.
  induction products as [|product products IH]; simpl;
    intros acc targets Hall; [eauto|].
  destruct (substr_checked_long product (Hall product (or_introl eq_refl)))
    as (tail & ->).
  simpl. apply IH. auto.
Qed.

End FileInfo.

(* ------------------------------------------------------------------ *)
(** ** Lexical normalization *)

Section LexicalFacts.
Import StdString.

#[local] Arguments String.eqb : simpl never.
#[local] Arguments Ascii.eqb : simpl never.

Lemma tokens_no_separator (sep : ascii) (s : string) :
  forall cur,
    rfind sep s = None ->
    Parser.getline_tokens sep s cur
    = if empty (cur +++ s) then [] else [cur +++ s].
Proof.
  induction s as [|c s IH]; simpl; intros cur H.
  - now rewrite append_nil_r.
  - destruct (rfind sep s) eqn:E; [discriminate|].
    destruct (Ascii.eqb_spec sep c) as [-> | Hne]; [discriminate|].
    replace (Ascii.eqb c sep) with false
      by (symmetry; apply Ascii.eqb_neq; congruence).
    rewrite IH by reflexivity. now rewrite push_back_append.
Qed.

Lemma tokens_app_separator (sep : ascii) (a b : string) :
  forall cur,
    rfind sep a = None ->
    Parser.getline_tokens sep (a +++ String sep b) cur
    = (cur +++ a) :: Parser.getline_tokens sep b "".
Proof.
  induction a as [|c a IH]; simpl; intros cur H.
  - now rewrite Ascii.eqb_refl, append_nil_r.
  - destruct (rfind sep a) eqn:E; [discriminate|].
    destruct (Ascii.eqb_spec sep c) as [-> | Hne]; [discriminate|].
    replace (Ascii.eqb c sep) with false
      by (symmetry; apply Ascii.eqb_neq; congruence).
    rewrite IH by reflexivity. now rewrite push_back_append.
Qed.

Lemma rfind_cons_None (c d : ascii) (s : string) :
  rfind c (String d s) = None ->
  Ascii.eqb c d = false /\ rfind c s = None.
Proof.
  simpl. destruct (rfind c s); [discriminate|].
  destruct (Ascii.eqb c d); [discriminate | auto].
Qed.

Lemma kept_segment_inv (s : string) :
  kept_segment s = true ->
  s <> "" /\ s <> "." /\ rfind slash s = None.
Proof.
  unfold kept_segment. intros H.
  apply andb_prop in H. destruct H as [H Hs].
  apply andb_prop in H. destruct H as [He Hd].
  apply negb_true_iff, String.eqb_neq in He, Hd.
  destruct (rfind slash s); [discriminate | auto].
Qed.

Lemma segments_of_join (l : list string) :
  l <> [] -> forallb kept_segment l = true ->
  Parser.getline_tokens slash (Lexical.join l) "" = l.
Proof.
  induction l as [|s l IH]; [congruence|]. intros _ H. simpl in H.
  apply andb_prop in H. destruct H as [Hs Hl].
  apply kept_segment_inv in Hs. destruct Hs as (Hne & _ & Hsl).
  destruct l as [|s' l].
  - simpl. rewrite tokens_no_separator by assumption. simpl.
    destruct s; [congruence | reflexivity].
  - change (Lexical.join (s :: s' :: l))
      with (s +++ String slash (Lexical.join (s' :: l))).
    rewrite tokens_app_separator by assumption. simpl append.
    f_equal. apply IH; [discriminate | assumption].
Qed.

Lemma join_front (l : list string) :
  l <> [] -> forallb kept_segment l = true ->
  front_is slash (Lexical.join l) = false.
Proof.
  destruct l as [|s l]; [congruence|]. intros _ H. simpl in H.
  apply andb_prop in H. destruct H as [Hs _].
  apply kept_segment_inv in Hs. destruct Hs as (Hne & _ & Hsl).
  destruct s as [|c s]; [congruence|].
  apply rfind_cons_None in Hsl. destruct Hsl as [Hc _].
  destruct l; exact Hc.
Qed.

Lemma normal_stack_tail (g : bool) (top : string) (rest : list string) :
  normal_stack g (top :: rest) = true -> normal_stack g rest = true.
Proof.
  unfold normal_stack. simpl. intros H.
  apply andb_prop in H. destruct H as [Hk Hd].
  apply andb_prop in Hk. destruct Hk as [_ Hk]. rewrite Hk. simpl.
  destruct (String.eqb top ".."); [|exact Hd].
  apply andb_prop in Hd. destruct Hd as [Hg Hall].
  clear Hk. induction rest as [|r rest IH]; simpl in *; [reflexivity|].
  apply andb_prop in Hall. destruct Hall as [Hr Hall].
  rewrite String.eqb_sym in Hr. now rewrite Hr, Hg, Hall.
Qed.

(** Visiting a segment without slash keeps the stack normal. *)
Lemma visit_normal (g : bool) (stack : list string) (segment : string) :
  normal_stack g stack = true ->
  rfind slash segment = None ->
  normal_stack g (Lexical.visit g stack segment) = true.
Proof.
  intros Hn Hs. unfold Lexical.visit.
  assert (Hpush :
            String.eqb segment "." = false ->
            String.eqb segment "" = false ->
            (String.eqb segment ".." = true ->
             g = false /\ forallb (String.eqb "..") stack = true) ->
            normal_stack g (segment :: stack) = true).
  { intros Hd He Hdd. unfold normal_stack in *. simpl.
    apply andb_prop in Hn. destruct Hn as [Hk Hsh].
    unfold kept_segment at 1. rewrite Hd, He, Hs, Hk. simpl.
    destruct (String.eqb segment "..") eqn:E; [|exact Hsh].
    destruct (Hdd eq_refl) as [-> ->]. reflexivity. }
  destruct stack as [|top rest].
  - destruct (String.eqb segment "..") eqn:Edd; simpl.
    + destruct g; simpl; [exact Hn|].
      apply String.eqb_eq in Edd. subst. reflexivity.
    + destruct (String.eqb segment ".") eqn:Ed; simpl; [exact Hn|].
      destruct (String.eqb segment "") eqn:Ee; simpl; [exact Hn|].
      apply Hpush; auto. discriminate.
  - destruct (String.eqb segment "..") eqn:Edd; simpl.
    + destruct (String.eqb top "..") eqn:Et; simpl.
      * destruct g; simpl; [exact Hn|].
        apply String.eqb_eq in Edd. subst segment. simpl.
        apply Hpush; auto. intros _. split; [reflexivity|].
        unfold normal_stack in Hn. simpl in Hn. rewrite Et in Hn.
        apply andb_prop in Hn. destruct Hn as [_ Hn]. simpl in Hn.
        simpl. rewrite String.eqb_sym, Et. exact Hn.
      * now apply normal_stack_tail in Hn.
    + destruct (String.eqb segment ".") eqn:Ed; simpl; [exact Hn|].
      destruct (String.eqb segment "") eqn:Ee; simpl; [exact Hn|].
      apply Hpush; auto. discriminate.
Qed.

Lemma tokens_without_separator (sep : ascii) (s : string) :
  forall cur,
    rfind sep cur = None ->
    Forall (fun t => rfind sep t = None)
      (Parser.getline_tokens sep s cur).
Proof.
  induction s as [|c s IH]; simpl; intros cur Hc.
  - destruct (empty cur); repeat constructor. exact Hc.
  - destruct (Ascii.eqb_spec c sep) as [-> | Hne].
    + constructor; [exact Hc | now apply IH].
    + apply IH. unfold push_back. rewrite rfind_app. simpl.
      replace (Ascii.eqb sep c) with false
        by (symmetry; apply Ascii.eqb_neq; congruence).
      exact Hc.
Qed.

Lemma fold_visit_normal (g : bool) (l : list string) :
  forall stack,
    normal_stack g stack = true ->
    Forall (fun t => rfind slash t = None) l ->
    normal_stack g (fold_left (Lexical.visit g) l stack) = true.
Proof.
  induction l as [|t l IH]; simpl; intros stack Hn Hl; [exact Hn|].
  inversion Hl; subst. apply IH; [now apply visit_normal | assumption].
Qed.

(** Visiting the segments of a normal stack, bottom first, rebuilds it. *)
Lemma fold_visit_rebuilds (g : bool) (stack : list string) :
  normal_stack g stack = true ->
  fold_left (Lexical.visit g) (rev stack) [] = stack.
Proof.
  induction stack as [|top rest IH]; intros Hn; [reflexivity|].
  simpl. rewrite fold_left_app. simpl.
  rewrite IH by (now apply normal_stack_tail in Hn).
  unfold normal_stack in Hn. simpl in Hn.
  apply andb_prop in Hn. destruct Hn as [Hk Hsh].
  apply andb_prop in Hk. destruct Hk as [Hk _].
  apply kept_segment_inv in Hk. destruct Hk as (Hne & Hnd & _).
  apply String.eqb_neq in Hne, Hnd.
  unfold Lexical.visit.
  destruct (String.eqb top "..") eqn:Et.
  - apply andb_prop in Hsh. destruct Hsh as [Hg Hall].
    apply negb_true_iff in Hg. subst g.
    destruct rest as [|r rest]; simpl; rewrite Hnd, Hne; simpl;
      [reflexivity|].
    simpl in Hall. apply andb_prop in Hall. destruct Hall as [Hr _].
    rewrite String.eqb_sym in Hr. now rewrite Hr.
  - destruct rest; simpl; now rewrite Hnd, Hne.
Qed.

Lemma rev_kept (l : list string) :
  forallb kept_segment l = true -> forallb kept_segment (rev l) = true.
Proof.
  rewrite !forallb_forall. intros H x Hx. apply H. now apply in_rev.
Qed.

(** A rendered normal stack normalizes to itself. *)
Lemma normalize_render (g : bool) (stack : list string) :
  normal_stack g stack = true ->
  Lexical.normalizePath (Lexical.render g stack) = Lexical.render g stack.
Proof.
  intros Hn. unfold Lexical.normalizePath, Lexical.segments.
  destruct stack as [|top rest].
  - destruct g; reflexivity.
  - remember (top :: rest) as stack eqn:Es.
    assert (Hne : rev stack <> []).
    { subst stack. simpl. intros E. apply app_eq_nil in E.
      destruct E as [_ E]. discriminate E. }
    assert (Hk : forallb kept_segment (rev stack) = true).
    { apply rev_kept. unfold normal_stack in Hn.
      now apply andb_prop in Hn. }
    assert (R : Lexical.render g stack
                = (if g then "/" else "") +++ Lexical.join (rev stack))
      by (subst stack; reflexivity).
    rewrite R. destruct g.
    + change ("/" +++ Lexical.join (rev stack))
        with ("" +++ String slash (Lexical.join (rev stack))).
      rewrite tokens_app_separator by reflexivity.
      rewrite segments_of_join by assumption.
      cbn [fold_left append].
      change (Lexical.visit true [] "") with (@nil string).
      rewrite fold_visit_rebuilds by assumption.
      change (front_is slash (String slash (Lexical.join (rev stack))))
        with true.
      exact R.
    + cbn [append]. rewrite join_front by assumption.
      rewrite segments_of_join by assumption.
      rewrite fold_visit_rebuilds by assumption.
      exact R.
Qed.

(** [normalize . normalize = normalize] for the lexical normalization. *)
Lemma lexical_normalizePath_idempotent (path : string) :
  Lexical.normalizePath (Lexical.normalizePath path)
  = Lexical.normalizePath path.
Proof.
  unfold Lexical.normalizePath at 2 3.
  apply normalize_render, fold_visit_normal; [reflexivity|].
  now apply tokens_without_separator.
Qed.

End LexicalFacts.

(* ------------------------------------------------------------------ *)
(** ** Action construction (src/src/actionbuilder.cpp) *)

Section ActionFacts.

Variable h : Host.
Variable penv : ProcessEnv.
Variable dtools : DepsTools.
Variable tools : BuildTools.

Lemma string_field_length (field : N) (s : string) :
  s <> "" -> String.length s <= String.length (Proto.string_field field s).
Proof.
  destruct s as [|c s]; [congruence|]. intros _.
  unfold Proto.string_field, Proto.delimited.
  rewrite !append_length, Nat.add_assoc. apply Nat.le_add_l.
Qed.

(** Setting a salt on an action without one makes its encoding longer. *)
Lemma serialize_salted_length (salt : string) (a : Proto.Action) :
  Proto.salt a = "" ->
  String.length (Proto.serialize_Action (salted salt a))
  = String.length (Proto.serialize_Action a)
    + String.length (Proto.string_field 9 salt).
Proof.
  intros H. unfold Proto.serialize_Action, salted.
  cbn [Proto.command_digest Proto.input_root_digest Proto.do_not_cache
       Proto.salt Proto.action_platform].
  rewrite H, !append_length.
  change (String.length (Proto.string_field 9 "")) with 0.
  generalize (String.length (Proto.string_field 9 salt)).
  generalize (String.length
                (Proto.delimited 1
                   (Proto.serialize_Digest (Proto.command_digest a)))).
  generalize (String.length
                (Proto.delimited 2
                   (Proto.serialize_Digest (Proto.input_root_digest a)))).
  generalize (String.length (Proto.bool_field 7 (Proto.do_not_cache a))).
  generalize (String.length
                (Proto.option_field
                   (fun p => Proto.delimited 10 (Proto.serialize_Platform p))
                   (Proto.action_platform a))).
  intros. lia.
Qed.

(** The configuration with another salt is read like the configuration
    itself by everything but the salt field of the action. *)
Lemma gather_inputs_with_salt (env : Env) (salt : string)
      (command : ParsedCommand) (cwd : string)
      (files : digest_string_map) :
  ActionBuilder.gather_inputs h (with_salt salt env) dtools tools command
    cwd files
  = ActionBuilder.gather_inputs h env dtools tools command cwd files.
Proof. reflexivity. Qed.

Lemma prepareRemoteEnv_with_salt (env : Env) (salt : string)
      (command : ParsedCommand) (read : sset) :
  ActionBuilder.prepareRemoteEnv h (with_salt salt env) penv command read
  = ActionBuilder.prepareRemoteEnv h env penv command read.
Proof. reflexivity. Qed.

Lemma generateCommandProto_with_salt (env : Env) (salt : string)
      (command : list string) (products directories : sset)
      (remoteEnv platform : list (string * string)) (wd : string) :
  ActionBuilder.generateCommandProto h (with_salt salt env) command
    products directories remoteEnv platform wd
  = ActionBuilder.generateCommandProto h env command products directories
      remoteEnv platform wd.
Proof. reflexivity. Qed.

(** [BuildAction] returns an action exactly when the command is
    accepted, the inputs are gathered, no product is absolute, and the
    remote environment, the command message and the version are
    obtained. *)
Lemma BuildAction_Some (env : Env) (command : ParsedCommand)
      (cwd : string) (blobs files : digest_string_map) (read : sset)
      (r : BuildResult) (files' : digest_string_map) :
  ActionBuilder.BuildAction h env penv dtools tools command cwd blobs
    files read = Ret (Some r, files')
  <-> exists products nestedDirectory wd remoteEnv read' commandProto
             withPlatform,
      is_compiler_command command || is_linker_command command
      || RECC_FORCE_REMOTE env = true
      /\ ActionBuilder.gather_inputs h env dtools tools command cwd files
         = Ret (Some (products, nestedDirectory, wd, files'))
      /\ existsb (fun product =>
                    negb (StdString.empty product)
                    && StdString.front_is StdString.slash product)
           products = false
      /\ ActionBuilder.prepareRemoteEnv h env penv command read
         = Ret (remoteEnv, read')
      /\ ActionBuilder.generateCommandProto h env (get_command command)
           (kept_products env command products)
           (RECC_OUTPUT_DIRECTORIES_OVERRIDE env) remoteEnv
           (RECC_REMOTE_PLATFORM env) wd = Ret commandProto
      /\ EnvVersion.configured_reapi_version_equal_to_or_newer_than env
           "2.2" = Ret withPlatform
      /\ r = result_of tools env command products nestedDirectory blobs read'
               commandProto withPlatform.
Proof.
  unfold ActionBuilder.BuildAction, result_of, kept_products. split.
  - intros H.
    destruct (negb (is_compiler_command command)
              && negb (is_linker_command command)
              && negb (RECC_FORCE_REMOTE env)) eqn:Ek; [discriminate H|].
    assert (Hk : is_compiler_command command || is_linker_command command
                 || RECC_FORCE_REMOTE env = true)
      by (destruct (is_compiler_command command),
            (is_linker_command command), (RECC_FORCE_REMOTE env);
          try reflexivity; discriminate Ek).
    apply bind_Ret_inv in H.
    destruct H as ([[[[products nd] wd] fs]|] & Hg & H);
      [|discriminate H].
    destruct (existsb _ products) eqn:Eabs; [discriminate H|].
    destruct (to_digest tools nd blobs) as [dd bs] eqn:Ed.
    apply bind_Ret_inv in H. destruct H as ([renv read'] & Hp & H).
    apply bind_Ret_inv in H. destruct H as (cp & Hc & H).
    apply bind_Ret_inv in H. destruct H as (wp & Hw & H).
    injection H as <- <-.
    exists products, nd, wd, renv, read', cp, wp.
    repeat (split; [first [reflexivity | assumption]|]).
    rewrite Ed. cbn [fst snd]. now destruct (RECC_ACTION_SALT env).
  - intros (products & nd & wd & renv & read' & cp & wp
            & Hk & Hg & Habs & Hp & Hc & Hw & ->).
    replace (negb (is_compiler_command command)
             && negb (is_linker_command command)
             && negb (RECC_FORCE_REMOTE env)) with false
      by (destruct (is_compiler_command command),
            (is_linker_command command), (RECC_FORCE_REMOTE env);
          try reflexivity; discriminate Hk).
    rewrite Hg. cbn [bind]. rewrite Habs.
    destruct (to_digest tools nd blobs) as [dd bs].
    rewrite Hp. cbn [bind].
    match goal with
    | |- bind ?x _ = _ => replace x with (Ret cp) by (symmetry; exact Hc)
    end.
    cbn [bind]. rewrite Hw.
    cbn [bind fst snd]. now destruct (RECC_ACTION_SALT env).
Qed.

Lemma BuildAction_salt (env : Env) (command : ParsedCommand) (cwd : string)
      (blobs files : digest_string_map) (read : sset) (r : BuildResult)
      (files' : digest_string_map) :
  ActionBuilder.BuildAction h env penv dtools tools command cwd blobs
    files read = Ret (Some r, files') ->
  Proto.salt (built_action r) = RECC_ACTION_SALT env.
Proof.
  intros H. apply BuildAction_Some in H.
  destruct H as (? & ? & ? & ? & ? & ? & ? & _ & _ & _ & _ & _ & _ & ->).
  reflexivity.
Qed.

Lemma BuildAction_platform (env : Env) (command : ParsedCommand)
      (cwd : string) (blobs files : digest_string_map) (read : sset)
      (r : BuildResult) (files' : digest_string_map) :
  ActionBuilder.BuildAction h env penv dtools tools command cwd blobs
    files read = Ret (Some r, files') ->
  exists withPlatform,
    EnvVersion.configured_reapi_version_equal_to_or_newer_than env "2.2"
    = Ret withPlatform
    /\ Proto.action_platform (built_action r)
       = if withPlatform
         then Some (Proto.Command_platform (built_command r))
         else None.
Proof.
  intros H. apply BuildAction_Some in H.
  destruct H as (? & ? & ? & ? & ? & ? & wp & _ & _ & _ & _ & _ & Hw & ->).
  exists wp. split; [exact Hw | reflexivity].
Qed.

(** [BuildAction] returns an action when the command is accepted, its
    inputs are gathered without an absolute product, the remote
    environment is prepared and the configured version is one. *)
Lemma BuildAction_returns (env : Env) (command : ParsedCommand)
      (cwd : string) (blobs files : digest_string_map) (read : sset)
      (products : sset) (nestedDirectory : NestedDirectory tools)
      (wd : string) (files' : digest_string_map)
      (remoteEnv : string_map) (read' : sset) (version : Z * Z) :
  is_compiler_command command || is_linker_command command
  || RECC_FORCE_REMOTE env = true ->
  ActionBuilder.gather_inputs h env dtools tools command cwd files
  = Ret (Some (products, nestedDirectory, wd, files')) ->
  (forall p, In p products -> StdString.front_is StdString.slash p = false) ->
  ActionBuilder.prepareRemoteEnv h env penv command read
  = Ret (remoteEnv, read') ->
  EnvVersion.version_string_to_pair (RECC_REAPI_VERSION env)
  = Ret version ->
  exists commandProto,
    ActionBuilder.generateCommandProto h env (get_command command)
      (kept_products env command products)
      (RECC_OUTPUT_DIRECTORIES_OVERRIDE env) remoteEnv
      (RECC_REMOTE_PLATFORM env) wd = Ret commandProto
    /\ ActionBuilder.BuildAction h env penv dtools tools command cwd blobs
         files read
       = Ret (Some (result_of tools env command products nestedDirectory blobs
                      read' commandProto
                      (EnvVersion.pair_ge version (2, 2)%Z)),
              files').
Proof.
  intros Hk Hg Hrel Hp Hv.
  assert (Hc : exists commandProto,
             ActionBuilder.generateCommandProto h env (get_command command)
               (kept_products env command products)
               (RECC_OUTPUT_DIRECTORIES_OVERRIDE env) remoteEnv
               (RECC_REMOTE_PLATFORM env) wd = Ret commandProto).
  { unfold ActionBuilder.generateCommandProto,
      ActionBuilder.populateCommandProto,
      EnvVersion.configured_reapi_version_equal_to_or_newer_than.
    rewrite Hv. simpl. eauto. }
  destruct Hc as (cp & Hc). exists cp. split; [exact Hc|].
  apply BuildAction_Some.
  exists products, nestedDirectory, wd, remoteEnv, read', cp,
    (EnvVersion.pair_ge version (2, 2)%Z).
  repeat (split; [first [reflexivity | assumption]|]).
  split.
  - destruct (existsb _ products) eqn:E; [|reflexivity].
    apply existsb_exists in E. destruct E as (p & Hin & E).
    apply andb_prop in E. destruct E as [_ E].
    now rewrite (Hrel p Hin) in E.
  - repeat (split; [first [reflexivity | assumption]|]).
    split; [|reflexivity].
    unfold EnvVersion.configured_reapi_version_equal_to_or_newer_than.
    rewrite Hv. reflexivity.
Qed.

(** The salt reaches the result of [BuildAction] through the salt field of
    the action only. *)
Lemma BuildAction_with_salt (env : Env) (salt : string)
      (command : ParsedCommand) (cwd : string)
      (blobs files : digest_string_map) (read : sset) :
  ActionBuilder.BuildAction h (with_salt salt env) penv dtools tools
    command cwd blobs files read
  = (r <- ActionBuilder.BuildAction h (with_salt "" env) penv dtools tools
            command cwd blobs files read ;;
     Ret (option_map (with_salted_action salt) (fst r), snd r)).
Proof.
  unfold ActionBuilder.BuildAction.
  rewrite !gather_inputs_with_salt.
  change (RECC_FORCE_REMOTE (with_salt salt env))
    with (RECC_FORCE_REMOTE env).
  change (RECC_FORCE_REMOTE (with_salt "" env))
    with (RECC_FORCE_REMOTE env).
  destruct (negb (is_compiler_command command)
            && negb (is_linker_command command)
            && negb (RECC_FORCE_REMOTE env)); [reflexivity|].
  destruct (ActionBuilder.gather_inputs h env dtools tools command cwd
              files) as [[[[[products nd] wd] fs]|]| | |];
    try reflexivity.
  cbn [bind].
  destruct (existsb _ products); [reflexivity|].
  destruct (to_digest tools nd blobs) as [dd bs].
  rewrite !prepareRemoteEnv_with_salt.
  destruct (ActionBuilder.prepareRemoteEnv h env penv command read)
    as [[renv read']| | |]; try reflexivity.
  cbn [bind]. rewrite !generateCommandProto_with_salt.
  change (RECC_LINK_METRICS_ONLY (with_salt salt env))
    with (RECC_LINK_METRICS_ONLY env).
  change (RECC_LINK_METRICS_ONLY (with_salt "" env))
    with (RECC_LINK_METRICS_ONLY env).
  change (RECC_OUTPUT_DIRECTORIES_OVERRIDE (with_salt salt env))
    with (RECC_OUTPUT_DIRECTORIES_OVERRIDE env).
  change (RECC_OUTPUT_DIRECTORIES_OVERRIDE (with_salt "" env))
    with (RECC_OUTPUT_DIRECTORIES_OVERRIDE env).
  change (RECC_REMOTE_PLATFORM (with_salt salt env))
    with (RECC_REMOTE_PLATFORM env).
  change (RECC_REMOTE_PLATFORM (with_salt "" env))
    with (RECC_REMOTE_PLATFORM env).
  match goal with
  | |- context [ActionBuilder.generateCommandProto ?a ?b ?c ?d ?e ?f ?g ?i] =>
      destruct (ActionBuilder.generateCommandProto a b c d e f g i)
        as [cp| | |]; try reflexivity
  end.
  cbn [bind].
  unfold EnvVersion.configured_reapi_version_equal_to_or_newer_than.
  change (RECC_REAPI_VERSION (with_salt salt env))
    with (RECC_REAPI_VERSION env).
  change (RECC_REAPI_VERSION (with_salt "" env))
    with (RECC_REAPI_VERSION env).
  destruct (EnvVersion.version_string_to_pair (RECC_REAPI_VERSION env))
    as [v| | |]; try reflexivity.
  cbn. now destruct salt.
Qed.

End ActionFacts.

(** [BuildAction] throws where the code does: for a product two levels
    above the working directory "/home", [commonAncestorPath] asks
    [lastNSegments] for more segments than the directory has, and the
    std::logic_error leaves [BuildAction], with and without a salt. *)
Lemma BuildAction_throws_above_root :
  ActionBuilder.BuildAction Example.host Example.env Example.process_env
    Example.deps_tools Example.build_tools
    (set_commandProducts ["../../hello.o"] Example.compile_command)
    "/home" [] [] []
  = Throws LogicError
  /\ ActionBuilder.BuildAction Example.host (with_salt "salt" Example.env)
       Example.process_env Example.deps_tools Example.build_tools
       (set_commandProducts ["../../hello.o"] Example.compile_command)
       "/home" [] [] []
     = Throws LogicError.
Proof. split; vm_compute; reflexivity. Qed.

Section MerkleLoop.
Import StdString.

Lemma substring_length_le (s : string) (n m : nat) :
  String.length (substring n m s) <= m.
Proof.
  revert n m. induction s as [|c s IH]; intros [|n] [|m]; simpl; try lia.
  - specialize (IH 0 m). lia.
  - apply (IH n 0).
  - apply (IH n (S m)).
Qed.

Lemma prefix_length_le (needle s : string) :
  String.prefix needle s = true -> String.length needle <= String.length s.
Proof.
  revert s. induction needle as [|c needle IH]; intros s H; simpl; [lia|].
  destruct s as [|d s]; simpl in H; [discriminate|].
  destruct (ascii_dec c d); [|discriminate].
  apply IH in H. simpl. lia.
Qed.

Lemma find_string_bound (needle s : string) (i : nat) :
  ActionBuilder.find_string needle s = Some i ->
  i + String.length needle <= String.length s.
Proof.
  revert i. induction s as [|c s IH]; intros i H.
  - unfold ActionBuilder.find_string in H.
    destruct (String.prefix needle "") eqn:E; [|discriminate].
    injection H as <-. now apply prefix_length_le in E.
  - cbn [ActionBuilder.find_string] in H.
    destruct (String.prefix needle (String c s)) eqn:E.
    + injection H as <-. now apply prefix_length_le in E.
    + destruct (ActionBuilder.find_string needle s) as [j|];
        [|discriminate].
      injection H as <-. specialize (IH j eq_refl). simpl. lia.
Qed.

Lemma find_string_from_bound (needle s : string) (pos i : nat) :
  0 < String.length needle ->
  ActionBuilder.find_string_from needle pos s = Some i ->
  pos <= i /\ i + String.length needle <= String.length s.
Proof.
  unfold ActionBuilder.find_string_from. intros Hn H.
  destruct (ActionBuilder.find_string needle (drop pos s)) as [j|] eqn:E;
    [|discriminate].
  injection H as <-. apply find_string_bound in E.
  pose proof (substring_length_le s pos (String.length s - pos)) as Hd.
  fold (drop pos s) in Hd. lia.
Qed.

(** The loop of [getMerklePath] ends: with the length of the path as
    fuel, or more, the fuel does not run out. *)
Lemma add_directories_before_dotdot_fuel
      (h : Host) (tools : BuildTools) (fuel fuel' : nat)
      (merklePath : string) (pos : nat)
      (nestedDirectory : NestedDirectory tools) :
  String.length merklePath <= fuel + pos ->
  String.length merklePath <= fuel' + pos ->
  ActionBuilder.add_directories_before_dotdot h tools fuel merklePath pos
    nestedDirectory
  = ActionBuilder.add_directories_before_dotdot h tools fuel' merklePath
      pos nestedDirectory.
Proof.
  revert fuel' pos nestedDirectory.
  induction fuel as [|fuel IH]; intros fuel' pos nd H1 H2.
  - destruct fuel'; cbn [ActionBuilder.add_directories_before_dotdot];
      destruct (ActionBuilder.find_string_from "/../" pos merklePath)
        as [dotdot|] eqn:E; try reflexivity;
      apply find_string_from_bound in E; simpl in *; lia.
  - cbn [ActionBuilder.add_directories_before_dotdot].
    destruct (ActionBuilder.find_string_from "/../" pos merklePath)
      as [dotdot|] eqn:E.
    + pose proof E as Hb. apply find_string_from_bound in Hb;
        [|simpl; lia].
      simpl in Hb.
      destruct fuel' as [|fuel'].
      * lia.
      * cbn [ActionBuilder.add_directories_before_dotdot]. rewrite E.
        destruct (if negb (Nat.eqb dotdot pos)
                  then addDirectory tools
                         (normalizePath h (take dotdot merklePath)) nd
                  else Ret nd) as [nd'| | |]; try reflexivity.
        cbn [bind]. apply IH; lia.
    + destruct fuel'; cbn [ActionBuilder.add_directories_before_dotdot];
        rewrite E; reflexivity.
Qed.

End MerkleLoop.


(* ================================================================== *)
(** * The claims of the specification *)

(* ------------------------------------------------------------------ *)
(** ** Option matching *)

(** C1, as amended.  For a token that begins with '-' or '+' and has no
    exact match in the rule table after its "=value" suffix is trimmed and
    its white space removed, [matchCompilerOptions] returns the entry that
    a scan of the table in descending key-length order finds first among
    the keys that are prefixes of the token (the longest such key), and
    the parser calls the function of that entry with that key. *)
Theorem matchCompilerOptions_longest_prefix
        (h : Host) (env : Env) (sc : SupportedCompilers)
        (rules : CompilerParseRulesMap) (token : string) :
  map_ordered rules ->
  RuleSpec.is_flag token = true ->
  RulesMap.lookup (StdString.remove_spaces (RuleSpec.trim_value token)) rules
  = None ->
  Parser.matchCompilerOptions token rules
  = RuleSpec.first_prefix_by_length token rules
  /\ forall c wd key fn,
      RuleSpec.first_prefix_by_length token rules = Some (key, fn) ->
      Parser.parseToken h env sc c rules wd token
      = Parser.call h env sc fn c wd key.
Proof.
  intros Hm Hflag Hexact.
  assert (E : Parser.matchCompilerOptions token rules
              = RuleSpec.first_prefix_by_length token rules).
  { unfold Parser.matchCompilerOptions.
    unfold RuleSpec.is_flag in Hflag. rewrite Hflag.
    destruct token as [|a token]; [discriminate Hflag|]. simpl negb.
    simpl andb. unfold RuleSpec.trim_value in Hexact. rewrite Hexact.
    now apply substring_search_is_longest_prefix. }
  split; [exact E|].
  intros c wd key fn Hspec. unfold Parser.parseToken.
  now rewrite E, Hspec.
Qed.

(** The witness of C1: "-MFfoo" goes to the function of "-MF", not to
    that of "-M". *)
Lemma matchCompilerOptions_longest_prefix_witness :
  map_ordered GccRules
  /\ RuleSpec.is_flag "-MFfoo" = true
  /\ RulesMap.lookup
       (StdString.remove_spaces (RuleSpec.trim_value "-MFfoo")) GccRules
     = None
  /\ (Parser.matchCompilerOptions "-MFfoo" GccRules
      = RuleSpec.first_prefix_by_length "-MFfoo" GccRules
      /\ forall c wd key fn,
          RuleSpec.first_prefix_by_length "-MFfoo" GccRules
          = Some (key, fn) ->
          Parser.parseToken Example.host Example.env Example.compilers
            c GccRules wd "-MFfoo"
          = Parser.call Example.host Example.env Example.compilers
              fn c wd key).
Proof.
  assert (Hm : map_ordered GccRules) by apply of_list_ordered.
  split; [exact Hm|]. split; [reflexivity|]. split; [reflexivity|].
  apply (matchCompilerOptions_longest_prefix Example.host Example.env
           Example.compilers GccRules "-MFfoo" Hm);
    reflexivity.
Defined.

(** The examples of the specification. *)
Example matchCompilerOptions_examples :
  Parser.matchCompilerOptions "-xassembler" GccRules
  = Some ("-x", fn_parseOptionSetsGccLanguage)
  /\ Parser.matchCompilerOptions "-MFfoo" GccRules
     = Some ("-MF", fn_parseOptionRedirectsDepsOutput).
Proof. split; reflexivity. Qed.

(** C1, as stated, fails: the token "-M F" has no exact match once
    "=value" is trimmed, and the longest key that is a prefix of it is
    "-M"; the code removes the space, finds "-MF" as an exact match and
    calls its function. *)
Lemma matchCompilerOptions_whitespace_counterexample :
  ~ (forall (rules : CompilerParseRulesMap) (token : string),
        map_ordered rules ->
        RuleSpec.is_flag token = true ->
        RulesMap.lookup (RuleSpec.trim_value token) rules = None ->
        Parser.matchCompilerOptions token rules
        = RuleSpec.first_prefix_by_length token rules).
Proof.
  intros H.
  specialize (H GccRules "-M F" (of_list_ordered _) eq_refl eq_refl).
  vm_compute in H. discriminate H.
Qed.

(* ------------------------------------------------------------------ *)
(** ** Standard input and response files *)

(** C5, as amended.  When the parser reaches a token that is exactly "-"
    or whose first character is '@', with any of the rule tables, it marks
    the command unsupported and drops that token, adding nothing to the
    remote or dependency arguments; parsing goes on with the tokens that
    follow, and the mark stays set in the command that parsing returns. *)
Theorem parse_stdin_or_response_file
        (h : Host) (env : Env) (sc : SupportedCompilers)
        (c : ParsedCommand) (rules : CompilerParseRulesMap)
        (wd token : string) (rest : list string) :
  In rules rule_tables ->
  d_originalCommand c = token :: rest ->
  token = "-" \/ StdString.front_is "@"%char token = true ->
  Parser.parseToken h env sc c rules wd token
  = Ret (set_originalCommand rest (set_containsUnsupportedOptions true c))
  /\ Parser.parseCommand h env sc c rules wd
     = Parser.parseCommand h env sc
         (set_originalCommand rest (set_containsUnsupportedOptions true c))
         rules wd
  /\ forall c',
      Parser.parseCommand h env sc c rules wd = Ret c' ->
      d_containsUnsupportedOptions c' = true.
Proof.
  intros Hr E Ht.
  pose proof (parseToken_stdin_or_response_file h env sc c rules wd token
                rest Hr E Ht) as Hstep.
  assert (Hloop : Parser.parseCommand h env sc c rules wd
                  = Parser.parseCommand h env sc
                      (set_originalCommand rest
                         (set_containsUnsupportedOptions true c))
                      rules wd).
  { unfold Parser.parseCommand. rewrite E. simpl. rewrite E.
    rewrite Hstep. reflexivity. }
  split; [exact Hstep|]. split; [exact Hloop|].
  intros c' H. rewrite Hloop in H. apply parseCommand_keeps in H.
  destruct H as (_ & Hu & _). apply Hu. reflexivity.
Qed.

(** The witness of C5: "gcc - foo.c" at the token "-". *)
Lemma parse_stdin_or_response_file_witness :
  In GccRules rule_tables
  /\ d_originalCommand
       (set_originalCommand ["-"; "foo.c"] ParsedCommand_default)
     = "-" :: ["foo.c"]
  /\ ("-" = "-" \/ StdString.front_is "@"%char "-" = true)
  /\ (Parser.parseToken Example.host Example.env Example.compilers
        (set_originalCommand ["-"; "foo.c"] ParsedCommand_default)
        GccRules "" "-"
      = Ret (set_originalCommand ["foo.c"]
               (set_containsUnsupportedOptions true
                  (set_originalCommand ["-"; "foo.c"]
                     ParsedCommand_default)))
      /\ Parser.parseCommand Example.host Example.env Example.compilers
           (set_originalCommand ["-"; "foo.c"] ParsedCommand_default)
           GccRules ""
         = Parser.parseCommand Example.host Example.env Example.compilers
             (set_originalCommand ["foo.c"]
                (set_containsUnsupportedOptions true
                   (set_originalCommand ["-"; "foo.c"]
                      ParsedCommand_default)))
             GccRules ""
      /\ forall c',
          Parser.parseCommand Example.host Example.env Example.compilers
            (set_originalCommand ["-"; "foo.c"] ParsedCommand_default)
            GccRules "" = Ret c' ->
          d_containsUnsupportedOptions c' = true).
Proof.
  assert (Hr : In GccRules rule_tables) by (left; reflexivity).
  split; [exact Hr|]. split; [reflexivity|].
  split; [left; reflexivity|].
  apply (parse_stdin_or_response_file Example.host Example.env
           Example.compilers
           (set_originalCommand ["-"; "foo.c"] ParsedCommand_default)
           GccRules "" "-" ["foo.c"] Hr eq_refl (or_introl eq_refl)).
Defined.

(** C5, as stated, fails: parsing does not stop at "-".  In "- foo.c" the
    token after "-" is parsed and recorded as an input of the command. *)
Lemma parse_continues_after_stdin_counterexample :
  ~ (forall (h : Host) (env : Env) (sc : SupportedCompilers)
            (c c' : ParsedCommand) (rules : CompilerParseRulesMap)
            (wd : string) (rest : list string),
        In rules rule_tables ->
        d_originalCommand c = "-" :: rest ->
        Parser.parseCommand h env sc c rules wd = Ret c' ->
        d_containsUnsupportedOptions c' = true
        /\ d_command c' = d_command c
        /\ d_inputFiles c' = d_inputFiles c).
Proof.
  intros H.
  destruct (Parser.parseCommand Example.host Example.env Example.compilers
              (set_originalCommand ["-"; "foo.c"] ParsedCommand_default)
              GccRules "") as [c'| | |] eqn:E;
    vm_compute in E; try discriminate E.
  injection E as <-.
  destruct (H Example.host Example.env Example.compilers
              (set_originalCommand ["-"; "foo.c"] ParsedCommand_default)
              _ GccRules "" ["foo.c"] (or_introl eq_refl) eq_refl
              eq_refl) as (_ & _ & Hinputs).
  discriminate Hinputs.
Qed.

(* ------------------------------------------------------------------ *)
(** ** The kind of a parsed command *)

(** C8.  For every argument vector and working directory,
    [createParsedCommand] and [createParsedLinkerCommand] come to an end,
    and the command they return is never both a compiler and a linker
    command, and is neither when it contains unsupported options. *)
Theorem parsed_command_kind_consistent
        (h : Host) (env : Env) (sc : SupportedCompilers)
        (command : list string) (wd : string) :
  (Parser.createParsedCommand h env sc command wd <> Diverged
   /\ Parser.createParsedLinkerCommand h env sc command wd <> Diverged)
  /\ forall c,
      Parser.createParsedCommand h env sc command wd = Ret c
      \/ Parser.createParsedLinkerCommand h env sc command wd = Ret c ->
      is_compiler_command c && is_linker_command c = false
      /\ (d_containsUnsupportedOptions c = true ->
          is_compiler_command c = false /\ is_linker_command c = false).
Proof.
  split.
  - split.
    + apply createParsedCommand_in_returns.
    + apply createParsedLinkerCommand_returns.
  - intros c [H | H].
    + exact (createParsedCommand_in_consistent h env sc _ _ _ _ H).
    + exact (createParsedLinkerCommand_consistent h env sc _ _ _ H).
Qed.

(** The witness of C8: "gcc -c foo.c -o foo.o" is a compiler command, and
    with "-M" it is unsupported and of neither kind. *)
Lemma parsed_command_kind_consistent_witness :
  exists c,
    Parser.createParsedCommand Example.host Example.env Example.compilers
      ["gcc"; "-c"; "foo.c"; "-M"; "-o"; "foo.o"] "/home" = Ret c
    /\ d_containsUnsupportedOptions c = true
    /\ is_compiler_command c && is_linker_command c = false
    /\ (d_containsUnsupportedOptions c = true ->
        is_compiler_command c = false /\ is_linker_command c = false).
Proof.
  eexists. split; [vm_compute; reflexivity|]. split; [reflexivity|].
  apply (proj2 (parsed_command_kind_consistent Example.host Example.env
                  Example.compilers
                  ["gcc"; "-c"; "foo.c"; "-M"; "-o"; "foo.o"] "/home")).
  left. vm_compute. reflexivity.
Defined.

(* ------------------------------------------------------------------ *)
(** ** Make rules *)




(* ------------------------------------------------------------------ *)
(** ** Products *)

(** C7, as amended.  [determine_products] throws when an input file has a
    suffix that is not recognized for the kind of the command.  When all
    are recognized it returns a set: the empty set when no input is a
    header or source of a compiler command or an object of a linker
    command; otherwise a set that holds the base products (the products of
    -o verbatim; else a.out for a linker command; else <header>.gch for
    every header input and the basename of the source with its extension
    replaced by ".o" for every source input), and nothing else when none
    of -MD, -qmakedep, --coverage and -gsplit-dwarf is set. *)
Theorem determine_products_base (c : ParsedCommand) :
  ((exists file,
       In file (d_inputFiles c) /\ recognized_input c file = false) ->
   Deps.determine_products c = Throws InvalidArgument)
  /\ (forallb (recognized_input c) (d_inputFiles c) = true ->
      exists result,
        Deps.determine_products c = Ret result
        /\ (existsb (producing_input c) (d_inputFiles c) = false ->
            result = [])
        /\ (existsb (producing_input c) (d_inputFiles c) = true ->
            (forall p, is_base_product c p -> In p result)
            /\ (no_extra_products c ->
                forall p, In p result -> is_base_product c p))).
Proof.
  split.
  - intros Hbad. unfold Deps.determine_products.
    now rewrite (classify_inputs_reject c _ _ _ _ Hbad).
  - intros Hrec.
    destruct (classify_inputs_accept c _ [] [] [] Hrec)
      as (hs & ss & os & E & Hh & Hs & Ho).
    assert (Hh' : forall x, In x hs <->
                   In x (d_inputFiles c) /\ is_compiler_command c = true
                   /\ Deps.is_header_file x = true)
      by (intros x; rewrite Hh; simpl; tauto).
    assert (Hs' : forall x, In x ss <->
                   In x (d_inputFiles c) /\ is_compiler_command c = true
                   /\ Deps.is_source_file x = true)
      by (intros x; rewrite Hs; simpl; tauto).
    assert (Ho' : forall x, In x os <->
                   In x (d_inputFiles c) /\ is_linker_command c = true
                   /\ Deps.is_object_file x = true)
      by (intros x; rewrite Ho; simpl; tauto).
    unfold Deps.determine_products. rewrite E. simpl.
    rewrite (no_producing_input c _ _ _ _ Hh' Hs' Ho').
    destruct (existsb (producing_input c) (d_inputFiles c)) eqn:Ex; simpl.
    + eexists. split; [reflexivity|]. split; [discriminate|].
      intros _. split.
      * intros p Hp.
        apply dwarf_products_grows, coverage_products_grows,
          md_products_grows.
        now apply (base_products_spec c hs ss p Hh' Hs' Ex).
      * intros (Hmd & Hq & Hcov & Hdw) p.
        unfold Deps.dwarf_products, Deps.coverage_products,
          Deps.md_products.
        rewrite Hmd, Hq, Hcov, Hdw. simpl.
        apply (base_products_spec c hs ss p Hh' Hs' Ex).
    + exists []. split; [reflexivity|]. split; [reflexivity|].
      discriminate.
Qed.

(** The witness of C7: "gcc -c dir/foo.c": the products are exactly the
    base products, and foo.o is one. *)
Lemma determine_products_base_witness :
  exists c,
    Parser.createParsedCommand Example.host Example.env Example.compilers
      ["gcc"; "-c"; "dir/foo.c"] "/home" = Ret c
    /\ forallb (recognized_input c) (d_inputFiles c) = true
    /\ Deps.determine_products c = Ret ["foo.o"]
    /\ exists result,
        Deps.determine_products c = Ret result
        /\ (existsb (producing_input c) (d_inputFiles c) = false ->
            result = [])
        /\ (existsb (producing_input c) (d_inputFiles c) = true ->
            (forall p, is_base_product c p -> In p result)
            /\ (no_extra_products c ->
                forall p, In p result -> is_base_product c p)).
Proof.
  eexists. split; [vm_compute; reflexivity|].
  split; [reflexivity|]. split; [reflexivity|].
  match goal with
  | |- exists r, Deps.determine_products ?c = _ /\ _ =>
      apply (proj2 (determine_products_base c))
  end.
  reflexivity.
Defined.

(** C7, as stated, fails: the Sun Studio command "CC -c foo.il -o foo.o"
    has one input, with a recognized suffix, and a product given with -o,
    yet [determine_products] returns the empty set ("no products without
    inputs"). *)
Lemma determine_products_aux_only_counterexample :
  ~ (forall (c : ParsedCommand) (result : sset),
        forallb (recognized_input c) (d_inputFiles c) = true ->
        Deps.determine_products c = Ret result ->
        forall p, is_base_product c p -> In p result).
Proof.
  intros H.
  assert (X : exists c,
             Parser.createParsedCommand Example.host Example.env
               Example.compilers ["CC"; "-c"; "foo.il"; "-o"; "foo.o"]
               "/home" = Ret c
             /\ forallb (recognized_input c) (d_inputFiles c) = true
             /\ Deps.determine_products c = Ret []
             /\ is_base_product c "foo.o").
  { eexists. split; [vm_compute; reflexivity|].
    split; [reflexivity|]. split; [reflexivity|]. left. reflexivity. }
  destruct X as (c & _ & Hrec & Hempty & Hbase).
  exact (H c [] Hrec Hempty "foo.o" Hbase).
Qed.

(** C10.  [get_file_info] takes [product.substr(product.size() - 2)] of
    every product.  For a command that is not a linker command and whose
    products [determine_products] returns, the loop over the products
    completes when every product has at least two characters; when one
    has fewer, as the product "a" of "gcc -c foo.c -o a", the call throws
    [std::out_of_range] and returns no file information. *)
Theorem get_file_info_short_product
        (h : Host) (env : Env) (tools : DepsTools)
        (c : ParsedCommand) (products : sset) :
  is_linker_command c = false ->
  Deps.determine_products c = Ret products ->
  ((exists p, In p products /\ String.length p < 2) ->
   Deps.get_file_info h env tools c = Throws OutOfRange)
  /\ ((forall p, In p products -> 2 <= String.length p) ->
      exists r, Deps.collect_products h products [] [] = Ret r).
Proof.
  intros Hl Hp. split.
  - intros Hshort. unfold Deps.get_file_info. rewrite Hl, Hp. simpl.
    now rewrite (collect_products_short h products [] [] Hshort).
  - apply collect_products_long.
Qed.

(** The witness of C10: "gcc -c foo.c -o a". *)
Lemma get_file_info_short_product_witness :
  exists c,
    Parser.createParsedCommand Example.host Example.env Example.compilers
      ["gcc"; "-c"; "foo.c"; "-o"; "a"] "/home" = Ret c
    /\ is_linker_command c = false
    /\ Deps.determine_products c = Ret ["a"]
    /\ Deps.get_file_info Example.host Example.env Example.deps_tools c
       = Throws OutOfRange.
Proof.
  eexists. split; [vm_compute; reflexivity|].
  split; [reflexivity|]. split; [reflexivity|].
  match goal with
  | |- Deps.get_file_info _ _ _ ?c = _ =>
      apply (proj1 (get_file_info_short_product Example.host Example.env
                      Example.deps_tools c ["a"] eq_refl eq_refl))
  end.
  exists "a". split; [left; reflexivity | simpl; lia].
Defined.

(* ------------------------------------------------------------------ *)
(** ** Action construction *)

(** C2.  For a fixed invocation (the command, the working directory,
    the maps, the file system, the process environment and the
    configuration but for the salt), [BuildAction] with a nonempty
    [RECC_ACTION_SALT] returns what it returns without a salt, except for
    the salt field of the action: the command message, the blobs (with the
    command digest as key), the products, and the command digest, input
    root digest, do_not_cache flag and platform of the action are the
    same.  Without a salt the salt field is empty (not set); with one the
    serialized action, and with it the action digest, differ.  An action
    is returned, with and without salt, whenever the command is accepted,
    its inputs are gathered without an absolute product, the remote
    environment is prepared and the configured version is one. *)
Theorem action_salt_changes_only_the_action_digest
        (h : Host) (penv : ProcessEnv) (dtools : DepsTools)
        (tools : BuildTools) (env : Env) (salt : string)
        (command : ParsedCommand) (cwd : string)
        (blobs files : digest_string_map) (read : sset) :
  salt <> "" ->
  ActionBuilder.BuildAction h (with_salt salt env) penv dtools tools
    command cwd blobs files read
  = (r <- ActionBuilder.BuildAction h (with_salt "" env) penv dtools tools
            command cwd blobs files read ;;
     Ret (option_map (with_salted_action salt) (fst r), snd r))
  /\ (forall r files',
        ActionBuilder.BuildAction h (with_salt "" env) penv dtools tools
          command cwd blobs files read = Ret (Some r, files') ->
        Proto.salt (built_action r) = ""
        /\ Proto.serialize_Action (salted salt (built_action r))
           <> Proto.serialize_Action (built_action r)
        /\ ActionBuilder.action_digest tools
             (salted salt (built_action r))
           <> ActionBuilder.action_digest tools (built_action r))
  /\ (forall products nestedDirectory wd files' remoteEnv read' version,
        is_compiler_command command || is_linker_command command
        || RECC_FORCE_REMOTE env = true ->
        ActionBuilder.gather_inputs h env dtools tools command cwd files
        = Ret (Some (products, nestedDirectory, wd, files')) ->
        (forall p,
            In p products ->
            StdString.front_is StdString.slash p = false) ->
        ActionBuilder.prepareRemoteEnv h env penv command read
        = Ret (remoteEnv, read') ->
        EnvVersion.version_string_to_pair (RECC_REAPI_VERSION env)
        = Ret version ->
        exists r,
          ActionBuilder.BuildAction h (with_salt "" env) penv dtools tools
            command cwd blobs files read = Ret (Some r, files')
          /\ ActionBuilder.BuildAction h (with_salt salt env) penv dtools
               tools command cwd blobs files read
             = Ret (Some (with_salted_action salt r), files')).
Proof.
  intros Hsalt. split; [apply BuildAction_with_salt|]. split.
  - intros r files' Hr. apply BuildAction_salt in Hr. simpl in Hr.
    pose proof (serialize_salted_length salt _ Hr) as Hlen.
    pose proof (string_field_length 9 salt Hsalt) as Hfield.
    assert (Hpos : 0 < String.length salt)
      by (destruct salt; [congruence | simpl; lia]).
    split; [exact Hr|]. split.
    + intros E. rewrite E in Hlen. lia.
    + unfold ActionBuilder.action_digest, ActionBuilder.make_digest.
      intros E. apply (f_equal Proto.size_bytes) in E.
      cbn [Proto.size_bytes] in E. apply Nat2N.inj in E. lia.
  - intros products nd wd files' renv read' version Hk Hg Hrel Hp Hv.
    destruct (BuildAction_returns h penv dtools tools (with_salt "" env)
                command cwd blobs files read products nd wd files' renv
                read' version Hk Hg Hrel Hp Hv) as (cp & _ & Hr).
    eexists. split; [exact Hr|].
    rewrite BuildAction_with_salt, Hr. reflexivity.
Qed.

(** The witness of C2: the salt "salt" of the test suite on the compile
    command of the example, for which an action is built with and
    without the salt; the two actions have the same command digest and
    digests that differ. *)
Lemma action_salt_changes_only_the_action_digest_witness :
  "salt" <> ""
  /\ exists r files',
      ActionBuilder.BuildAction Example.host (with_salt "" Example.env)
        Example.process_env Example.deps_tools Example.build_tools
        Example.compile_command "/home" [] [] [] = Ret (Some r, files')
      /\ ActionBuilder.BuildAction Example.host
           (with_salt "salt" Example.env)
           Example.process_env Example.deps_tools Example.build_tools
           Example.compile_command "/home" [] [] []
         = Ret (Some (with_salted_action "salt" r), files')
      /\ Proto.salt (built_action r) = ""
      /\ Proto.salt (built_action (with_salted_action "salt" r)) = "salt"
      /\ Proto.command_digest (built_action (with_salted_action "salt" r))
         = Proto.command_digest (built_action r)
      /\ ActionBuilder.action_digest Example.build_tools
           (built_action (with_salted_action "salt" r))
         <> ActionBuilder.action_digest Example.build_tools
              (built_action r).
Proof.
  split; [discriminate|].
  destruct (action_salt_changes_only_the_action_digest Example.host
              Example.process_env Example.deps_tools Example.build_tools
              Example.env "salt" Example.compile_command "/home" [] [] []
              ltac:(discriminate)) as (_ & Hdiffer & Hreturns).
  destruct (Hreturns ["hello.o"] ["foo.h"; "foo.c"] ""
              [({| Proto.hash := "foo.c"; Proto.size_bytes := 0 |},
                "foo.c");
               ({| Proto.hash := "foo.h"; Proto.size_bytes := 0 |},
                "foo.h")]
              [("LANG", "C"); ("PATH", "/usr/bin:/bin:")]
              (ActionBuilder.default_env_to_read Example.compile_command [])
              (2, 2)%Z)
    as (r & Hr & Hs).
  - reflexivity.
  - reflexivity.
  - intros p [<- | []]. reflexivity.
  - reflexivity.
  - reflexivity.
  - exists r. eexists. split; [exact Hr|]. split; [exact Hs|].
    destruct (Hdiffer r _ Hr) as (H0 & _ & Hd).
    split; [exact H0|]. split; [reflexivity|]. split; [reflexivity|].
    exact Hd.
Defined.

(** C3.  With the configured REAPI version [major.minor]: the command
    message holds the output files and directories in [output_paths], and
    none in [output_files] and [output_directories], when the version is
    at least 2.1, and in [output_files] and [output_directories], with
    [output_paths] empty, when it is older; the action that [BuildAction]
    returns carries the platform of the command when the version is at
    least 2.2, and none when it is older, and [BuildAction] returns an
    action whenever the command is accepted, its inputs are gathered
    without an absolute product and the remote environment is
    prepared. *)
Theorem reapi_version_switches
        (h : Host) (penv : ProcessEnv) (dtools : DepsTools)
        (tools : BuildTools) (env : Env) (major minor : Z) :
  EnvVersion.version_string_to_pair (RECC_REAPI_VERSION env)
  = Ret (major, minor) ->
  (forall command outputFiles outputDirectories remoteEnvironment
          platformProperties workingDirectory,
      exists commandProto,
        ActionBuilder.populateCommandProto env command outputFiles
          outputDirectories remoteEnvironment platformProperties
          workingDirectory = Ret commandProto
        /\ if EnvVersion.pair_ge (major, minor) (2, 1)%Z
           then Proto.output_paths commandProto
                = outputFiles ++ outputDirectories
                /\ Proto.output_files commandProto = []
                /\ Proto.output_directories commandProto = []
           else Proto.output_paths commandProto = []
                /\ Proto.output_files commandProto = outputFiles
                /\ Proto.output_directories commandProto
                   = outputDirectories)
  /\ (forall command cwd blobs files read r files',
        ActionBuilder.BuildAction h env penv dtools tools command cwd
          blobs files read = Ret (Some r, files') ->
        Proto.action_platform (built_action r)
        = if EnvVersion.pair_ge (major, minor) (2, 2)%Z
          then Some (Proto.Command_platform (built_command r))
          else None)
  /\ (forall command cwd blobs files read products nestedDirectory wd
             files' remoteEnv read',
        is_compiler_command command || is_linker_command command
        || RECC_FORCE_REMOTE env = true ->
        ActionBuilder.gather_inputs h env dtools tools command cwd files
        = Ret (Some (products, nestedDirectory, wd, files')) ->
        (forall p,
            In p products ->
            StdString.front_is StdString.slash p = false) ->
        ActionBuilder.prepareRemoteEnv h env penv command read
        = Ret (remoteEnv, read') ->
        exists r,
          ActionBuilder.BuildAction h env penv dtools tools command cwd
            blobs files read = Ret (Some r, files')
          /\ (if EnvVersion.pair_ge (major, minor) (2, 1)%Z
              then Proto.output_paths (built_command r)
                   = built_products r
                     ++ RECC_OUTPUT_DIRECTORIES_OVERRIDE env
                   /\ Proto.output_files (built_command r) = []
                   /\ Proto.output_directories (built_command r) = []
              else Proto.output_paths (built_command r) = []
                   /\ Proto.output_files (built_command r)
                      = built_products r
                   /\ Proto.output_directories (built_command r)
                      = RECC_OUTPUT_DIRECTORIES_OVERRIDE env)
          /\ Proto.action_platform (built_action r)
             = if EnvVersion.pair_ge (major, minor) (2, 2)%Z
               then Some (Proto.Command_platform (built_command r))
               else None).
Proof.
  intros Hv. split; [|split].
  - intros command files dirs renv plat wd.
    unfold ActionBuilder.populateCommandProto,
      EnvVersion.configured_reapi_version_equal_to_or_newer_than.
    rewrite Hv. simpl. eexists. split; [reflexivity|]. simpl.
    destruct (EnvVersion.pair_ge (major, minor) (2, 1)%Z); auto.
  - intros command cwd blobs files read r files' Hr.
    apply BuildAction_platform in Hr.
    destruct Hr as (withPlatform & Hw & ->).
    unfold EnvVersion.configured_reapi_version_equal_to_or_newer_than
      in Hw.
    rewrite Hv in Hw. simpl in Hw. injection Hw as <-. reflexivity.
  - intros command cwd blobs files read products nd wd files' renv read'
           Hk Hg Hrel Hp.
    destruct (BuildAction_returns h penv dtools tools env command cwd
                blobs files read products nd wd files' renv read'
                (major, minor) Hk Hg Hrel Hp Hv) as (cp & Hc & Hr).
    eexists. split; [exact Hr|].
    unfold ActionBuilder.generateCommandProto,
      ActionBuilder.populateCommandProto,
      EnvVersion.configured_reapi_version_equal_to_or_newer_than in Hc.
    rewrite Hv in Hc. simpl in Hc. injection Hc as <-.
    cbn [result_of built_command built_action built_products
         Proto.output_paths Proto.output_files Proto.output_directories
         Proto.action_platform].
    split; [|reflexivity].
    destruct (EnvVersion.pair_ge (major, minor) (2, 1)%Z); auto.
Qed.

(** The witness of C3: the compile command of the example at the
    versions 2.0, 2.1 and 2.2.  An action is built at each; the command
    has its product in [output_files] at 2.0 and in [output_paths] from
    2.1 on, and the action carries the platform at 2.2 only. *)
Lemma reapi_version_switches_witness :
  (exists r files',
      ActionBuilder.BuildAction Example.host (Example.env_at "2.0" "")
        Example.process_env Example.deps_tools Example.build_tools
        Example.compile_command "/home" [] [] [] = Ret (Some r, files')
      /\ Proto.output_files (built_command r) = ["hello.o"]
      /\ Proto.output_paths (built_command r) = []
      /\ Proto.action_platform (built_action r) = None)
  /\ (exists r files',
         ActionBuilder.BuildAction Example.host (Example.env_at "2.1" "")
           Example.process_env Example.deps_tools Example.build_tools
           Example.compile_command "/home" [] [] [] = Ret (Some r, files')
         /\ Proto.output_files (built_command r) = []
         /\ Proto.output_paths (built_command r) = ["hello.o"]
         /\ Proto.action_platform (built_action r) = None)
  /\ (exists r files',
         ActionBuilder.BuildAction Example.host (Example.env_at "2.2" "")
           Example.process_env Example.deps_tools Example.build_tools
           Example.compile_command "/home" [] [] [] = Ret (Some r, files')
         /\ Proto.output_files (built_command r) = []
         /\ Proto.output_paths (built_command r) = ["hello.o"]
         /\ Proto.action_platform (built_action r)
            = Some (Proto.Command_platform (built_command r))
         /\ Proto.action_platform (built_action r) <> None).
Proof.
  assert (Hat : forall version major minor,
             EnvVersion.version_string_to_pair version
             = Ret (major, minor) ->
             exists r files',
               ActionBuilder.BuildAction Example.host
                 (Example.env_at version "")
                 Example.process_env Example.deps_tools Example.build_tools
                 Example.compile_command "/home" [] [] []
               = Ret (Some r, files')
               /\ (if EnvVersion.pair_ge (major, minor) (2, 1)%Z
                   then Proto.output_paths (built_command r)
                        = built_products r ++ []
                        /\ Proto.output_files (built_command r) = []
                        /\ Proto.output_directories (built_command r) = []
                   else Proto.output_paths (built_command r) = []
                        /\ Proto.output_files (built_command r)
                           = built_products r
                        /\ Proto.output_directories (built_command r)
                           = [])
               /\ Proto.action_platform (built_action r)
                  = (if EnvVersion.pair_ge (major, minor) (2, 2)%Z
                     then Some (Proto.Command_platform (built_command r))
                     else None)
               /\ built_products r = ["hello.o"]).
  { intros version major minor Hv.
    destruct (reapi_version_switches Example.host Example.process_env
                Example.deps_tools Example.build_tools
                (Example.env_at version "") major minor Hv)
      as (_ & _ & Hreturns).
    destruct (Hreturns Example.compile_command "/home" [] [] []
                ["hello.o"] ["foo.h"; "foo.c"] ""
                [({| Proto.hash := "foo.c"; Proto.size_bytes := 0 |},
                  "foo.c");
                 ({| Proto.hash := "foo.h"; Proto.size_bytes := 0 |},
                  "foo.h")]
                [("LANG", "C"); ("PATH", "/usr/bin:/bin:")]
                (ActionBuilder.default_env_to_read Example.compile_command
                   []))
      as (r & Hr & Hpaths & Hplatform).
    - reflexivity.
    - reflexivity.
    - intros p [<- | []]. reflexivity.
    - reflexivity.
    - exists r. eexists. split; [exact Hr|].
      split; [exact Hpaths|]. split; [exact Hplatform|].
      apply BuildAction_Some in Hr.
      destruct Hr as (ps & nd & wd & renv & read' & cp & wp
                      & _ & Hg & _ & _ & _ & _ & ->).
      vm_compute in Hg. injection Hg as <- _ _. reflexivity. }
  split; [|split].
  - destruct (Hat "2.0" 2%Z 0%Z eq_refl)
      as (r & files' & Hr & Hpaths & Hplatform & Hproducts).
    exists r, files'. cbn in Hpaths, Hplatform.
    destruct Hpaths as (H1 & H2 & _). rewrite Hproducts in H2.
    repeat split; assumption.
  - destruct (Hat "2.1" 2%Z 1%Z eq_refl)
      as (r & files' & Hr & Hpaths & Hplatform & Hproducts).
    exists r, files'. cbn in Hpaths, Hplatform.
    destruct Hpaths as (H1 & H2 & _). rewrite Hproducts in H1.
    repeat split; assumption.
  - destruct (Hat "2.2" 2%Z 2%Z eq_refl)
      as (r & files' & Hr & Hpaths & Hplatform & Hproducts).
    exists r, files'. cbn in Hpaths, Hplatform.
    destruct Hpaths as (H1 & H2 & _). rewrite Hproducts in H1.
    repeat split; try assumption. rewrite Hplatform. discriminate.
Defined.

(* ------------------------------------------------------------------ *)
(** ** Path rewriting *)

(** C6.  When [RECC_PROJECT_ROOT] is empty, the prefix map is empty and
    path rewriting is not disabled, the empty prefix matches no path, so
    [modifyPathForRemote] is the normalization of its argument; with a
    normalization that is idempotent, applying [modifyPathForRemote] to
    its own result gives that result again. *)
Theorem modifyPathForRemote_idempotent
        (h : Host) (env : Env) (path cwd : string) :
  (forall p, normalizePath h (normalizePath h p) = normalizePath h p) ->
  RECC_PROJECT_ROOT env = "" ->
  RECC_PREFIX_REPLACEMENT env = [] ->
  RECC_NO_PATH_REWRITE env = false ->
  (forall p, FileUtils.hasPathPrefix p (RECC_PROJECT_ROOT env) = false)
  /\ FileUtils.modifyPathForRemote h env path cwd true
     = Ret (normalizePath h path)
  /\ (once <- FileUtils.modifyPathForRemote h env path cwd true ;;
      FileUtils.modifyPathForRemote h env once cwd true)
     = FileUtils.modifyPathForRemote h env path cwd true.
Proof.
  intros Hidem Hroot Hmap Hrewrite.
  assert (Hprefix : forall p,
             FileUtils.hasPathPrefix p (RECC_PROJECT_ROOT env) = false)
    by (intros p; rewrite Hroot; reflexivity).
  assert (Hnorm : forall p,
             FileUtils.modifyPathForRemote h env p cwd true
             = Ret (normalizePath h p)).
  { intros p. unfold FileUtils.modifyPathForRemote,
      FileUtils.rewritePathToRelative, FileUtils.resolvePathFromPrefixMap.
    rewrite Hmap, Hrewrite, Hprefix. reflexivity. }
  split; [exact Hprefix|]. split; [apply Hnorm|].
  rewrite Hnorm. simpl. rewrite Hnorm, Hidem. reflexivity.
Qed.

(** The witness of C6: the lexical normalization on a host without
    project root. *)
Lemma modifyPathForRemote_idempotent_witness :
  (forall p, normalizePath Example.host (normalizePath Example.host p)
             = normalizePath Example.host p)
  /\ FileUtils.modifyPathForRemote Example.host Example.env
       "/usr/local/../bin//gcc" "/home" true = Ret "/usr/bin/gcc"
  /\ (once <- FileUtils.modifyPathForRemote Example.host Example.env
                "/usr/local/../bin//gcc" "/home" true ;;
      FileUtils.modifyPathForRemote Example.host Example.env once "/home"
        true)
     = FileUtils.modifyPathForRemote Example.host Example.env
         "/usr/local/../bin//gcc" "/home" true.
Proof.
  split; [exact lexical_normalizePath_idempotent|].
  split; [reflexivity|].
  apply (modifyPathForRemote_idempotent Example.host Example.env
           "/usr/local/../bin//gcc" "/home"
           lexical_normalizePath_idempotent eq_refl eq_refl eq_refl).
Defined.

(* ------------------------------------------------------------------ *)
(** ** Path segments *)

(** C9.  [lastNSegments] on relative paths: "a/b" has two segments, yet
    asking for two throws [std::logic_error]; "a/" comes back with its
    trailing slash; the same paths made absolute give "a/b" and "a". *)
Theorem lastNSegments_relative_paths :
  FileUtils.lastNSegments "a/b" 2 = Throws LogicError
  /\ FileUtils.lastNSegments "a/" 1 = Ret "a/"
  /\ FileUtils.lastNSegments "/a/b" 2 = Ret "a/b"
  /\ FileUtils.lastNSegments "/a/" 1 = Ret "a".
Proof. repeat split; reflexivity. Qed.

(* ================================================================== *)
(** * Further properties of the code *)

(* ------------------------------------------------------------------ *)
(** ** Strings *)

Section StringFacts.
Import StdString.
#[local] Arguments Ascii.eqb : simpl never.
#[local] Arguments String.eqb : simpl never.

Lemma string_snoc_ind (P : string -> Prop) :
  P "" ->
  (forall s c, P s -> P (s +++ String c "")) ->
  forall s, P s.
Proof.
  intros H0 Hs s.
  assert (H : forall n s, String.length s = n -> P s).
  { clear s. induction n as [|n IH]; intros s Hl.
    - destruct s; [exact H0 | discriminate Hl].
    - assert (Hx : exists s' c, s = s' +++ String c ""
                                /\ String.length s' = n).
      { clear IH. revert n Hl.
        induction s as [|a s IHs]; intros n Hl; [discriminate Hl|].
        simpl in Hl. injection Hl as Hl. destruct s as [|b s].
        - exists "", a. simpl in Hl. now subst.
        - destruct n as [|n]; [discriminate Hl|].
          destruct (IHs n Hl) as (s' & c & E & Hn).
          exists (String a s'), c. simpl. rewrite <- E. now rewrite Hn. }
      destruct Hx as (s' & c & -> & Hn). apply Hs. now apply IH. }
  now apply (H (String.length s)).
Qed.

Lemma take_drop (n : nat) (s : string) : take n s +++ drop n s = s.
Proof.
  unfold take, drop. revert n.
  induction s as [|c s IH]; intros [|n]; simpl; try reflexivity.
  - now rewrite substring_all.
  - now rewrite IH.
Qed.

Lemma take_length_le (n : nat) (s : string) :
  String.length (take n s) <= n.
Proof.
  unfold take. revert n.
  induction s as [|c s IH]; intros [|n]; simpl; try lia.
  specialize (IH n). lia.
Qed.

Lemma append_inj_l (a b c : string) : a +++ b = a +++ c -> b = c.
Proof. induction a; simpl; intros H; [exact H|]. injection H. auto. Qed.

Lemma get_app_cons (a b : string) (c : ascii) :
  String.get (String.length a) (a +++ String c b) = Some c.
Proof. induction a; simpl; auto. Qed.

Lemma substring_app_middle (a b c : string) :
  substring (String.length a) (String.length b) (a +++ b +++ c) = b.
Proof.
  induction a as [|x a IH]; simpl; [|exact IH].
  induction b as [|y b IHb]; simpl.
  - now destruct c.
  - now rewrite IHb.
Qed.

Lemma find_Some (c : ascii) (s : string) (i : nat) :
  find c s = Some i ->
  exists a b,
    s = a +++ String c b /\ String.length a = i /\ find c a = None.
Proof.
  revert i. induction s as [|d s IH]; simpl; intros i; [discriminate|].
  destruct (Ascii.eqb c d) eqn:E.
  - intros [= <-]. apply Ascii.eqb_eq in E. subst d.
    exists "", s. auto.
  - destruct (find c s) as [j|]; [|discriminate].
    intros [= <-]. destruct (IH j eq_refl) as (a & b & -> & <- & Ha).
    exists (String d a), b. simpl. rewrite E, Ha. auto.
Qed.

Lemma find_app_cons (c : ascii) (a b : string) :
  find c a = None -> find c (a +++ String c b) = Some (String.length a).
Proof.
  induction a as [|d a IH]; simpl.
  - now rewrite Ascii.eqb_refl.
  - destruct (Ascii.eqb c d); [discriminate|].
    destruct (find c a); [discriminate|]. intros _. now rewrite IH.
Qed.

Lemma find_None_app (c : ascii) (a b : string) :
  find c a = None -> find c b = None -> find c (a +++ b) = None.
Proof.
  induction a as [|d a IH]; simpl; [auto|].
  destruct (Ascii.eqb c d); [discriminate|].
  destruct (find c a); [discriminate|]. intros _ Hb. now rewrite IH.
Qed.

Lemma c_str_id (s : string) : c_string s = true -> c_str s = s.
Proof.
  unfold c_string. induction s as [|c s IH]; simpl; [reflexivity|].
  intros H. apply andb_prop in H. destruct H as [Hc Hs].
  apply negb_true_iff in Hc. rewrite Hc. now rewrite IH.
Qed.

Lemma strlen_c_string (s : string) :
  c_string s = true -> strlen s = String.length s.
Proof.
  unfold c_string. induction s as [|c s IH]; simpl; [reflexivity|].
  intros H. apply andb_prop in H. destruct H as [Hc Hs].
  apply negb_true_iff in Hc. rewrite Hc. now rewrite IH.
Qed.

Lemma all_chars_app (p : ascii -> bool) (a b : string) :
  MakeRules.all_chars p (a +++ b)
  = MakeRules.all_chars p a && MakeRules.all_chars p b.
Proof.
  induction a as [|c a IH]; simpl; [reflexivity|].
  now rewrite IH, andb_assoc.
Qed.

Lemma occurrences_app (c : ascii) (a b : string) :
  occurrences c (a +++ b) = occurrences c a + occurrences c b.
Proof. induction a; simpl; [reflexivity|]. rewrite IHa. lia. Qed.

Lemma occurrences_le_length (c : ascii) (s : string) :
  occurrences c s <= String.length s.
Proof. induction s; simpl; [lia|]. destruct (Ascii.eqb c a); lia. Qed.

Lemma occurrences_find (c : ascii) (s : string) :
  occurrences c s = 0 <-> find c s = None.
Proof.
  induction s as [|d s IH]; simpl; [tauto|].
  destruct (Ascii.eqb c d); simpl.
  - split; [lia | discriminate].
  - rewrite IH. destruct (find c s); split; congruence.
Qed.

Lemma piece_ok_inv (s : string) :
  piece_ok s = true -> find slash s = None /\ c_string s = true.
Proof.
  unfold piece_ok, c_string. induction s as [|c s IH]; simpl; [auto|].
  intros H. apply andb_prop in H. destruct H as [Hc Hs].
  apply andb_prop in Hc. destruct Hc as [H1 H2].
  destruct (IH Hs) as [Hf Hz]. apply negb_true_iff in H1.
  rewrite Ascii.eqb_sym in H1. rewrite H1, Hf, H2, Hz. auto.
Qed.

End StringFacts.

(* ------------------------------------------------------------------ *)
(** ** Paths (src/src/fileutils.cpp) *)

Section PathFacts.
Import StdString.
#[local] Arguments Ascii.eqb : simpl never.
#[local] Arguments String.eqb : simpl never.

Lemma eqb_app_l (a b c : string) :
  String.eqb (a +++ b) (a +++ c) = String.eqb b c.
Proof.
  destruct (String.eqb_spec b c) as [->|Hne].
  - apply String.eqb_refl.
  - apply String.eqb_neq. intros E. now apply append_inj_l in E.
Qed.

Lemma eqb_app_longer (a : string) (c : ascii) (b : string) :
  String.eqb (a +++ String c b) a = false.
Proof.
  apply String.eqb_neq. intros E. apply (f_equal String.length) in E.
  rewrite append_length in E. simpl in E. lia.
Qed.

Lemma back_app_cons (a : string) (c : ascii) :
  back (a +++ String c "") = Some c.
Proof.
  induction a as [|d a IH]; simpl; [reflexivity|].
  destruct (a +++ String c "") eqn:E; [|exact IH].
  destruct a; discriminate E.
Qed.

Lemma back_nonempty (s : string) : s <> "" -> exists c, back s = Some c.
Proof.
  induction s as [|d s IH]; [congruence|]. intros _. simpl.
  destruct s as [|e s]; [now exists d|]. apply IH. discriminate.
Qed.

Lemma take_app_cons (a b : string) (c : ascii) :
  take (S (String.length a)) (a +++ String c b) = a +++ String c "".
Proof.
  replace (a +++ String c b) with ((a +++ String c "") +++ b)
    by (now rewrite append_assoc).
  replace (S (String.length a)) with (String.length (a +++ String c ""))
    by (rewrite append_length; simpl; lia).
  apply take_app.
Qed.

(** X1.  [hasPathPrefix] matches whole path segments only.  A path that
    has [prefix] as a path prefix begins with it; a prefix that does not
    end in a slash is a path prefix of [prefix + rest] exactly when [rest]
    is empty or begins with a slash (so "/foobar" is not under "/foo");
    a prefix that ends in a slash is a path prefix of every extension. *)
Theorem hasPathPrefix_whole_segments (prefix : string) :
  prefix <> "" ->
  (forall path,
      FileUtils.hasPathPrefix path prefix = true ->
      exists rest, path = prefix +++ rest)
  /\ (back prefix <> Some slash ->
      forall rest,
        FileUtils.hasPathPrefix (prefix +++ rest) prefix
        = empty rest || front_is slash rest)
  /\ (back prefix = Some slash ->
      forall rest, FileUtils.hasPathPrefix (prefix +++ rest) prefix = true).
Proof.
  intros Hne.
  assert (He : empty prefix = false)
    by (destruct prefix; [congruence | reflexivity]).
  destruct (back_nonempty prefix Hne) as (d & Hd).
  split; [|split].
  - intros path. unfold FileUtils.hasPathPrefix. rewrite He, Hd.
    destruct (String.eqb_spec path prefix) as [->|_].
    + intros _. exists "". now rewrite append_nil_r.
    + intros H. apply String.eqb_eq in H.
      rewrite <- (take_drop
                    (String.length
                       (if Ascii.eqb d slash then prefix
                        else push_back prefix slash)) path).
      rewrite H. destruct (Ascii.eqb d slash).
      * now eexists.
      * unfold push_back. rewrite append_assoc. now eexists.
  - intros Hb rest. unfold FileUtils.hasPathPrefix. rewrite He, Hd.
    assert (Hs : Ascii.eqb d slash = false).
    { apply Ascii.eqb_neq. intros ->. now apply Hb. }
    rewrite Hs. destruct rest as [|c rest].
    + now rewrite append_nil_r, String.eqb_refl.
    + rewrite eqb_app_longer. unfold push_back.
      rewrite append_length. simpl String.length.
      rewrite Nat.add_1_r, take_app_cons, eqb_app_l. simpl.
      destruct (Ascii.eqb_spec c slash) as [->|Hc].
      * now rewrite Ascii.eqb_refl.
      * rewrite Ascii.eqb_sym.
        destruct (Ascii.eqb_spec c slash); [contradiction|].
        apply String.eqb_neq. congruence.
  - intros Hb rest. unfold FileUtils.hasPathPrefix. rewrite He, Hd.
    injection (eq_trans (eq_sym Hd) Hb) as ->.
    rewrite Ascii.eqb_refl. rewrite take_app, String.eqb_refl.
    now destruct (String.eqb (prefix +++ rest) prefix).
Qed.

(** The witness of X1: the prefix "/foo" against "/foobar" and
    "/foo/bar". *)
Lemma hasPathPrefix_whole_segments_witness :
  "/foo" <> ""
  /\ FileUtils.hasPathPrefix ("/foo" +++ "bar") "/foo" = false
  /\ FileUtils.hasPathPrefix ("/foo" +++ "/bar") "/foo" = true.
Proof.
  assert (Hne : "/foo" <> "") by discriminate.
  assert (Hb : back "/foo" <> Some slash) by discriminate.
  split; [exact Hne|].
  pose proof (proj1 (proj2 (hasPathPrefix_whole_segments "/foo" Hne)) Hb)
    as H.
  split; [exact (H "bar") | exact (H "/bar")].
Defined.

(** X2.  [stripDirectory] returns the part of the path after its last
    slash: the result holds no slash, and the path is the result after a
    directory part that is empty or ends in a slash. *)
Theorem stripDirectory_is_basename (path : string) :
  rfind slash (FileUtils.stripDirectory path) = None
  /\ exists dir,
      path = dir +++ FileUtils.stripDirectory path
      /\ (dir = "" \/ back dir = Some slash).
Proof.
  unfold FileUtils.stripDirectory.
  destruct (rfind slash path) as [i|] eqn:E.
  - apply rfind_Some in E. destruct E as (a & b & -> & <- & Hb).
    rewrite drop_app_cons. split; [exact Hb|].
    exists (a +++ String slash ""). split.
    + now rewrite append_assoc.
    + right. apply back_app_cons.
  - split; [exact E|]. exists "". auto.
Qed.

(** X3.  [replaceSuffix] cuts the path at its last dot: a path without
    dot gets the suffix appended, a path [base.ext] becomes [base +
    suffix], and replacing a suffix twice is replacing it once by the
    second suffix, when the first begins with its only dot. *)
Theorem replaceSuffix_last_dot (path suffix : string) :
  (rfind dot path = None ->
   FileUtils.replaceSuffix path suffix = path +++ suffix)
  /\ (forall base ext,
         path = base +++ String dot ext -> rfind dot ext = None ->
         FileUtils.replaceSuffix path suffix = base +++ suffix)
  /\ (forall ext,
         rfind dot ext = None ->
         FileUtils.replaceSuffix
           (FileUtils.replaceSuffix path (String dot ext)) suffix
         = FileUtils.replaceSuffix path suffix).
Proof.
  split; [|split].
  - intros H. unfold FileUtils.replaceSuffix. now rewrite H.
  - intros base ext -> H. now apply replaceSuffix_decomposed.
  - intros ext H. destruct (rfind dot path) as [i|] eqn:E.
    + apply rfind_Some in E. destruct E as (a & b & -> & <- & Hb).
      rewrite !(replaceSuffix_decomposed a b _ Hb).
      now apply replaceSuffix_decomposed.
    + unfold FileUtils.replaceSuffix at 2 3. rewrite E.
      now apply replaceSuffix_decomposed.
Qed.

(** The witness of X3: "dir/foo.o" with the suffix ".d". *)
Lemma replaceSuffix_last_dot_witness :
  FileUtils.replaceSuffix "dir/foo.o" ".d" = "dir/foo.d"
  /\ FileUtils.replaceSuffix (FileUtils.replaceSuffix "foo" ".o") ".d"
     = FileUtils.replaceSuffix "foo" ".d".
Proof.
  split.
  - exact (proj1 (proj2 (replaceSuffix_last_dot "dir/foo.o" ".d"))
             "dir/foo" "o" eq_refl eq_refl).
  - exact (proj2 (proj2 (replaceSuffix_last_dot "foo" ".d")) "o" eq_refl).
Defined.

Ltac decide_Z :=
  repeat match goal with
    | |- context [(?a >? ?b)%Z] => destruct (Z.gtb_spec a b); try lia
    | |- context [(?a <? ?b)%Z] => destruct (Z.ltb_spec a b); try lia
    | |- context [(?a =? ?b)%Z] => destruct (Z.eqb_spec a b); try lia
    end.

Lemma snoc_inv (s : string) :
  s <> "" -> exists s' c, s = s' +++ String c "".
Proof.
  induction s as [|s c _] using string_snoc_ind; [congruence|].
  intros _. now exists s, c.
Qed.

Lemma lastNSegments_loop_found (pre : string) (n : Z) :
  forall (x y : string) (len seen : Z),
    (0 <= len)%Z -> (0 <= seen)%Z ->
    (len + Z.of_nat (String.length x) < 2 ^ 32)%Z ->
    (seen + Z.of_nat (occurrences slash x) + 1 = n)%Z ->
    (n <= 2 ^ 31 - 1)%Z ->
    FileUtils.lastNSegments_loop (pre +++ String slash (x +++ y)) n
      (String.length pre + 1 + String.length x) len seen
    = Ret (substring (S (String.length pre))
             (Z.to_nat len + String.length x)
             (pre +++ String slash (x +++ y))).
Proof.
  induction x as [|x c IH] using string_snoc_ind;
    intros y len seen Hlen Hseen Hbound Hn Hmax.
  - simpl String.length. rewrite Nat.add_0_r, Nat.add_1_r. simpl.
    rewrite get_app_cons, Ascii.eqb_refl. simpl in Hn.
    decide_Z. now rewrite Nat.add_0_r.
  - rewrite append_length in *. simpl String.length in *.
    rewrite occurrences_app in Hn. simpl in Hn.
    replace (String.length pre + 1 + (String.length x + 1))
      with (S (String.length pre + 1 + String.length x)) by lia.
    cbn [FileUtils.lastNSegments_loop].
    assert (Hget : String.get (String.length pre + 1 + String.length x)
                     (pre +++ String slash ((x +++ String c "") +++ y))
                   = Some c).
    { replace (pre +++ String slash ((x +++ String c "") +++ y))
        with ((pre +++ String slash x) +++ String c y)
        by (rewrite !append_assoc; reflexivity).
      replace (String.length pre + 1 + String.length x)
        with (String.length (pre +++ String slash x))
        by (rewrite append_length; simpl; lia).
      apply get_app_cons. }
    rewrite Hget.
    assert (Hpath : (x +++ String c "") +++ y = x +++ String c y)
      by (now rewrite append_assoc).
    rewrite Hpath in *.
    rewrite (Z.mod_small (len + 1)) by lia.
    destruct (Ascii.eqb c slash) eqn:Ec.
    + rewrite Ascii.eqb_sym, Ec in Hn.
      decide_Z.
      rewrite (IH (String c y) (len + 1)%Z (seen + 1)%Z) by lia.
      f_equal. f_equal. lia.
    + rewrite Ascii.eqb_sym, Ec in Hn.
      rewrite (IH (String c y) (len + 1)%Z seen) by lia.
      f_equal. f_equal. lia.
Qed.

(** X4.  [lastNSegments] returns the last [n] segments, without a
    trailing slash, of a path in which a slash precedes them: for a path
    [pre/tail] or [pre/tail/] without NUL and shorter than 2^31, where
    [tail] is not empty, does not end in a slash and holds [n - 1]
    slashes, the result is [tail]. *)
Theorem lastNSegments_returns_tail (pre tail trailing : string) (n : Z) :
  c_string (pre +++ String slash (tail +++ trailing)) = true ->
  tail <> "" -> back tail <> Some slash ->
  trailing = "" \/ trailing = "/" ->
  (Z.of_nat (occurrences slash tail) + 1 = n)%Z ->
  (Z.of_nat (String.length pre + String.length tail) + 2 < 2 ^ 31)%Z ->
  FileUtils.lastNSegments (pre +++ String slash (tail +++ trailing)) n
  = Ret tail.
Proof.
  intros Hc Hne Hback Htr Hn Hlen.
  unfold FileUtils.lastNSegments.
  decide_Z.
  rewrite (strlen_c_string _ Hc), append_length. simpl String.length.
  rewrite append_length, Nat.add_succ_r.
  destruct Htr as [-> | ->].
  - destruct (snoc_inv tail Hne) as (t & c & ->).
    rewrite back_app_cons in Hback.
    assert (Ec : Ascii.eqb c slash = false)
      by (apply Ascii.eqb_neq; congruence).
    rewrite append_length in *. simpl String.length in *.
    rewrite occurrences_app in Hn. simpl in Hn.
    rewrite Ascii.eqb_sym, Ec in Hn.
    rewrite append_nil_r.
    assert (Hpath : (t +++ String c "") = t +++ String c "") by reflexivity.
    replace (String.length pre + (String.length t + 1 + 0))
      with (String.length pre + 1 + String.length t) by lia.
    assert (Hget : String.get (String.length pre + 1 + String.length t)
                     (pre +++ String slash (t +++ String c ""))
                   = Some c).
    { replace (pre +++ String slash (t +++ String c ""))
        with ((pre +++ String slash t) +++ String c "")
        by (now rewrite !append_assoc).
      replace (String.length pre + 1 + String.length t)
        with (String.length (pre +++ String slash t))
        by (rewrite append_length; simpl; lia).
      apply get_app_cons. }
    rewrite Hget, Ec.
    pose proof (occurrences_le_length slash t) as Hocc.
    rewrite (lastNSegments_loop_found pre n t (String c "") 1 0) by lia.
    f_equal.
    replace (Z.to_nat 1 + String.length t)
      with (String.length (t +++ String c ""))
      by (rewrite append_length; simpl; lia).
    replace (S (String.length pre))
      with (String.length (pre +++ String slash ""))
      by (rewrite append_length; simpl; lia).
    replace (pre +++ String slash (t +++ String c ""))
      with ((pre +++ String slash "") +++ (t +++ String c "") +++ "")
      by (now rewrite append_nil_r, append_assoc).
    apply substring_app_middle.
  - simpl String.length.
    replace (String.length pre + (String.length tail + 1))
      with (String.length pre + 1 + String.length tail) by lia.
    assert (Hget : String.get (String.length pre + 1 + String.length tail)
                     (pre +++ String slash (tail +++ "/"))
                   = Some slash).
    { replace (pre +++ String slash (tail +++ "/"))
        with ((pre +++ String slash tail) +++ String slash "")
        by (now rewrite !append_assoc).
      replace (String.length pre + 1 + String.length tail)
        with (String.length (pre +++ String slash tail))
        by (rewrite append_length; simpl; lia).
      apply get_app_cons. }
    rewrite Hget, Ascii.eqb_refl.
    pose proof (occurrences_le_length slash tail) as Hocc.
    rewrite (lastNSegments_loop_found pre n tail "/" 0 0) by lia.
    f_equal. simpl Nat.add.
    replace (S (String.length pre))
      with (String.length (pre +++ String slash ""))
      by (rewrite append_length; simpl; lia).
    replace (pre +++ String slash (tail +++ "/"))
      with ((pre +++ String slash "") +++ tail +++ "/")
      by (now rewrite append_assoc).
    apply substring_app_middle.
Qed.

(** The witness of X4: the last two segments of "/usr/local/bin/". *)
Lemma lastNSegments_returns_tail_witness :
  FileUtils.lastNSegments "/usr/local/bin/" 2 = Ret "local/bin".
Proof.
  apply (lastNSegments_returns_tail "/usr" "local/bin" "/" 2);
    first [ reflexivity | discriminate | now right | simpl; lia ].
Defined.

Lemma take_S_get (n : nat) (s : string) (c : ascii) :
  String.get n s = Some c -> take (S n) s = take n s +++ String c "".
Proof.
  unfold take. revert n. induction s as [|d s IH]; intros n; simpl.
  - now destruct n.
  - destruct n as [|n].
    + intros [= ->]. now destruct s.
    + intros H. rewrite (IH n H). reflexivity.
Qed.

Lemma get_lt (n : nat) (s : string) :
  n < String.length s -> exists c, String.get n s = Some c.
Proof.
  revert n. induction s as [|d s IH]; intros n; simpl; [lia|].
  destruct n as [|n]; [now exists d|]. intros H. apply IH. lia.
Qed.

Lemma but_last_take (s : string) (last : nat) :
  String.length s = S last -> but_last s = take last s.
Proof.
  unfold take. revert last. induction s as [|d s IH]; intros last H.
  - discriminate H.
  - simpl in H. injection H as H. destruct s as [|e s].
    + simpl in H. subst last. reflexivity.
    + destruct last as [|last]; [discriminate H|].
      change (but_last (String d (String e s)))
        with (String d (but_last (String e s))).
      rewrite (IH last H). reflexivity.
Qed.

Lemma lastNSegments_loop_exhausted (path : string) (n : Z) :
  forall (start : nat) (len seen : Z),
    start <= String.length path -> (0 <= seen)%Z ->
    (seen + Z.of_nat (occurrences slash (take start path)) < n)%Z ->
    (n <= 2 ^ 31 - 1)%Z ->
    FileUtils.lastNSegments_loop path n start len seen
    = if ((seen + Z.of_nat (occurrences slash (take start path)) =? 0)
          && (n =? 1))%Z
      then Ret (take (strlen path) path)
      else Throws LogicError.
Proof.
  induction start as [|start IH]; intros len seen Hs Hseen Hocc Hmax.
  - cbn [FileUtils.lastNSegments_loop].
    replace (take 0 path) with "" in * by (now destruct path).
    simpl occurrences in *. now rewrite Z.add_0_r.
  - cbn [FileUtils.lastNSegments_loop].
    destruct (get_lt start path) as (c & Hget); [lia|].
    rewrite Hget. rewrite (take_S_get _ _ _ Hget) in *.
    rewrite occurrences_app in *. simpl occurrences in *.
    rewrite (Ascii.eqb_sym c slash).
    destruct (Ascii.eqb slash c) eqn:Ec.
    + decide_Z.
      all: rewrite IH by lia.
      all: repeat match goal with
             | |- context [(?a =? ?b)%Z] => destruct (Z.eqb_spec a b)
             end; simpl; try reflexivity; lia.
    + rewrite IH by lia.
      repeat match goal with
        | |- context [(?a =? ?b)%Z] => destruct (Z.eqb_spec a b)
        end; simpl; try reflexivity; lia.
Qed.

(** X5.  [lastNSegments] on a path without NUL that has fewer than [n]
    slashes before its last character: a path without any such slash is
    returned whole when [n] is 1 (with a trailing slash, if it has one);
    in every other case the call throws [std::logic_error]. *)
Theorem lastNSegments_not_enough (path : string) (n : Z) :
  c_string path = true -> path <> "" ->
  (Z.of_nat (occurrences slash (but_last path)) < n)%Z ->
  (n <= FileUtils.INT_MAX)%Z ->
  FileUtils.lastNSegments path n
  = if Nat.eqb (occurrences slash (but_last path)) 0 && (n =? 1)%Z
    then Ret path
    else Throws LogicError.
Proof.
  intros Hc Hne Hocc Hmax. unfold FileUtils.INT_MAX in Hmax.
  unfold FileUtils.lastNSegments.
  destruct (Z.eqb_spec n 0) as [->|_]; [lia|].
  rewrite (strlen_c_string _ Hc).
  destruct (String.length path) as [|last] eqn:El;
    [destruct path; [congruence | discriminate El]|].
  rewrite (but_last_take _ _ El) in *.
  rewrite lastNSegments_loop_exhausted by (try lia; rewrite El; lia).
  rewrite (strlen_c_string _ Hc), El.
  replace (take (S last) path) with path
    by (unfold take; now rewrite <- El, substring_all).
  rewrite Z.add_0_l.
  destruct (occurrences slash (take last path)); simpl; reflexivity.
Qed.

(** The witness of X5: "/usr/bin" has two segments, not three; "gcc" is
    one segment. *)
Lemma lastNSegments_not_enough_witness :
  FileUtils.lastNSegments "/usr/bin" 3 = Throws LogicError
  /\ FileUtils.lastNSegments "gcc" 1 = Ret "gcc".
Proof.
  split.
  - apply (lastNSegments_not_enough "/usr/bin" 3);
      first [ reflexivity | discriminate | simpl; lia
            | unfold FileUtils.INT_MAX; lia ].
  - apply (lastNSegments_not_enough "gcc" 1);
      first [ reflexivity | discriminate | simpl; lia
            | unfold FileUtils.INT_MAX; lia ].
Defined.

Lemma drop_1 (a : ascii) (s : string) : drop 1 (String a s) = s.
Proof. unfold drop. simpl. rewrite Nat.sub_0_r. apply substring_all. Qed.

(** The tests of the loop on the length and the first characters of a
    piece are tests on the piece. *)
Lemma piece_class (p r : string) :
  (Nat.eqb (String.length p) 0
   || (Nat.eqb (String.length p) 1
       && front_is dot (p +++ String slash r)))
  = (String.eqb p "" || String.eqb p ".")
  /\ (Nat.eqb (String.length p) 2 && front_is dot (p +++ String slash r)
      && front_is dot (drop 1 (p +++ String slash r)))
     = String.eqb p "..".
Proof.
  unfold dot.
  destruct p as [|a [|b [|c p]]];
    cbn [String.length Nat.eqb andb orb append front_is];
    rewrite ?drop_1; cbn [front_is]; split;
    repeat match goal with
      | |- context [String.eqb ?x ?y] => destruct (String.eqb_spec x y)
      | |- context [Ascii.eqb ?x ?y] => destruct (Ascii.eqb_spec x y)
      end;
    simpl; try reflexivity; try discriminate; congruence.
Qed.

Lemma join_path_cons (p q : string) (ps : list string) :
  join_path (p :: q :: ps) = p +++ String slash (join_path (q :: ps)).
Proof. reflexivity. Qed.

Lemma join_path_length (ps : list string) :
  List.length ps <= S (String.length (join_path ps)).
Proof.
  induction ps as [|p [|q ps] IH]; [simpl; lia | simpl; lia |].
  rewrite join_path_cons, append_length.
  change (String.length (String slash (join_path (q :: ps))))
    with (S (String.length (join_path (q :: ps)))).
  change (List.length (p :: q :: ps)) with (S (List.length (q :: ps))).
  lia.
Qed.

Lemma c_string_join (ps : list string) :
  forallb piece_ok ps = true -> c_string (join_path ps) = true.
Proof.
  induction ps as [|p [|q ps] IH]; intros H.
  - reflexivity.
  - simpl in H. rewrite andb_true_r in H. now apply piece_ok_inv in H.
  - rewrite join_path_cons. unfold c_string. rewrite all_chars_app.
    change (forallb piece_ok (p :: q :: ps))
      with (piece_ok p && forallb piece_ok (q :: ps)) in H.
    apply andb_prop in H. destruct H as [Hp Hps].
    apply piece_ok_inv in Hp. destruct Hp as [_ Hp].
    unfold c_string in Hp. rewrite Hp.
    change (MakeRules.all_chars (fun c => negb (Ascii.eqb c zero))
              (String slash (join_path (q :: ps))))
      with (negb (Ascii.eqb slash zero)
            && c_string (join_path (q :: ps))).
    now rewrite (IH Hps).
Qed.

Lemma climb_step_fst_bounds (levels : Z * Z) (p : string) :
  (fst levels - 1 <= fst (climb_step levels p) <= fst levels + 1)%Z.
Proof.
  destruct levels as [cur low]. unfold climb_step.
  destruct (String.eqb p "" || String.eqb p ".");
    [simpl; lia|].
  destruct (String.eqb p ".."); simpl; lia.
Qed.

(** The loop consumes the pieces before the last one. *)
Lemma parentDirectoryLevels_loop_pieces :
  forall (ps : list string) (p : string) (fuel : nat) (cur low : Z),
    forallb piece_ok (p :: ps) = true ->
    List.length ps <= fuel ->
    (FileUtils.INT_MIN + Z.of_nat (List.length ps) <= cur)%Z ->
    (cur <= FileUtils.INT_MAX - Z.of_nat (List.length ps))%Z ->
    FileUtils.parentDirectoryLevels_loop fuel (join_path (p :: ps)) cur low
    = Ret (List.last (p :: ps) "",
           fst (climb (List.removelast (p :: ps)) (cur, low)),
           snd (climb (List.removelast (p :: ps)) (cur, low))).
Proof.
  induction ps as [|q ps IH]; intros p fuel cur low Hok Hfuel Hmin Hmax.
  - simpl in Hok. rewrite andb_true_r in Hok.
    apply piece_ok_inv in Hok. destruct Hok as [Hf _].
    cbn [join_path List.last List.removelast climb fold_left fst snd].
    destruct fuel; cbn [FileUtils.parentDirectoryLevels_loop];
      destruct (empty p) eqn:Ee; try reflexivity; now rewrite Hf.
  - change (forallb piece_ok (p :: q :: ps))
      with (piece_ok p && forallb piece_ok (q :: ps)) in Hok.
    apply andb_prop in Hok. destruct Hok as [Hp Hps].
    apply piece_ok_inv in Hp. destruct Hp as [Hf _].
    rewrite join_path_cons.
    change (List.length (q :: ps)) with (S (List.length ps)) in *.
    destruct fuel as [|fuel]; [lia|].
    cbn [FileUtils.parentDirectoryLevels_loop].
    replace (empty (p +++ String slash (join_path (q :: ps))))
      with false by (now destruct p).
    rewrite (find_app_cons slash p _ Hf), drop_app_cons.
    destruct (piece_class p (join_path (q :: ps))) as [-> ->].
    change (List.last (p :: q :: ps) "") with (List.last (q :: ps) "").
    change (List.removelast (p :: q :: ps))
      with (p :: List.removelast (q :: ps)).
    unfold climb. cbn [fold_left]. fold (climb (List.removelast (q :: ps))).
    unfold climb_step at 2 4. unfold FileUtils.INT_MIN, FileUtils.INT_MAX in *.
    destruct (String.eqb p "" || String.eqb p ".").
    + apply IH; [assumption | lia | lia | lia].
    + destruct (String.eqb p "..").
      * decide_Z. apply IH; [assumption | lia | lia | lia].
      * decide_Z. apply IH; [assumption | lia | lia | lia].
Qed.

Lemma climb_app (a b : list string) (levels : Z * Z) :
  climb (a ++ b) levels = climb b (climb a levels).
Proof. apply fold_left_app. Qed.

Lemma climb_cons (p : string) (ps : list string) (levels : Z * Z) :
  climb (p :: ps) levels = climb ps (climb_step levels p).
Proof. reflexivity. Qed.

Lemma climb_step_cases (cur low : Z) (p : string) :
  climb_step (cur, low) p = (cur, low)
  \/ climb_step (cur, low) p = ((cur - 1)%Z, Z.min low (cur - 1))
  \/ climb_step (cur, low) p = ((cur + 1)%Z, low).
Proof.
  unfold climb_step.
  destruct (String.eqb p "" || String.eqb p "."); [now left|].
  destruct (String.eqb p ".."); [right; now left | right; now right].
Qed.

Lemma climb_bounds (ps : list string) :
  forall cur low,
    (cur - Z.of_nat (List.length ps) <= fst (climb ps (cur, low))
     <= cur + Z.of_nat (List.length ps))%Z
    /\ (Z.min low (cur - Z.of_nat (List.length ps))
        <= snd (climb ps (cur, low)) <= low)%Z.
Proof.
  induction ps as [|p ps IH]; intros cur low.
  - simpl. lia.
  - rewrite climb_cons.
    change (List.length (p :: ps)) with (S (List.length ps)).
    destruct (climb_step_cases cur low p) as [-> | [-> | ->]].
    + specialize (IH cur low). lia.
    + specialize (IH (cur - 1)%Z (Z.min low (cur - 1))). lia.
    + specialize (IH (cur + 1)%Z low). lia.
Qed.

(** The result of [parentDirectoryLevels] on the pieces of a path. *)
Lemma parentDirectoryLevels_pieces (ps : list string) :
  forallb piece_ok ps = true ->
  (Z.of_nat (String.length (join_path ps)) < FileUtils.INT_MAX)%Z ->
  FileUtils.parentDirectoryLevels (join_path ps)
  = Ret (- snd (climb ps (0, 0)))%Z.
Proof.
  intros Hok Hlen. unfold FileUtils.parentDirectoryLevels.
  rewrite (c_str_id _ (c_string_join _ Hok)).
  destruct ps as [|p ps]; [reflexivity|].
  pose proof (join_path_length (p :: ps)) as Hn.
  change (List.length (p :: ps)) with (S (List.length ps)) in Hn.
  unfold FileUtils.INT_MAX, FileUtils.INT_MIN in *.
  rewrite parentDirectoryLevels_loop_pieces;
    [| assumption | lia
     | unfold FileUtils.INT_MIN; lia | unfold FileUtils.INT_MAX; lia].
  cbn [bind].
  assert (Hrl : List.length (List.removelast (p :: ps)) = List.length ps).
  { rewrite removelast_firstn_len, length_firstn. simpl. lia. }
  assert (Hsplit : p :: ps
                   = List.removelast (p :: ps)
                     ++ [List.last (p :: ps) ""])
    by (now apply app_removelast_last).
  pose proof (climb_bounds (List.removelast (p :: ps)) 0 0) as [Hc Hl].
  rewrite Hrl in Hc, Hl.
  replace (climb (p :: ps) (0%Z, 0%Z))
    with (climb (List.removelast (p :: ps) ++ [List.last (p :: ps) ""])
            (0%Z, 0%Z))
    by (now rewrite <- Hsplit).
  rewrite climb_app.
  destruct (climb (List.removelast (p :: ps)) (0%Z, 0%Z)) as [c1 l1].
  cbn [fst snd] in *. unfold climb. cbn [fold_left]. unfold climb_step.
  destruct (String.eqb_spec (List.last (p :: ps) "") "..") as [->|Hne].
  - cbn [orb String.eqb Ascii.eqb Bool.eqb]. cbn [bind]. decide_Z.
    cbn [bind snd]. decide_Z. reflexivity.
  - cbn [bind].
    destruct (String.eqb (List.last (p :: ps) "") ""
              || String.eqb (List.last (p :: ps) "") ".");
      cbn [snd]; decide_Z; reflexivity.
Qed.

Lemma climb_downs (downs : list string) :
  forall cur low,
    forallb name_ok downs = true ->
    climb downs (cur, low)
    = ((cur + Z.of_nat (List.length downs))%Z, low).
Proof.
  induction downs as [|p ps IH]; intros cur low H.
  - simpl. now rewrite Z.add_0_r.
  - simpl in H. apply andb_prop in H. destruct H as [Hp Hps].
    rewrite climb_cons. unfold name_ok in Hp.
    apply andb_prop in Hp. destruct Hp as [Hp H3].
    apply andb_prop in Hp. destruct Hp as [Hp H2].
    apply andb_prop in Hp. destruct Hp as [_ H1].
    apply negb_true_iff in H1, H2, H3.
    unfold climb_step. rewrite H1, H2, H3. cbn [orb].
    rewrite (IH _ _ Hps). f_equal.
    change (List.length (p :: ps)) with (S (List.length ps)). lia.
Qed.

Lemma climb_ups (u : nat) :
  forall cur low,
    (low <= cur)%Z ->
    climb (repeat ".." u) (cur, low)
    = ((cur - Z.of_nat u)%Z, Z.min low (cur - Z.of_nat u)).
Proof.
  induction u as [|u IH]; intros cur low H.
  - simpl. rewrite Z.sub_0_r. f_equal. lia.
  - cbn [repeat]. rewrite climb_cons. unfold climb_step.
    replace (String.eqb ".." "" || String.eqb ".." ".") with false
      by reflexivity.
    replace (String.eqb ".." "..") with true by reflexivity.
    rewrite IH by lia. f_equal; lia.
Qed.

Lemma climb_stays_below (clean : list string) :
  forall cur low,
    forallb stays_below clean = true ->
    snd (climb clean (cur, low)) = low.
Proof.
  induction clean as [|p ps IH]; intros cur low H; [reflexivity|].
  simpl in H. apply andb_prop in H. destruct H as [Hp Hps].
  unfold stays_below in Hp. apply andb_prop in Hp. destruct Hp as [_ Hp].
  apply negb_true_iff in Hp. rewrite climb_cons. unfold climb_step.
  rewrite Hp. destruct (String.eqb p "" || String.eqb p "."); now apply IH.
Qed.

Lemma pieces_of_shape (downs clean : list string) (u : nat) :
  forallb name_ok downs = true -> forallb stays_below clean = true ->
  forallb piece_ok (downs ++ repeat ".." u ++ clean) = true.
Proof.
  intros Hd Hc. rewrite !forallb_app. apply andb_true_intro. split.
  - apply forallb_forall. intros x Hx.
    apply (proj1 (forallb_forall _ _) Hd) in Hx. unfold name_ok in Hx.
    repeat (apply andb_prop in Hx; destruct Hx as [Hx _]). exact Hx.
  - apply andb_true_intro. split.
    + apply forallb_forall. intros x Hx. apply repeat_spec in Hx.
      now subst x.
    + apply forallb_forall. intros x Hx.
      apply (proj1 (forallb_forall _ _) Hc) in Hx. unfold stays_below in Hx.
      now apply andb_prop in Hx.
Qed.

Lemma climb_of_shape (downs clean : list string) (u : nat) :
  forallb name_ok downs = true ->
  forallb stays_below clean = true ->
  (- snd (climb (downs ++ repeat ".." u ++ clean) (0, 0)))%Z
  = Z.max 0 (Z.of_nat u - Z.of_nat (List.length downs)).
Proof.
  intros Hd Hc. rewrite !climb_app, (climb_downs _ _ _ Hd).
  rewrite climb_ups by lia. rewrite (climb_stays_below _ _ _ Hc). lia.
Qed.

(** X6.  [parentDirectoryLevels] counts how far a path climbs above the
    directory it starts from.  For a path without NUL and shorter than
    2^31 - 1 made of [d] directory names, then [u] pieces "..", then
    pieces that are not ".." (names, "." or empty pieces), the result is
    [u - d], and 0 when that is negative. *)
Theorem parentDirectoryLevels_down_up
        (downs clean : list string) (u : nat) :
  forallb name_ok downs = true ->
  forallb stays_below clean = true ->
  (Z.of_nat (String.length (join_path (downs ++ repeat ".." u ++ clean)))
   < FileUtils.INT_MAX)%Z ->
  FileUtils.parentDirectoryLevels
    (join_path (downs ++ repeat ".." u ++ clean))
  = Ret (Z.max 0 (Z.of_nat u - Z.of_nat (List.length downs))).
Proof.
  intros Hd Hc Hlen.
  rewrite parentDirectoryLevels_pieces
    by (try assumption; now apply pieces_of_shape).
  f_equal. now apply climb_of_shape.
Qed.

(** The witness of X6: the example "a/../../b.txt" of fileutils.h. *)
Lemma parentDirectoryLevels_down_up_witness :
  FileUtils.parentDirectoryLevels "a/../../b.txt" = Ret 1%Z.
Proof.
  apply (parentDirectoryLevels_down_up ["a"] ["b.txt"] 2);
    first [ reflexivity | unfold FileUtils.INT_MAX; simpl; lia ].
Defined.

Lemma join_path_push (d : ascii) (p : string) (ps : list string) :
  join_path (String d p :: ps) = String d (join_path (p :: ps)).
Proof. now destruct ps. Qed.

Lemma join_pieces_between (s : string) :
  join_path (pieces_between slash s) = s.
Proof.
  induction s as [|d s IH]; [reflexivity|]. cbn [pieces_between].
  destruct (Ascii.eqb slash d) eqn:E.
  - apply Ascii.eqb_eq in E. subst d.
    destruct (pieces_between slash s) as [|p ps] eqn:Ep.
    + now destruct s.
    + rewrite join_path_cons. cbn [append]. now rewrite IH.
  - destruct (pieces_between slash s) as [|p ps] eqn:Ep.
    + simpl in IH. now subst s.
    + rewrite join_path_push. now rewrite IH.
Qed.

Lemma pieces_between_ok (s : string) :
  c_string s = true -> forallb piece_ok (pieces_between slash s) = true.
Proof.
  unfold c_string.
  induction s as [|d s IH]; [reflexivity|].
  cbn [MakeRules.all_chars pieces_between]. intros H.
  apply andb_prop in H. destruct H as [Hd Hs]. specialize (IH Hs).
  destruct (Ascii.eqb slash d) eqn:E.
  - cbn [forallb]. now rewrite IH.
  - destruct (pieces_between slash s) as [|p ps]; cbn [forallb] in *.
    + unfold piece_ok. cbn [MakeRules.all_chars].
      now rewrite (Ascii.eqb_sym d slash), E, Hd.
    + apply andb_prop in IH. destruct IH as [Hp Hps].
      rewrite Hps, andb_true_r. unfold piece_ok in *.
      cbn [MakeRules.all_chars].
      now rewrite (Ascii.eqb_sym d slash), E, Hd, Hp.
Qed.

Lemma c_str_length (s : string) : String.length (c_str s) <= String.length s.
Proof.
  induction s as [|c s IH]; simpl; [lia|].
  destruct (Ascii.eqb c zero); simpl; lia.
Qed.

Lemma c_string_c_str (s : string) : c_string (c_str s) = true.
Proof.
  unfold c_string. induction s as [|c s IH]; [reflexivity|].
  cbn [c_str]. destruct (Ascii.eqb c zero) eqn:E; [reflexivity|].
  cbn [MakeRules.all_chars]. now rewrite E, IH.
Qed.

(** The result of [parentDirectoryLevels] on any path that is short
    enough for its counters. *)
Lemma parentDirectoryLevels_any (path : string) :
  (Z.of_nat (String.length path) < FileUtils.INT_MAX)%Z ->
  FileUtils.parentDirectoryLevels path = Ret (levels_climbed path).
Proof.
  intros Hlen. unfold FileUtils.parentDirectoryLevels, levels_climbed.
  pose proof (c_str_length path) as Hc.
  pose proof (pieces_between_ok _ (c_string_c_str path)) as Hok.
  rewrite <- (join_pieces_between (c_str path)) at 1.
  rewrite <- (join_pieces_between (c_str path)) in Hc.
  destruct (pieces_between slash (c_str path)) as [|p ps];
    [destruct (String.length path); reflexivity|].
  pose proof (join_path_length (p :: ps)) as Hn.
  change (List.length (p :: ps)) with (S (List.length ps)) in Hn.
  unfold FileUtils.INT_MAX, FileUtils.INT_MIN in *.
  rewrite parentDirectoryLevels_loop_pieces;
    [| assumption | lia
     | unfold FileUtils.INT_MIN; lia | unfold FileUtils.INT_MAX; lia].
  cbn [bind].
  assert (Hrl : List.length (List.removelast (p :: ps)) = List.length ps).
  { rewrite removelast_firstn_len, length_firstn. simpl. lia. }
  assert (Hsplit : p :: ps
                   = List.removelast (p :: ps)
                     ++ [List.last (p :: ps) ""])
    by (now apply app_removelast_last).
  pose proof (climb_bounds (List.removelast (p :: ps)) 0 0) as [Hb Hl].
  rewrite Hrl in Hb, Hl.
  replace (climb (p :: ps) (0%Z, 0%Z))
    with (climb (List.removelast (p :: ps) ++ [List.last (p :: ps) ""])
            (0%Z, 0%Z))
    by (now rewrite <- Hsplit).
  rewrite climb_app.
  destruct (climb (List.removelast (p :: ps)) (0%Z, 0%Z)) as [c1 l1].
  cbn [fst snd] in *. unfold climb. cbn [fold_left]. unfold climb_step.
  destruct (String.eqb_spec (List.last (p :: ps) "") "..") as [->|Hne].
  - cbn [orb String.eqb Ascii.eqb Bool.eqb]. cbn [bind]. decide_Z.
    cbn [bind snd]. decide_Z. reflexivity.
  - cbn [bind].
    destruct (String.eqb (List.last (p :: ps) "") ""
              || String.eqb (List.last (p :: ps) "") ".");
      cbn [snd]; decide_Z; reflexivity.
Qed.

Lemma max_parent_levels_any (paths : list string) :
  forall m,
    (forall path,
        In path paths ->
        (Z.of_nat (String.length path) < FileUtils.INT_MAX)%Z) ->
    ActionBuilder.max_parent_levels paths m
    = Ret (fold_left (fun m path => Z.max m (levels_climbed path))
             paths m).
Proof.
  induction paths as [|path paths IH]; intros m H; [reflexivity|].
  cbn [ActionBuilder.max_parent_levels fold_left].
  rewrite (parentDirectoryLevels_any path) by (apply H; now left).
  cbn [bind]. apply IH. intros. apply H. now right.
Qed.

(** X7.  [commonAncestorPath] asks [lastNSegments] for as many segments
    of the working directory as the highest rise among the Merkle-tree
    paths of the dependencies and the products needs, for any such paths
    shorter than 2^31 - 1 characters; the local paths of the
    dependencies play no part, and when no path rises above the
    directory it starts from the result is the empty string for every
    working directory. *)
Theorem commonAncestorPath_deepest_climb
        (dependencies : list (string * string)) (products : list string)
        (workingDirectory : string) :
  (forall path,
      In path (map snd dependencies ++ products) ->
      (Z.of_nat (String.length path) < FileUtils.INT_MAX)%Z) ->
  ActionBuilder.commonAncestorPath dependencies products workingDirectory
  = FileUtils.lastNSegments workingDirectory
      (highest_climb (map snd dependencies ++ products))
  /\ (highest_climb (map snd dependencies ++ products) = 0%Z ->
      ActionBuilder.commonAncestorPath dependencies products
        workingDirectory
      = Ret "").
Proof.
  intros H.
  assert (E : ActionBuilder.commonAncestorPath dependencies products
                workingDirectory
              = FileUtils.lastNSegments workingDirectory
                  (highest_climb (map snd dependencies ++ products))).
  { unfold ActionBuilder.commonAncestorPath, highest_climb.
    rewrite max_parent_levels_any
      by (intros; apply H; apply in_or_app; now left).
    cbn [bind].
    rewrite max_parent_levels_any
      by (intros; apply H; apply in_or_app; now right).
    cbn [bind]. now rewrite fold_left_app. }
  split; [exact E|]. intros H0. rewrite E, H0. reflexivity.
Qed.

(** The witness of X7: the dependency "foo/../bar/../../include/a.h",
    which rises one level at its highest point, and the product "a.o" in
    "/home/user/project/src". *)
Lemma commonAncestorPath_deepest_climb_witness :
  highest_climb ["foo/../bar/../../include/a.h"; "a.o"] = 1%Z
  /\ ActionBuilder.commonAncestorPath
       [("/home/user/project/include/a.h",
         "foo/../bar/../../include/a.h")] ["a.o"]
       "/home/user/project/src"
     = Ret "src".
Proof.
  split; [reflexivity|].
  destruct (commonAncestorPath_deepest_climb
              [("/home/user/project/include/a.h",
                "foo/../bar/../../include/a.h")]
              ["a.o"] "/home/user/project/src") as [E _].
  - intros path [<- | [<- | []]]; vm_compute; reflexivity.
  - exact E.
Defined.

Lemma skip_slashes_length (s : string) :
  String.length (FileUtils.skip_slashes s) <= String.length s.
Proof.
  induction s as [|c s IH]; simpl; [lia|].
  destruct (Ascii.eqb c slash); simpl; lia.
Qed.

Lemma skip_slashes_front (s : string) :
  front_is slash (FileUtils.skip_slashes s) = false.
Proof.
  induction s as [|c s IH]; simpl; [reflexivity|].
  destruct (Ascii.eqb c slash) eqn:E; [exact IH|].
  simpl. now rewrite Ascii.eqb_sym.
Qed.

Lemma skip_slashes_run (lead s : string) :
  slashes_only lead = true ->
  FileUtils.skip_slashes (lead +++ s) = FileUtils.skip_slashes s.
Proof.
  unfold slashes_only. induction lead as [|c lead IH]; simpl; [auto|].
  intros H. apply andb_prop in H. destruct H as [Hc Hl].
  rewrite Ascii.eqb_sym, Hc. now apply IH.
Qed.

Lemma skip_slashes_only (s : string) :
  slashes_only s = true -> FileUtils.skip_slashes s = "".
Proof.
  intros H. rewrite <- (append_nil_r s). now rewrite skip_slashes_run.
Qed.

Lemma skip_slashes_token (t s : string) :
  token_ok t = true -> FileUtils.skip_slashes (t +++ s) = t +++ s.
Proof.
  unfold token_ok, piece_ok. destruct t as [|c t]; [discriminate|].
  simpl. intros H. apply andb_prop in H. destruct H as [H _].
  apply andb_prop in H. destruct H as [H _].
  apply andb_prop in H. destruct H as [H _].
  apply negb_true_iff in H. now rewrite H.
Qed.

Lemma token_ok_inv (t : string) :
  token_ok t = true -> t <> "" /\ find slash t = None.
Proof.
  unfold token_ok. intros H. apply andb_prop in H. destruct H as [Hp Hn].
  apply piece_ok_inv in Hp. apply negb_true_iff in Hn.
  apply String.eqb_neq in Hn. tauto.
Qed.

(** What [strtok] returns: a token that is not empty and holds no slash,
    and less of the string than it was given. *)
Lemma strtok_Some (s token rest : string) :
  FileUtils.strtok s = Some (token, rest) ->
  token <> "" /\ find slash token = None
  /\ String.length rest < String.length s.
Proof.
  unfold FileUtils.strtok.
  pose proof (skip_slashes_length s) as Hl.
  pose proof (skip_slashes_front s) as Hf.
  destruct (FileUtils.skip_slashes s) as [|c s'] eqn:E; [discriminate|].
  cbn [empty]. destruct (find slash (String c s')) as [i|] eqn:Ef.
  - intros [= <- <-]. apply find_Some in Ef.
    destruct Ef as (a & b & Es & <- & Ha). rewrite Es.
    rewrite take_app, drop_app_cons. split; [|split].
    + intros ->. simpl in Es. injection Es as -> _.
      simpl in Hf. now rewrite Ascii.eqb_refl in Hf.
    + exact Ha.
    + apply (f_equal String.length) in Es.
      rewrite append_length in Es. simpl in Es, Hl. simpl. lia.
  - intros [= <- <-]. split; [discriminate|]. split; [exact Ef|].
    simpl in *. lia.
Qed.

Lemma strtok_token (t lead s : string) :
  token_ok t = true -> slashes_only lead = true ->
  FileUtils.strtok (lead +++ t +++ String slash s) = Some (t, s).
Proof.
  intros Ht Hl. unfold FileUtils.strtok.
  rewrite (skip_slashes_run _ _ Hl), (skip_slashes_token _ _ Ht).
  destruct (token_ok_inv t Ht) as [Hne Hf].
  replace (empty (t +++ String slash s)) with false
    by (destruct t; [congruence | reflexivity]).
  now rewrite (find_app_cons slash t s Hf), take_app, drop_app_cons.
Qed.

Lemma strtok_last_token (t lead : string) :
  token_ok t = true -> slashes_only lead = true ->
  FileUtils.strtok (lead +++ t) = Some (t, "").
Proof.
  intros Ht Hl.
  assert (E : FileUtils.skip_slashes (lead +++ t) = t).
  { rewrite (skip_slashes_run _ _ Hl). rewrite <- (append_nil_r t) at 1.
    now rewrite (skip_slashes_token _ _ Ht), append_nil_r. }
  unfold FileUtils.strtok. rewrite E.
  destruct (token_ok_inv t Ht) as [Hne Hf].
  replace (empty t) with false by (destruct t; [congruence | reflexivity]).
  now rewrite Hf.
Qed.

Lemma strtok_None (s : string) :
  slashes_only s = true -> FileUtils.strtok s = None.
Proof.
  intros H. unfold FileUtils.strtok. now rewrite (skip_slashes_only _ H).
Qed.

Lemma parseDirectories_loop_tokens (trail : string) :
  forall (names : list string) (lead : string) (fuel : nat)
         (result : list string),
    forallb token_ok names = true ->
    slashes_only lead = true -> slashes_only trail = true ->
    List.length names <= fuel ->
    FileUtils.parseDirectories_loop fuel
      (lead +++ join_path names +++ trail) result
    = Ret (result ++ names).
Proof.
  induction names as [|t [|u names] IH];
    intros lead fuel result Hn Hl Ht Hf.
  - cbn [join_path append]. rewrite app_nil_r.
    assert (Hs : slashes_only (lead +++ trail) = true)
      by (unfold slashes_only in *; now rewrite all_chars_app, Hl, Ht).
    destruct fuel; cbn [FileUtils.parseDirectories_loop];
      now rewrite (strtok_None _ Hs).
  - cbn [join_path]. simpl in Hn. rewrite andb_true_r in Hn.
    destruct fuel as [|fuel]; [simpl in Hf; lia|].
    cbn [FileUtils.parseDirectories_loop].
    destruct trail as [|c trail].
    + rewrite append_nil_r, (strtok_last_token _ _ Hn Hl).
      destruct fuel; cbn [FileUtils.parseDirectories_loop];
        now rewrite (strtok_None "" eq_refl).
    + assert (Hc : c = slash).
      { unfold slashes_only in Ht. simpl in Ht.
        apply andb_prop in Ht. destruct Ht as [Hc _].
        apply Ascii.eqb_eq in Hc. now subst. }
      subst c. rewrite (strtok_token _ _ _ Hn Hl).
      assert (Hs : slashes_only trail = true).
      { unfold slashes_only in *. simpl in Ht.
        first [ exact Ht | now apply andb_prop in Ht ]. }
      destruct fuel; cbn [FileUtils.parseDirectories_loop];
        now rewrite (strtok_None _ Hs).
  - rewrite join_path_cons.
    change (forallb token_ok (t :: u :: names))
      with (token_ok t && forallb token_ok (u :: names)) in Hn.
    apply andb_prop in Hn. destruct Hn as [Hn Hns].
    change (List.length (t :: u :: names))
      with (S (List.length (u :: names))) in Hf.
    destruct fuel as [|fuel]; [lia|].
    cbn [FileUtils.parseDirectories_loop].
    rewrite append_assoc. cbn [append].
    rewrite (strtok_token _ _ _ Hn Hl).
    pose proof (IH "" fuel (result ++ [t]) Hns eq_refl Ht) as IH'.
    cbn [append] in IH'. rewrite IH' by lia.
    now rewrite <- app_assoc.
Qed.

Lemma join_path_tokens_length (names : list string) :
  forallb token_ok names = true ->
  List.length names <= String.length (join_path names).
Proof.
  induction names as [|t [|u names] IH]; intros H.
  - simpl. lia.
  - simpl in H. rewrite andb_true_r in H.
    apply token_ok_inv in H. destruct H as [H _].
    destruct t; [congruence|]. simpl. lia.
  - rewrite join_path_cons, append_length.
    change (forallb token_ok (t :: u :: names))
      with (token_ok t && forallb token_ok (u :: names)) in H.
    apply andb_prop in H. destruct H as [_ H]. specialize (IH H).
    change (String.length (String slash (join_path (u :: names))))
      with (S (String.length (join_path (u :: names)))).
    change (List.length (t :: u :: names))
      with (S (List.length (u :: names))). lia.
Qed.

(** X8.  [parseDirectories] gives back the directory names a path was
    joined from: for names that are not empty and hold neither slash nor
    NUL, joined by slashes, with any number of slashes before and after,
    the result is the list of the names. *)
Theorem parseDirectories_of_joined_names
        (names : list string) (lead trail : string) :
  forallb token_ok names = true ->
  slashes_only lead = true -> slashes_only trail = true ->
  FileUtils.parseDirectories (lead +++ join_path names +++ trail)
  = Ret names.
Proof.
  intros Hn Hl Ht. unfold FileUtils.parseDirectories.
  assert (Hc : c_string (lead +++ join_path names +++ trail) = true).
  { unfold c_string, slashes_only in *. rewrite !all_chars_app.
    assert (Hz : forall s, MakeRules.all_chars (Ascii.eqb slash) s = true ->
                           MakeRules.all_chars
                             (fun c => negb (Ascii.eqb c zero)) s = true).
    { induction s as [|c s IHs]; simpl; [auto|]. intros H.
      apply andb_prop in H. destruct H as [Hc Hs].
      apply Ascii.eqb_eq in Hc. subst c. now rewrite (IHs Hs). }
    rewrite (Hz _ Hl), (Hz _ Ht). cbn [andb].
    rewrite andb_true_r. apply c_string_join.
    apply forallb_forall. intros x Hx.
    apply (proj1 (forallb_forall _ _) Hn) in Hx. unfold token_ok in Hx.
    now apply andb_prop in Hx. }
  rewrite (c_str_id _ Hc).
  rewrite (parseDirectories_loop_tokens trail names lead _ [] Hn Hl Ht).
  - reflexivity.
  - pose proof (join_path_tokens_length names Hn).
    rewrite !append_length. lia.
Qed.

(** The witness of X8: "//usr/local/bin/". *)
Lemma parseDirectories_of_joined_names_witness :
  FileUtils.parseDirectories "//usr/local/bin/"
  = Ret ["usr"; "local"; "bin"].
Proof.
  apply (parseDirectories_of_joined_names ["usr"; "local"; "bin"] "//" "/");
    reflexivity.
Defined.

Lemma parseDirectories_loop_total :
  forall (fuel : nat) (rest : string) (result : list string),
    String.length rest <= fuel ->
    exists tokens,
      FileUtils.parseDirectories_loop fuel rest result
      = Ret (result ++ tokens)
      /\ Forall (fun t => t <> "" /\ find slash t = None) tokens.
Proof.
  induction fuel as [|fuel IH]; intros rest result Hl.
  - cbn [FileUtils.parseDirectories_loop].
    destruct (FileUtils.strtok rest) as [[t r]|] eqn:E.
    + apply strtok_Some in E. lia.
    + exists []. now rewrite app_nil_r.
  - cbn [FileUtils.parseDirectories_loop].
    destruct (FileUtils.strtok rest) as [[t r]|] eqn:E.
    + apply strtok_Some in E. destruct E as (Hne & Hf & Hlt).
      destruct (IH r (result ++ [t])) as (tokens & -> & Hall); [lia|].
      exists (t :: tokens). rewrite <- app_assoc. split; [reflexivity|].
      constructor; auto.
    + exists []. now rewrite app_nil_r.
Qed.

(** X9.  [parseDirectories] returns for every path, and no name it
    returns is empty or holds a slash. *)
Theorem parseDirectories_names (path : string) :
  exists names,
    FileUtils.parseDirectories path = Ret names
    /\ Forall (fun name => name <> "" /\ find slash name = None) names.
Proof.
  unfold FileUtils.parseDirectories.
  destruct (parseDirectories_loop_total (String.length path) (c_str path)
              [] (c_str_length path)) as (tokens & E & H).
  exists tokens. now rewrite E.
Qed.

End PathFacts.

(* ------------------------------------------------------------------ *)
(** ** Make rules (src/src/deps.cpp) *)

Section MakeRulesMore.
Import MakeRules.
#[local] Arguments Ascii.eqb : simpl never.
#[local] Arguments String.eqb : simpl never.



(** Without a colon nothing is ever recorded. *)
Lemma run_without_colon (sun : bool) (rules : string) :
  forall st,
    StdString.find colon rules = None ->
    result st = [] -> saw_colon_on_line st = false ->
    current_filename st = "" ->
    result (run sun rules st) = []
    /\ current_filename (run sun rules st) = "".
Proof.
  induction rules as [|c rules IH]; intros st Hf Hr Hs Hc; [now simpl|].
  simpl in Hf. destruct (Ascii.eqb colon c) eqn:Ec; [discriminate|].
  destruct (StdString.find colon rules) eqn:Ef; [discriminate|].
  cbn [run]. apply IH; [reflexivity | | |];
    unfold step, flush; rewrite ?Hs, ?Hc, ?Hr;
    rewrite (Ascii.eqb_sym c colon), Ec; rewrite ?andb_false_r; cbn;
    repeat match goal with
      | |- context [if ?b then _ else _] => destruct b; cbn
      end; auto.
Qed.

(** X10.  Text without a colon holds no rule: in both formats
    [dependencies_from_make_rules] returns the empty set for it. *)
Theorem dependencies_without_colon (rules : string) (is_sun_format : bool) :
  StdString.find colon rules = None ->
  dependencies_from_make_rules rules is_sun_format = [].
Proof.
  intros Hf. unfold dependencies_from_make_rules, flush.
  destruct (run_without_colon is_sun_format rules initial Hf
              eq_refl eq_refl eq_refl) as [Hr Hc].
  now rewrite Hc, Hr.
Qed.

(** The witness of X10: a message of the compiler that is no rule. *)
Lemma dependencies_without_colon_witness :
  dependencies_from_make_rules "gcc fatal error no input files" false
  = [].
Proof.
  apply (dependencies_without_colon "gcc fatal error no input files"
           false).
  reflexivity.
Defined.







Lemma sun_char_inv (c : ascii) :
  sun_char c = true ->
  Ascii.eqb c backslash = false /\ Ascii.eqb c newline = false.
Proof.
  unfold sun_char. intros H. apply andb_prop in H. destruct H as [H1 H2].
  now apply negb_true_iff in H1, H2.
Qed.

Lemma run_sun_target (t : string) (r : sset) :
  all_chars (fun c => sun_char c && negb (Ascii.eqb c colon)) t = true ->
  run true t (idle r) = idle r.
Proof.
  induction t as [|c t IH]; simpl; intros H; auto.
  apply andb_prop in H. destruct H as [Hc Ht].
  apply andb_prop in Hc. destruct Hc as [Hs Hcol].
  apply sun_char_inv in Hs. destruct Hs as [Hb Hn].
  apply negb_true_iff in Hcol.
  unfold step at 1. simpl. rewrite Hb, Hcol, Hn. simpl.
  destruct (Ascii.eqb c space); now apply IH.
Qed.

Lemma run_sun_spaces (k : nat) (r : sset) :
  run true (spaces k) (in_body r "") = in_body r "".
Proof. induction k as [|k IH]; simpl; auto. Qed.

Lemma run_sun_name (d : string) (r : sset) :
  forall cur,
    all_chars sun_char d = true ->
    StdString.empty cur = false \/ StdString.front_is space d = false ->
    run true d (in_body r cur) = in_body r (cur +++ d).
Proof.
  induction d as [|c d IH]; intros cur H Hs; simpl.
  - now rewrite append_nil_r.
  - simpl in H. apply andb_prop in H. destruct H as [Hc Hd].
    apply sun_char_inv in Hc. destruct Hc as [Hb Hn].
    unfold step at 1. simpl. rewrite Hb, Hn.
    replace (Ascii.eqb c colon && false) with false
      by (now rewrite andb_false_r).
    assert (Hnext : StdString.empty (StdString.push_back cur c) = false)
      by (now destruct cur).
    destruct (Ascii.eqb c space) eqn:Esp.
    + destruct Hs as [Hs | Hs];
        [| simpl in Hs; rewrite Ascii.eqb_sym, Esp in Hs; discriminate].
      rewrite Hs. simpl.
      fold (in_body r (StdString.push_back cur c)).
      rewrite IH by auto. now rewrite push_back_append.
    + fold (in_body r (StdString.push_back cur c)).
      rewrite IH by auto. now rewrite push_back_append.
Qed.

Lemma run_sun_lines (lines : list sun_line) :
  forall r,
    forallb sun_line_ok lines = true ->
    run true (render_sun_lines lines) (idle r)
    = idle (SSet.insert_all (map sun_dependency lines) r).
Proof.
  induction lines as [|[[target k] d] lines IH]; intros r H.
  - reflexivity.
  - cbn [forallb] in H. apply andb_prop in H. destruct H as [Hl Hls].
    unfold sun_line_ok in Hl.
    apply andb_prop in Hl. destruct Hl as [Hl Hd].
    apply andb_prop in Hl. destruct Hl as [Hl Hsp].
    apply andb_prop in Hl. destruct Hl as [Ht Hne].
    apply negb_true_iff in Hne, Hsp.
    cbn [render_sun_lines fold_right map]. fold (render_sun_lines lines).
    rewrite run_app, run_sun_target by assumption.
    change (run true (String colon ?s) (idle r))
      with (run true s (in_body r "")).
    rewrite run_app, run_sun_spaces, run_app, run_sun_name by auto.
    cbn [append].
    change (run true (String newline ?s) (in_body r d))
      with (run true s (idle (flush (in_body r d)))).
    rewrite flush_filename by assumption.
    rewrite (IH _ Hls). reflexivity.
Qed.

(** X12.  In Sun format every line is one dependency and spaces are part
    of the name: for lines [target: dependency] that end in a newline,
    where the dependency is not empty, does not begin with a space and
    holds neither backslash nor newline (it may hold spaces and colons),
    [dependencies_from_make_rules] returns the set of the dependencies,
    whatever the number of spaces after the first colon. *)
Theorem dependencies_of_sun_lines (lines : list sun_line) :
  forallb sun_line_ok lines = true ->
  dependencies_from_make_rules (render_sun_lines lines) true
  = SSet.of_list (map sun_dependency lines).
Proof.
  intros H. unfold dependencies_from_make_rules.
  change initial with (idle []). now rewrite run_sun_lines.
Qed.

(** The witness of X12: a header whose name holds a space. *)
Lemma dependencies_of_sun_lines_witness :
  dependencies_from_make_rules
    (render_sun_lines
       [("hello.o ", 1, "hello.c"); ("hello.o ", 1, "my dir/hello.h")])
    true
  = ["hello.c"; "my dir/hello.h"].
Proof.
  exact (dependencies_of_sun_lines
           [("hello.o ", 1, "hello.c"); ("hello.o ", 1, "my dir/hello.h")]
           eq_refl).
Defined.

End MakeRulesMore.

(* ------------------------------------------------------------------ *)
(** ** The parser (src/src/parsedcommandfactory.cpp) *)

Section ParserMore.
Import Parser.
#[local] Arguments Ascii.eqb : simpl never.
#[local] Arguments String.eqb : simpl never.

Lemma input_token_inv (t : string) :
  input_token t = true ->
  StdString.front_is "-"%char t = false
  /\ StdString.front_is "+"%char t = false
  /\ StdString.front_is "@"%char t = false
  /\ String.eqb t "-" = false.
Proof.
  unfold input_token. intros H.
  apply andb_prop in H. destruct H as [H H3].
  apply andb_prop in H. destruct H as [H1 H2].
  apply negb_true_iff in H1, H2, H3. repeat split; try assumption.
  apply String.eqb_neq. intros ->. discriminate H1.
Qed.

(** What the loop does with a token that is no option. *)
Lemma parseToken_input (h : Host) (env : Env) (sc : SupportedCompilers)
      (c : ParsedCommand) (rules : CompilerParseRulesMap)
      (wd t : string) :
  input_token t = true ->
  parseToken h env sc c rules wd t
  = (replacedPath <- FileUtils.modifyPathForRemote h env t wd true ;;
     pop_front
       (set_inputFiles
          (d_inputFiles (push_deps t (push_command replacedPath c))
           ++ [t])
          (push_deps t (push_command replacedPath c)))).
Proof.
  intros H. apply input_token_inv in H. destruct H as (H1 & H2 & H3 & H4).
  unfold parseToken, matchCompilerOptions.
  rewrite H1, H2, H3, H4. cbn [orb]. rewrite !andb_false_r.
  reflexivity.
Qed.

Lemma parseCommand_loop_inputs (h : Host) (env : Env)
      (sc : SupportedCompilers) (rules : CompilerParseRulesMap)
      (wd : string) :
  forall (tokens paths : list string) (fuel : nat) (c : ParsedCommand),
    d_originalCommand c = tokens ->
    forallb input_token tokens = true ->
    Forall2 (fun t p => FileUtils.modifyPathForRemote h env t wd true
                        = Ret p) tokens paths ->
    List.length tokens <= fuel ->
    exists c',
      parseCommand_loop h env sc fuel c rules wd = Ret c'
      /\ d_command c' = d_command c ++ paths
      /\ d_dependenciesCommand c' = d_dependenciesCommand c ++ tokens
      /\ d_inputFiles c' = d_inputFiles c ++ tokens
      /\ d_originalCommand c' = []
      /\ d_commandProducts c' = d_commandProducts c
      /\ d_containsUnsupportedOptions c'
         = d_containsUnsupportedOptions c
      /\ d_compilerCommand c' = d_compilerCommand c.
Proof.
  induction tokens as [|t tokens IH]; intros paths fuel c E Hin Hp Hf.
  - inversion Hp; subst. exists c.
    destruct fuel; cbn [parseCommand_loop]; rewrite E;
      rewrite !app_nil_r; repeat split; reflexivity.
  - inversion Hp as [|t' p tokens' paths' Hm Hrest]; subst.
    cbn [forallb] in Hin. apply andb_prop in Hin.
    destruct Hin as [Ht Hts].
    destruct fuel as [|fuel]; [simpl in Hf; lia|].
    cbn [parseCommand_loop]. rewrite E.
    rewrite (parseToken_input h env sc c rules wd t Ht), Hm.
    cbn [bind]. unfold pop_front, push_deps, push_command.
    cbn. rewrite E. cbn [bind].
    match goal with
    | |- exists c', parseCommand_loop _ _ _ _ ?c1 _ _ = _ /\ _ =>
        destruct (IH paths' fuel c1 eq_refl Hts Hrest) as (c' & Hc' & H1
          & H2 & H3 & H4 & H5 & H6 & H7); [simpl in Hf; lia|];
        exists c'; split; [exact Hc'|]
    end.
    cbn in H1, H2, H3, H5, H6, H7.
    rewrite H1, H2, H3, H4, H5, H6, H7, <- !app_assoc.
    repeat split; reflexivity.
Qed.

(** X13.  Tokens that are no options are input files: when all the
    tokens left to parse begin with none of '-', '+' and '@' and their
    paths can be rewritten, [parseCommand] appends the rewritten paths to
    the remote command and the tokens as they are to the dependencies
    command and to the input files, and changes nothing else of what
    decides the kind of the command. *)
Theorem parseCommand_input_files
        (h : Host) (env : Env) (sc : SupportedCompilers)
        (rules : CompilerParseRulesMap) (wd : string)
        (c : ParsedCommand) (paths : list string) :
  forallb input_token (d_originalCommand c) = true ->
  Forall2 (fun t p => FileUtils.modifyPathForRemote h env t wd true = Ret p)
    (d_originalCommand c) paths ->
  exists c',
    parseCommand h env sc c rules wd = Ret c'
    /\ d_command c' = d_command c ++ paths
    /\ d_dependenciesCommand c'
       = d_dependenciesCommand c ++ d_originalCommand c
    /\ d_inputFiles c' = d_inputFiles c ++ d_originalCommand c
    /\ d_originalCommand c' = []
    /\ d_commandProducts c' = d_commandProducts c
    /\ d_containsUnsupportedOptions c' = d_containsUnsupportedOptions c
    /\ d_compilerCommand c' = d_compilerCommand c.
Proof.
  intros Hin Hp. unfold parseCommand.
  now apply (parseCommand_loop_inputs h env sc rules wd
               (d_originalCommand c) paths).
Qed.

(** The witness of X13: the inputs "main.c" and "./util.c". *)
Lemma parseCommand_input_files_witness :
  exists c',
    parseCommand Example.host Example.env Example.compilers
      (set_originalCommand ["main.c"; "./util.c"] ParsedCommand_default)
      GccRules "/home" = Ret c'
    /\ d_command c' = ["main.c"; "util.c"]
    /\ d_inputFiles c' = ["main.c"; "./util.c"].
Proof.
  destruct (parseCommand_input_files Example.host Example.env
              Example.compilers GccRules "/home"
              (set_originalCommand ["main.c"; "./util.c"]
                 ParsedCommand_default)
              ["main.c"; "util.c"] eq_refl)
    as (c' & H & H1 & _ & H3 & _).
  - repeat constructor.
  - exists c'. split; [exact H|]. split; [exact H1 | exact H3].
Defined.

(** X14.  An unsupported option ends the parsing: when the first token
    left matches a rule of [parseOptionIsUnsupported], [parseCommand]
    marks the command unsupported, copies that token and all the tokens
    after it unchanged to the remote command and to the dependencies
    command, and records no input file and no product from them. *)
Theorem parseCommand_stops_at_unsupported_option
        (h : Host) (env : Env) (sc : SupportedCompilers)
        (rules : CompilerParseRulesMap) (wd : string)
        (c : ParsedCommand) (token key : string) (rest : list string) :
  d_originalCommand c = token :: rest ->
  matchCompilerOptions token rules
  = Some (key, fn_parseOptionIsUnsupported) ->
  exists c',
    parseCommand h env sc c rules wd = Ret c'
    /\ d_containsUnsupportedOptions c' = true
    /\ d_command c' = d_command c ++ token :: rest
    /\ d_dependenciesCommand c'
       = d_dependenciesCommand c ++ token :: rest
    /\ d_inputFiles c' = d_inputFiles c
    /\ d_commandProducts c' = d_commandProducts c
    /\ d_originalCommand c' = [].
Proof.
  intros E M. unfold parseCommand. rewrite E.
  cbn [List.length parseCommand_loop]. rewrite E.
  unfold parseToken. rewrite M. cbn [call].
  unfold parseOptionIsUnsupported. cbn [bind].
  eexists. split.
  - destruct (List.length rest); cbn [parseCommand_loop]; reflexivity.
  - cbn. rewrite E. repeat split; reflexivity.
Qed.

(** The witness of X14: "-E" before an input file. *)
Lemma parseCommand_stops_at_unsupported_option_witness :
  exists c',
    parseCommand Example.host Example.env Example.compilers
      (set_originalCommand ["-E"; "/usr/../main.c"] ParsedCommand_default)
      GccRules "/home" = Ret c'
    /\ d_containsUnsupportedOptions c' = true
    /\ d_command c' = ["-E"; "/usr/../main.c"]
    /\ d_inputFiles c' = [].
Proof.
  destruct (parseCommand_stops_at_unsupported_option Example.host
              Example.env Example.compilers GccRules "/home"
              (set_originalCommand ["-E"; "/usr/../main.c"]
                 ParsedCommand_default)
              "-E" "-E" ["/usr/../main.c"] eq_refl eq_refl)
    as (c' & H & H1 & H2 & _ & H4 & _).
  exists c'. repeat split; assumption.
Defined.

(** *** The tokens a rule function leaves are tokens it found *)

Ltac invert_run :=
  repeat match goal with
    | H : bind _ _ = Ret _ |- _ =>
        apply bind_Ret_inv in H; destruct H as (? & ? & H)
    | H : front _ = Ret _ |- _ =>
        apply front_inv in H; destruct H as (? & H)
    | H : pop_front _ = Ret _ |- _ =>
        apply pop_front_inv in H; destruct H as (? & ? & H & ->)
    | H : Ret _ = Ret _ |- _ => injection H as H; try subst
    | H : Throws _ = Ret _ |- _ => discriminate H
    | H : Undefined = Ret _ |- _ => discriminate H
    | H : Diverged = Ret _ |- _ => discriminate H
    | H : (_, _) = (_, _) |- _ => injection H as ? ?; try subst
    | H : context [match ?x with _ => _ end] |- _ =>
        match type of H with
        | _ = Ret _ => destruct x eqn:?
        end
    end.

Ltac close_incl :=
  unfold push_command, push_deps, record_include_dir, record_product,
    push_library_dir in *;
  repeat match goal with
    | |- context [if ?b then _ else _] => destruct b eqn:?
    | H : context [if ?b then _ else _] |- _ => destruct b eqn:?
    | |- context [match ?x with to_rpathLinkDirs => _ | _ => _ end] =>
        destruct x eqn:?
    | H : context [match ?x with to_rpathLinkDirs => _ | _ => _ end]
      |- _ => destruct x eqn:?
    end;
  simpl in *;
  repeat match goal with
    | H : d_originalCommand ?c = _ :: _ |- _ =>
        is_var c; rewrite H in *; clear H
    | H : d_originalCommand ?c = [] |- _ =>
        is_var c; rewrite H in *; clear H
    | H : _ :: _ = _ :: _ |- _ => injection H as ? ?; subst
    | H : [] = _ :: _ |- _ => discriminate H
    | H : _ :: _ = [] |- _ => discriminate H
    end;
  simpl in *;
  eauto 6 using incl_refl, incl_tl, incl_nil_l, incl_tran.

Lemma appendAndRemoveOption_incl (h : Host) (env : Env)
      (c c' : ParsedCommand) (wd : string)
      (isPath toDeps isOutput depsOutput : bool) :
  appendAndRemoveOption h env c wd isPath toDeps isOutput depsOutput
  = Ret c' ->
  incl (d_originalCommand c') (d_originalCommand c).
Proof.
  unfold appendAndRemoveOption, record_include_dir, record_product.
  intros H. invert_run; close_incl.
Qed.

Lemma parseOptionIsUnsupported_incl (c c' : ParsedCommand)
      (wd opt : string) :
  parseOptionIsUnsupported c wd opt = Ret c' ->
  incl (d_originalCommand c') (d_originalCommand c).
Proof.
  unfold parseOptionIsUnsupported. intros [= <-]. simpl.
  apply incl_nil_l.
Qed.

Lemma parseGccOption_incl (h : Host) (env : Env)
      (c c' : ParsedCommand) (wd opt : string)
      (toDeps isOutput depsOutput : bool) :
  parseGccOption h env c wd opt toDeps isOutput depsOutput = Ret c' ->
  incl (d_originalCommand c') (d_originalCommand c).
Proof.
  unfold parseGccOption. intros H. invert_run;
    repeat match goal with
      | H : appendAndRemoveOption _ _ _ _ _ _ _ _ = Ret _ |- _ =>
          apply appendAndRemoveOption_incl in H
      end;
    close_incl.
Qed.

Lemma parseLdLibraryPath_loop_incl (h : Host) (env : Env)
      (tokens : list string) :
  forall (c c' : ParsedCommand) (wd opt : string),
    parseLdLibraryPath_loop h env tokens c wd opt = Ret c' ->
    incl (d_originalCommand c') (d_originalCommand c).
Proof.
  induction tokens as [|token tokens IH]; simpl; intros c c' wd opt H.
  - invert_run. close_incl.
  - invert_run;
      repeat match goal with
        | H : parseLdLibraryPath_loop _ _ _ _ _ _ = Ret _ |- _ =>
            apply IH in H
        | H : parseOptionIsUnsupported _ _ _ = Ret _ |- _ =>
            apply parseOptionIsUnsupported_incl in H
        end;
      close_incl.
Qed.

Ltac invert_calls_incl :=
  cbv beta zeta in *;
  repeat first
    [ progress invert_run
    | match goal with
      | H : appendAndRemoveOption _ _ _ _ _ _ _ _ = Ret _ |- _ =>
          apply appendAndRemoveOption_incl in H
      | H : parseGccOption _ _ _ _ _ _ _ _ = Ret _ |- _ =>
          apply parseGccOption_incl in H
      | H : parseOptionIsUnsupported _ _ _ = Ret _ |- _ =>
          apply parseOptionIsUnsupported_incl in H
      | H : parseLdLibraryPath_loop _ _ _ _ _ _ = Ret _ |- _ =>
          apply parseLdLibraryPath_loop_incl in H
      end ].

Lemma solaris_option_argument_incl (h : Host) (env : Env)
      (c c' : ParsedCommand) (wd opt : string) (arg : option string) :
  solaris_option_argument h env c wd opt = Ret (arg, c') ->
  incl (d_originalCommand c') (d_originalCommand c).
Proof.
  unfold solaris_option_argument. intros H.
  invert_calls_incl; close_incl.
Qed.

(** No rule function puts a token into [d_originalCommand] that was not
    there. *)
Lemma call_incl (h : Host) (env : Env) (sc : SupportedCompilers)
      (fn : ParseRuleFn) (c c' : ParsedCommand) (wd opt : string) :
  call h env sc fn c wd opt = Ret c' ->
  incl (d_originalCommand c') (d_originalCommand c).
Proof.
  intros H.
  destruct fn; simpl in H;
    unfold parseOptionSimple, parseInterfersWithDepsOption,
      parseIsInputPathOption, parseIsEqualInputPathOption,
      parseIsCompileOption,
      parseOptionRedirectsOutput, parseOptionRedirectsDepsOutput,
      parseOptionDepsRuleTarget, parseIsPreprocessorArgOption,
      parseIsMacro, parseOptionSetsGccLanguage,
      parseOptionCoverageOutput, parseOptionRedirectsCoverageOutput,
      parseOptionSplitDwarf, parseOptionSolarisPhase, parseOptionNative,
      parseOptionParam, parseLdLibrary, parseLdLibraryPath,
      parseLdOptionDynamic, parseLdOptionStatic, parseLdOptionState,
      parseLdOptionEmulation, parseSolarisLdOptionB,
      parseSolarisLdOptionD, parseSolarisLdOptionY,
      parseSolarisLdMapfile in H;
    invert_calls_incl;
    repeat match goal with
      | H : solaris_option_argument _ _ _ _ _ = Ret _ |- _ =>
          apply solaris_option_argument_incl in H
      end;
    close_incl.
Qed.

(** One iteration either meets a token of the compile rule or leaves
    the compiler flag as it is. *)
Lemma parseToken_compile_flag (h : Host) (env : Env)
      (sc : SupportedCompilers) (c c' : ParsedCommand)
      (rules : CompilerParseRulesMap) (wd t : string) (rest : list string) :
  d_originalCommand c = t :: rest ->
  parseToken h env sc c rules wd t = Ret c' ->
  incl (d_originalCommand c') (d_originalCommand c)
  /\ ((exists key,
         matchCompilerOptions t rules
         = Some (key, fn_parseIsCompileOption))
      \/ d_compilerCommand c' = d_compilerCommand c).
Proof.
  unfold parseToken. intros E H.
  destruct (matchCompilerOptions t rules) as [[k fn]|] eqn:M.
  - split; [now apply call_incl in H|].
    assert (Hne : d_originalCommand c <> []) by (rewrite E; discriminate).
    destruct fn;
      try (right; apply call_evolves in H; [|assumption|discriminate];
           unfold evolves in H; tauto).
    left. now exists k.
  - split.
    + invert_calls_incl; close_incl.
    + right. invert_run; unfold push_command, push_deps in *;
        try reflexivity.
      apply appendAndRemoveOption_evolves in H. unfold evolves in H.
      tauto.
Qed.

Lemma parseCommand_loop_compile_flag (h : Host) (env : Env)
      (sc : SupportedCompilers) (rules : CompilerParseRulesMap)
      (wd : string) (fuel : nat) :
  forall c c',
    parseCommand_loop h env sc fuel c rules wd = Ret c' ->
    d_compilerCommand c = false ->
    d_compilerCommand c' = true ->
    exists t key,
      In t (d_originalCommand c)
      /\ matchCompilerOptions t rules
         = Some (key, fn_parseIsCompileOption).
Proof.
  induction fuel as [|fuel IH]; intros c c'; simpl;
    destruct (d_originalCommand c) as [|t rest] eqn:E;
    try (intros [= <-]; congruence); try discriminate.
  intros H Hc Hc'. apply bind_Ret_inv in H. destruct H as (c1 & H1 & H2).
  apply (parseToken_compile_flag _ _ _ _ _ _ _ _ _ E) in H1.
  destruct H1 as [Hincl [(key & M) | Hsame]].
  - exists t, key. split; [now left | exact M].
  - destruct (IH _ _ H2) as (t' & key & Hin & M);
      [congruence | assumption |].
    exists t', key. split; [|exact M].
    rewrite E in Hincl. now apply Hincl.
Qed.

Lemma remove_spaces_app (a b : string) :
  StdString.remove_spaces (a +++ b)
  = StdString.remove_spaces a +++ StdString.remove_spaces b.
Proof.
  induction a as [|c a IH]; simpl; [reflexivity|].
  destruct (StdString.isspace c); simpl; now rewrite IH.
Qed.

Lemma prefix_app (a b : string) : String.prefix a (a +++ b) = true.
Proof.
  induction a as [|c a IH]; simpl; [now destruct b|].
  destruct (ascii_dec c c); [exact IH | congruence].
Qed.

Lemma substring_search_take (t : string) (m : CompilerParseRulesMap)
      (k : string) (fn : ParseRuleFn) :
  substring_search t m = Some (k, fn) ->
  StdString.take (String.length k) t = k.
Proof.
  induction m as [|[k' fn'] m IH]; simpl; [discriminate|].
  destruct (String.eqb_spec (StdString.take (String.length k') t) k')
    as [E|_]; [|exact IH].
  now intros [= <- <-].
Qed.

(** A token that the rule "-c" matches begins with "-c" once its white
    space is removed. *)
Lemma matched_by_c (t : string) (rules : CompilerParseRulesMap)
      (fn : ParseRuleFn) :
  matchCompilerOptions t rules = Some ("-c", fn) ->
  String.prefix "-c" (StdString.remove_spaces t) = true.
Proof.
  unfold matchCompilerOptions.
  destruct (negb (StdString.empty t)
            && (StdString.front_is "-"%char t
                || StdString.front_is "+"%char t)); [|discriminate].
  destruct (RulesMap.lookup _ rules) as [fn'|] eqn:L.
  - intros [= E <-].
    destruct (StdString.find "="%char t) as [i|].
    + rewrite <- (take_drop i t), remove_spaces_app, E.
      apply prefix_app.
    + now rewrite E.
  - intros H. apply substring_search_take in H.
    rewrite <- (take_drop 2 t). simpl String.length in H.
    rewrite H, remove_spaces_app. apply (prefix_app "-c").
Qed.

Lemma compile_rule_key (rules : CompilerParseRulesMap) (key : string) :
  In rules [GccRules; GccPreprocessorRules; SunCPPRules; AixRules] ->
  In (key, fn_parseIsCompileOption) rules -> key = "-c".
Proof.
  intros [<- | [<- | [<- | [<- | []]]]] H; vm_compute in H;
    repeat (destruct H as [H | H];
            [first [ discriminate H | now injection H as <- ] |]);
    contradiction.
Qed.

Lemma find_rules_In (sc : SupportedCompilers) (name : string)
      (rules : CompilerParseRulesMap) :
  find_rules name (getParsedCommandMap sc) = Some rules ->
  In rules [GccRules; GccPreprocessorRules; SunCPPRules; AixRules].
Proof.
  unfold getParsedCommandMap. simpl.
  repeat match goal with
    | |- context [if ?b then _ else _] => destruct b
    end;
    intros [= <-]; simpl; auto 6.
Qed.

Lemma ParsedCommand_new_tokens (h : Host) (env : Env)
      (sc : SupportedCompilers) (command : list string) (wd : string)
      (c : ParsedCommand) :
  ParsedCommand_new h env sc command wd = Ret c ->
  incl (d_originalCommand c) (List.tl command).
Proof.
  unfold ParsedCommand_new. intros H.
  destruct command as [|compiler arguments].
  - injection H as <-. apply incl_nil_l.
  - destruct (StdString.empty compiler).
    + injection H as <-. apply incl_nil_l.
    + invert_run; simpl; apply incl_refl.
Qed.

(** X15.  Without the option -c no command is a compiler command: when
    [createParsedCommand] returns a compiler command, one of the tokens
    after the compiler begins with "-c" once its white space is
    removed. *)
Theorem compiler_command_has_c_option
        (h : Host) (env : Env) (sc : SupportedCompilers)
        (command : list string) (wd : string) (c : ParsedCommand) :
  createParsedCommand h env sc command wd = Ret c ->
  is_compiler_command c = true ->
  exists token,
    In token (List.tl command)
    /\ String.prefix "-c" (StdString.remove_spaces token) = true.
Proof.
  unfold createParsedCommand, createParsedCommand_in, is_compiler_command.
  intros H Hc. destruct command as [|compiler arguments].
  - injection H as <-. discriminate Hc.
  - apply bind_Ret_inv in H. destruct H as (pc & Hnew & H).
    pose proof (ParsedCommand_new_tokens _ _ _ _ _ _ Hnew) as Htok.
    apply ParsedCommand_new_flags in Hnew.
    destruct Hnew as (Hflag & _ & _).
    destruct (find_rules (d_compiler pc) (getParsedCommandMap sc))
      as [rules|] eqn:Ef.
    + apply bind_Ret_inv in H. destruct H as (pc2 & Hparse & H).
      assert (Hc2 : d_compilerCommand pc2 = true).
      { destruct (d_containsUnsupportedOptions pc2
                  || Nat.eqb (List.length (d_inputFiles pc2)) 0).
        - injection H as <-. discriminate Hc.
        - invert_run; unfold is_compiler_command in *; simpl in Hc;
            try exact Hc;
            destruct (d_compilerCommand pc2) eqn:Epc2;
              [reflexivity | simpl in Hc; congruence]. }
      unfold parseCommand in Hparse.
      destruct (parseCommand_loop_compile_flag _ _ _ _ _ _ _ _
                  Hparse Hflag Hc2) as (t & key & Hin & M).
      pose proof (matchCompilerOptions_In _ _ _ _ M) as Hk.
      apply (compile_rule_key _ _ (find_rules_In _ _ _ Ef)) in Hk.
      subst key. exists t. split; [now apply Htok|].
      now apply matched_by_c in M.
    + injection H as <-. simpl in Hc. congruence.
Qed.

(** The witness of X15: "gcc -c foo.c -o foo.o". *)
Lemma compiler_command_has_c_option_witness :
  exists c token,
    createParsedCommand Example.host Example.env Example.compilers
      ["gcc"; "-c"; "foo.c"; "-o"; "foo.o"] "/home" = Ret c
    /\ is_compiler_command c = true
    /\ In token ["-c"; "foo.c"; "-o"; "foo.o"]
    /\ String.prefix "-c" (StdString.remove_spaces token) = true.
Proof.
  destruct (createParsedCommand Example.host Example.env Example.compilers
              ["gcc"; "-c"; "foo.c"; "-o"; "foo.o"] "/home")
    as [c | | |] eqn:E; try (vm_compute in E; discriminate E).
  assert (Hc : is_compiler_command c = true)
    by (vm_compute in E; injection E as <-; reflexivity).
  destruct (compiler_command_has_c_option Example.host Example.env
              Example.compilers ["gcc"; "-c"; "foo.c"; "-o"; "foo.o"]
              "/home" c E Hc) as (token & Hin & Hp).
  exists c, token. repeat split; assumption.
Defined.

Lemma find_app_None (c : ascii) (a b : string) :
  StdString.find c a = None -> StdString.find c b = None ->
  StdString.find c (a +++ b) = None.
Proof. apply find_None_app. Qed.

Lemma appendAndRemoveOption_option (h : Host) (env : Env)
      (c : ParsedCommand) (wd t : string) (rest : list string)
      (toDeps isOutput depsOutput : bool) :
  d_originalCommand c = t :: rest ->
  appendAndRemoveOption h env c wd false toDeps isOutput depsOutput
  = Ret (set_originalCommand rest
           (if toDeps then push_deps t (push_command t c)
            else push_command t c)).
Proof.
  intros E. unfold appendAndRemoveOption, front, pop_front. rewrite E.
  cbn [bind]. destruct toDeps; unfold push_deps, push_command; cbn;
    now rewrite E.
Qed.

Lemma appendAndRemoveOption_path (h : Host) (env : Env)
      (c : ParsedCommand) (wd t p : string) (rest : list string)
      (toDeps isOutput depsOutput : bool) :
  d_originalCommand c = t :: rest ->
  FileUtils.modifyPathForRemote h env t wd true = Ret p ->
  appendAndRemoveOption h env c wd true toDeps isOutput depsOutput
  = Ret (set_originalCommand rest
           (record_product isOutput depsOutput p
              (push_command p
                 (if toDeps then push_deps t (record_include_dir h t p c)
                  else record_include_dir h t p c)))).
Proof.
  intros E Hp. unfold appendAndRemoveOption, front, pop_front.
  rewrite E. cbn [bind]. rewrite Hp. cbn [bind].
  unfold record_product, push_command, push_deps, record_include_dir.
  destruct toDeps, isOutput, depsOutput,
    (isDirectory h (normalizePath h t)); cbn; now rewrite E.
Qed.

(** X16.  The output option is understood with and without a space: for
    a file name that is not empty and holds no '=', "-o file" and
    "-ofile" both record the rewritten path as the product of the
    command and take their tokens from the command; the remote command
    gets "-o" and the path, or "-o" joined to the path; nothing goes to
    the dependencies command or to the input files. *)
Theorem output_option_spellings
        (h : Host) (env : Env) (c : ParsedCommand)
        (wd file p : string) (rest : list string) :
  FileUtils.modifyPathForRemote h env file wd true = Ret p ->
  file <> "" -> StdString.find "="%char file = None ->
  (d_originalCommand c = "-o" :: file :: rest ->
   exists c',
     parseOptionRedirectsOutput h env c wd "-o" = Ret c'
     /\ get_products c' = SSet.insert p (get_products c)
     /\ d_command c' = d_command c ++ ["-o"; p]
     /\ d_dependenciesCommand c' = d_dependenciesCommand c
     /\ d_inputFiles c' = d_inputFiles c
     /\ d_originalCommand c' = rest)
  /\ (d_originalCommand c = ("-o" +++ file) :: rest ->
      exists c',
        parseOptionRedirectsOutput h env c wd "-o" = Ret c'
        /\ get_products c' = SSet.insert p (get_products c)
        /\ d_command c' = d_command c ++ ["-o" +++ p]
        /\ d_dependenciesCommand c' = d_dependenciesCommand c
        /\ d_inputFiles c' = d_inputFiles c
        /\ d_originalCommand c' = rest).
Proof.
  intros Hp Hne Heq. split; intros E.
  - unfold parseOptionRedirectsOutput, parseGccOption, front.
    rewrite E. cbn [bind]. rewrite String.eqb_refl.
    rewrite (appendAndRemoveOption_option h env c wd "-o" (file :: rest)
               false false false E).
    cbn [bind].
    erewrite (appendAndRemoveOption_path h env _ wd file p rest
                false true false) by (try reflexivity; exact Hp).
    unfold record_include_dir, record_product, push_command.
    destruct (isDirectory h (normalizePath h file)); cbn;
      eexists; (split; [reflexivity|]); cbn; rewrite <- app_assoc;
      repeat split; reflexivity.
  - unfold parseOptionRedirectsOutput, parseGccOption, front.
    rewrite E. cbn [bind].
    replace (String.eqb ("-o" +++ file) "-o") with false
      by (symmetry; apply String.eqb_neq; destruct file;
          [congruence | discriminate]).
    replace (StdString.find "="%char ("-o" +++ file)) with (@None nat)
      by (symmetry; now apply (find_app_None "="%char "-o" file)).
    unfold StdString.substr_checked.
    replace (Z.of_nat (String.length "-o")
             >? Z.of_nat (String.length ("-o" +++ file)))%Z
      with false
      by (symmetry; rewrite append_length, Z.gtb_ltb; apply Z.ltb_ge;
          lia).
    cbn [bind]. rewrite Nat2Z.id, (drop_app "-o" file), Hp. cbn [bind].
    unfold record_include_dir, push_command, pop_front.
    destruct (isDirectory h (normalizePath h file)); cbn; rewrite E;
      eexists; (split; [reflexivity|]); cbn; repeat split; reflexivity.
Qed.

(** The witness of X16: "-o out/../foo.o" and "-oout/../foo.o". *)
Lemma output_option_spellings_witness :
  (exists c',
      parseOptionRedirectsOutput Example.host Example.env
        (set_originalCommand ["-o"; "out/../foo.o"] ParsedCommand_default)
        "/home" "-o" = Ret c'
      /\ get_products c' = ["foo.o"]
      /\ d_command c' = ["-o"; "foo.o"])
  /\ (exists c',
         parseOptionRedirectsOutput Example.host Example.env
           (set_originalCommand ["-oout/../foo.o"] ParsedCommand_default)
           "/home" "-o" = Ret c'
         /\ get_products c' = ["foo.o"]
         /\ d_command c' = ["-ofoo.o"]).
Proof.
  split.
  - destruct (proj1 (output_option_spellings Example.host Example.env
                       (set_originalCommand ["-o"; "out/../foo.o"]
                          ParsedCommand_default)
                       "/home" "out/../foo.o" "foo.o" []
                       eq_refl ltac:(discriminate) eq_refl) eq_refl)
      as (c' & H & H1 & H2 & _).
    exists c'. repeat split; assumption.
  - destruct (proj2 (output_option_spellings Example.host Example.env
                       (set_originalCommand ["-oout/../foo.o"]
                          ParsedCommand_default)
                       "/home" "out/../foo.o" "foo.o" []
                       eq_refl ltac:(discriminate) eq_refl) eq_refl)
      as (c' & H & H1 & H2 & _).
    exists c'. repeat split; assumption.
Defined.

(** X17.  An option that takes the next token as its argument must not
    be the last token: for "-o", "-I", "-MF", "-D" and the other options
    of [options_with_argument], [parseCommand] with the rules of gcc on
    a command whose only token left is that option reads the front of
    the emptied token list, which is undefined behaviour. *)
Theorem parseCommand_missing_argument
        (h : Host) (env : Env) (sc : SupportedCompilers)
        (c : ParsedCommand) (wd option : string) :
  In option options_with_argument ->
  d_originalCommand c = [option] ->
  parseCommand h env sc c GccRules wd = Undefined.
Proof.
  unfold options_with_argument. intros Hin E.
  unfold parseCommand. rewrite E. cbn [List.length parseCommand_loop].
  rewrite E.
  repeat (destruct Hin as [<- | Hin];
          [ unfold parseToken;
            match goal with
            | |- context [matchCompilerOptions ?t GccRules] =>
                let m := eval vm_compute in (matchCompilerOptions t GccRules)
                in change (matchCompilerOptions t GccRules) with m
            end;
            cbn [call];
            unfold parseOptionRedirectsOutput,
              parseOptionRedirectsDepsOutput, parseOptionDepsRuleTarget,
              parseIsInputPathOption, parseIsEqualInputPathOption,
              parseIsMacro, parseIsPreprocessorArgOption, parseGccOption,
              appendAndRemoveOption, front, pop_front, push_command,
              push_deps;
            rewrite ?E; cbn; rewrite ?E; cbn; reflexivity |]).
  contradiction.
Qed.

(** The witness of X17: "-o" as last token. *)
Lemma parseCommand_missing_argument_witness :
  parseCommand Example.host Example.env Example.compilers
    (set_originalCommand ["-o"] ParsedCommand_default) GccRules "/home"
  = Undefined.
Proof.
  apply (parseCommand_missing_argument Example.host Example.env
           Example.compilers
           (set_originalCommand ["-o"] ParsedCommand_default) "/home" "-o").
  - left. reflexivity.
  - reflexivity.
Defined.

Lemma strip_version_prefix (s : string) :
  exists rest, s = strip_version s +++ rest.
Proof.
  induction s as [|c s (rest & IH)]; [now exists ""|].
  cbn [strip_version].
  destruct (StdString.empty (strip_version s) && is_version_character c).
  - now exists (String c s).
  - exists rest. simpl. now rewrite <- IH.
Qed.

Lemma strip_version_back (s : string) (c : ascii) :
  StdString.back (strip_version s) = Some c ->
  is_version_character c = false.
Proof.
  induction s as [|d s IH]; [discriminate|].
  cbn [strip_version].
  destruct (strip_version s) as [|e kept] eqn:E.
  - cbn [StdString.empty andb].
    destruct (is_version_character d) eqn:Ed; [discriminate|].
    now intros [= <-].
  - cbn [StdString.empty andb]. exact IH.
Qed.

(** X18.  [commandBasename] of a command whose file name is not one of
    the C compiler names that are followed through symlinks (cc, c++)
    returns a beginning of that file name that does not end in a digit,
    a dot or a hyphen: directories and a version suffix are cut off, as
    in "/usr/bin/gcc-4.7". *)
Theorem commandBasename_cuts_version
        (h : Host) (sc : SupportedCompilers) (path : string) :
  SSet.count (FileUtils.stripDirectory path) (CCompilers sc) = false ->
  exists name rest,
    commandBasename h sc path = Ret name
    /\ FileUtils.stripDirectory path = name +++ rest
    /\ forall c, StdString.back name = Some c ->
                 is_version_character c = false.
Proof.
  intros Hc. unfold commandBasename. cbn [commandBasename_from].
  change (match StdString.rfind StdString.slash path with
          | Some lastSlash => StdString.drop (S lastSlash) path
          | None => path
          end) with (FileUtils.stripDirectory path).
  rewrite Hc.
  set (basename := FileUtils.stripDirectory path).
  match goal with
  | |- context [StdString.take ?n basename] => set (length := n)
  end.
  destruct (strip_version_prefix (StdString.take length basename))
    as (rest & Hrest).
  exists (strip_version (StdString.take length basename)),
    (rest +++ StdString.drop length basename).
  split; [reflexivity|]. split.
  - rewrite <- append_assoc, <- Hrest. symmetry. apply take_drop.
  - apply strip_version_back.
Qed.

(** The witness of X18: "/usr/bin/gcc-4.7" and "./xlc++_r". *)
Lemma commandBasename_cuts_version_witness :
  commandBasename Example.host Example.compilers "/usr/bin/gcc-4.7"
  = Ret "gcc"
  /\ commandBasename Example.host Example.compilers "./xlc++_r"
     = Ret "xlc++".
Proof.
  split.
  - destruct (commandBasename_cuts_version Example.host Example.compilers
                "/usr/bin/gcc-4.7" eq_refl) as (name & rest & H & _).
    vm_compute in H. injection H as <-. reflexivity.
  - destruct (commandBasename_cuts_version Example.host Example.compilers
                "./xlc++_r" eq_refl) as (name & rest & H & _).
    vm_compute in H. injection H as <-. reflexivity.
Defined.

Lemma parseStageOptionList_loop_item (item rest : string) :
  forall (quoted : bool) (current : string) (result : list string),
    item_ok item = true ->
    parseStageOptionList_loop (item +++ rest) quoted current result
    = parseStageOptionList_loop rest quoted (current +++ item) result.
Proof.
  unfold item_ok. induction item as [|c item IH];
    intros quoted current result H.
  - now rewrite append_nil_r.
  - simpl in H. apply andb_prop in H. destruct H as [Hc Hi].
    apply andb_prop in Hc. destruct Hc as [H1 H2].
    apply negb_true_iff in H1, H2.
    cbn [append parseStageOptionList_loop]. rewrite H1, H2.
    cbn [andb]. rewrite IH by assumption. now rewrite push_back_append.
Qed.

Lemma parseStageOptionList_loop_items (items : list string) :
  forall (item current : string) (result : list string),
    forallb item_ok (item :: items) = true ->
    parseStageOptionList_loop (join_commas (item :: items)) false current
      result
    = result ++ (current +++ item) :: items.
Proof.
  induction items as [|next items IH]; intros item current result H.
  - cbn [join_commas]. simpl in H. rewrite andb_true_r in H.
    rewrite <- (append_nil_r item) at 1.
    now rewrite parseStageOptionList_loop_item.
  - change (forallb item_ok (item :: next :: items))
      with (item_ok item && forallb item_ok (next :: items)) in H.
    apply andb_prop in H. destruct H as [Hi Hn].
    change (join_commas (item :: next :: items))
      with (item +++ String ","%char (join_commas (next :: items))).
    rewrite parseStageOptionList_loop_item by assumption.
    cbn [parseStageOptionList_loop].
    replace (Ascii.eqb ","%char "'"%char) with false by reflexivity.
    replace (Ascii.eqb ","%char ","%char) with true by reflexivity.
    cbn [andb negb]. rewrite IH by assumption.
    now rewrite <- app_assoc.
Qed.

(** X19.  [parseStageOptionList] splits the argument of -Wp at its
    commas: for items without comma and quote, joined by commas, it
    appends exactly the items to the vector; the empty argument counts as
    one empty item. *)
Theorem parseStageOptionList_of_joined_items
        (item : string) (items result : list string) :
  forallb item_ok (item :: items) = true ->
  parseStageOptionList (join_commas (item :: items)) result
  = result ++ item :: items.
Proof.
  intros H. unfold parseStageOptionList.
  now rewrite parseStageOptionList_loop_items.
Qed.

(** The witness of X19: "-MD,-MF,foo.d", and the empty argument. *)
Lemma parseStageOptionList_of_joined_items_witness :
  parseStageOptionList "-MD,-MF,foo.d" ["-E"]
  = ["-E"; "-MD"; "-MF"; "foo.d"]
  /\ parseStageOptionList "" [] = [""].
Proof.
  split.
  - exact (parseStageOptionList_of_joined_items "-MD" ["-MF"; "foo.d"]
             ["-E"] eq_refl).
  - exact (parseStageOptionList_of_joined_items "" [] [] eq_refl).
Defined.

(** X20.  [createParsedCommand] gives a command a kind exactly when it
    can be run remotely as far as the parser sees: the command it returns
    is a compiler or a linker command if and only if no unsupported
    option was found and at least one input file was. *)
Theorem createParsedCommand_has_kind
        (h : Host) (env : Env) (sc : SupportedCompilers)
        (command : list string) (wd : string) (c : ParsedCommand) :
  createParsedCommand h env sc command wd = Ret c ->
  is_compiler_command c || is_linker_command c = true
  <-> d_containsUnsupportedOptions c = false /\ d_inputFiles c <> [].
Proof.
  unfold createParsedCommand, createParsedCommand_in, is_compiler_command,
    is_linker_command.
  intros H. destruct command as [|compiler arguments].
  - injection H as <-. simpl. split; [discriminate | tauto].
  - apply bind_Ret_inv in H. destruct H as (pc & Hnew & H).
    apply ParsedCommand_new_flags in Hnew.
    destruct Hnew as (Hcf & Hlf & _).
    destruct (find_rules (d_compiler pc) (getParsedCommandMap sc))
      as [rules|] eqn:Ef.
    + apply bind_Ret_inv in H. destruct H as (pc2 & Hparse & H).
      apply parseCommand_keeps in Hparse.
      destruct Hparse as (Hl2 & _ & _ & _). rewrite Hlf in Hl2.
      destruct (d_containsUnsupportedOptions pc2) eqn:Eu;
        [| destruct (d_inputFiles pc2) as [|f fs] eqn:Ei];
        cbn [orb List.length Nat.eqb] in H.
      * injection H as <-. simpl. rewrite Hl2, Eu.
        split; [discriminate | intros [? _]; discriminate].
      * injection H as <-. simpl. rewrite Hl2, Eu, Ei.
        split; [discriminate | intros [_ ?]; congruence].
      * assert (Hkind : d_compilerCommand c || d_linkerCommand c = true
                        /\ d_containsUnsupportedOptions c = false
                        /\ d_inputFiles c = f :: fs).
        { unfold is_compiler_command in H.
          destruct (d_compilerCommand pc2) eqn:Ec2; cbn [negb] in H;
            invert_run; simpl; rewrite ?Ec2, ?Eu, ?Ei, ?Hl2;
            repeat split; reflexivity. }
        destruct Hkind as (K1 & K2 & K3). rewrite K1, K2, K3.
        split; [intros _; split; [reflexivity | discriminate] | reflexivity].
    + injection H as <-. simpl. rewrite Hcf, Hlf.
      split; [discriminate | intros [? _]; discriminate].
Qed.

(** The witness of X20: "gcc foo.o -o foo" is a linker command, and
    "gcc -c" without input is of no kind. *)
Lemma createParsedCommand_has_kind_witness :
  (exists c,
      createParsedCommand Example.host Example.env Example.compilers
        ["gcc"; "foo.o"; "-o"; "foo"] "/home" = Ret c
      /\ is_linker_command c = true)
  /\ (exists c,
         createParsedCommand Example.host Example.env Example.compilers
           ["gcc"; "-c"] "/home" = Ret c
         /\ is_compiler_command c || is_linker_command c = false).
Proof.
  split.
  - destruct (createParsedCommand Example.host Example.env
                Example.compilers ["gcc"; "foo.o"; "-o"; "foo"] "/home")
      as [c | | |] eqn:E; try (vm_compute in E; discriminate E).
    pose proof (createParsedCommand_has_kind _ _ _ _ _ _ E) as [_ K].
    exists c. split; [reflexivity|].
    assert (Hc : is_compiler_command c = false)
      by (vm_compute in E; injection E as <-; reflexivity).
    rewrite Hc in K. apply K.
    vm_compute in E. injection E as <-. split; [reflexivity | discriminate].
  - destruct (createParsedCommand Example.host Example.env
                Example.compilers ["gcc"; "-c"] "/home")
      as [c | | |] eqn:E; try (vm_compute in E; discriminate E).
    pose proof (createParsedCommand_has_kind _ _ _ _ _ _ E) as [K _].
    exists c. split; [reflexivity|].
    destruct (is_compiler_command c || is_linker_command c);
      [|reflexivity].
    destruct (K eq_refl) as [_ Hin]. exfalso. apply Hin.
    vm_compute in E. injection E as <-. reflexivity.
Defined.

End ParserMore.

(* ------------------------------------------------------------------ *)
(** ** Products and file information (src/src/deps.cpp) *)

Section DepsMore.
Import StdString.
#[local] Arguments Ascii.eqb : simpl never.
#[local] Arguments String.eqb : simpl never.

Lemma insert_each_id_In (from result : sset) (p : string) :
  In p (Deps.insert_each (fun product => product) from result)
  <-> In p from \/ In p result.
Proof.
  rewrite insert_each_In. split.
  - intros [(x & Hx & ->) | H]; auto.
  - intros [H | H]; eauto.
Qed.

Lemma sset_is_empty_false (s : sset) :
  SSet.is_empty s = false <-> exists x, In x s.
Proof.
  destruct s as [|a s]; simpl; split; try discriminate.
  - intros (x & []).
  - intros _. exists a. now left.
  - reflexivity.
Qed.

Section OneCommand.
Variable c : ParsedCommand.
Variables headers sources : sset.
Hypothesis headers_spec : forall x, In x headers <-> header_input c x.
Hypothesis sources_spec : forall x, In x sources <-> source_input c x.

Lemma side_products_In (explicit : sset) (suffix : string)
      (result : sset) (p : string) :
  In p (if negb (SSet.is_empty explicit) then
          Deps.insert_each (fun product => product) explicit result
        else if negb (SSet.is_empty (get_products c)) then
          Deps.insert_each
            (fun product => FileUtils.replaceSuffix product suffix)
            (get_products c) result
        else
          Deps.insert_each (Deps.stripped_with suffix) sources
            (Deps.insert_each (Deps.stripped_with suffix) headers result))
  <-> In p result \/ side_product c explicit suffix p.
Proof.
  unfold side_product.
  destruct (negb (SSet.is_empty explicit)).
  - rewrite insert_each_id_In. tauto.
  - destruct (negb (SSet.is_empty (get_products c))).
    + rewrite insert_each_In. split.
      * intros [(x & Hx & ->) | H]; eauto.
      * intros [H | (x & Hx & ->)]; eauto.
    + rewrite !insert_each_In. unfold Deps.stripped_with. split.
      * intros [(x & Hx & ->) | [(x & Hx & ->) | H]]; auto.
        -- right. exists x. split; [right; now apply sources_spec | auto].
        -- right. exists x. split; [left; now apply headers_spec | auto].
      * intros [H | (x & [Hx | Hx] & ->)]; auto.
        -- right. left. exists x. split; [now apply headers_spec | auto].
        -- left. exists x. split; [now apply sources_spec | auto].
Qed.

Lemma md_products_In (result : sset) (p : string) :
  In p (Deps.md_products c headers sources result)
  <-> In p result
      \/ (d_md_option_set c || d_qmakedep_option_set c = true
          /\ side_product c (get_deps_products c) (dependency_suffix c) p).
Proof.
  unfold Deps.md_products, dependency_suffix.
  destruct (d_md_option_set c || d_qmakedep_option_set c).
  - rewrite side_products_In. tauto.
  - split; [auto | intros [H | [H _]]; [exact H | discriminate]].
Qed.

Lemma coverage_products_In (result : sset) (p : string) :
  In p (Deps.coverage_products c headers sources result)
  <-> In p result
      \/ (d_coverage_option_set c = true
          /\ side_product c (get_coverage_products c) ".gcno" p).
Proof.
  unfold Deps.coverage_products.
  destruct (d_coverage_option_set c).
  - rewrite side_products_In. tauto.
  - split; [auto | intros [H | [H _]]; [exact H | discriminate]].
Qed.

Lemma dwarf_products_In (result : sset) (p : string) :
  In p (Deps.dwarf_products c sources result)
  <-> In p result
      \/ (d_split_dwarf_option_set c = true /\ dwarf_product c p).
Proof.
  unfold Deps.dwarf_products, dwarf_product.
  destruct (d_split_dwarf_option_set c);
    [| split; [auto | intros [H | [H _]]; [exact H | discriminate]]].
  destruct (negb (SSet.is_empty (get_products c))).
  - destruct (SSet.is_empty sources) eqn:Es; cbn [negb].
    + apply sset_is_empty_true in Es. split; [auto|].
      intros [H | (_ & (s & Hs) & _)]; [exact H|].
      apply sources_spec in Hs. rewrite Es in Hs. contradiction.
    + apply sset_is_empty_false in Es. destruct Es as (s & Hs).
      apply sources_spec in Hs. rewrite insert_each_In. split.
      * intros [(x & Hx & ->) | H]; [right | now left].
        split; [reflexivity|]. split; [now exists s | now exists x].
      * intros [H | (_ & _ & x & Hx & ->)]; [now right | left; eauto].
  - rewrite insert_each_In. unfold Deps.stripped_with. split.
    + intros [(x & Hx & ->) | H]; [right | now left].
      split; [reflexivity|]. exists x. split; [now apply sources_spec|auto].
    + intros [H | (_ & x & Hx & ->)]; [now right | left].
      exists x. split; [now apply sources_spec | auto].
Qed.

End OneCommand.

(** X21.  What [determine_products] returns for a command whose inputs
    are all recognized and one of which products are derived from: a
    file is a product exactly when it is a base product, or -MD or
    -qmakedep is set and it is the dependency file (the names of -MF;
    else the -o names with ".d", or ".u"; else the basenames of the
    inputs with that suffix), or the coverage option is set and it is the
    notes file (the names given; else -o with ".gcno"; else the inputs
    with ".gcno"), or -gsplit-dwarf is set and it is the dwarf file. *)
Theorem determine_products_characterized (c : ParsedCommand) :
  forallb (recognized_input c) (d_inputFiles c) = true ->
  existsb (producing_input c) (d_inputFiles c) = true ->
  exists result,
    Deps.determine_products c = Ret result
    /\ forall p,
        In p result
        <-> is_base_product c p
            \/ (d_md_option_set c || d_qmakedep_option_set c = true
                /\ side_product c (get_deps_products c)
                     (dependency_suffix c) p)
            \/ (d_coverage_option_set c = true
                /\ side_product c (get_coverage_products c) ".gcno" p)
            \/ (d_split_dwarf_option_set c = true /\ dwarf_product c p).
Proof.
  intros Hrec Hex.
  destruct (classify_inputs_accept c _ [] [] [] Hrec)
    as (hs & ss & os & E & Hh & Hs & Ho).
  assert (Hh' : forall x, In x hs <-> header_input c x)
    by (intros x; rewrite Hh; unfold header_input; simpl; tauto).
  assert (Hs' : forall x, In x ss <-> source_input c x)
    by (intros x; rewrite Hs; unfold source_input; simpl; tauto).
  assert (Ho' : forall x, In x os <->
                 In x (d_inputFiles c) /\ is_linker_command c = true
                 /\ Deps.is_object_file x = true)
    by (intros x; rewrite Ho; simpl; tauto).
  unfold Deps.determine_products. rewrite E. cbn [bind].
  rewrite (no_producing_input c _ _ _ _ Hh' Hs' Ho'), Hex. cbn [negb].
  eexists. split; [reflexivity|]. intros p.
  rewrite (dwarf_products_In c ss Hs'),
    (coverage_products_In c hs ss Hh' Hs'),
    (md_products_In c hs ss Hh' Hs'),
    (base_products_spec c hs ss p Hh' Hs' Hex).
  tauto.
Qed.

(** The witness of X21: "gcc -c -MD dir/foo.c -o out/foo.o" produces
    out/foo.o and out/foo.d. *)
Lemma determine_products_characterized_witness :
  exists c,
    Parser.createParsedCommand Example.host Example.env Example.compilers
      ["gcc"; "-c"; "-MD"; "dir/foo.c"; "-o"; "out/foo.o"] "/home" = Ret c
    /\ Deps.determine_products c = Ret ["out/foo.d"; "out/foo.o"]
    /\ exists result,
        Deps.determine_products c = Ret result
        /\ forall p,
            In p result
            <-> is_base_product c p
                \/ (d_md_option_set c || d_qmakedep_option_set c = true
                    /\ side_product c (get_deps_products c)
                         (dependency_suffix c) p)
                \/ (d_coverage_option_set c = true
                    /\ side_product c (get_coverage_products c) ".gcno" p)
                \/ (d_split_dwarf_option_set c = true
                    /\ dwarf_product c p).
Proof.
  eexists. split; [vm_compute; reflexivity|]. split; [reflexivity|].
  match goal with
  | |- exists r, Deps.determine_products ?c = _ /\ _ =>
      apply (determine_products_characterized c)
  end; reflexivity.
Defined.

Lemma collect_products_set (h : Host) (products : list string) :
  forall possibleProducts objectTargets,
    (forall p, In p products -> 2 <= String.length p) ->
    exists targets,
      Deps.collect_products h products possibleProducts objectTargets
      = Ret (Deps.insert_each (normalizePath h) products possibleProducts,
             targets).
Proof.
  induction products as [|product products IH];
    intros acc targets Hall; [simpl; eauto|].
  cbn [Deps.collect_products].
  destruct (substr_checked_long product (Hall product (or_introl eq_refl)))
    as (tail & ->).
  cbn [bind]. apply IH. intros p Hp. apply Hall. now right.
Qed.

Lemma collect_products_targets (h : Host) (products : list string) :
  forall possibleProducts objectTargets,
    (forall p, In p products -> product_name_ok p) ->
    Deps.collect_products h products possibleProducts objectTargets
    = Ret (Deps.insert_each (normalizePath h) products possibleProducts,
           objectTargets ++ filter names_object products).
Proof.
  induction products as [|product products IH];
    intros acc targets Hall.
  - simpl. now rewrite app_nil_r.
  - cbn [Deps.collect_products].
    destruct (Hall product (or_introl eq_refl)) as [Hl Hs].
    unfold substr_checked, size_t_modulus in *.
    rewrite Z.mod_small by lia.
    destruct (Z.gtb_spec (Z.of_nat (String.length product) - 2)
                (Z.of_nat (String.length product))); [lia|].
    cbn [bind].
    rewrite IH by (intros p Hp; apply Hall; now right).
    replace (Z.to_nat (Z.of_nat (String.length product) - 2))
      with (String.length product - 2) by lia.
    cbn [filter]. unfold names_object at 2.
    destruct (String.eqb _ ".o"); [|reflexivity].
    now rewrite <- app_assoc.
Qed.

(** X22.  [get_file_info] for a command that is not a linker command,
    whose products have two characters or more, and for which
    clang-scan-deps gives no answer, runs the dependencies command.  A
    non-zero exit status is thrown as [subprocess_failed_error] with that
    status.  With status 0 the possible products are the normalized
    products, and the dependencies are those of the make rules (read from
    the output, or for xlc from its dependency file), crtbegin.o when
    RECC_DEPS_GLOBAL_PATHS is set, the compiler is clang and its stderr
    names the GCC installation, and the inputs that are auxiliary
    files. *)
Theorem get_file_info_from_make_rules
        (h : Host) (env : Env) (tools : DepsTools)
        (c : ParsedCommand) (products : sset) :
  is_linker_command c = false ->
  Deps.determine_products c = Ret products ->
  (forall p, In p products -> 2 <= String.length p) ->
  (forall target,
      ClangScanDeps_dependencies_for_target tools c target = None) ->
  let r := Subprocess_execute tools (get_dependencies_command c) in
  (d_exitCode r <> 0%Z ->
   Deps.get_file_info h env tools c
   = Throws (SubprocessFailed (d_exitCode r)))
  /\ (d_exitCode r = 0%Z ->
      forall text,
        dependency_rules tools c = Ret text ->
        exists info,
          Deps.get_file_info h env tools c = Ret info
          /\ (forall p,
                In p (d_possibleProducts info)
                <-> exists q, In q products /\ p = normalizePath h q)
          /\ (forall d,
                In d (d_dependencies info)
                <-> In d (MakeRules.dependencies_from_make_rules text
                            (produces_sun_make_rules c))
                    \/ (RECC_DEPS_GLOBAL_PATHS env && is_clang c = true
                        /\ d = Deps.crtbegin_from_clang_v tools
                                 (d_stdErr r)
                        /\ d <> "")
                    \/ (In d (d_inputFiles c)
                        /\ Deps.is_aux_input_file d c = true))).
Proof.
  intros Hl Hp Hall Hscan r.
  destruct (collect_products_set h products [] [] Hall) as (targets & E).
  assert (Hnone :
            match targets with
            | [target] =>
                ClangScanDeps_dependencies_for_target tools c target
            | _ => None
            end = None)
    by (destruct targets as [|t [|]]; auto).
  unfold Deps.get_file_info. rewrite Hl, Hp. cbn [bind].
  rewrite E. cbn [bind]. rewrite Hnone. fold r.
  split.
  - intros Hne. destruct (Z.eqb_spec (d_exitCode r) 0); [contradiction|].
    reflexivity.
  - intros He text Ht. rewrite He. cbn [Z.eqb negb].
    unfold dependency_rules in Ht. fold r in Ht. rewrite Ht. cbn [bind].
    eexists. split; [reflexivity|]. cbn [d_possibleProducts d_dependencies].
    split.
    + intros p. rewrite insert_each_In. simpl. tauto.
    + intros d. rewrite insert_each_id_In, filter_In.
      destruct (RECC_DEPS_GLOBAL_PATHS env && is_clang c).
      * destruct (String.eqb_spec
                    (Deps.crtbegin_from_clang_v tools (d_stdErr r)) "")
          as [Ee | Ene]; cbn [negb].
        -- split; [tauto|]. intros [H | [(_ & -> & Hd) | H]]; try tauto.
        -- rewrite sset_insert_In. split; [|tauto].
           intros [H | [-> | H]]; tauto.
      * split; [tauto|]. intros [H | [(Hf & _) | H]]; try tauto.
        discriminate.
Qed.

(** The witness of X22: "gcc -c foo.c -o foo.o" with a compiler that
    prints the rule "foo.o: foo.c foo.h". *)
Lemma get_file_info_from_make_rules_witness :
  exists c,
    Parser.createParsedCommand Example.host Example.env Example.compilers
      ["gcc"; "-c"; "foo.c"; "-o"; "foo.o"] "/home" = Ret c
    /\ Deps.get_file_info Example.host Example.env Example.deps_tools c
       = Ret {| d_dependencies := ["foo.c"; "foo.h"];
                d_possibleProducts := ["foo.o"] |}
    /\ exists info,
        Deps.get_file_info Example.host Example.env Example.deps_tools c
        = Ret info
        /\ (forall p,
              In p (d_possibleProducts info)
              <-> exists q,
                  In q ["foo.o"]
                  /\ p = normalizePath Example.host q)
        /\ (forall d,
              In d (d_dependencies info)
              <-> In d (MakeRules.dependencies_from_make_rules
                          "foo.o: foo.c foo.h" (produces_sun_make_rules c))
                  \/ (RECC_DEPS_GLOBAL_PATHS Example.env && is_clang c
                      = true
                      /\ d = Deps.crtbegin_from_clang_v Example.deps_tools
                               ""
                      /\ d <> "")
                  \/ (In d (d_inputFiles c)
                      /\ Deps.is_aux_input_file d c = true)).
Proof.
  eexists. split; [vm_compute; reflexivity|]. split; [reflexivity|].
  match goal with
  | |- exists info, Deps.get_file_info _ _ _ ?c = _ /\ _ =>
      apply (proj2 (get_file_info_from_make_rules Example.host Example.env
                      Example.deps_tools c ["foo.o"] eq_refl eq_refl
                      ltac:(intros p [<- | []]; simpl; lia)
                      ltac:(reflexivity))
               eq_refl "foo.o: foo.c foo.h" eq_refl)
  end.
Defined.

(** X23.  When exactly one product of a command that is not a linker
    command ends in ".o" and clang-scan-deps answers for that target,
    [get_file_info] returns its answer as the dependencies, with the
    normalized products: the dependencies command is not consulted, so
    neither its exit status nor its output changes the result. *)
Theorem get_file_info_from_scan
        (h : Host) (env : Env) (tools : DepsTools)
        (c : ParsedCommand) (products : sset)
        (target : string) (dependencies : sset) :
  is_linker_command c = false ->
  Deps.determine_products c = Ret products ->
  (forall p, In p products -> product_name_ok p) ->
  filter names_object products = [target] ->
  ClangScanDeps_dependencies_for_target tools c target
  = Some dependencies ->
  forall execute : list string -> SubprocessResult,
    Deps.get_file_info h env
      {| LinkDeps_get_file_info := LinkDeps_get_file_info tools;
         ClangScanDeps_dependencies_for_target :=
           ClangScanDeps_dependencies_for_target tools;
         Subprocess_execute := execute;
         getFileContents := getFileContents tools;
         search_selected_gcc := search_selected_gcc tools |} c
    = Ret {| d_dependencies := dependencies;
             d_possibleProducts :=
               Deps.insert_each (normalizePath h) products [] |}.
Proof.
  intros Hl Hp Hall Hf Hscan execute.
  unfold Deps.get_file_info. rewrite Hl, Hp. cbn [bind].
  rewrite collect_products_targets by exact Hall.
  cbn [bind app]. rewrite Hf.
  cbn [ClangScanDeps_dependencies_for_target]. now rewrite Hscan.
Qed.

(** The witness of X23: "gcc -c -MD foo.c -o foo.o" has the products
    foo.d and foo.o; clang-scan-deps answers for foo.o, and the
    dependencies command fails. *)
Lemma get_file_info_from_scan_witness :
  exists c,
    Parser.createParsedCommand Example.host Example.env Example.compilers
      ["gcc"; "-c"; "-MD"; "foo.c"; "-o"; "foo.o"] "/home" = Ret c
    /\ Deps.get_file_info Example.host Example.env
         {| LinkDeps_get_file_info :=
              LinkDeps_get_file_info Example.deps_tools;
            ClangScanDeps_dependencies_for_target :=
              fun _ _ => Some ["foo.c"; "foo.h"];
            Subprocess_execute := fun _ =>
              {| d_exitCode := 1; d_stdOut := ""; d_stdErr := "" |};
            getFileContents := getFileContents Example.deps_tools;
            search_selected_gcc :=
              search_selected_gcc Example.deps_tools |} c
       = Ret {| d_dependencies := ["foo.c"; "foo.h"];
                d_possibleProducts :=
                  Deps.insert_each (normalizePath Example.host)
                    ["foo.d"; "foo.o"] [] |}.
Proof.
  eexists. split; [vm_compute; reflexivity|].
  match goal with
  | |- Deps.get_file_info _ _ _ ?c = _ =>
      apply (get_file_info_from_scan Example.host Example.env
               {| LinkDeps_get_file_info :=
                    LinkDeps_get_file_info Example.deps_tools;
                  ClangScanDeps_dependencies_for_target :=
                    fun _ _ => Some ["foo.c"; "foo.h"];
                  Subprocess_execute :=
                    Subprocess_execute Example.deps_tools;
                  getFileContents := getFileContents Example.deps_tools;
                  search_selected_gcc :=
                    search_selected_gcc Example.deps_tools |}
               c ["foo.d"; "foo.o"] "foo.o" ["foo.c"; "foo.h"]
               eq_refl eq_refl)
  end.
  - intros p [<- | [<- | []]]; split; simpl; try lia;
      unfold size_t_modulus; lia.
  - reflexivity.
  - reflexivity.
Defined.

End DepsMore.

(* ------------------------------------------------------------------ *)
(** ** The action and its blobs (src/src/actionbuilder.cpp) *)

Section ActionMore.
Import StdString.
#[local] Arguments Ascii.eqb : simpl never.
#[local] Arguments String.eqb : simpl never.

Lemma Digest_eqb_eq (a b : Proto.Digest) :
  Digest_eqb a b = true <-> a = b.
Proof.
  unfold Digest_eqb. rewrite andb_true_iff, String.eqb_eq, N.eqb_eq.
  destruct a, b; simpl. split.
  - intros [-> ->]. reflexivity.
  - intros [= -> ->]. auto.
Qed.

Lemma blobs_lookup_assign_same (digest : Proto.Digest) (bytes : string)
      (blobs : digest_string_map) :
  blobs_lookup digest (blobs_assign digest bytes blobs) = Some bytes.
Proof.
  induction blobs as [|[d b] blobs IH]; simpl.
  - now rewrite (proj2 (Digest_eqb_eq digest digest) eq_refl).
  - destruct (Digest_eqb d digest) eqn:E; simpl; rewrite E; auto.
Qed.

Lemma blobs_lookup_assign_other (digest other : Proto.Digest)
      (bytes : string) (blobs : digest_string_map) :
  other <> digest ->
  blobs_lookup other (blobs_assign digest bytes blobs)
  = blobs_lookup other blobs.
Proof.
  intros Hne.
  assert (Hf : Digest_eqb digest other = false).
  { destruct (Digest_eqb digest other) eqn:E; [|reflexivity].
    apply Digest_eqb_eq in E. congruence. }
  induction blobs as [|[d b] blobs IH]; simpl.
  - now rewrite Hf.
  - destruct (Digest_eqb d digest) eqn:E; simpl.
    + apply Digest_eqb_eq in E. subst d. now rewrite Hf.
    + now rewrite IH.
Qed.

(** X24.  The blob map that [BuildAction] hands back resolves the
    command digest of the action to the serialized command, and the digest
    is the hash and the length of these bytes; the input root digest is
    the one of the Merkle tree, and every other digest resolves as in the
    blob map that the Merkle tree filled. *)
Theorem BuildAction_command_blob
        (h : Host) (env : Env) (penv : ProcessEnv) (dtools : DepsTools)
        (tools : BuildTools) (command : ParsedCommand) (cwd : string)
        (blobs files : digest_string_map) (read : sset)
        (r : BuildResult) (files' : digest_string_map) :
  ActionBuilder.BuildAction h env penv dtools tools command cwd blobs
    files read = Ret (Some r, files') ->
  let serialized := Proto.serialize_Command (built_command r) in
  let digest := Proto.command_digest (built_action r) in
  blobs_lookup digest (built_blobs r) = Some serialized
  /\ Proto.hash digest = digest_hash tools serialized
  /\ Proto.size_bytes digest = N.of_nat (String.length serialized)
  /\ exists products nestedDirectory workingDirectory,
      ActionBuilder.gather_inputs h env dtools tools command cwd files
      = Ret (Some (products, nestedDirectory, workingDirectory, files'))
      /\ Proto.input_root_digest (built_action r)
         = fst (to_digest tools nestedDirectory blobs)
      /\ forall other,
          other <> digest ->
          blobs_lookup other (built_blobs r)
          = blobs_lookup other
              (snd (to_digest tools nestedDirectory blobs)).
Proof.
  intros H. apply BuildAction_Some in H.
  destruct H as (products & nd & wd & renv & read' & cp & wp
                 & _ & Hg & _ & _ & _ & _ & ->).
  cbn -[Proto.serialize_Command blobs_lookup blobs_assign].
  split; [apply blobs_lookup_assign_same|].
  split; [reflexivity|]. split; [reflexivity|].
  exists products, nd, wd. split; [exact Hg|]. split; [reflexivity|].
  intros other Hne. now apply blobs_lookup_assign_other.
Qed.

(** The witness of X24: the compile command of the example. *)
Lemma BuildAction_command_blob_witness :
  exists r files',
    ActionBuilder.BuildAction Example.host Example.env Example.process_env
      Example.deps_tools Example.build_tools Example.compile_command
      "/home" [] [] [] = Ret (Some r, files')
    /\ blobs_lookup (Proto.command_digest (built_action r))
         (built_blobs r)
       = Some (Proto.serialize_Command (built_command r)).
Proof.
  assert (H : exists r files',
             ActionBuilder.BuildAction Example.host Example.env
               Example.process_env Example.deps_tools Example.build_tools
               Example.compile_command "/home" [] [] []
             = Ret (Some r, files'))
    by (vm_compute; do 2 eexists; reflexivity).
  destruct H as (r & files' & H). exists r, files'.
  split; [exact H|].
  apply (BuildAction_command_blob Example.host Example.env
           Example.process_env Example.deps_tools Example.build_tools
           Example.compile_command "/home" [] [] [] r files' H).
Defined.

(** X25.  [BuildAction] hands back an action only for a compiler
    command, a linker command or under RECC_FORCE_REMOTE, and never with
    a product that begins with a slash: the products it stores and the
    output files of the command are relative, and an output path is
    relative or one of RECC_OUTPUT_DIRECTORIES_OVERRIDE.  For a linker
    command under RECC_LINK_METRICS_ONLY without RECC_FORCE_REMOTE no
    product is stored. *)
Theorem BuildAction_outputs_relative
        (h : Host) (env : Env) (penv : ProcessEnv) (dtools : DepsTools)
        (tools : BuildTools) (command : ParsedCommand) (cwd : string)
        (blobs files : digest_string_map) (read : sset)
        (r : BuildResult) (files' : digest_string_map) :
  ActionBuilder.BuildAction h env penv dtools tools command cwd blobs
    files read = Ret (Some r, files') ->
  is_compiler_command command || is_linker_command command
  || RECC_FORCE_REMOTE env = true
  /\ (forall p, In p (built_products r) -> front_is slash p = false)
  /\ (forall p,
        In p (Proto.output_files (built_command r)) ->
        front_is slash p = false)
  /\ (forall p,
        In p (Proto.output_paths (built_command r)) ->
        front_is slash p = false
        \/ In p (RECC_OUTPUT_DIRECTORIES_OVERRIDE env))
  /\ (RECC_LINK_METRICS_ONLY env && is_linker_command command
      && negb (RECC_FORCE_REMOTE env) = true ->
      built_products r = []).
Proof.
  intros H. apply BuildAction_Some in H.
  destruct H as (products & nd & wd & renv & read' & cp & wp
                 & Hk & _ & Eabs & _ & Hc & _ & ->).
  assert (Hrel : forall p, In p products -> front_is slash p = false).
  { intros p Hp.
    destruct p as [|a p]; [reflexivity|].
    destruct (front_is slash (String a p)) eqn:Ef; [|reflexivity].
    enough (existsb (fun product =>
                       negb (empty product) && front_is slash product)
              products = true) by congruence.
    apply existsb_exists. exists (String a p). now rewrite Ef. }
  unfold ActionBuilder.generateCommandProto,
    ActionBuilder.populateCommandProto in Hc.
  cbn [result_of built_products built_command].
  set (stored := kept_products env command products) in *.
  assert (Hstored : forall p, In p stored -> front_is slash p = false)
    by (subst stored; unfold kept_products;
        destruct (RECC_LINK_METRICS_ONLY env && is_linker_command command
                  && negb (RECC_FORCE_REMOTE env));
        [intros p Hp; exfalso; exact Hp | exact Hrel]).
  assert (Hclear : RECC_LINK_METRICS_ONLY env && is_linker_command command
                   && negb (RECC_FORCE_REMOTE env) = true -> stored = [])
    by (subst stored; unfold kept_products; now intros ->).
  clearbody stored.
  repeat match goal with
         | H : bind _ _ = Ret _ |- _ =>
             apply bind_Ret_inv in H; destruct H as (? & ? & H)
         | H : Ret _ = Ret _ |- _ => injection H as H
         end.
  subst. cbn [Proto.output_files Proto.output_paths].
  split; [exact Hk|].
  split; [exact Hstored|]. split.
  { intros p.
    match goal with
    | |- context [if ?b then _ else _] => destruct b
    end; [intros Hp; exfalso; exact Hp | apply Hstored]. }
  split; [|exact Hclear].
  intros p.
  match goal with
  | |- context [if ?b then _ else _] => destruct b
  end; [|intros Hp; exfalso; exact Hp].
  rewrite in_app_iff. intros [Hp | Hp]; auto.
Qed.

(** The witness of X25: the compile command of the example stores the
    product hello.o. *)
Lemma BuildAction_outputs_relative_witness :
  exists r files',
    ActionBuilder.BuildAction Example.host Example.env Example.process_env
      Example.deps_tools Example.build_tools Example.compile_command
      "/home" [] [] [] = Ret (Some r, files')
    /\ built_products r = ["hello.o"]
    /\ forall p, In p (built_products r) -> front_is slash p = false.
Proof.
  assert (H : exists r files',
             ActionBuilder.BuildAction Example.host Example.env
               Example.process_env Example.deps_tools Example.build_tools
               Example.compile_command "/home" [] [] []
             = Ret (Some r, files')
             /\ built_products r = ["hello.o"])
    by (vm_compute; do 2 eexists; split; reflexivity).
  destruct H as (r & files' & H & Hproducts). exists r, files'.
  split; [exact H|]. split; [exact Hproducts|].
  apply (BuildAction_outputs_relative Example.host Example.env
           Example.process_env Example.deps_tools Example.build_tools
           Example.compile_command "/home" [] [] [] r files' H).
Defined.

End ActionMore.

(* ------------------------------------------------------------------ *)
(** ** The remote environment (src/src/actionbuilder.cpp) *)

Section RemoteEnvMore.
Import StdString.
#[local] Arguments Ascii.eqb : simpl never.
#[local] Arguments String.eqb : simpl never.

Lemma compare_refl (s : string) : String.compare s s = Eq.
Proof.
  pose proof (String.compare_antisym s s) as E.
  destruct (String.compare s s); [reflexivity | discriminate..].
Qed.

Lemma map_lookup_assign_same (key value : string) (m : string_map) :
  map_lookup key (map_assign key value m) = Some value.
Proof.
  induction m as [|[k v] m IH]; simpl.
  - now rewrite String.eqb_refl.
  - destruct (String.compare key k) eqn:E; simpl.
    + apply String.compare_eq_iff in E. subst k.
      now rewrite String.eqb_refl.
    + now rewrite String.eqb_refl.
    + destruct (String.eqb_spec key k) as [-> | _]; [|exact IH].
      rewrite compare_refl in E. discriminate.
Qed.

Lemma map_lookup_assign_other (key other value : string) (m : string_map) :
  other <> key ->
  map_lookup other (map_assign key value m) = map_lookup other m.
Proof.
  intros Hne. apply String.eqb_neq in Hne.
  induction m as [|[k v] m IH]; simpl.
  - now rewrite Hne.
  - destruct (String.compare key k) eqn:E; simpl.
    + apply String.compare_eq_iff in E. subst k. now rewrite Hne.
    + now rewrite Hne.
    + now rewrite IH.
Qed.

Lemma prefix_app_l (p a b : string) :
  String.prefix p a = true -> String.prefix p (a +++ b) = true.
Proof.
  revert a. induction p as [|c p IH]; intros a.
  - intros _. now destruct (a +++ b).
  - destruct a as [|d a]; cbn; [discriminate|].
    destruct (ascii_dec c d); [apply IH | discriminate].
Qed.

Lemma prefix_RECC_key (key value : string) :
  String.prefix "RECC_" (key +++ String "="%char value) = true ->
  String.prefix "RECC_" key = true.
Proof.
  intros H. apply String.prefix_correct in H.
  apply String.prefix_correct. cbn [String.length] in *.
  do 5 (destruct key as [|? key]; cbn [append substring] in *;
        [discriminate H|]; injection H as -> H).
  now destruct key.
Qed.

Lemma populate_app (a b : list string) :
  forall remoteEnv,
    ActionBuilder.populateRemoteEnvWithNonReccVars (a ++ b) remoteEnv
    = (m <- ActionBuilder.populateRemoteEnvWithNonReccVars a remoteEnv ;;
       ActionBuilder.populateRemoteEnvWithNonReccVars b m).
Proof.
  induction a as [|item a IH]; intros m; cbn; [reflexivity|].
  destruct (String.prefix "RECC_" item); [apply IH|].
  destruct (find "="%char item); [apply IH | reflexivity].
Qed.

Lemma populate_throws (env : list string) :
  forall remoteEnv,
    (exists item,
        In item env /\ String.prefix "RECC_" item = false
        /\ find "="%char item = None) ->
    ActionBuilder.populateRemoteEnvWithNonReccVars env remoteEnv
    = Throws RuntimeError.
Proof.
  induction env as [|item env IH]; intros m (bad & Hin & Hp & Hf);
    [destruct Hin|].
  cbn. destruct (String.prefix "RECC_" item) eqn:Ep.
  - apply IH. exists bad. destruct Hin as [-> | Hin]; [congruence | auto].
  - destruct (find "="%char item) eqn:Ef; [|reflexivity].
    apply IH. exists bad. destruct Hin as [-> | Hin]; [congruence | auto].
Qed.

Lemma populate_total (env : list string) :
  forall remoteEnv,
    (forall item,
        In item env -> String.prefix "RECC_" item = false ->
        find "="%char item <> None) ->
    exists m,
      ActionBuilder.populateRemoteEnvWithNonReccVars env remoteEnv = Ret m.
Proof.
  induction env as [|item env IH]; intros m Hok; cbn; [eauto|].
  destruct (String.prefix "RECC_" item) eqn:Ep.
  - apply IH. intros. apply Hok; simpl; auto.
  - destruct (find "="%char item) eqn:Ef.
    + apply IH. intros. apply Hok; simpl; auto.
    + exfalso. apply (Hok item); simpl; auto.
Qed.

(** Entries that do not set [key] leave its value as it was. *)
Lemma populate_untouched (key : string) (env : list string) :
  forall remoteEnv m,
    ActionBuilder.populateRemoteEnvWithNonReccVars env remoteEnv = Ret m ->
    (forall item,
        In item env -> String.prefix "RECC_" item = false ->
        sets_variable key item = false) ->
    map_lookup key m = map_lookup key remoteEnv.
Proof.
  induction env as [|item env IH]; intros m0 m H Hno; cbn in H.
  - now injection H as <-.
  - assert (Hrest : forall item',
               In item' env -> String.prefix "RECC_" item' = false ->
               sets_variable key item' = false)
      by (intros; apply Hno; simpl; auto).
    destruct (String.prefix "RECC_" item) eqn:Ep; [now apply IH|].
    destruct (find "="%char item) as [i|] eqn:Ef; [|discriminate].
    rewrite (IH _ _ H Hrest). apply map_lookup_assign_other.
    intros ->. specialize (Hno item (or_introl eq_refl) Ep).
    destruct (find_Some _ _ _ Ef) as (a & b & Hitem & Hlen & _).
    subst item i. rewrite take_app in Hno. unfold sets_variable in Hno.
    replace (a +++ String "="%char b) with ((a +++ "=") +++ b) in Hno
      by now rewrite append_assoc.
    rewrite prefix_app in Hno. discriminate.
Qed.

(** X26.  [populateRemoteEnvWithNonReccVars] throws
    [std::runtime_error] when an entry of the environment that does not
    begin with "RECC_" has no equals sign.  Otherwise it returns the
    map in which a name that begins with "RECC_", and a name that no
    entry sets, keep the value they had, and in which the name of an
    entry "name=value" maps to the text after the first equals sign of
    the last such entry. *)
Theorem populateRemoteEnv_settings
        (env : list string) (remoteEnv : string_map) :
  ((exists item,
       In item env /\ String.prefix "RECC_" item = false
       /\ find "="%char item = None) ->
   ActionBuilder.populateRemoteEnvWithNonReccVars env remoteEnv
   = Throws RuntimeError)
  /\ ((forall item,
         In item env -> String.prefix "RECC_" item = false ->
         find "="%char item <> None) ->
      exists m,
        ActionBuilder.populateRemoteEnvWithNonReccVars env remoteEnv
        = Ret m
        /\ (forall key,
              String.prefix "RECC_" key = true ->
              map_lookup key m = map_lookup key remoteEnv)
        /\ (forall key,
              (forall item, In item env -> sets_variable key item = false) ->
              map_lookup key m = map_lookup key remoteEnv)
        /\ (forall before key value after,
              env = before ++ (key +++ String "="%char value) :: after ->
              find "="%char key = None ->
              String.prefix "RECC_" key = false ->
              (forall later,
                  In later after -> sets_variable key later = false) ->
              map_lookup key m = Some value)).
Proof.
  split; [apply populate_throws|].
  intros Hok. destruct (populate_total env remoteEnv Hok) as (m & Hm).
  exists m. split; [exact Hm|]. split; [|split].
  - intros key Hkey. apply (populate_untouched key env _ _ Hm).
    intros item Hin Hp.
    destruct (sets_variable key item) eqn:Es; [|reflexivity].
    unfold sets_variable in Es.
    apply String.prefix_correct in Es.
    rewrite <- Hp. symmetry.
    rewrite <- (take_drop (String.length (key +++ "=")) item).
    unfold take. rewrite Es. rewrite append_assoc.
    now apply prefix_app_l.
  - intros key Hno. apply (populate_untouched key env _ _ Hm). auto.
  - intros before key value after -> Hkey Hp Hlater.
    rewrite populate_app in Hm. apply bind_Ret_inv in Hm.
    destruct Hm as (m1 & _ & Hm). cbn in Hm.
    destruct (String.prefix "RECC_" (key +++ String "="%char value))
      eqn:Ep; [apply prefix_RECC_key in Ep; congruence|].
    rewrite (find_app_cons _ _ _ Hkey), take_app, drop_app_cons in Hm.
    rewrite (populate_untouched key after _ _ Hm)
      by (intros; now apply Hlater).
    apply map_lookup_assign_same.
Qed.

(** The witness of X26: PATH is set twice, and RECC_SERVER is left
    out. *)
Lemma populateRemoteEnv_settings_witness :
  exists m,
    ActionBuilder.populateRemoteEnvWithNonReccVars
      ["PATH=/bin"; "RECC_SERVER=localhost"; "A=b=c"; "PATH=/usr/bin"] []
    = Ret m
    /\ m = [("A", "b=c"); ("PATH", "/usr/bin")]
    /\ map_lookup "PATH" m = Some "/usr/bin".
Proof.
  destruct (proj2 (populateRemoteEnv_settings
                     ["PATH=/bin"; "RECC_SERVER=localhost"; "A=b=c";
                      "PATH=/usr/bin"] []))
    as (m & Hm & _ & _ & Hset).
  - intros item [<- | [<- | [<- | [<- | []]]]]; discriminate.
  - exists m. split; [exact Hm|]. split.
    + cbv in Hm. now injection Hm as <-.
    + apply (Hset ["PATH=/bin"; "RECC_SERVER=localhost"; "A=b=c"]
               "PATH" "/usr/bin" []); try reflexivity.
      intros later [].
Defined.

Lemma pieces_between_nonempty (c : ascii) (s : string) :
  pieces_between c s <> [].
Proof.
  destruct s as [|d s]; simpl; [discriminate|].
  destruct (Ascii.eqb c d); [discriminate|].
  destruct (pieces_between c s); discriminate.
Qed.

Lemma pieces_between_none (c : ascii) (s : string) :
  find c s = None -> pieces_between c s = [s].
Proof.
  induction s as [|d s IH]; simpl; [reflexivity|].
  destruct (Ascii.eqb c d); [discriminate|].
  destruct (find c s); [discriminate|]. intros _. now rewrite IH.
Qed.

Lemma pieces_between_app (c : ascii) (a b : string) :
  find c a = None ->
  pieces_between c (a +++ String c b) = a :: pieces_between c b.
Proof.
  induction a as [|d a IH]; simpl.
  - now rewrite Ascii.eqb_refl.
  - destruct (Ascii.eqb c d); [discriminate|].
    destruct (find c a); [discriminate|]. intros _. now rewrite IH.
Qed.

Lemma resolved_pieces_cons (resolve : string -> string) (p : string)
      (rest : list string) :
  rest <> [] ->
  resolved_pieces resolve (p :: rest)
  = (if empty p then "" else resolve p +++ ":")
    +++ resolved_pieces resolve rest.
Proof. destruct rest; [congruence | reflexivity]. Qed.

Lemma resolve_pieces_spec (h : Host) (env : Env) (fuel : nat) :
  forall rest pre pathMapEnv,
    String.length rest < fuel ->
    ActionBuilder.resolve_pieces h env fuel (pre +++ rest)
      (String.length pre) pathMapEnv
    = Ret (pathMapEnv
           +++ resolved_pieces (FileUtils.resolvePathFromPrefixMap h env)
                 (pieces_between ":" rest)).
Proof.
  induction fuel as [|fuel IH]; intros rest pre acc Hfuel; [lia|].
  cbn [ActionBuilder.resolve_pieces]. unfold ActionBuilder.find_from.
  rewrite drop_app.
  destruct (find ":"%char rest) as [i|] eqn:Ef.
  - destruct (find_Some _ _ _ Ef) as (a & b & -> & <- & Ha).
    replace (String.length pre + String.length a - String.length pre)
      with (String.length a) by lia.
    rewrite substring_app_middle.
    replace (pre +++ a +++ String ":"%char b)
      with ((pre +++ a +++ ":") +++ b)
      by (now rewrite !append_assoc).
    replace (String.length pre + String.length a + 1)
      with (String.length (pre +++ a +++ ":"))
      by (rewrite !append_length; simpl; lia).
    rewrite IH by (rewrite append_length in Hfuel; simpl in Hfuel; lia).
    rewrite (pieces_between_app _ _ _ Ha),
      (resolved_pieces_cons _ _ _ (pieces_between_nonempty _ _)).
    f_equal. destruct a; cbn [empty negb];
      now rewrite ?append_assoc, ?append_nil_r.
  - rewrite (pieces_between_none _ _ Ef). cbn [resolved_pieces].
    f_equal. destruct rest; cbn [empty negb]; now rewrite ?append_nil_r.
Qed.

Lemma read_variable_spec (h : Host) (env : Env) (penv : ProcessEnv)
      (remoteEnv : string_map) (envVar : string) :
  ActionBuilder.read_variable h env penv remoteEnv envVar
  = Ret (match getenv penv (c_str envVar) with
         | Some envVal =>
             map_assign envVar (remote_value h env envVar envVal) remoteEnv
         | None => remoteEnv
         end).
Proof.
  unfold ActionBuilder.read_variable, remote_value.
  destruct (getenv penv (c_str envVar)) as [envVal|]; [|reflexivity].
  destruct (SSet.count envVar ActionBuilder.pathLikeEnv
            && negb (empty envVal)); [|reflexivity].
  change envVal with ("" +++ envVal) at 2.
  change 0 with (String.length "").
  rewrite resolve_pieces_spec by lia. reflexivity.
Qed.

Lemma read_variables_spec (h : Host) (env : Env) (penv : ProcessEnv)
      (variables : list string) :
  forall remoteEnv,
  exists m,
    ActionBuilder.read_variables h env penv variables remoteEnv = Ret m
    /\ forall key,
        map_lookup key m
        = match (if SSet.count key variables then getenv penv (c_str key)
                 else None) with
          | Some envVal => Some (remote_value h env key envVal)
          | None => map_lookup key remoteEnv
          end.
Proof.
  induction variables as [|envVar variables IH]; intros m0.
  - exists m0. split; reflexivity.
  - cbn [ActionBuilder.read_variables]. rewrite read_variable_spec.
    cbn [bind].
    destruct (IH (match getenv penv (c_str envVar) with
                  | Some envVal =>
                      map_assign envVar
                        (remote_value h env envVar envVal) m0
                  | None => m0
                  end)) as (m & Hm & Hlookup).
    exists m. split; [exact Hm|]. intros key. rewrite Hlookup.
    cbn [SSet.count].
    destruct (SSet.count key variables) eqn:Ec.
    + rewrite orb_true_r.
      destruct (getenv penv (c_str key)) as [v|] eqn:Eg; [reflexivity|].
      destruct (String.eqb_spec key envVar) as [-> | Hne].
      * now rewrite Eg.
      * destruct (getenv penv (c_str envVar)); [|reflexivity].
        now apply map_lookup_assign_other.
    + rewrite orb_false_r.
      destruct (String.eqb_spec key envVar) as [-> | Hne].
      * destruct (getenv penv (c_str envVar)); [|reflexivity].
        now rewrite map_lookup_assign_same.
      * destruct (getenv penv (c_str envVar)); [|reflexivity].
        now apply map_lookup_assign_other.
Qed.

Lemma map_lookup_absent (key : string) (m : string_map) :
  ~ In key (map fst m) -> map_lookup key m = None.
Proof.
  induction m as [|[k v] m IH]; simpl; [reflexivity|]. intros H.
  destruct (String.eqb_spec key k) as [-> | _]; [tauto|].
  apply IH. tauto.
Qed.

Lemma overrides_lookup (overrides : string_map) :
  forall remoteEnv key,
    NoDup (map fst overrides) ->
    map_lookup key
      (fold_left
         (fun remoteEnv overrideElem =>
            map_assign (fst overrideElem) (snd overrideElem) remoteEnv)
         overrides remoteEnv)
    = match map_lookup key overrides with
      | Some value => Some value
      | None => map_lookup key remoteEnv
      end.
Proof.
  induction overrides as [|[k v] overrides IH]; intros m key Hnd;
    [reflexivity|].
  inversion Hnd as [|? ? Hk Hnd']; subst. cbn [fold_left fst snd].
  rewrite IH by exact Hnd'. cbn [map_lookup].
  destruct (String.eqb_spec key k) as [-> | Hne].
  - now rewrite (map_lookup_absent _ _ Hk), map_lookup_assign_same.
  - destruct (map_lookup key overrides); [reflexivity|].
    now apply map_lookup_assign_other.
Qed.

(** X27.  [prepareRemoteEnv] builds the remote environment from three
    sources, the later one winning: the environment of the process
    without the RECC_ variables (under RECC_PRESERVE_ENV only), the
    variables of RECC_ENV_TO_READ that are set (the default list of the
    compiler when the set is empty and RECC_PRESERVE_ENV is off), and
    RECC_REMOTE_ENV.  A path-like variable that is read and not empty has
    its pieces between colons resolved through the prefix map, without
    the empty pieces. *)
Theorem prepareRemoteEnv_precedence
        (h : Host) (env : Env) (penv : ProcessEnv)
        (command : ParsedCommand) (RECC_ENV_TO_READ : sset)
        (preserved : string_map) :
  NoDup (map fst (RECC_REMOTE_ENV penv)) ->
  preserved_environment penv = Ret preserved ->
  exists remoteEnv,
    ActionBuilder.prepareRemoteEnv h env penv command RECC_ENV_TO_READ
    = Ret (remoteEnv, variables_read penv command RECC_ENV_TO_READ)
    /\ forall key,
        map_lookup key remoteEnv
        = match map_lookup key (RECC_REMOTE_ENV penv) with
          | Some value => Some value
          | None =>
              match (if SSet.count key
                          (variables_read penv command RECC_ENV_TO_READ)
                     then getenv penv (c_str key) else None) with
              | Some envVal => Some (remote_value h env key envVal)
              | None => map_lookup key preserved
              end
          end.
Proof.
  intros Hnd Hp.
  unfold ActionBuilder.prepareRemoteEnv, preserved_environment,
    variables_read in *.
  assert (E : (if RECC_PRESERVE_ENV penv
               then remoteEnv <-
                      ActionBuilder.populateRemoteEnvWithNonReccVars
                        (environ penv) [] ;;
                    Ret (remoteEnv, RECC_ENV_TO_READ)
               else if SSet.is_empty RECC_ENV_TO_READ
                    then Ret ([], ActionBuilder.default_env_to_read command
                                    RECC_ENV_TO_READ)
                    else Ret ([], RECC_ENV_TO_READ))
              = Ret (preserved,
                     if RECC_PRESERVE_ENV penv then RECC_ENV_TO_READ
                     else if SSet.is_empty RECC_ENV_TO_READ
                          then ActionBuilder.default_env_to_read command
                                 RECC_ENV_TO_READ
                          else RECC_ENV_TO_READ)).
  { destruct (RECC_PRESERVE_ENV penv); [now rewrite Hp|].
    injection Hp as <-. now destruct (SSet.is_empty RECC_ENV_TO_READ). }
  rewrite E. cbn [bind].
  match goal with
  | |- context [ActionBuilder.read_variables _ _ _ ?vars ?m0] =>
      destruct (read_variables_spec h env penv vars m0)
        as (m & Hm & Hlookup)
  end.
  rewrite Hm. cbn [bind]. eexists. split; [reflexivity|].
  intros key. rewrite overrides_lookup by exact Hnd.
  now rewrite Hlookup.
Qed.

(** The witness of X27: PATH loses its empty piece and keeps its final
    colon, and LANG has the value of RECC_REMOTE_ENV. *)
Lemma prepareRemoteEnv_precedence_witness :
  exists remoteEnv,
    ActionBuilder.prepareRemoteEnv Example.host Example.env
      Example.process_env Example.compile_command []
    = Ret (remoteEnv,
           variables_read Example.process_env Example.compile_command [])
    /\ map_lookup "PATH" remoteEnv = Some "/usr/bin:/bin:"
    /\ map_lookup "LANG" remoteEnv = Some "C"
    /\ map_lookup "RECC_SERVER" remoteEnv = None.
Proof.
  destruct (prepareRemoteEnv_precedence Example.host Example.env
              Example.process_env Example.compile_command [] [])
    as (m & Hm & Hlookup).
  - repeat constructor. intros H. exact H.
  - reflexivity.
  - exists m. split; [exact Hm|].
    rewrite !Hlookup. repeat split; reflexivity.
Defined.

Lemma insert_not_empty (x : string) (s : sset) :
  SSet.is_empty (SSet.insert x s) = false.
Proof.
  destruct s as [|y s]; simpl; [reflexivity|].
  now destruct (String.compare x y).
Qed.

Lemma default_env_to_read_not_empty (command : ParsedCommand) (s : sset) :
  SSet.is_empty (ActionBuilder.default_env_to_read command s) = false.
Proof.
  unfold ActionBuilder.default_env_to_read.
  cbn [SSet.insert_all fold_left]. apply insert_not_empty.
Qed.

(** X28.  [prepareRemoteEnv] leaves in RECC_ENV_TO_READ the variables it
    has read, so that the default list is chosen by the command of the
    first call: a later call in the same process, for any command,
    returns the same remote environment and the same set. *)
Theorem prepareRemoteEnv_later_calls
        (h : Host) (env : Env) (penv : ProcessEnv)
        (first later : ParsedCommand) (RECC_ENV_TO_READ read : sset)
        (remoteEnv : string_map) :
  ActionBuilder.prepareRemoteEnv h env penv first RECC_ENV_TO_READ
  = Ret (remoteEnv, read) ->
  ActionBuilder.prepareRemoteEnv h env penv later read
  = Ret (remoteEnv, read).
Proof.
  unfold ActionBuilder.prepareRemoteEnv. intros H.
  destruct (RECC_PRESERVE_ENV penv).
  - destruct (ActionBuilder.populateRemoteEnvWithNonReccVars
                (environ penv) []) as [m0| | |]; try discriminate.
    cbn [bind] in *.
    destruct (ActionBuilder.read_variables h env penv RECC_ENV_TO_READ m0)
      as [m| | |] eqn:Er; try discriminate.
    cbn [bind] in H. injection H as <- <-. now rewrite Er.
  - destruct (SSet.is_empty RECC_ENV_TO_READ) eqn:Ee; cbn [bind] in H.
    + destruct (ActionBuilder.read_variables h env penv
                  (ActionBuilder.default_env_to_read first
                     RECC_ENV_TO_READ) []) as [m| | |] eqn:Er;
        try discriminate.
      cbn [bind] in H. injection H as <- <-.
      rewrite default_env_to_read_not_empty. cbn [bind]. now rewrite Er.
    + destruct (ActionBuilder.read_variables h env penv RECC_ENV_TO_READ
                  []) as [m| | |] eqn:Er; try discriminate.
      cbn [bind] in H. injection H as <- <-.
      rewrite Ee. cbn [bind]. now rewrite Er.
Qed.

(** The witness of X28: after the call for "gcc -c hello.c", which
    reads the variables of gcc, the call for a command of no known
    compiler returns the same environment. *)
Lemma prepareRemoteEnv_later_calls_witness :
  exists first,
    Parser.createParsedCommand Example.host Example.env Example.compilers
      ["gcc"; "-c"; "hello.c"] "/home" = Ret first
    /\ is_gcc first = true
    /\ is_gcc Example.compile_command = false
    /\ ActionBuilder.prepareRemoteEnv Example.host Example.env
         Example.process_env Example.compile_command
         (ActionBuilder.default_env_to_read first [])
       = Ret ([("LANG", "C"); ("PATH", "/usr/bin:/bin:")],
              ActionBuilder.default_env_to_read first []).
Proof.
  eexists. split; [vm_compute; reflexivity|].
  split; [reflexivity|]. split; [reflexivity|].
  match goal with
  | |- ActionBuilder.prepareRemoteEnv _ _ _ _
         (ActionBuilder.default_env_to_read ?first _) = _ =>
      apply (prepareRemoteEnv_later_calls Example.host Example.env
               Example.process_env first Example.compile_command [])
  end.
  reflexivity.
Defined.

End RemoteEnvMore.

(* ------------------------------------------------------------------ *)
(** ** The language option of gcc (src/src/parsedcommandfactory.cpp) *)

Section LanguageOption.
Import Parser.
#[local] Arguments Ascii.eqb : simpl never.
#[local] Arguments String.eqb : simpl never.

Lemma parseOptionSetsGccLanguage_marks (h : Host) (env : Env)
      (sc : SupportedCompilers) (c c' : ParsedCommand) (wd : string)
      (tail : list string) :
  d_originalCommand c = "-x" :: tail ->
  (forall language,
      hd_error tail = Some language ->
      SSet.count language (GccSupportedLanguages sc) = false) ->
  parseOptionSetsGccLanguage h env sc c wd "-x" = Ret c' ->
  d_containsUnsupportedOptions c' = true.
Proof.
  intros E Hlang. unfold parseOptionSetsGccLanguage, front, pop_front.
  rewrite E. cbn [bind]. rewrite String.eqb_refl.
  cbn [d_originalCommand set_originalCommand].
  destruct tail as [|language rest].
  - intros [= <-]. reflexivity.
  - rewrite (Hlang language eq_refl). cbn [negb].
    intros H. apply parseGccOption_evolves in H.
    destruct H as (_ & _ & H & _). apply H. reflexivity.
Qed.

(** X29.  A gcc command whose first argument is "-x" is never run
    remotely when the language is not one of GccSupportedLanguages, or
    when "-x" is the last token: whatever follows, the command that
    [createParsedCommand] returns is neither a compiler nor a linker
    command. *)
Theorem unsupported_language_is_local
        (h : Host) (env : Env) (sc : SupportedCompilers)
        (compiler name wd : string) (tail : list string)
        (c : ParsedCommand) :
  commandBasename h sc compiler = Ret name ->
  SSet.count name (Gcc sc) = true ->
  (forall language,
      hd_error tail = Some language ->
      SSet.count language (GccSupportedLanguages sc) = false) ->
  createParsedCommand h env sc (compiler :: "-x" :: tail) wd = Ret c ->
  is_compiler_command c = false /\ is_linker_command c = false.
Proof.
  intros Hname Hgcc Hlang H.
  unfold createParsedCommand, createParsedCommand_in in H.
  apply bind_Ret_inv in H. destruct H as (pc & Hnew & H).
  pose proof (ParsedCommand_new_flags _ _ _ _ _ _ Hnew)
    as (Hcf & Hlf & Huf).
  unfold is_compiler_command, is_linker_command.
  destruct (find_rules (d_compiler pc) (getParsedCommandMap sc))
    as [rules|] eqn:Ef;
    [|injection H as <-; simpl; auto].
  apply bind_Ret_inv in H. destruct H as (pc2 & Hparse & H).
  pose proof (parseCommand_keeps _ _ _ _ _ _ _ Hparse)
    as (Hl2 & _ & _ & _).
  enough (Hfirst : d_containsUnsupportedOptions pc2
                   || Nat.eqb (List.length (d_inputFiles pc2)) 0 = true).
  { rewrite Hfirst in H. injection H as <-. simpl. split; congruence. }
  unfold ParsedCommand_new in Hnew.
  destruct (StdString.empty compiler).
  - injection Hnew as <-. cbn in Hparse. injection Hparse as <-.
    reflexivity.
  - rewrite Hname in Hnew. cbn [bind] in Hnew. rewrite Hgcc in Hnew.
    apply bind_Ret_inv in Hnew. destruct Hnew as (path & _ & Hpc).
    injection Hpc as <-. cbn [d_compiler] in Ef.
    unfold getParsedCommandMap in Ef. cbn [find_rules] in Ef.
    rewrite Hgcc in Ef. injection Ef as <-.
    unfold parseCommand in Hparse.
    cbn [d_originalCommand List.length parseCommand_loop] in Hparse.
    apply bind_Ret_inv in Hparse. destruct Hparse as (c2 & Htoken & Hloop).
    unfold parseToken in Htoken.
    replace (matchCompilerOptions "-x" GccRules)
      with (Some ("-x", fn_parseOptionSetsGccLanguage)) in Htoken
      by (vm_compute; reflexivity).
    cbn [call] in Htoken.
    apply parseOptionSetsGccLanguage_marks with (tail := tail) in Htoken;
      [|reflexivity | exact Hlang].
    apply parseCommand_loop_keeps in Hloop.
    destruct Hloop as (_ & Hkeep & _). now rewrite (Hkeep Htoken).
Qed.

(** The witness of X29: "gcc -x assembler -c foo.s" is no compiler
    command, though it has -c and an input file. *)
Lemma unsupported_language_is_local_witness :
  exists c,
    createParsedCommand Example.host Example.env Example.compilers
      ["gcc"; "-x"; "assembler"; "-c"; "foo.s"] "/home" = Ret c
    /\ d_inputFiles c = ["foo.s"]
    /\ is_compiler_command c = false /\ is_linker_command c = false.
Proof.
  eexists. split; [vm_compute; reflexivity|]. split; [reflexivity|].
  match goal with
  | |- is_compiler_command ?c = false /\ _ =>
      apply (unsupported_language_is_local Example.host Example.env
               Example.compilers "gcc" "gcc" "/home"
               ["assembler"; "-c"; "foo.s"] c)
  end.
  - reflexivity.
  - reflexivity.
  - intros language [= <-]. reflexivity.
  - vm_compute. reflexivity.
Defined.

End LanguageOption.
